(** * A hybrid array/hash table: shallow embedding and verification

    The development follows [HashWrapper.h] (keys, hashing, the registry of
    hash functions for user types) and [Table.h] (the table with an array
    segment and a hash segment whose collision chains live inside the
    segment itself).

    Conventions of the embedding.
    - [Hash] is [unsigned long long]: a [Z] reduced modulo [2^64].
    - [Integer] is [int64_t]: a [Z]; conversions to unsigned are written out.
    - [Number] is [double]: an IEEE binary64 value of [SpecFloat.spec_float]
      (precision 53, maximal exponent 1024).
    - A [Node*] always points into the hash segment (or is [nullptr]), so it
      is an [option nat]: the index of the slot.
    - A [std::shared_ptr<Value>] is an [option Value], [None] being the null
      pointer; a [Value] is a [std::any], which may itself hold nothing.
    - Undefined behaviour, uncaught exceptions and loops that never end are
      outcomes of the [result] type. *)

From Stdlib Require Import ZArith Lia Bool String Ascii.
From Stdlib Require Import Floats.SpecFloat.
From stdpp Require Import base tactics option list numbers.

Local Open Scope Z_scope.

(** ** Outcomes *)

Inductive error : Type :=
| NullDeref        (* [->] through a null pointer *)
| OutOfBounds      (* access outside an array *)
| NoHashFunction   (* [std::runtime_error]: no hash function registered *)
| BadCast          (* [std::bad_cast] from [HashWrapper::into] *)
| AssertFailed     (* a failed [assert] *)
| UseAfterFree     (* access through a pointer to a freed array *)
| Diverges         (* a loop that revisits a state it cannot leave *)
| OutOfFuel.       (* the recursion budget of the model was too small *)

Inductive result (A : Type) : Type :=
| Ok (a : A)
| Err (e : error).
Arguments Ok {A} a.
Arguments Err {A} e.

#[global] Instance result_ret : MRet result := fun A a => Ok a.
#[global] Instance result_bind : MBind result := fun A B f m =>
  match m with
  | Ok a => f a
  | Err e => Err e
  end.

Definition is_Ok {A} (r : result A) : bool :=
  match r with Ok _ => true | Err _ => false end.

(** [l !! i] for an access the source performs unchecked. *)
Definition at_index {A} (l : list A) (i : nat) : result A :=
  match l !! i with
  | Some a => Ok a
  | None => Err OutOfBounds
  end.

(** ** Machine integers *)

Definition Hash := Z.
Definition Integer := Z.

Definition wrap64 (x : Z) : Z := x mod 2 ^ 64.

(** ** User types that implement [IHash]

    [Holder<T>] exists for every [T] derived from [IHash]; a type is known
    at run time by its [std::type_index].  The payloads of all such types
    are gathered in one type, the type index telling them apart. *)

Class IHashTypes : Type := {
  type_index : Type;
  type_index_eq :: EqDecision type_index;
  Payload : Type;
  (** [T::hash()] *)
  IHash_hash : type_index → Payload → Hash;
  (** [T::operator==] *)
  IHash_eqb : type_index → Payload → Payload → bool;
}.

Section KeyModel.
Context `{U : IHashTypes}.

(** *** [HashWrapper] *)

Record HashWrapper : Type := mkHashWrapper {
  hw_type : type_index;   (* [inner->type()] *)
  hw_inner : Payload;     (* [inner], the held value *)
  hw_hash : Hash;         (* [hash], 0 until computed *)
}.

(** The converting constructor [HashWrapper(T value)]. *)
Definition HashWrapper_new (T : type_index) (value : Payload) : HashWrapper :=
  {| hw_type := T; hw_inner := value; hw_hash := 0 |}.

(** [HashWrapper::into<T>] *)
Definition into (T : type_index) (v : HashWrapper) : result Payload :=
  if decide (T = hw_type v) then Ok (hw_inner v) else Err BadCast.

(** [HashWrapper::equals], through [Holder<T>::equals]. *)
Definition HashWrapper_equals (a b : HashWrapper) : bool :=
  if decide (hw_type a = hw_type b)
  then IHash_eqb (hw_type a) (hw_inner a) (hw_inner b)
  else false.

(** *** The registry [hash_functions] *)

Definition Registry : Type := type_index → option (HashWrapper → result Hash).

Definition no_hash_functions : Registry := fun _ => None.

Definition register_hash (T : type_index) (reg : Registry) : Registry :=
  fun ty =>
    if decide (ty = T)
    then Some (fun v => x ← into T v; Ok (IHash_hash T x))
    else reg ty.

(** [get_hash]: returns the hash and the wrapper with its cache filled. *)
Definition get_hash (reg : Registry) (v : HashWrapper)
  : result (Hash * HashWrapper) :=
  if negb (hw_hash v =? 0) then Ok (hw_hash v, v)
  else match reg (hw_type v) with
       | Some f =>
           h ← f v;
           Ok (h, {| hw_type := hw_type v; hw_inner := hw_inner v; hw_hash := h |})
       | None => Err NoHashFunction
       end.

(** *** [Number] *)

Definition Number := spec_float.

Definition prec : Z := 53.
Definition emax : Z := 1024.

Definition isnan (x : Number) : bool :=
  match x with S754_nan => true | _ => false end.

Definition isinf (x : Number) : bool :=
  match x with S754_infinity _ => true | _ => false end.

(** [frexp]: the fraction in [0.5, 1) and the power of two; zero, the
    infinities and NaN are returned as they are (the power is then 0 for
    zero and unspecified otherwise, taken as 0). *)
Definition frexp (n : Number) : Number * Z :=
  match n with
  | S754_finite _ _ _ => SFfrexp prec emax n
  | _ => (n, 0)
  end.

(** [-(double)std::numeric_limits<int>::min()], that is [2^31]. *)
Definition two_31 : Number := S754_finite false 1 31.

(** Conversion of a [double] to an integer, which truncates.  For a negative
    value the conversion to [unsigned long long] is taken modulo [2^64], as
    the x86-64 compilers do it. *)
Definition trunc (x : Number) : Z :=
  match x with
  | S754_finite s m e =>
      let a := if 0 <=? e then Z.pos m * 2 ^ e else Z.pos m / 2 ^ (- e) in
      if s then - a else a
  | _ => 0
  end.

(** *** [Key] *)

(** The tagged union; the last constructor is tag [H] of the source. *)
Inductive Key : Type :=
| INT (i : Integer)
| NUM (n : Number)
| STR (s : string)
| PTR (p : Z)
| HW (h : HashWrapper).

Definition hash_INT (i : Integer) : Hash :=
  if 0 <=? i then i else Z.lnot i.

Definition hash_NUM (n : Number) : Hash :=
  let '(fr, power) := frexp n in
  let tail := SFmul prec emax fr two_31 in
  if isnan tail || isinf tail then 0
  else wrap64 (trunc tail + power).

Definition hash_PTR (p : Z) : Hash := p.

(** A [char] of the string as the integer it converts to ([char] is signed). *)
Definition char_value (c : ascii) : Z :=
  let n := Z.of_N (N_of_ascii c) in
  if n <? 128 then n else n - 256.

Fixpoint hash_STR_from (hash : Hash) (s : string) : Hash :=
  match s with
  | EmptyString => hash
  | String c s' =>
      hash_STR_from
        (Z.lxor hash
           (wrap64 (wrap64 (Z.shiftl hash 5) + Z.shiftr hash 2 + char_value c)))
        s'
  end.

Definition hash_STR (s : string) : Hash := hash_STR_from 1829732 s.

Definition hash_H (reg : Registry) (h : HashWrapper) : result (Hash * HashWrapper) :=
  get_hash reg h.

(** [Key::operator==] *)
Definition Key_eqb (a b : Key) : bool :=
  match a, b with
  | INT i, INT j => i =? j
  | NUM n, NUM m => SFeqb n m
  | STR s, STR s' => String.eqb s s'
  | PTR p, PTR q => p =? q
  | HW h, HW h' => HashWrapper_equals h h'
  | _, _ => false
  end.

(** [Key::hash]: the hash, and the key as the call leaves it (the wrapped
    value of an [HW] key keeps the hash it computed). *)
Definition Key_hash (reg : Registry) (k : Key) : result (Hash * Key) :=
  match k with
  | INT i => Ok (hash_INT i, k)
  | NUM n => Ok (hash_NUM n, k)
  | STR s => Ok (hash_STR s, k)
  | PTR p => Ok (hash_PTR p, k)
  | HW h => '(x, h') ← hash_H reg h; Ok (x, HW h')
  end.

End KeyModel.

(** ** The table *)

(** [std::any]: a value that may hold nothing.  What it holds is not looked
    at by the table; an integer stands for it. *)
Inductive any : Type :=
| any_empty
| any_of (x : Z).

Definition has_value (a : any) : bool :=
  match a with any_empty => false | any_of _ => true end.

Definition Value := any.

Definition MAX_BIT : nat := 64.

Section TableModel.
Context `{U : IHashTypes}.

(** The global [hash_functions], as it stands while the table is used. *)
Variable hash_functions : Registry.

(** A slot of the hash segment.  [Node()] leaves [vacancy_next]
    uninitialised; it is never read before [free] or [Node(key, value)] has
    written it, and is taken as null. *)
Record Node : Type := mkNode {
  key : option Key;
  value : option Value;
  next : option nat;
  vacancy_next : option nat;
}.

(** [Node(key, value)], from two shared pointers. *)
Definition Node_of_ptrs (k : option Key) (v : option Value) : Node :=
  {| key := k; value := v; next := None; vacancy_next := None |}.

(** The same for a key and a value at hand. *)
Definition Node_of (k : Key) (v : Value) : Node :=
  Node_of_ptrs (Some k) (Some v).

(** [Node()].  The constructor sets [key], [value] and [next] and leaves
    [vacancy_next] uninitialised; [None] stands here for what the field
    then holds.  The code reads the field of a node that holds a value,
    in [get_free_pos], and copies it along with a node that a [next]
    pointer leads to, in [erase]; such nodes were built by
    [Node(key, value)] or left by [free], which both set the field. *)
Definition Node_default : Node :=
  {| key := None; value := None; next := None; vacancy_next := None |}.

Definition set_next (nx : option nat) (n : Node) : Node :=
  {| key := key n; value := value n; next := nx; vacancy_next := vacancy_next n |}.

Definition set_vacancy_next (vn : option nat) (n : Node) : Node :=
  {| key := key n; value := value n; next := next n; vacancy_next := vn |}.

(** The state of a [Table].  [resizes] is not a field of the source: it
    counts the calls of [resize] on this object, which is what tells whether
    the raw pointer [array1] taken inside [resize] still points to the
    array of [new_table]. *)
Record Table : Type := mkTable {
  hash : list Node;
  array : list (option Value);
  vacancy_head : option nat;
  array_size_log2 : nat;
  hash_size_log2 : nat;
  last_free : nat;
  resizes : nat;
}.

Definition set_hash (h : list Node) (t : Table) : Table :=
  {| hash := h; array := array t; vacancy_head := vacancy_head t;
     array_size_log2 := array_size_log2 t; hash_size_log2 := hash_size_log2 t;
     last_free := last_free t; resizes := resizes t |}.

Definition set_array (a : list (option Value)) (t : Table) : Table :=
  {| hash := hash t; array := a; vacancy_head := vacancy_head t;
     array_size_log2 := array_size_log2 t; hash_size_log2 := hash_size_log2 t;
     last_free := last_free t; resizes := resizes t |}.

Definition set_vacancy_head (vh : option nat) (t : Table) : Table :=
  {| hash := hash t; array := array t; vacancy_head := vh;
     array_size_log2 := array_size_log2 t; hash_size_log2 := hash_size_log2 t;
     last_free := last_free t; resizes := resizes t |}.

Definition set_last_free (lf : nat) (t : Table) : Table :=
  {| hash := hash t; array := array t; vacancy_head := vacancy_head t;
     array_size_log2 := array_size_log2 t; hash_size_log2 := hash_size_log2 t;
     last_free := lf; resizes := resizes t |}.

(** [1 << hash_size_log2] and [1 << array_size_log2]: the powers of two,
    as the shift in [int] gives them for the logarithms up to 30 that the
    constructor accepts. *)
Definition hash_size (t : Table) : Z := Z.shiftl 1 (Z.of_nat (hash_size_log2 t)).
Definition array_size (t : Table) : Z := Z.shiftl 1 (Z.of_nat (array_size_log2 t)).

(** The table that [Table(array_size_log2, hash_size_log2)] builds: each
    segment has [1 << log2] slots, which is the power of two as long as
    the logarithm is at most 30 (see [Table_ctor]). *)
Definition Table_new (array_size_log2 hash_size_log2 : nat) : Table :=
  {| hash := replicate (2 ^ hash_size_log2)%nat Node_default;
     array := replicate (2 ^ array_size_log2)%nat None;
     vacancy_head := None;
     array_size_log2 := array_size_log2;
     hash_size_log2 := hash_size_log2;
     last_free := (2 ^ hash_size_log2 - 1)%nat;
     resizes := 0%nat |}.

(** The constructor [Table(array_size_log2, hash_size_log2)] as a caller
    meets it.  The two lengths are [1 << log2] computed in [int]: with a
    logarithm of 31 the length is negative and [new] throws, beyond 31 the
    shift is undefined.  [new] also throws when the memory does not
    suffice: [room a h] says whether it suffices for an array of [a] slots
    and a hash segment of [h] nodes.  [None] stands for all three, no
    table is built. *)
Definition Table_ctor (room : nat → nat → bool)
    (array_size_log2 hash_size_log2 : nat) : option Table :=
  if (array_size_log2 <=? 30)%nat && (hash_size_log2 <=? 30)%nat
     && room (2 ^ array_size_log2)%nat (2 ^ hash_size_log2)%nat
  then Some (Table_new array_size_log2 hash_size_log2)
  else None.

(** [main_pos]: the index of the slot [key->hash() & (hash_size() - 1)].
    The hash that [key->hash()] leaves in the wrapper of the caller's key
    is not kept here: the key goes on as it was passed, and its hash is
    computed again where the code would read the field.  Under one
    registry the two keys have the same main position and are equal to
    the same keys. *)
Definition main_pos (t : Table) (k : Key) : result nat :=
  '(h, _) ← Key_hash hash_functions k;
  Ok (Z.to_nat (Z.land h (hash_size t - 1))).

Definition node_empty (n : Node) : bool :=
  match value n with None => true | Some _ => false end.

(** [is_empty(node)] for a pointer [node]. *)
Definition is_empty (t : Table) (node : option nat) : result bool :=
  match node with
  | None => Ok true
  | Some i => n ← at_index (hash t) i; Ok (node_empty n)
  end.

(** The test [key->type() == INT && key->item() < array_size()], the
    comparison being unsigned. *)
Definition in_array_part (t : Table) (k : Key) : option Integer :=
  match k with
  | INT i => if wrap64 i <? array_size t then Some i else None
  | _ => None
  end.

(** [*n->key == *k] for a node that holds a value. *)
Definition node_key_eqb (n : Node) (k : Key) : result bool :=
  match key n with
  | None => Err NullDeref
  | Some k' => Ok (Key_eqb k' k)
  end.

(** *** [get_free_pos] *)

(** The first loop: drop the nodes of the vacancy list that are in use. *)
Fixpoint prune_vacancy (fuel : nat) (t : Table) : result (option nat * Table) :=
  match vacancy_head t with
  | None => Ok (None, t)
  | Some i =>
      n ← at_index (hash t) i;
      if node_empty n then Ok (Some i, t)
      else match fuel with
           | O => Err Diverges
           | S fuel' =>
               prune_vacancy fuel'
                 (set_vacancy_head (vacancy_next n)
                    (set_hash (<[i := set_vacancy_next None n]> (hash t)) t))
           end
  end.

(** The second loop: move [last_free] down to a slot without a value. *)
Fixpoint scan_free (h : list Node) (last_free : nat) : result (option nat * nat) :=
  n ← at_index h last_free;
  if node_empty n then Ok (Some last_free, last_free)
  else match last_free with
       | O => Ok (None, O)
       | S lf => scan_free h lf
       end.

Definition get_free_pos (t : Table) : result (option nat * Table) :=
  '(r, t1) ← prune_vacancy (S (length (hash t))) t;
  match r with
  | Some i => Ok (Some i, t1)
  | None =>
      '(r', lf) ← scan_free (hash t1) (last_free t1);
      Ok (r', set_last_free lf t1)
  end.

(** *** [query] and [erase] *)

(** The loop that follows [next] while the node holds a value and its key
    differs from the one sought; [erase] runs it with [last] one node
    behind.  It ends with the final [mp] and [last].  A walk longer than
    the segment is on a cycle and never ends. *)
Fixpoint find (fuel : nat) (h : list Node) (k : Key) (mp last : option nat)
  : result (option nat * option nat) :=
  match mp with
  | None => Ok (None, last)
  | Some i =>
      n ← at_index h i;
      if node_empty n then Ok (mp, last)
      else
        same ← node_key_eqb n k;
        if (same : bool) then Ok (mp, last)
        else match fuel with
             | O => Err Diverges
             | S fuel' => find fuel' h k (next n) mp
             end
  end.

Definition query (t : Table) (k : Key) : result (option Value) :=
  match in_array_part t k with
  | Some i => at_index (array t) (Z.to_nat i)
  | None =>
      mp ← main_pos t k;
      '(mp', _) ← find (length (hash t)) (hash t) k (Some mp) None;
      match mp' with
      | None => Ok None
      | Some i => n ← at_index (hash t) i; Ok (value n)
      end
  end.

(** [free(node)] *)
Definition free (t : Table) (node : nat) : result Table :=
  _ ← at_index (hash t) node;
  Ok (set_vacancy_head (Some node)
        (set_hash
           (<[node := {| key := None; value := None; next := None;
                         vacancy_next := vacancy_head t |}]> (hash t)) t)).

Definition erase (t : Table) (k : Key) : result Table :=
  match in_array_part t k with
  | Some i =>
      _ ← at_index (array t) (Z.to_nat i);
      Ok (set_array (<[Z.to_nat i := None]> (array t)) t)
  | None =>
      mp0 ← main_pos t k;
      '(mp', last) ← find (length (hash t)) (hash t) k (Some mp0) None;
      match mp' with
      | None => Ok t
      | Some mp =>
          n ← at_index (hash t) mp;
          match next n, last with
          | None, None => free t mp
          | Some nx, None =>
              nn ← at_index (hash t) nx;
              free (set_hash (<[mp := nn]> (hash t)) t) nx
          | _, Some l =>
              ln ← at_index (hash t) l;
              free (set_hash (<[l := set_next (next n) ln]> (hash t)) t) mp
          end
      end
  end.

(** *** Loops over index ranges *)

Fixpoint foldM {A S : Type} (body : A → S → result S) (l : list A) (s : S)
  : result S :=
  match l with
  | [] => Ok s
  | a :: l' => s' ← body a s; foldM body l' s'
  end.

(** [for (i = lo; i < hi; i++) body] *)
Definition for_range {S : Type} (lo hi : nat) (body : nat → S → result S) (s : S)
  : result S :=
  foldM body (seq lo (hi - lo)) s.

(** *** [resize] and [recompute_size]

    Both reach [insert] again (on [new_table]), so they take it as [ins];
    [insert] below closes the recursion. *)

(** The assignment [array1[i] = v] inside [resize], where [array1] is the
    raw pointer read from [new_table.array] at the start: once [new_table]
    has itself been resized the pointer is stale. *)
Definition array1_store (nt : Table) (i : Z) (v : option Value) : result Table :=
  if negb (resizes nt =? 0)%nat then Err UseAfterFree
  else if (i <? 0) || (Z.of_nat (length (array nt)) <=? i) then Err OutOfBounds
  else Ok (set_array (<[Z.to_nat i := v]> (array nt)) nt).

(** The body of the first loop of [resize]: the slots that both arrays
    have are moved over. *)
Definition resize_move_step (t : Table) (i : nat) (nt : Table) : result Table :=
  v ← at_index (array t) i;
  array1_store nt (Z.of_nat i) v.

(** The body of the second loop: the rest of the old array goes through
    [insert]. *)
Definition resize_array_step (ins : Table → Key → Value → result Table)
    (t : Table) (i : nat) (nt : Table) : result Table :=
  slot ← at_index (array t) i;
  match slot with
  | None => Err NullDeref
  | Some a => if has_value a then ins nt (INT (Z.of_nat i)) a else Ok nt
  end.

(** The body of the third loop, over the hash segment; the comparison
    with [1 << new_array_size_log2] is between signed integers. *)
Definition resize_hash_step (ins : Table → Key → Value → result Table)
    (t : Table) (new_array_size : Z) (i : nat) (nt : Table) : result Table :=
  n ← at_index (hash t) i;
  match value n with
  | None => Ok nt
  | Some v =>
      match key n with
      | None => Err NullDeref
      | Some (INT x) =>
          if x <? new_array_size then array1_store nt x (Some v)
          else ins nt (INT x) v
      | Some k => ins nt k v
      end
  end.

Definition resize_with (ins : Table → Key → Value → result Table)
    (t : Table) (new_array_size_log2 new_hash_size_log2 : nat) : result Table :=
  let new_table := Table_new new_array_size_log2 new_hash_size_log2 in
  if (new_hash_size_log2 <? 1)%nat then Err AssertFailed
  else
    let new_array_size := Z.shiftl 1 (Z.of_nat new_array_size_log2) in
    let boundary := Z.to_nat (Z.min (array_size t) new_array_size) in
    nt1 ← for_range 0 boundary (resize_move_step t) new_table;
    nt2 ← for_range boundary (Z.to_nat (array_size t))
            (resize_array_step ins t) nt1;
    nt3 ← for_range 0 (Z.to_nat (hash_size t))
            (resize_hash_step ins t new_array_size) nt2;
    Ok {| hash := hash nt3; array := array nt3;
          vacancy_head := vacancy_head nt3;
          array_size_log2 := new_array_size_log2;
          hash_size_log2 := new_hash_size_log2;
          last_free := last_free nt3;
          resizes := S (resizes t) |}.

(** [bit(x)]: the position of the highest bit set, [63 - clz(x)].  Both
    calls have [x >= 1]. *)
Definition bit (x : Z) : nat := Z.to_nat (Z.log2 x).

(** The lambda [push_into_counter]. *)
Definition push_into_counter (i : Z) (counter : list Z) : list Z :=
  if 1 <=? i then alter Z.succ (bit i) counter else counter.

(** The body of the first loop of [recompute_size], which runs over the
    array from index 1. *)
Definition count_array_step (t : Table) (i : nat) (s : list Z * Z)
  : result (list Z * Z) :=
  let '(counter, hash_part) := s in
  slot ← at_index (array t) i;
  match slot with
  | Some a =>
      if has_value a
      then Ok (push_into_counter (Z.of_nat i) counter, hash_part + 1)
      else Ok (counter, hash_part)
  | None => Ok (counter, hash_part)
  end.

Definition count_array (t : Table) (s : list Z * Z) : result (list Z * Z) :=
  for_range 1 (Z.to_nat (array_size t)) (count_array_step t) s.

(** The body of the second loop, which runs over the hash segment. *)
Definition count_hash_step (t : Table) (i : nat) (s : list Z * Z)
  : result (list Z * Z) :=
  let '(counter, hash_part) := s in
  n ← at_index (hash t) i;
  if node_empty n then Ok (counter, hash_part)
  else match key n with
       | None => Err NullDeref
       | Some (INT x) => Ok (push_into_counter x counter, hash_part + 1)
       | Some _ => Ok (counter, hash_part + 1)
       end.

Definition count_hash (t : Table) (s : list Z * Z) : result (list Z * Z) :=
  for_range 0 (Z.to_nat (hash_size t)) (count_hash_step t) s.

(** The third loop: [(total, new_array_size_log2, array_part)] after the
    bit lengths [i, i+1, ...] of the list have been added. *)
Fixpoint choose_array_size (counter : list Z) (i : nat) (s : Z * nat * Z)
  : Z * nat * Z :=
  match counter with
  | [] => s
  | c :: counter' =>
      let '(total, new_array_size_log2, array_part) := s in
      let total := total + c in
      choose_array_size counter' (S i)
        (if Z.shiftl 1 (Z.of_nat i) <? total
         then (total, S i, total)
         else (total, new_array_size_log2, array_part))
  end.

(** What [recompute_size] passes to [resize].  The counters count slots of
    the two segments and are taken exactly, as integers that do not
    overflow; [array_part] never exceeds [hash_part]. *)
Definition new_sizes (t : Table) : result (nat * nat) :=
  s1 ← count_array t (replicate MAX_BIT 0, 2);
  '(counter, hash_part) ← count_hash t s1;
  let '(_, new_array_size_log2, array_part) :=
    choose_array_size (take (Nat.min MAX_BIT 31) counter) 0 (1, 0%nat, 0) in
  let hash_part := hash_part - array_part in
  Ok (new_array_size_log2, Nat.max 1 (bit hash_part + 1)).

Definition recompute_size_with (ins : Table → Key → Value → result Table)
    (t : Table) : result Table :=
  '(new_array_size_log2, new_hash_size_log2) ← new_sizes t;
  resize_with ins t new_array_size_log2 new_hash_size_log2.

(** *** [insert] *)

(** The loop [while (first != mp && first)] of the last branch of [insert],
    which ends with [last]. *)
Fixpoint find_last (fuel : nat) (h : list Node) (mp : nat) (first last : option nat)
  : result (option nat) :=
  match first with
  | None => Ok last
  | Some i =>
      if (i =? mp)%nat then Ok last
      else
        n ← at_index h i;
        match fuel with
        | O => Err Diverges
        | S fuel' => find_last fuel' h mp (next n) first
        end
  end.

(** The branch of [insert] for an occupant that is at its main position:
    the new node goes into the free slot, right behind the occupant. *)
Definition splice_behind (t : Table) (mp free : nat) (k : Key) (v : Value)
  : result Table :=
  let h := <[free := Node_of k v]> (hash t) in
  n ← at_index h mp;
  let h := alter (set_next (next n)) free h in
  Ok (set_hash (alter (set_next (Some free)) mp h) t).

(** The branch for an occupant that belongs to another chain, which starts
    at [home]: the free slot is filled from [last], the node the walk from
    [home] stopped behind, and linked behind it; the new entry takes the
    main position. *)
Definition relocate_occupant (t : Table) (mp home free : nat) (k : Key) (v : Value)
  : result Table :=
  last ← find_last (length (hash t)) (hash t) mp (Some home) None;
  match last with
  | None => Err AssertFailed
  | Some l =>
      ln ← at_index (hash t) l;
      let h := <[free := Node_of_ptrs (key ln) (value ln)]> (hash t) in
      n ← at_index h mp;
      let h := alter (set_next (next n)) free h in
      let h := alter (set_next (Some free)) l h in
      Ok (set_hash (<[mp := Node_of k v]> h) t)
  end.

(** The collision branch once a free slot is at hand. *)
Definition insert_at_free (t : Table) (mp free : nat) (k : Key) (v : Value)
  : result Table :=
  n ← at_index (hash t) mp;
  occupant ← match key n with Some k' => Ok k' | None => Err NullDeref end;
  home ← main_pos t occupant;
  if (home =? mp)%nat then splice_behind t mp free k v
  else relocate_occupant t mp home free k v.

(** Whether [insert] writes into the main position: the slot holds no value
    or holds the key itself. *)
Definition overwrites (n : Node) (k : Key) : result bool :=
  if node_empty n then Ok true else node_key_eqb n k.

Fixpoint insert (fuel : nat) (t : Table) (k : Key) (v : Value) : result Table :=
  match fuel with
  | O => Err OutOfFuel
  | S fuel' =>
      match in_array_part t k with
      | Some i =>
          _ ← at_index (array t) (Z.to_nat i);
          Ok (set_array (<[Z.to_nat i := Some v]> (array t)) t)
      | None =>
          mp ← main_pos t k;
          n ← at_index (hash t) mp;
          same ← overwrites n k;
          if (same : bool) then Ok (set_hash (<[mp := Node_of k v]> (hash t)) t)
          else
            '(free_pos, t) ← get_free_pos t;
            match free_pos with
            | None =>
                t ← recompute_size_with (insert fuel') t;
                insert fuel' t k v
            | Some free => insert_at_free t mp free k v
            end
      end
  end.

Definition recompute_size (fuel : nat) (t : Table) : result Table :=
  recompute_size_with (insert fuel) t.

Definition resize (fuel : nat) (t : Table)
    (new_array_size_log2 new_hash_size_log2 : nat) : result Table :=
  resize_with (insert fuel) t new_array_size_log2 new_hash_size_log2.

End TableModel.

(** ** The types of the repository

    [Int] is the one class derived from [IHash]; [register_hashes] installs
    its hash function. *)

Inductive repo_type : Type := Int.

#[global] Instance repo_type_eq : EqDecision repo_type.
Proof. solve_decision. Defined.

#[global] Instance repo_types : IHashTypes := {|
  type_index := repo_type;
  Payload := Z;
  IHash_hash := fun _ inner => if 0 <=? inner then inner else Z.lnot inner;
  IHash_eqb := fun _ a b => a =? b;
|}.

Definition register_hashes : Registry := register_hash Int no_hash_functions.

(** ** Runs on concrete tables *)

Module Runs.

Definition reg := register_hashes.

(** A script of calls on a table, as a caller would make them. *)
Inductive call : Type :=
| Insert (k : Key) (v : Value)
| Erase (k : Key).

Definition run_call (fuel : nat) (c : call) (t : Table) : result Table :=
  match c with
  | Insert k v => insert reg fuel t k v
  | Erase k => erase reg t k
  end.

Definition run (fuel : nat) (calls : list call) : result Table :=
  foldM (run_call fuel) calls (Table_new 0 1).

(** A slot that holds the integer key [k] with the value [v]. *)
Definition entry (k v : Z) (nx : option nat) : Node :=
  {| key := Some (INT k); value := Some (any_of v); next := nx;
     vacancy_next := None |}.

(** After [insert(16, 1)], [insert(32, 2)], [insert(48, 3)]: the third call
    has resized the hash segment to 8 slots; 48 and 32 hang behind 16. *)
Definition table_16_32_48 : Table :=
  {| hash := [entry 16 1 (Some 6%nat); Node_default; Node_default; Node_default;
              Node_default; Node_default;
              entry 48 3 (Some 7%nat); entry 32 2 None];
     array := [None]; vacancy_head := None;
     array_size_log2 := 0; hash_size_log2 := 3; last_free := 6; resizes := 1 |}.

(** The same table after [insert(23, 4)]. *)
Definition table_16_32_48_23 : Table :=
  {| hash := [entry 16 1 (Some 6%nat); Node_default; Node_default; Node_default;
              Node_default; entry 48 3 None;
              entry 48 3 (Some 5%nat); entry 23 4 None];
     array := [None]; vacancy_head := None;
     array_size_log2 := 0; hash_size_log2 := 3; last_free := 5; resizes := 1 |}.

(** After [insert(1, 1)], [insert(3, 2)]: 3 hangs behind 1. *)
Definition table_1_3 : Table :=
  {| hash := [entry 3 2 None; entry 1 1 (Some 0%nat)];
     array := [None]; vacancy_head := None;
     array_size_log2 := 0; hash_size_log2 := 1; last_free := 0; resizes := 0 |}.

(** After [insert(-1, 1)], [insert(-2, 2)]. *)
Definition table_negative : Table :=
  {| hash := [entry (-1) 1 None; entry (-2) 2 None];
     array := [None]; vacancy_head := None;
     array_size_log2 := 0; hash_size_log2 := 1; last_free := 1; resizes := 0 |}.

(** After [insert(1, 1)], [insert(3, 2)], [insert(2, 3)], which made the
    array four slots long, then [erase(2)], [erase(3)], [insert(100, 4)],
    [insert(101, 5)]. *)
Definition table_with_holes : Table :=
  {| hash := [entry 100 4 None; entry 101 5 None];
     array := [None; Some (any_of 1); None; None]; vacancy_head := None;
     array_size_log2 := 2; hash_size_log2 := 1; last_free := 1; resizes := 1 |}.

(** After [insert(16, 1)], [insert(32, 2)]. *)
Definition table_16_32 : Table :=
  {| hash := [entry 16 1 (Some 1%nat); entry 32 2 None];
     array := [None]; vacancy_head := None;
     array_size_log2 := 0; hash_size_log2 := 1; last_free := 1; resizes := 0 |}.

End Runs.

(** ** Predicates on keys, registries and tables *)

Section Predicates.
Context `{U : IHashTypes}.

Definition nan : Number := S754_nan.

(** User types whose hash agrees with their equality. *)
Definition hash_respects_eq : Prop :=
  ∀ T a b, IHash_eqb T a b = true → IHash_hash T a = IHash_hash T b.

(** A registry all of whose entries were installed by [register_hash]. *)
Definition registered_only (reg : Registry) : Prop :=
  ∀ T f, reg T = Some f →
    ∀ v, hw_type v = T → f v = Ok (IHash_hash T (hw_inner v)).

(** The field [hash] of a wrapper is 0 or the hash that [get_hash] stored. *)
Definition cache_ok (k : Key) : Prop :=
  match k with
  | HW h => hw_hash h = 0 ∨ hw_hash h = IHash_hash (hw_type h) (hw_inner h)
  | _ => True
  end.


(** Every node that holds a value has a key. *)
Definition keys_present (h : list Node) : Prop :=
  ∀ i n, h !! i = Some n → node_empty n = false → is_Some (key n).

(** [chain_from h p l]: following [next] from the pointer [p] visits the
    slots [l] and then reaches the null pointer. *)
Inductive chain_from (h : list Node) : option nat → list nat → Prop :=
| chain_end : chain_from h None []
| chain_step (i : nat) (n : Node) (l : list nat) :
    h !! i = Some n → chain_from h (next n) l → chain_from h (Some i) (i :: l).

(** Two nodes that differ at most in [vacancy_next]. *)
Definition node_sim (a b : Node) : Prop :=
  key a = key b ∧ value a = value b ∧ next a = next b.

(** Two hash segments with the same keys, values and chains. *)
Definition hash_sim (h1 h2 : list Node) : Prop := Forall2 node_sim h1 h2.

(** Two tables that agree on all but the hash segment, the vacancy list and
    the scan cursor. *)
Definition same_frame (t1 t2 : Table) : Prop :=
  array t1 = array t2 ∧
  array_size_log2 t1 = array_size_log2 t2 ∧
  hash_size_log2 t1 = hash_size_log2 t2 ∧
  resizes t1 = resizes t2.

(** The lengths of the two segments are what the two logarithms say. *)
Definition sized (t : Table) : Prop :=
  length (array t) = (2 ^ array_size_log2 t)%nat ∧
  length (hash t) = (2 ^ hash_size_log2 t)%nat ∧
  (array_size_log2 t ≤ 31)%nat.

(** No Integer key from the range of the array part is in the hash
    segment. *)
Definition array_keys_not_in_hash (t : Table) : Prop :=
  ∀ i n x, hash t !! i = Some n → node_empty n = false →
    key n = Some (INT x) → ¬ (0 ≤ x < array_size t).

(** *** What [recompute_size] counts

    The indices from [i] on of the array slots that hold a value (the list
    [a] being the array from slot [i] on). *)
Fixpoint live_indices (i : nat) (a : list (option Value)) : list Z :=
  match a with
  | [] => []
  | slot :: a' =>
      match slot with
      | Some x => if has_value x then Z.of_nat i :: live_indices (S i) a'
                  else live_indices (S i) a'
      | None => live_indices (S i) a'
      end
  end.

(** The nodes of the hash segment that hold a value. *)
Definition hash_live (h : list Node) : list Node :=
  filter (λ n, node_empty n = false) h.

Definition int_key (n : Node) : option Z :=
  match key n with
  | Some (INT x) => Some x
  | _ => None
  end.

(** The Integer keys in the table, array slot 0 left out. *)
Definition integer_keys (t : Table) : list Z :=
  live_indices 1 (drop 1 (array t)) ++ omap int_key (hash_live (hash t)).

(** The number of entries in the table, array slot 0 left out. *)
Definition live_count (t : Table) : Z :=
  Z.of_nat (length (live_indices 1 (drop 1 (array t))) +
            length (hash_live (hash t))).

(** One, for key 0, plus the number of Integer keys from 1 to below [b]. *)
Definition counted (t : Table) (b : Z) : Z :=
  1 + Z.of_nat (length (filter (λ x, 1 ≤ x < b) (integer_keys t))).

(** The histogram after the keys [xs] have been pushed into it. *)
Definition push_all (xs : list Z) (counter : list Z) : list Z :=
  foldl (λ c x, push_into_counter x c) counter xs.

(** The number of keys from 1 on whose highest bit is bit [b]. *)
Definition with_bit (xs : list Z) (b : nat) : Z :=
  Z.of_nat (length (filter (λ x, 1 ≤ x ∧ bit x = b) xs)).

(** One plus the first [i] entries of a histogram [D]. *)
Fixpoint prefix (D : nat → Z) (i : nat) : Z :=
  match i with
  | O => 1
  | S j => prefix D j + D j
  end.

(** The same count as the specification words it: the live Integer keys
    with a value below [b], whatever is in slot 0. *)
Definition live_integer_keys (t : Table) : list Z :=
  live_indices 0 (array t) ++ omap int_key (hash_live (hash t)).

Definition live_below (t : Table) (b : Z) : Z :=
  Z.of_nat (length (filter (λ x, x < b) (live_integer_keys t))).

(** *** The table that [resize] fills *)

(** 1 for a node with a value, 0 for one without. *)
Definition weight (n : Node) : nat := if node_empty n then 0%nat else 1%nat.

(** Every slot above the scan cursor holds a value. *)
Definition cursor_ok (t : Table) : Prop :=
  (last_free t < length (hash t))%nat ∧
  ∀ j, (last_free t < j < length (hash t))%nat →
    ∃ n, hash t !! j = Some n ∧ node_empty n = false.

(** The state of [new_table] inside [resize(na, nh)] after at most [c]
    entries went through its [insert]: it was never resized, nothing was
    ever erased from it, and at most [c] of its slots are taken. *)
Definition filling (na nh c : nat) (nt : Table) : Prop :=
  sized nt ∧ array_size_log2 nt = na ∧ hash_size_log2 nt = nh ∧
  resizes nt = 0%nat ∧ vacancy_head nt = None ∧ cursor_ok nt ∧
  (length (hash_live (hash nt)) ≤ c)%nat ∧
  array_keys_not_in_hash nt.

(** The nodes of the old hash segment that [resize] passes to [insert]:
    those with a value whose key is not an Integer below the new array
    size. *)
Definition goes_to_hash (new_array_size : Z) (n : Node) : bool :=
  match value n, key n with
  | Some _, Some (INT x) => negb (x <? new_array_size)
  | Some _, _ => true
  | None, _ => false
  end.

(** [h'] is [h] after an [insert] of the key [k] that did not resize:
    the taken slots are still taken, at most one more is, and the keys in
    it are those of [h] and [k]. *)
Definition grown_by (k : Key) (h h' : list Node) : Prop :=
  length h' = length h ∧
  (∀ j n, h !! j = Some n → node_empty n = false →
     ∃ n', h' !! j = Some n' ∧ node_empty n' = false) ∧
  (length (hash_live h') ≤ S (length (hash_live h)))%nat ∧
  (∀ j n', h' !! j = Some n' → node_empty n' = false →
     key n' = Some k ∨
     ∃ j0 n0, h !! j0 = Some n0 ∧ node_empty n0 = false ∧ key n0 = key n').

(** A pair of key and value is stored in the hash segment. *)
Definition stored (h : list Node) (k : option Key) (v : Value) : Prop :=
  ∃ i n, h !! i = Some n ∧ key n = k ∧ value n = Some v.

End Predicates.

(** ** [NodeReference]

    A [NodeReference] is a key together with a pointer to its table; its
    operators work on that table, which is the state passed here.  The
    class is private to [Table]: a caller gets a reference from
    [Table::operator[]] only. *)

Section ReferenceModel.
Context `{U : IHashTypes}.

Variable hash_functions : Registry.

(** [NodeReference::operator=]: the [std::any] made from [rhs] is inserted
    under the key, unless it holds nothing: then the key is erased. *)
Definition NodeReference_assign (fuel : nat) (t : Table) (k : Key) (rhs : Value)
  : result Table :=
  if negb (has_value rhs) then erase hash_functions t k
  else insert hash_functions fuel t k rhs.

(** [Key(const Key&)]: the tag is copied and the payload is assigned to
    the member of the union that the tag names.  In the new key no member
    has been constructed: for an integer, a number and a pointer the
    assignment is the copy; for a string and for a wrapper it is
    [operator=] on an object that does not exist
    ([HashWrapper::operator=] deletes [inner] first), which is undefined:
    [None]. *)
Definition Key_copy (k : Key) : option Key :=
  match k with
  | INT _ | NUM _ | PTR _ => Some k
  | STR _ | HW _ => None
  end.

(** [table[key] = rhs]: [Table::operator[]] makes the reference from a
    copy of the key, [make_shared<Key>(key)], and [operator=] works on the
    table through it. *)
Definition subscript_assign (fuel : nat) (t : Table) (k : Key) (rhs : Value)
  : option (result Table) :=
  match Key_copy k with
  | Some k' => Some (NodeReference_assign fuel t k' rhs)
  | None => None
  end.

End ReferenceModel.

(** ** More predicates on keys and tables *)

Section MorePredicates.
Context `{U : IHashTypes}.

(** Laws of the [operator==] of the user types. *)
Definition eq_reflexive : Prop := ∀ T a, IHash_eqb T a a = true.

Definition eq_symmetric : Prop := ∀ T a b, IHash_eqb T a b = IHash_eqb T b a.

Definition eq_transitive : Prop :=
  ∀ T a b c, IHash_eqb T a b = true → IHash_eqb T b c = true →
    IHash_eqb T a c = true.

(** The integer of an Integer key is an [int64_t]. *)
Definition is_int64 (k : Key) : Prop :=
  match k with
  | INT i => - 2 ^ 63 ≤ i < 2 ^ 63
  | _ => True
  end.

(** The node holds a value under a key that [operator==] holds equal to
    [k]. *)
Definition holds_key (k : Key) (n : Node) : Prop :=
  node_empty n = false ∧ ∃ k', key n = Some k' ∧ Key_eqb k' k = true.

(** The pair of key and value that a node stores, if it holds a value. *)
Definition entry_of (n : Node) : option (option Key * Value) :=
  match value n with
  | Some v => Some (key n, v)
  | None => None
  end.

(** The pairs stored in a hash segment, in the order of the slots. *)
Definition entries (h : list Node) : list (option Key * Value) :=
  omap entry_of h.

(** A chain on which a node without a value has no successor, and on
    which at most one node holds a key equal to [k]. *)
Definition proper_chain (h : list Node) (k : Key) (l : list nat) : Prop :=
  (∀ i n, i ∈ l → h !! i = Some n → node_empty n = true → next n = None) ∧
  (∀ i j ni nj, i ∈ l → j ∈ l → h !! i = Some ni → h !! j = Some nj →
     holds_key k ni → holds_key k nj → i = j).

(** The pointers of a node point into a segment of [len] slots or are
    null: [next] in every node, [vacancy_next] in a node that holds a
    value.  Nothing is said of [vacancy_next] in a node without a value:
    [Node()] leaves it uninitialised, and [get_free_pos] does not read
    it there. *)
Definition node_links_ok (len : nat) (n : Node) : Prop :=
  (∀ j, next n = Some j → (j < len)%nat) ∧
  (node_empty n = false → ∀ j, vacancy_next n = Some j → (j < len)%nat).

(** Every pointer that the table reads points into the hash segment: the
    pointers of the nodes, the head of the vacancy list and the scan
    cursor. *)
Definition links_in_range (t : Table) : Prop :=
  Forall (node_links_ok (length (hash t))) (hash t) ∧
  (∀ j, vacancy_head t = Some j → (j < length (hash t))%nat) ∧
  (last_free t < length (hash t))%nat.

(** An outcome that is not a failed [assert], not an access through the
    stale pointer [array1], and not a recursion budget of the model that
    ran out. *)
Definition sound_outcome {A : Type} (r : result A) : Prop :=
  r ≠ Err AssertFailed ∧ r ≠ Err UseAfterFree ∧ r ≠ Err OutOfFuel.

End MorePredicates.

(** ** Tables whose chains are as the design has them *)

Section Chained.
Context `{U : IHashTypes}.

Variable hash_functions : Registry.

(** Slot [j] of the hash segment holds the value [v] under the key [k]. *)
Definition stores (h : list Node) (j : nat) (k : Key) (v : Value) : Prop :=
  ∃ n, h !! j = Some n ∧ key n = Some k ∧ value n = Some v.

(** [l] is the chain that starts at slot [s], and all its nodes hold a
    value under a key whose main position is [s]. *)
Definition chain_of (t : Table) (s : nat) (l : list nat) : Prop :=
  chain_from (hash t) (Some s) l ∧
  ∀ i, i ∈ l → ∃ k v, stores (hash t) i k v ∧ main_pos hash_functions t k = Ok s.

(** The hash segment is made of chains, one for each main position in use:
    a node with a value has a key, a node without a value has no
    successor, every node with a value is on the chain that starts at the
    main position of its key, and no two nodes hold equal keys. *)
Definition well_chained (t : Table) : Prop :=
  keys_present (hash t) ∧
  (∀ j n, hash t !! j = Some n → node_empty n = true → next n = None) ∧
  (∀ j k v, stores (hash t) j k v →
     cache_ok k ∧
     ∃ s l, main_pos hash_functions t k = Ok s ∧ chain_of t s l ∧ j ∈ l) ∧
  (∀ i j ki kj vi vj, stores (hash t) i ki vi → stores (hash t) j kj vj →
     Key_eqb ki kj = true → i = j).

End Chained.

(** ** More sample tables *)

Module Samples.
Import Runs.

(** After [insert(1, 1)], [insert(3, 2)], [insert(2, 3)], [insert(100, 4)],
    [insert(101, 5)]: the array segment has four slots, and the two slots
    of the hash segment are taken. *)
Definition table_1_2_3_100_101 : Table :=
  {| hash := [entry 100 4 None; entry 101 5 None];
     array := [None; Some (any_of 1); Some (any_of 3); Some (any_of 2)];
     vacancy_head := None;
     array_size_log2 := 2; hash_size_log2 := 1; last_free := 1; resizes := 1 |}.

End Samples.

(** * Properties *)

(** ** The outcome monad *)

Lemma bind_Ok {A B} (m : result A) (f : A → result B) (b : B) :
  m ≫= f = Ok b → ∃ a, m = Ok a ∧ f a = Ok b.
Proof. destruct m as [a|e]; simpl; [eauto | discriminate]. Qed.

Lemma bind_Ok_l {A B} (a : A) (f : A → result B) : Ok a ≫= f = f a.
Proof. reflexivity. Qed.

Lemma at_index_Ok {A} (l : list A) (i : nat) (a : A) :
  at_index l i = Ok a ↔ l !! i = Some a.
Proof.
  unfold at_index. destruct (l !! i); split; intros E; congruence.
Qed.

Lemma at_index_Some {A} (l : list A) (i : nat) (a : A) :
  l !! i = Some a → at_index l i = Ok a.
Proof. apply at_index_Ok. Qed.

Lemma at_index_lt {A} (l : list A) (i : nat) (a : A) :
  at_index l i = Ok a → (i < length l)%nat.
Proof. rewrite at_index_Ok. apply lookup_lt_Some. Qed.

(** Splits a hypothesis [x ← m; k = Ok b] into the two runs. *)
Tactic Notation "bind_inv" hyp(H) "as" simple_intropattern(a) ident(E) :=
  apply bind_Ok in H; destruct H as (a & E & H).

(** ** Keys *)

Section KeyFacts.
Context `{U : IHashTypes}.

Lemma SFeqb_nan_l (n : Number) : SFeqb nan n = false.
Proof. reflexivity. Qed.

Lemma SFeqb_nan_r (n : Number) : SFeqb n nan = false.
Proof. destruct n; reflexivity. Qed.

Lemma Key_eqb_nan_l (k : Key) : Key_eqb (NUM nan) k = false.
Proof. destruct k; reflexivity. Qed.

Lemma Key_eqb_nan_r (k : Key) : Key_eqb k (NUM nan) = false.
Proof. destruct k as [| n | | |]; try reflexivity. apply SFeqb_nan_r. Qed.

(** Two numbers that compare equal are the same number or two zeros. *)
Lemma SFeqb_true (n m : Number) :
  SFeqb n m = true →
  n = m ∨ ∃ s s', n = S754_zero s ∧ m = S754_zero s'.
Proof.
  unfold SFeqb.
  destruct n as [s | s | | s p e], m as [s' | s' | | s' p' e']; simpl;
    try discriminate;
    try (intros _; right; eauto; fail);
    try (destruct s; discriminate);
    try (destruct s'; discriminate).
  - destruct s, s'; first [discriminate | intros _; left; reflexivity].
  - destruct s, s'; try discriminate;
      destruct (e ?= e')%Z eqn:Ee; try discriminate;
      apply Z.compare_eq in Ee; subst e';
      destruct (Pos.compare_cont Eq p p') eqn:Ep; try discriminate;
      apply Pos.compare_eq in Ep; subst p'; intros _; left; reflexivity.
Qed.

Lemma hash_NUM_zero (s : bool) : hash_NUM (S754_zero s) = 0.
Proof. destruct s; reflexivity. Qed.

Lemma hash_NUM_eqb (n m : Number) :
  SFeqb n m = true → hash_NUM n = hash_NUM m.
Proof.
  intros E. destruct (SFeqb_true n m E) as [-> | (s & s' & -> & ->)].
  - reflexivity.
  - rewrite !hash_NUM_zero. reflexivity.
Qed.

Lemma registered_only_empty : registered_only no_hash_functions.
Proof. intros T f E. discriminate. Qed.

Lemma registered_only_register (T : type_index) (reg : Registry) :
  registered_only reg → registered_only (register_hash T reg).
Proof.
  intros Hreg T' f E v Hv. unfold register_hash in E.
  destruct (decide (T' = T)) as [-> | Hne].
  - injection E as <-. unfold into. rewrite Hv.
    destruct (decide (T = T)); [reflexivity | contradiction].
  - eauto.
Qed.

Lemma get_hash_value (reg : Registry) (h : HashWrapper) (x : Hash) (h' : HashWrapper) :
  registered_only reg → cache_ok (HW h) →
  get_hash reg h = Ok (x, h') →
  x = IHash_hash (hw_type h) (hw_inner h).
Proof.
  intros Hreg Hc. unfold get_hash.
  destruct (hw_hash h =? 0) eqn:E0; simpl.
  - destruct (reg (hw_type h)) as [f|] eqn:Ef; [ | discriminate].
    rewrite (Hreg _ _ Ef h eq_refl). simpl. congruence.
  - apply Z.eqb_neq in E0. destruct Hc as [Hc | Hc]; [contradiction | ].
    congruence.
Qed.

(** A second call of [get_hash] returns what the first one returned. *)
Lemma get_hash_again (reg : Registry) (h : HashWrapper) (x : Hash) (h' : HashWrapper) :
  get_hash reg h = Ok (x, h') → get_hash reg h' = Ok (x, h').
Proof.
  unfold get_hash at 1.
  destruct (hw_hash h =? 0) eqn:E0; simpl.
  - destruct (reg (hw_type h)) as [f|] eqn:Ef; [ | discriminate].
    destruct (f h) as [y|] eqn:Efh; simpl; [ | discriminate].
    intros [= <- <-]. unfold get_hash. simpl.
    destruct (y =? 0) eqn:Ey; simpl; [ | reflexivity].
    apply Z.eqb_eq in Ey. subst y. apply Z.eqb_eq in E0.
    rewrite Ef. destruct h as [T i c]. simpl in *. subst c.
    rewrite Efh. reflexivity.
  - intros [= <- <-]. unfold get_hash. rewrite E0. reflexivity.
Qed.

Lemma Key_hash_again (reg : Registry) (k : Key) (x : Hash) (k' : Key) :
  Key_hash reg k = Ok (x, k') → Key_hash reg k' = Ok (x, k').
Proof.
  destruct k as [i | n | s | p | h]; simpl; try (intros [= <- <-]; reflexivity).
  intros E. bind_inv E as [y h'] E0. injection E as <- <-.
  simpl. unfold hash_H in *. rewrite (get_hash_again _ _ _ _ E0). reflexivity.
Qed.



(** The key that [Key::hash] leaves is equal to the same keys as the key
    before the call: [operator==] does not look at the field [hash]. *)
Lemma Key_eqb_hashed (reg : Registry) (k : Key) (x : Hash) (k' : Key) :
  Key_hash reg k = Ok (x, k') →
  ∀ a, Key_eqb k' a = Key_eqb k a ∧ Key_eqb a k' = Key_eqb a k.
Proof.
  destruct k as [i | n | s | p | h]; simpl; try (intros [= <- <-]; auto).
  intros E. bind_inv E as [y h'] E0. injection E as <- <-.
  assert (Hsame : hw_type h' = hw_type h ∧ hw_inner h' = hw_inner h).
  { unfold hash_H, get_hash in E0. destruct (negb (hw_hash h =? 0)).
    - injection E0 as <- <-. auto.
    - destruct (reg (hw_type h)) as [f | ]; [ | discriminate].
      destruct (f h); simpl in E0; [ | discriminate]. injection E0 as <- <-. auto. }
  destruct Hsame as (Ht & Hi).
  intros a. destruct a as [ | | | | b]; simpl; auto.
  unfold HashWrapper_equals. rewrite Ht, Hi. auto.
Qed.

End KeyFacts.

Section HashDeterminism.
Context `{U : IHashTypes}.

Lemma Key_hash_value (reg : Registry) (k : Key) (x : Hash) (k' : Key) :
  registered_only reg → cache_ok k →
  Key_hash reg k = Ok (x, k') →
  x = match k with
      | INT i => hash_INT i
      | NUM n => hash_NUM n
      | STR s => hash_STR s
      | PTR p => hash_PTR p
      | HW h => IHash_hash (hw_type h) (hw_inner h)
      end.
Proof.
  intros Hreg Hc. destruct k as [i | n | s | p | h]; simpl;
    try (intros [= <- <-]; reflexivity).
  intros E. bind_inv E as [y h'] E0. injection E as <- <-.
  eapply get_hash_value; eauto.
Qed.


End HashDeterminism.

Lemma repo_types_hash_respects_eq : hash_respects_eq.
Proof. intros T a b E. apply Z.eqb_eq in E. subst b. reflexivity. Qed.

Lemma register_hashes_registered_only : registered_only register_hashes.
Proof. apply registered_only_register, registered_only_empty. Qed.



(** ** Updates of the hash segment *)

Section HashUpdates.
Context `{U : IHashTypes}.

Lemma hash_live_cons (n : Node) (h : list Node) :
  length (hash_live (n :: h)) = (weight n + length (hash_live h))%nat.
Proof.
  unfold hash_live, weight. rewrite filter_cons.
  destruct (node_empty n); [rewrite decide_False by discriminate; reflexivity | ].
  rewrite decide_True by reflexivity. reflexivity.
Qed.

Lemma hash_live_cons_eq (n : Node) (h : list Node) :
  hash_live (n :: h) = if node_empty n then hash_live h else n :: hash_live h.
Proof.
  unfold hash_live. rewrite filter_cons.
  destruct (node_empty n); [rewrite decide_False by discriminate; reflexivity | ].
  rewrite decide_True by reflexivity. reflexivity.
Qed.

Lemma hash_live_app (h1 h2 : list Node) :
  length (hash_live (h1 ++ h2))
  = (length (hash_live h1) + length (hash_live h2))%nat.
Proof. unfold hash_live. rewrite list.filter_app, length_app. reflexivity. Qed.

(** Writing a node into a slot changes the number of taken slots by the
    difference of the weights. *)
Lemma hash_live_insert (h : list Node) (i : nat) (old n : Node) :
  h !! i = Some old →
  (length (hash_live (<[i := n]> h)) + weight old
   = length (hash_live h) + weight n)%nat.
Proof.
  intros Hi. pose proof (lookup_lt_Some _ _ _ Hi) as Hlt.
  rewrite insert_take_drop by assumption.
  rewrite <- (take_drop_middle h i old Hi) at 3.
  rewrite !hash_live_app, !hash_live_cons. lia.
Qed.

Lemma weight_set_next (nx : option nat) (n : Node) : weight (set_next nx n) = weight n.
Proof. reflexivity. Qed.

Lemma alter_as_insert {A} (f : A → A) (l : list A) (i : nat) (old : A) :
  l !! i = Some old → alter f i l = <[i := f old]> l.
Proof.
  intros Hi. apply list_eq. intros j. destruct (decide (j = i)) as [-> | Hj].
  - rewrite list_lookup_alter_eq, Hi.
    rewrite list_lookup_insert_eq by (eapply lookup_lt_Some; eauto). reflexivity.
  - rewrite list_lookup_alter_ne, list_lookup_insert_ne by auto. reflexivity.
Qed.

Lemma alter_outside {A} (f : A → A) (l : list A) (i : nat) :
  l !! i = None → alter f i l = l.
Proof.
  intros Hi. apply list_eq. intros j. destruct (decide (j = i)) as [-> | Hj].
  - rewrite list_lookup_alter_eq, Hi. reflexivity.
  - rewrite list_lookup_alter_ne by auto. reflexivity.
Qed.

Lemma hash_live_alter_set_next (h : list Node) (i : nat) (nx : option nat) :
  length (hash_live (alter (set_next nx) i h)) = length (hash_live h).
Proof.
  destruct (h !! i) as [old | ] eqn:Hi.
  - pose proof (hash_live_insert h i old (set_next nx old) Hi) as E.
    rewrite weight_set_next in E. rewrite (alter_as_insert _ _ _ _ Hi). lia.
  - rewrite alter_outside by assumption. reflexivity.
Qed.

(** When every slot holds a value the count is the length. *)
Lemma hash_live_full (h : list Node) :
  (∀ j, (j < length h)%nat → ∃ n, h !! j = Some n ∧ node_empty n = false) →
  length (hash_live h) = length h.
Proof.
  induction h as [ | n h IH]; intros Hall; [reflexivity | ].
  rewrite hash_live_cons. cbn [length].
  destruct (Hall 0%nat ltac:(simpl; lia)) as (n' & [= <-] & He).
  unfold weight. rewrite He. rewrite IH; [reflexivity | ].
  intros j Hj. apply (Hall (S j)). simpl. lia.
Qed.

Lemma hash_live_replicate_default (m : nat) :
  hash_live (replicate m Node_default) = [].
Proof.
  induction m as [ | m IH]; [reflexivity | ].
  simpl. unfold hash_live in *. rewrite filter_cons, decide_False by discriminate.
  assumption.
Qed.

Lemma hash_live_le (h : list Node) : (length (hash_live h) ≤ length h)%nat.
Proof. apply length_filter. Qed.

End HashUpdates.

(** ** The table: walks along chains *)

Section TableFacts.
Context `{U : IHashTypes}.
Variable reg : Registry.

Lemma node_key_eqb_nan (n : Node) (b : bool) :
  node_key_eqb n (NUM nan) = Ok b → b = false.
Proof.
  unfold node_key_eqb. destruct (key n); [ | discriminate].
  rewrite Key_eqb_nan_r. congruence.
Qed.

(** The walk for a NaN key stops at the null pointer or at a node without
    a value. *)
Lemma find_nan (fuel : nat) (h : list Node) (mp last r l : option nat) :
  find fuel h (NUM nan) mp last = Ok (r, l) →
  ∀ i, r = Some i → ∃ n, h !! i = Some n ∧ node_empty n = true.
Proof.
  revert mp last. induction fuel as [ | fuel IH]; intros mp last E i ->;
    destruct mp as [i0 | ]; simpl in E; try discriminate;
    bind_inv E as n En; apply at_index_Ok in En;
    (destruct (node_empty n) eqn:Ee; [injection E as <- <-; eauto | ]);
    bind_inv E as b Eb; apply node_key_eqb_nan in Eb; subst; try discriminate.
  eapply IH; eauto.
Qed.

Lemma main_pos_NUM (t : Table) (n : Number) :
  main_pos reg t (NUM n) = Ok (Z.to_nat (Z.land (hash_NUM n) (hash_size t - 1))).
Proof. reflexivity. Qed.

(** A query with a NaN key that returns, returns "not found". *)
Lemma query_nan (t : Table) (r : option Value) :
  query reg t (NUM nan) = Ok r → r = None.
Proof.
  unfold query. rewrite main_pos_NUM. cbn -[find]. intros E.
  bind_inv E as [mp' last] Ef. destruct mp' as [i | ].
  - destruct (find_nan _ _ _ _ _ _ Ef i eq_refl) as (n & Hn & He).
    bind_inv E as n' En. apply at_index_Ok in En. rewrite Hn in En.
    injection En as <-.
    unfold node_empty in He. destruct (value n); [discriminate | congruence].
  - congruence.
Qed.

Lemma free_spec (t t' : Table) (i : nat) :
  free t i = Ok t' →
  (i < length (hash t))%nat ∧
  array t' = array t ∧
  hash t' = <[i := {| key := None; value := None; next := None;
                      vacancy_next := vacancy_head t |}]> (hash t).
Proof.
  unfold free. intros E. bind_inv E as n En. apply at_index_lt in En.
  injection E as <-. auto.
Qed.

(** An [erase] with a NaN key does not take any entry out of the table. *)
Lemma erase_nan (t t' : Table) :
  erase reg t (NUM nan) = Ok t' →
  array t' = array t ∧
  ∀ k v, stored (hash t) k v → stored (hash t') k v.
Proof.
  unfold erase. rewrite main_pos_NUM. cbn -[find]. intros E.
  bind_inv E as [mp' last] Ef. destruct mp' as [mp | ].
  2: { injection E as <-. auto. }
  destruct (find_nan _ _ _ _ _ _ Ef mp eq_refl) as (n & Hn & He).
  bind_inv E as n' En. apply at_index_Ok in En. rewrite Hn in En.
  injection En as <-.
  assert (Hv : value n = None).
  { unfold node_empty in He. destruct (value n); [discriminate | reflexivity]. }
  destruct last as [l | ].
  - (* unlink behind [last] *)
    assert (E' : (ln ← at_index (hash t) l;
                  free (set_hash (<[l := set_next (next n) ln]> (hash t)) t) mp)
                 = Ok t') by (destruct (next n); exact E).
    clear E. bind_inv E' as ln El. apply at_index_Ok in El.
    apply free_spec in E' as (Hlt & Ha & Hh). simpl in *.
    split; [assumption | ]. intros k v (i & n0 & Hi & Hk & Hv0).
    rewrite Hh. destruct (decide (i = mp)) as [-> | Hne].
    { congruence. }
    destruct (decide (i = l)) as [-> | Hne'].
    + exists l, (set_next (next n) ln). rewrite list_lookup_insert_ne by auto.
      rewrite list_lookup_insert_eq by (eapply lookup_lt_Some; eauto).
      assert (ln = n0) by congruence. subst. auto.
    + exists i, n0. rewrite !list_lookup_insert_ne by auto. auto.
  - destruct (next n) as [nx | ] eqn:Enx.
    + (* the next node moves into the slot *)
      bind_inv E as nn Enn. apply at_index_Ok in Enn.
      apply free_spec in E as (Hlt & Ha & Hh). simpl in *.
      split; [assumption | ]. intros k v (i & n0 & Hi & Hk & Hv0).
      rewrite Hh. destruct (decide (i = mp)) as [-> | Hne].
      { congruence. }
      destruct (decide (i = nx)) as [-> | Hne'].
      * assert (nn = n0) by congruence. subst.
        exists mp, n0. rewrite list_lookup_insert_ne by auto.
        rewrite list_lookup_insert_eq by (eapply lookup_lt_Some; eauto). auto.
      * exists i, n0. rewrite !list_lookup_insert_ne by auto. auto.
    + apply free_spec in E as (Hlt & Ha & Hh).
      split; [assumption | ]. intros k v (i & n0 & Hi & Hk & Hv0).
      rewrite Hh. destruct (decide (i = mp)) as [-> | Hne].
      { congruence. }
      exists i, n0. rewrite list_lookup_insert_ne by auto. auto.
Qed.

(** *** Chains that end

    On a chain that reaches the null pointer the walks of [query] and
    [erase] return. *)

Lemma chain_from_det (h : list Node) (p : option nat) (l1 l2 : list nat) :
  chain_from h p l1 → chain_from h p l2 → l1 = l2.
Proof.
  intros C1. revert l2. induction C1 as [ | i n l Hi C IH]; intros l2 C2;
    inversion C2; subst; [reflexivity | ].
  assert (n0 = n) by congruence. subst n0. f_equal. auto.
Qed.

Lemma chain_from_suffix (h : list Node) (p : option nat) (l : list nat) :
  chain_from h p l →
  ∀ l1 j l2, l = l1 ++ j :: l2 → chain_from h (Some j) (j :: l2).
Proof.
  induction 1 as [ | i n l Hi C IH]; intros l1 j l2 E.
  - destruct l1; discriminate.
  - destruct l1 as [ | x l1]; simpl in E; injection E as -> ->.
    + econstructor; eauto.
    + eapply IH; eauto.
Qed.

Lemma chain_from_NoDup (h : list Node) (p : option nat) (l : list nat) :
  chain_from h p l → NoDup l.
Proof.
  induction 1 as [ | i n l Hi C IH]; [constructor | ].
  constructor; [ | assumption].
  intros Hin. apply list_elem_of_split in Hin as (l1 & l2 & ->).
  pose proof (chain_from_suffix _ _ _ C l1 i l2 eq_refl) as C'.
  pose proof (chain_from_det _ _ _ _ C' (chain_step _ _ _ _ Hi C)) as E.
  apply (f_equal length) in E. simpl in E. rewrite length_app in E.
  simpl in E. lia.
Qed.

Lemma chain_from_lt (h : list Node) (p : option nat) (l : list nat) :
  chain_from h p l → ∀ i, i ∈ l → (i < length h)%nat.
Proof.
  induction 1 as [ | i n l Hi C IH]; intros j Hj.
  - inversion Hj.
  - apply elem_of_cons in Hj as [-> | Hj]; [ | auto].
    eapply lookup_lt_Some; eauto.
Qed.

Lemma chain_from_length (h : list Node) (p : option nat) (l : list nat) :
  chain_from h p l → (length l ≤ length h)%nat.
Proof.
  intros C.
  assert (E : length (seq 0 (length h)) = length h) by apply length_seq.
  rewrite <- E. apply submseteq_length, NoDup_submseteq.
  - eapply chain_from_NoDup; eauto.
  - intros i Hi. apply elem_of_seq.
    pose proof (chain_from_lt _ _ _ C i Hi). lia.
Qed.

Lemma find_total (fuel : nat) (h : list Node) (k : Key)
    (mp last : option nat) (l : list nat) :
  keys_present h → chain_from h mp l → (length l ≤ fuel)%nat →
  ∃ mp' last',
    find fuel h k mp last = Ok (mp', last') ∧
    (∀ i, mp' = Some i → i ∈ l) ∧
    (∀ j, last' = Some j → last' = last ∨ j ∈ l).
Proof.
  intros Hk C. revert fuel last.
  induction C as [ | i n l Hi C IH]; intros fuel last Hf.
  - exists None, last. destruct fuel; simpl; repeat split; auto; discriminate.
  - simpl in Hf. destruct fuel as [ | fuel]; [lia | ].
    simpl. unfold at_index. rewrite Hi. simpl.
    destruct (node_empty n) eqn:Ee.
    { exists (Some i), last. repeat split; auto.
      intros ? [= <-]. apply elem_of_cons. auto. }
    destruct (Hk i n Hi Ee) as [k' Hk']. unfold node_key_eqb. rewrite Hk'.
    simpl. destruct (Key_eqb k' k).
    { exists (Some i), last. repeat split; auto.
      intros ? [= <-]. apply elem_of_cons. auto. }
    destruct (IH fuel (Some i)) as (mp' & last' & E & H1 & H2); [lia | ].
    exists mp', last'. split; [assumption | ]. split.
    + intros j Hj. apply elem_of_cons. auto.
    + intros j Hj. right. destruct (H2 j Hj) as [E' | Hin].
      * subst last'. injection E' as ->. apply elem_of_cons. auto.
      * apply elem_of_cons. auto.
Qed.

(** On a table whose chain from slot 0 ends, a query with a NaN key
    returns, and it returns "not found". *)
Lemma query_nan_total (t : Table) (l : list nat) :
  keys_present (hash t) →
  chain_from (hash t) (Some (Z.to_nat (Z.land 0 (hash_size t - 1)))) l →
  query reg t (NUM nan) = Ok None.
Proof.
  intros Hk C.
  destruct (find_total (length (hash t)) (hash t) (NUM nan) _ None l Hk C)
    as (mp' & last' & E & H1 & _).
  { eapply chain_from_length; eauto. }
  destruct (query reg t (NUM nan)) as [r | e] eqn:Eq.
  { f_equal. eapply query_nan; eauto. }
  exfalso. revert Eq. unfold query. rewrite main_pos_NUM. cbn -[find].
  change (hash_NUM nan) with 0. rewrite E. cbn.
  destruct mp' as [i | ]; [ | discriminate].
  specialize (H1 i eq_refl). apply (chain_from_lt _ _ _ C) in H1.
  apply lookup_lt_is_Some in H1 as [n Hn]. unfold at_index. rewrite Hn.
  discriminate.
Qed.

(** On such a table [erase] with a NaN key returns as well. *)
Lemma erase_nan_total (t : Table) (l : list nat) :
  keys_present (hash t) →
  chain_from (hash t) (Some (Z.to_nat (Z.land 0 (hash_size t - 1)))) l →
  ∃ t', erase reg t (NUM nan) = Ok t'.
Proof.
  intros Hk C.
  destruct (find_total (length (hash t)) (hash t) (NUM nan) _ None l Hk C)
    as (mp' & last' & E & H1 & H2).
  { eapply chain_from_length; eauto. }
  unfold erase. rewrite main_pos_NUM. cbn -[find].
  change (hash_NUM nan) with 0. rewrite E. cbn.
  destruct mp' as [mp | ]; [ | eauto].
  specialize (H1 mp eq_refl).
  pose proof (chain_from_lt _ _ _ C mp H1) as Hlt.
  destruct (lookup_lt_is_Some_2 _ _ Hlt) as [n Hn].
  rewrite (at_index_Some _ _ _ Hn). cbn.
  assert (Hfree : ∀ h' i, length h' = length (hash t) → (i < length (hash t))%nat →
                   ∃ t', free (set_hash h' t) i = Ok t').
  { intros h' i Hl Hi. unfold free. simpl. rewrite <- Hl in Hi.
    destruct (lookup_lt_is_Some_2 _ _ Hi) as [x Hx].
    rewrite (at_index_Some _ _ _ Hx). simpl. eauto. }
  assert (Hlast : ∀ lj, last' = Some lj → (lj < length (hash t))%nat).
  { intros lj ->. destruct (H2 lj eq_refl) as [? | Hin]; [discriminate | ].
    eapply chain_from_lt; eauto. }
  destruct last' as [lj | ].
  - destruct (lookup_lt_is_Some_2 _ _ (Hlast lj eq_refl)) as [ln Hln].
    assert (G : ∃ t', (ln ← at_index (hash t) lj;
              free (set_hash (<[lj := set_next (next n) ln]> (hash t)) t) mp)
              = Ok t').
    { rewrite (at_index_Some _ _ _ Hln). cbn. apply Hfree; [ | assumption].
      apply length_insert. }
    destruct (next n); exact G.
  - destruct (next n) as [nx | ] eqn:Enx.
    + apply list_elem_of_split in H1 as (l1 & l2 & ->).
      pose proof (chain_from_suffix _ _ _ C l1 mp l2 eq_refl) as C'.
      inversion C' as [ | ? n' ? Hn' Cn]; subst.
      assert (n' = n) by congruence. subst n'. rewrite Enx in Cn.
      inversion Cn as [ | ? nn ? Hnn ?]; subst.
      rewrite (at_index_Some _ _ _ Hnn). cbn. apply Hfree.
      * apply length_insert.
      * eapply lookup_lt_Some; eauto.
    + change (∃ t', free t mp = Ok t').
      destruct (Hfree (hash t) mp eq_refl Hlt) as [t' Ht'].
      exists t'. rewrite <- Ht'. destruct t; reflexivity.
Qed.

(** *** [get_free_pos] *)

Lemma node_sim_refl (n : Node) : node_sim n n.
Proof. repeat split. Qed.

Lemma node_sim_trans (a b c : Node) : node_sim a b → node_sim b c → node_sim a c.
Proof. intros (? & ? & ?) (? & ? & ?). repeat split; congruence. Qed.

Lemma node_sim_empty (a b : Node) : node_sim a b → node_empty a = node_empty b.
Proof. intros (_ & E & _). unfold node_empty. rewrite E. reflexivity. Qed.

Lemma hash_sim_refl (h : list Node) : hash_sim h h.
Proof. apply Forall2_same_length_lookup. split; [reflexivity | ].
  intros i a b E1 E2. assert (a = b) by congruence. subst. apply node_sim_refl. Qed.

Lemma hash_sim_trans (h1 h2 h3 : list Node) :
  hash_sim h1 h2 → hash_sim h2 h3 → hash_sim h1 h3.
Proof.
  unfold hash_sim. intros H12 H23.
  eapply Forall2_trans; eauto. intros; eapply node_sim_trans; eauto.
Qed.

Lemma hash_sim_length (h1 h2 : list Node) : hash_sim h1 h2 → length h1 = length h2.
Proof. apply Forall2_length. Qed.

Lemma hash_sim_lookup (h1 h2 : list Node) (i : nat) (n1 : Node) :
  hash_sim h1 h2 → h1 !! i = Some n1 → ∃ n2, h2 !! i = Some n2 ∧ node_sim n1 n2.
Proof. intros Hs E. eapply Forall2_lookup_l in Hs as (n2 & ? & ?); eauto. Qed.

Lemma hash_sim_lookup_r (h1 h2 : list Node) (i : nat) (n2 : Node) :
  hash_sim h1 h2 → h2 !! i = Some n2 → ∃ n1, h1 !! i = Some n1 ∧ node_sim n1 n2.
Proof. intros Hs E. eapply Forall2_lookup_r in Hs as (n1 & ? & ?); eauto. Qed.

Lemma hash_sim_set_vacancy (h : list Node) (i : nat) (n : Node) (vn : option nat) :
  h !! i = Some n → hash_sim (<[i := set_vacancy_next vn n]> h) h.
Proof.
  intros E. rewrite <- (list_insert_id h i n E) at 2.
  apply Forall2_insert; [apply hash_sim_refl | repeat split].
Qed.

Lemma same_frame_refl (t : Table) : same_frame t t.
Proof. repeat split. Qed.

Lemma same_frame_trans (t1 t2 t3 : Table) :
  same_frame t1 t2 → same_frame t2 t3 → same_frame t1 t3.
Proof. intros (? & ? & ? & ?) (? & ? & ? & ?). repeat split; congruence. Qed.

Lemma prune_vacancy_spec (fuel : nat) (t : Table) (r : option nat) (t1 : Table) :
  prune_vacancy fuel t = Ok (r, t1) →
  hash_sim (hash t1) (hash t) ∧ same_frame t1 t ∧ last_free t1 = last_free t ∧
  match r with
  | Some i => ∃ n, hash t1 !! i = Some n ∧ node_empty n = true
  | None => vacancy_head t1 = None
  end.
Proof.
  revert t. induction fuel as [ | fuel IH]; intros t E; simpl in E;
    destruct (vacancy_head t) as [i | ] eqn:Ev;
    try (injection E as <- <-; repeat split; auto using hash_sim_refl; fail);
    bind_inv E as n En; apply at_index_Ok in En;
    (destruct (node_empty n) eqn:Ee;
      [injection E as <- <-; repeat split; eauto using hash_sim_refl | ]);
    try discriminate.
  apply IH in E as (Hs & Hf & Hl & Hr). simpl in *.
  repeat split; try apply Hf; auto.
  eapply hash_sim_trans; [exact Hs | ]. apply hash_sim_set_vacancy. assumption.
Qed.

Lemma scan_free_spec (h : list Node) (lf : nat) (r : option nat) (lf' : nat) :
  scan_free h lf = Ok (r, lf') →
  (lf' ≤ lf)%nat ∧
  (∀ j, (lf' < j ≤ lf)%nat → ∃ n, h !! j = Some n ∧ node_empty n = false) ∧
  match r with
  | Some i => i = lf' ∧ ∃ n, h !! i = Some n ∧ node_empty n = true
  | None => ∀ j, (j ≤ lf)%nat → ∃ n, h !! j = Some n ∧ node_empty n = false
  end.
Proof.
  revert r lf'. induction lf as [ | lf IH]; intros r lf' E; simpl in E;
    bind_inv E as n En; apply at_index_Ok in En;
    (destruct (node_empty n) eqn:Ee;
      [injection E as <- <-; split; [lia | split; [intros; lia | eauto]] | ]).
  - injection E as <- <-. split; [lia | split; [intros; lia | ]].
    intros j Hj. assert (j = 0%nat) by lia. subst. eauto.
  - apply IH in E as (Hle & Hmid & Hr). split; [lia | ]. split.
    + intros j Hj. destruct (decide (j = S lf)) as [-> | ]; [eauto | ].
      apply Hmid. lia.
    + destruct r as [i | ]; [assumption | ].
      intros j Hj. destruct (decide (j = S lf)) as [-> | ]; [eauto | ].
      apply Hr. lia.
Qed.

Lemma get_free_pos_spec (t : Table) (r : option nat) (t1 : Table) :
  get_free_pos t = Ok (r, t1) →
  hash_sim (hash t1) (hash t) ∧ same_frame t1 t ∧
  ∀ i, r = Some i → ∃ n, hash t1 !! i = Some n ∧ node_empty n = true.
Proof.
  unfold get_free_pos. intros E. bind_inv E as [r0 t0] Ep.
  apply prune_vacancy_spec in Ep as (Hs & Hf & Hl & Hr).
  destruct r0 as [i | ].
  - injection E as <- <-. repeat split; try apply Hf; auto.
    intros ? [= <-]. assumption.
  - bind_inv E as [r' lf] Es. injection E as <- <-.
    apply scan_free_spec in Es as (_ & _ & Hr'). simpl.
    repeat split; try apply Hf; auto.
    intros i ->. apply Hr'.
Qed.

(** *** The branches of [insert] *)

Lemma overwrites_false (n : Node) (k : Key) :
  overwrites n k = Ok false →
  node_empty n = false ∧ node_key_eqb n k = Ok false.
Proof. unfold overwrites. destruct (node_empty n); [discriminate | auto]. Qed.

Lemma overwrites_sim (n1 n2 : Node) (k : Key) :
  node_sim n1 n2 → overwrites n1 k = overwrites n2 k.
Proof.
  intros (Ek & Ev & _). unfold overwrites, node_empty, node_key_eqb.
  rewrite Ek, Ev. reflexivity.
Qed.

(** What a call of [insert] that returns has done. *)
Lemma insert_inv (fuel : nat) (t : Table) (k : Key) (v : Value) (t' : Table) :
  insert reg (S fuel) t k v = Ok t' →
  (∃ i, in_array_part t k = Some i ∧
        (Z.to_nat i < length (array t))%nat ∧
        t' = set_array (<[Z.to_nat i := Some v]> (array t)) t)
  ∨ (in_array_part t k = None ∧
     ∃ mp n, main_pos reg t k = Ok mp ∧ hash t !! mp = Some n ∧
       ((overwrites n k = Ok true ∧
         t' = set_hash (<[mp := Node_of k v]> (hash t)) t)
        ∨ (overwrites n k = Ok false ∧
           ∃ r t1, get_free_pos t = Ok (r, t1) ∧
             match r with
             | None => ∃ t2, recompute_size_with (insert reg fuel) t1 = Ok t2 ∧
                             insert reg fuel t2 k v = Ok t'
             | Some free => insert_at_free reg t1 mp free k v = Ok t'
             end))).
Proof.
  cbn [insert]. destruct (in_array_part t k) as [i | ] eqn:Ea; intros E.
  - left. bind_inv E as x Ex. apply at_index_lt in Ex. injection E as <-. eauto.
  - right. split; [reflexivity | ].
    bind_inv E as mp Emp. bind_inv E as n En. apply at_index_Ok in En.
    bind_inv E as same Es. exists mp, n. repeat split; auto.
    destruct same.
    + left. injection E as <-. auto.
    + right. split; [assumption | ]. bind_inv E as [r t1] Eg.
      exists r, t1. split; [assumption | ]. destruct r as [free | ]; [exact E | ].
      bind_inv E as t2 Er. eauto.
Qed.

Lemma main_pos_frame (t1 t2 : Table) (k : Key) :
  hash_size_log2 t1 = hash_size_log2 t2 → main_pos reg t1 k = main_pos reg t2 k.
Proof. intros E. unfold main_pos, hash_size. rewrite E. reflexivity. Qed.

(** The key that [Key::hash] leaves has the main position of the key
    before the call. *)
Lemma main_pos_hashed (t : Table) (k : Key) (x : Hash) (k' : Key) :
  Key_hash reg k = Ok (x, k') → main_pos reg t k' = main_pos reg t k.
Proof.
  intros E. unfold main_pos. rewrite (Key_hash_again _ _ _ _ E), E. reflexivity.
Qed.

Lemma in_array_part_frame (t1 t2 : Table) (k : Key) :
  array_size_log2 t1 = array_size_log2 t2 → in_array_part t1 k = in_array_part t2 k.
Proof. intros E. unfold in_array_part, array_size. rewrite E. reflexivity. Qed.

Lemma find_hit (fuel : nat) (h : list Node) (k : Key) (mp : nat) (last : option nat)
    (n : Node) :
  h !! mp = Some n → node_empty n = false → node_key_eqb n k = Ok true →
  find fuel h k (Some mp) last = Ok (Some mp, last).
Proof.
  intros Hn He Hk. destruct fuel; simpl; rewrite (at_index_Some _ _ _ Hn); simpl;
    rewrite He, Hk; reflexivity.
Qed.

Lemma find_miss (fuel : nat) (h : list Node) (k : Key) (mp : nat) (last : option nat)
    (n : Node) :
  h !! mp = Some n → node_empty n = false → node_key_eqb n k = Ok false →
  find (S fuel) h k (Some mp) last = find fuel h k (next n) (Some mp).
Proof.
  intros Hn He Hk. simpl. rewrite (at_index_Some _ _ _ Hn). simpl.
  rewrite He, Hk. reflexivity.
Qed.

(** A query that meets the key at the main position, or right behind it. *)
Lemma query_at_main (t : Table) (k : Key) (v : Value) (mp : nat) :
  in_array_part t k = None → main_pos reg t k = Ok mp →
  Key_eqb k k = true →
  hash t !! mp = Some (Node_of k v) →
  query reg t k = Ok (Some v).
Proof.
  intros Ea Emp Hk Hn. unfold query. rewrite Ea, Emp. cbn -[find].
  erewrite find_hit; eauto; [ | unfold node_key_eqb; simpl; congruence].
  cbn. rewrite (at_index_Some _ _ _ Hn). reflexivity.
Qed.

Lemma query_behind_main (t : Table) (k : Key) (v : Value) (mp free : nat)
    (n : Node) (nx : option nat) :
  in_array_part t k = None → main_pos reg t k = Ok mp →
  Key_eqb k k = true →
  hash t !! mp = Some n → node_empty n = false → node_key_eqb n k = Ok false →
  next n = Some free →
  hash t !! free = Some (set_next nx (Node_of k v)) →
  query reg t k = Ok (Some v).
Proof.
  intros Ea Emp Hk Hn He Hne Hnx Hf. unfold query. rewrite Ea, Emp. cbn -[find].
  destruct (length (hash t)) as [ | fuel] eqn:El.
  { apply lookup_lt_Some in Hn. lia. }
  erewrite find_miss; eauto. rewrite Hnx.
  erewrite find_hit; eauto; [ | unfold node_key_eqb; simpl; congruence].
  cbn. rewrite (at_index_Some _ _ _ Hf). reflexivity.
Qed.

Lemma splice_behind_spec (t : Table) (mp free : nat) (k : Key) (v : Value) (t' : Table) :
  splice_behind t mp free k v = Ok t' → free ≠ mp → (free < length (hash t))%nat →
  ∃ n, hash t !! mp = Some n ∧
       t' = set_hash (<[mp := set_next (Some free) n]>
                        (<[free := set_next (next n) (Node_of k v)]> (hash t))) t.
Proof.
  unfold splice_behind. intros E Hne Hlt. bind_inv E as n En.
  apply at_index_Ok in En. rewrite list_lookup_insert_ne in En by auto.
  injection E as <-. exists n. split; [assumption | ]. f_equal.
  assert (Hmp : (mp < length (hash t))%nat) by (eapply lookup_lt_Some; eauto).
  apply list_eq. intros j. destruct (decide (j = mp)) as [-> | Hj].
  - rewrite list_lookup_insert_eq by (rewrite length_insert; assumption).
    rewrite list_lookup_alter_eq, list_lookup_alter_ne by auto.
    rewrite list_lookup_insert_ne by auto. rewrite En. reflexivity.
  - rewrite list_lookup_insert_ne, list_lookup_alter_ne by auto.
    destruct (decide (j = free)) as [-> | Hj'].
    + rewrite list_lookup_alter_eq, !list_lookup_insert_eq by assumption.
      reflexivity.
    + rewrite list_lookup_alter_ne, !list_lookup_insert_ne by auto. reflexivity.
Qed.

Lemma relocate_occupant_main (t : Table) (mp home free : nat) (k : Key) (v : Value)
    (t' : Table) :
  relocate_occupant t mp home free k v = Ok t' →
  same_frame t' t ∧ length (hash t') = length (hash t) ∧
  hash t' !! mp = Some (Node_of k v).
Proof.
  unfold relocate_occupant. intros E. bind_inv E as last El.
  destruct last as [l | ]; [ | discriminate].
  bind_inv E as ln Eln. bind_inv E as n En. injection E as <-. simpl.
  apply at_index_lt in En. rewrite length_insert in En.
  split; [repeat split | ].
  rewrite !length_insert, !length_alter, length_insert. split; [reflexivity | ].
  apply list_lookup_insert_eq.
  rewrite !length_alter, length_insert. assumption.
Qed.

(** *** A key is found right after it was inserted *)

Lemma insert_at_free_query (t t1 : Table) (k : Key) (v : Value) (mp free : nat)
    (n : Node) (t' : Table) :
  Key_eqb k k = true →
  in_array_part t k = None → main_pos reg t k = Ok mp →
  hash t !! mp = Some n → overwrites n k = Ok false →
  get_free_pos t = Ok (Some free, t1) →
  insert_at_free reg t1 mp free k v = Ok t' →
  query reg t' k = Ok (Some v).
Proof.
  intros Hk Ea Emp Hn Ho Eg E.
  apply get_free_pos_spec in Eg as (Hs & Hf & Hfree).
  destruct (Hfree free eq_refl) as (nf & Hnf & Hef).
  destruct (hash_sim_lookup_r _ _ _ _ Hs Hn) as (n1 & Hn1 & Hsim).
  rewrite <- (overwrites_sim _ _ k Hsim) in Ho.
  apply overwrites_false in Ho as (He1 & Hk1).
  assert (Hne : free ≠ mp) by (intros ->; congruence).
  destruct Hf as (_ & Hal & Hhl & _).
  unfold insert_at_free in E. bind_inv E as n1' En1. apply at_index_Ok in En1.
  assert (n1' = n1) by congruence. subst n1'.
  bind_inv E as occupant Eo. bind_inv E as home Eh.
  destruct (home =? mp)%nat.
  - apply splice_behind_spec in E as (n1' & Hn1' & ->);
      [ | assumption | eapply lookup_lt_Some; eauto].
    assert (n1' = n1) by congruence. subst n1'.
    eapply (query_behind_main _ k v mp free (set_next (Some free) n1)).
    + rewrite <- Ea. apply in_array_part_frame. simpl. assumption.
    + rewrite <- Emp. apply main_pos_frame. simpl. assumption.
    + assumption.
    + simpl. apply list_lookup_insert_eq. rewrite length_insert.
      eapply lookup_lt_Some; eauto.
    + exact He1.
    + exact Hk1.
    + reflexivity.
    + simpl. rewrite list_lookup_insert_ne by auto.
      apply list_lookup_insert_eq. eapply lookup_lt_Some; eauto.
  - apply relocate_occupant_main in E as ((_ & Hal' & Hhl' & _) & _ & Hmp).
    eapply query_at_main; eauto.
    + rewrite <- Ea. apply in_array_part_frame. congruence.
    + rewrite <- Emp. apply main_pos_frame. congruence.
Qed.

(** C1, as the code has it: a key that is equal to itself is found, with
    the value given, by the query that follows an [insert] that returned. *)
Theorem insert_then_query (fuel : nat) (t : Table) (k : Key) (v : Value) (t' : Table) :
  Key_eqb k k = true →
  insert reg fuel t k v = Ok t' →
  query reg t' k = Ok (Some v).
Proof.
  intros Hk. revert t. induction fuel as [ | fuel IH]; intros t E;
    [discriminate | ].
  apply insert_inv in E
    as [(i & Ea & Hi & ->) | (Ea & mp & n & Emp & Hn & [(Ho & ->) | (Ho & r & t1 & Eg & E)])].
  - unfold query.
    rewrite (in_array_part_frame _ t k) by reflexivity. rewrite Ea. simpl.
    apply at_index_Some, list_lookup_insert_eq. assumption.
  - eapply query_at_main; eauto.
    simpl. apply list_lookup_insert_eq. eapply lookup_lt_Some; eauto.
  - destruct r as [free | ].
    + eapply insert_at_free_query; eauto.
    + destruct E as (t2 & _ & E). eauto.
Qed.

(** *** What an [insert] into a free slot does to the hash segment *)

Lemma lookup_alter_set_next (h : list Node) (i : nat) (nx : option nat)
    (j : nat) (n' : Node) :
  alter (set_next nx) i h !! j = Some n' →
  ∃ n, h !! j = Some n ∧ key n' = key n ∧ value n' = value n.
Proof.
  destruct (decide (j = i)) as [-> | Hj].
  - rewrite list_lookup_alter_eq. destruct (h !! i) as [n | ]; [ | discriminate].
    intros [= <-]. eauto.
  - rewrite list_lookup_alter_ne by auto. eauto.
Qed.

Lemma lookup_alter_set_next_2 (h : list Node) (i : nat) (nx : option nat)
    (j : nat) (n : Node) :
  h !! j = Some n →
  ∃ n', alter (set_next nx) i h !! j = Some n' ∧ key n' = key n ∧ value n' = value n.
Proof.
  intros Hn. destruct (decide (j = i)) as [-> | Hj].
  - rewrite list_lookup_alter_eq, Hn. simpl. eauto.
  - rewrite list_lookup_alter_ne by auto. eauto.
Qed.

Lemma node_empty_value (a b : Node) : value a = value b → node_empty a = node_empty b.
Proof. unfold node_empty. intros ->. reflexivity. Qed.

Lemma relocate_occupant_spec (t : Table) (mp home free : nat) (k : Key) (v : Value)
    (t' : Table) :
  relocate_occupant t mp home free k v = Ok t' → free ≠ mp →
  ∃ l ln n, hash t !! l = Some ln ∧ hash t !! mp = Some n ∧
    t' = set_hash
           (<[mp := Node_of k v]>
              (alter (set_next (Some free)) l
                 (alter (set_next (next n)) free
                    (<[free := Node_of_ptrs (key ln) (value ln)]> (hash t))))) t.
Proof.
  unfold relocate_occupant. intros E Hne. bind_inv E as last El.
  destruct last as [l | ]; [ | discriminate].
  bind_inv E as ln Eln. bind_inv E as n En. injection E as <-.
  apply at_index_Ok in Eln, En. rewrite list_lookup_insert_ne in En by auto.
  exists l, ln, n. auto.
Qed.

Lemma grown_by_refl (k : Key) (h : list Node) : grown_by k h h.
Proof.
  split; [reflexivity | ]. split; [eauto | ]. split; [lia | ].
  intros j n' Hj He. right. eauto.
Qed.

(** Writing the key over an empty slot or over itself. *)
Lemma grown_by_overwrite (k : Key) (v : Value) (h : list Node) (mp : nat) (n : Node) :
  h !! mp = Some n → grown_by k h (<[mp := Node_of k v]> h).
Proof.
  intros Hn. pose proof (lookup_lt_Some _ _ _ Hn) as Hlt.
  split; [apply length_insert | ]. split; [ | split].
  - intros j n0 Hj He. destruct (decide (j = mp)) as [-> | Hne].
    + exists (Node_of k v). rewrite list_lookup_insert_eq by assumption. auto.
    + exists n0. rewrite list_lookup_insert_ne by auto. auto.
  - pose proof (hash_live_insert h mp n (Node_of k v) Hn) as E.
    change (weight (Node_of k v)) with 1%nat in E. lia.
  - intros j n' Hj He. destruct (decide (j = mp)) as [-> | Hne].
    + rewrite list_lookup_insert_eq in Hj by assumption. injection Hj as <-. auto.
    + rewrite list_lookup_insert_ne in Hj by auto. right. eauto.
Qed.

Lemma insert_at_free_grows (t1 : Table) (mp free : nat) (k : Key) (v : Value)
    (n1 nf : Node) (t' : Table) :
  hash t1 !! mp = Some n1 → node_empty n1 = false →
  hash t1 !! free = Some nf → node_empty nf = true →
  insert_at_free reg t1 mp free k v = Ok t' →
  same_frame t' t1 ∧ last_free t' = last_free t1 ∧
  vacancy_head t' = vacancy_head t1 ∧ array t' = array t1 ∧
  grown_by k (hash t1) (hash t').
Proof.
  intros Hn1 He1 Hnf Hef E.
  assert (Hne : free ≠ mp) by (intros ->; congruence).
  pose proof (lookup_lt_Some _ _ _ Hn1) as Hmp.
  pose proof (lookup_lt_Some _ _ _ Hnf) as Hfree.
  assert (Hw1 : weight n1 = 1%nat) by (unfold weight; rewrite He1; reflexivity).
  assert (Hwf : weight nf = 0%nat) by (unfold weight; rewrite Hef; reflexivity).
  unfold insert_at_free in E. bind_inv E as n1' En1.
  bind_inv E as occupant Eo. bind_inv E as home Eh. clear En1 Eo Eh.
  destruct (home =? mp)%nat.
  - apply splice_behind_spec in E as (n & Hn & ->); [ | assumption | assumption].
    assert (n = n1) by congruence. subst n.
    repeat split; simpl.
    + rewrite !length_insert. reflexivity.
    + intros j n Hj He. destruct (decide (j = mp)) as [-> | Hj1].
      * eexists. rewrite list_lookup_insert_eq by (rewrite length_insert; assumption).
        split; [reflexivity | ]. exact He1.
      * assert (j ≠ free) by (intros ->; congruence).
        exists n. rewrite !list_lookup_insert_ne by auto. auto.
    + pose proof (hash_live_insert (hash t1) free nf
                    (set_next (next n1) (Node_of k v)) Hnf) as E1.
      pose proof (hash_live_insert (<[free := set_next (next n1) (Node_of k v)]> (hash t1))
                    mp n1 (set_next (Some free) n1)) as E2.
      rewrite list_lookup_insert_ne in E2 by auto. specialize (E2 Hn1).
      rewrite !weight_set_next in *.
      change (weight (Node_of k v)) with 1%nat in E1. lia.
    + intros j n' Hj He. destruct (decide (j = mp)) as [-> | Hj1].
      * rewrite list_lookup_insert_eq in Hj by (rewrite length_insert; assumption).
        injection Hj as <-. right. exists mp, n1. auto.
      * rewrite list_lookup_insert_ne in Hj by auto.
        destruct (decide (j = free)) as [-> | Hj2].
        -- rewrite list_lookup_insert_eq in Hj by assumption.
           injection Hj as <-. left. reflexivity.
        -- rewrite list_lookup_insert_ne in Hj by auto. right. eauto.
  - apply relocate_occupant_spec in E as (l & ln & n & Hl & Hn & ->); [ | assumption].
    assert (n = n1) by congruence. subst n.
    set (C := Node_of_ptrs (key ln) (value ln)).
    set (h1 := <[free := C]> (hash t1)) in *.
    set (h2 := alter (set_next (next n1)) free h1) in *.
    set (h3 := alter (set_next (Some free)) l h2) in *.
    assert (Hlen : length h3 = length (hash t1)).
    { unfold h3, h2, h1. rewrite !length_alter, length_insert. reflexivity. }
    (* a taken slot of the old segment is taken in [h3], with the same key *)
    assert (Hkeep : ∀ j n, hash t1 !! j = Some n → node_empty n = false →
              ∃ n3, h3 !! j = Some n3 ∧ node_empty n3 = false ∧ key n3 = key n).
    { intros j n Hj He. assert (Hjf : j ≠ free) by (intros ->; congruence).
      assert (H1 : h1 !! j = Some n) by (unfold h1; rewrite list_lookup_insert_ne; auto).
      assert (H2 : h2 !! j = Some n) by (unfold h2; rewrite list_lookup_alter_ne; auto).
      destruct (lookup_alter_set_next_2 h2 l (Some free) j n H2) as (n3 & H3 & Hk & Hv).
      exists n3. split; [exact H3 | ]. split; [ | assumption].
      rewrite (node_empty_value _ _ Hv). assumption. }
    repeat split; simpl.
    + rewrite length_insert. assumption.
    + intros j n Hj He. destruct (decide (j = mp)) as [-> | Hj1].
      * exists (Node_of k v). rewrite list_lookup_insert_eq by lia. auto.
      * destruct (Hkeep j n Hj He) as (n3 & H3 & He3 & _).
        exists n3. rewrite list_lookup_insert_ne by auto. auto.
    + destruct (Hkeep mp n1 Hn1 He1) as (m3 & H3 & He3 & _).
      pose proof (hash_live_insert h3 mp m3 (Node_of k v) H3) as E4.
      change (weight (Node_of k v)) with 1%nat in E4.
      assert (weight m3 = 1%nat) by (unfold weight; rewrite He3; reflexivity).
      pose proof (hash_live_insert (hash t1) free nf C Hnf) as E1.
      fold h1 in E1.
      assert (E2 : length (hash_live h3) = length (hash_live h1)).
      { unfold h3, h2. rewrite !hash_live_alter_set_next. reflexivity. }
      assert (weight C ≤ 1)%nat by (unfold weight; destruct (node_empty C); lia).
      lia.
    + intros j n' Hj He. destruct (decide (j = mp)) as [-> | Hj1].
      * rewrite list_lookup_insert_eq in Hj by lia. injection Hj as <-. auto.
      * rewrite list_lookup_insert_ne in Hj by auto. right.
        apply lookup_alter_set_next in Hj as (n2 & H2 & Hk2 & Hv2).
        apply lookup_alter_set_next in H2 as (nb & H1 & Hk1 & Hv1).
        assert (Hen : node_empty nb = false).
        { rewrite <- (node_empty_value _ _ Hv1), <- (node_empty_value _ _ Hv2).
          assumption. }
        destruct (decide (j = free)) as [-> | Hj2].
        -- unfold h1 in H1. rewrite list_lookup_insert_eq in H1 by assumption.
           injection H1 as <-. exists l, ln. split; [assumption | ].
           split; [ | simpl in *; congruence].
           unfold node_empty in *. simpl in Hen. exact Hen.
        -- unfold h1 in H1. rewrite list_lookup_insert_ne in H1 by auto.
           exists j, nb. split; [assumption | ]. split; [assumption | congruence].
Qed.

(** *** NaN keys *)

(** The entry that an [insert] with a NaN key wrote is in the hash
    segment. *)
Lemma insert_nan_stored (fuel : nat) (t : Table) (v : Value) (t' : Table) :
  insert reg fuel t (NUM nan) v = Ok t' →
  stored (hash t') (Some (NUM nan)) v.
Proof.
  revert t. induction fuel as [ | fuel IH]; intros t E; [discriminate | ].
  apply insert_inv in E
    as [(i & Ea & _) | (Ea & mp & n & Emp & Hn & [(Ho & ->) | (Ho & r & t1 & Eg & E)])].
  - discriminate.
  - exists mp, (Node_of (NUM nan) v). simpl. repeat split.
    apply list_lookup_insert_eq. eapply lookup_lt_Some; eauto.
  - destruct r as [free | ]; [ | destruct E as (t2 & _ & E); eauto].
    apply get_free_pos_spec in Eg as (Hs & Hf & Hfree).
    destruct (Hfree free eq_refl) as (nf & Hnf & Hef).
    destruct (hash_sim_lookup_r _ _ _ _ Hs Hn) as (n1 & Hn1 & Hsim).
    rewrite <- (overwrites_sim _ _ _ Hsim) in Ho.
    apply overwrites_false in Ho as (He1 & Hk1).
    assert (Hne : free ≠ mp) by (intros ->; congruence).
    unfold insert_at_free in E. bind_inv E as n1' En1.
    bind_inv E as occupant Eo. bind_inv E as home Eh.
    destruct (home =? mp)%nat.
    + apply splice_behind_spec in E as (n1'' & Hn1'' & ->);
        [ | assumption | eapply lookup_lt_Some; eauto].
      exists free, (set_next (next n1'') (Node_of (NUM nan) v)). simpl.
      repeat split. rewrite list_lookup_insert_ne by auto.
      apply list_lookup_insert_eq. eapply lookup_lt_Some; eauto.
    + apply relocate_occupant_main in E as (_ & _ & Hmp).
      exists mp, (Node_of (NUM nan) v). repeat split. assumption.
Qed.

(** What C10 says, where the walks end: a NaN key is equal to no key,
    itself included.  Once it has been inserted the entry is in the hash
    segment, yet the query for it returns "not found", and [erase] returns
    leaving the entry where it is.  (Slot 0 is the main position of NaN;
    the table is one whose nodes with a value have a key and whose chain
    from slot 0 ends.  The calls do not keep every chain free of cycles;
    where the chain from slot 0 runs into one the two walks do not
    return.) *)
Theorem nan_key_is_lost (fuel : nat) (t : Table) (v : Value) (t' : Table)
    (l : list nat) :
  insert reg fuel t (NUM nan) v = Ok t' →
  keys_present (hash t') →
  chain_from (hash t') (Some 0%nat) l →
  (∀ k, Key_eqb (NUM nan) k = false ∧ Key_eqb k (NUM nan) = false) ∧
  stored (hash t') (Some (NUM nan)) v ∧
  query reg t' (NUM nan) = Ok None ∧
  ∃ t'', erase reg t' (NUM nan) = Ok t'' ∧
         stored (hash t'') (Some (NUM nan)) v.
Proof.
  intros E Hk C. split; [ | split; [ | split]].
  - intros k. split; [apply Key_eqb_nan_l | apply Key_eqb_nan_r].
  - eapply insert_nan_stored; eauto.
  - eapply query_nan_total; eauto.
  - destruct (erase_nan_total t' l Hk C) as [t'' E''].
    exists t''. split; [assumption | ].
    apply erase_nan in E'' as (_ & Hst). apply Hst.
    eapply insert_nan_stored; eauto.
Qed.

End TableFacts.

(** ** What [recompute_size] computes *)

Section Sizing.
Context `{U : IHashTypes}.

Lemma shiftl_1_nat (n : nat) : Z.shiftl 1 (Z.of_nat n) = Z.of_nat (2 ^ n).
Proof.
  rewrite Z.shiftl_1_l, Nat2Z.inj_pow. reflexivity.
Qed.

Lemma array_size_nat (t : Table) : Z.to_nat (array_size t) = (2 ^ array_size_log2 t)%nat.
Proof. unfold array_size. rewrite shiftl_1_nat. apply Nat2Z.id. Qed.

Lemma hash_size_nat (t : Table) : Z.to_nat (hash_size t) = (2 ^ hash_size_log2 t)%nat.
Proof. unfold hash_size. rewrite shiftl_1_nat. apply Nat2Z.id. Qed.

Lemma drop_cons_lookup {A} (l : list A) (i : nat) (x : A) (l' : list A) :
  drop i l = x :: l' → l !! i = Some x ∧ drop (S i) l = l'.
Proof.
  intros E. assert (Hx : l !! i = Some x).
  { rewrite <- (Nat.add_0_r i), <- lookup_drop, E. reflexivity. }
  split; [assumption | ]. rewrite (drop_S _ _ _ Hx) in E. congruence.
Qed.

(** The first loop counts the array slots from [lo] on that hold a value. *)
Lemma count_array_loop (t : Table) (l : list (option Value)) :
  ∀ lo counter hash_part, drop lo (array t) = l →
  foldM (count_array_step t) (seq lo (length l)) (counter, hash_part)
  = Ok (push_all (live_indices lo l) counter,
        hash_part + Z.of_nat (length (live_indices lo l))).
Proof.
  induction l as [ | slot l IH]; intros lo counter hash_part E.
  - simpl. rewrite Z.add_0_r. reflexivity.
  - apply drop_cons_lookup in E as (Hs & Hd).
    cbn [length seq foldM count_array_step].
    rewrite (at_index_Some _ _ _ Hs). cbn [mbind result_bind].
    destruct slot as [a | ]; [destruct (has_value a) eqn:Ea | ];
      cbn [mbind result_bind]; rewrite (IH _ _ _ Hd); cbn [live_indices];
      rewrite ?Ea; [ | reflexivity | reflexivity].
    cbn [length push_all foldl]. f_equal. f_equal. lia.
Qed.

Lemma count_array_spec (t : Table) (counter : list Z) (hash_part : Z) :
  sized t →
  count_array t (counter, hash_part)
  = Ok (push_all (live_indices 1 (drop 1 (array t))) counter,
        hash_part + Z.of_nat (length (live_indices 1 (drop 1 (array t))))).
Proof.
  intros (Ha & _). unfold count_array, for_range.
  rewrite array_size_nat, <- Ha.
  replace (length (array t) - 1)%nat with (length (drop 1 (array t)))
    by (rewrite length_drop; reflexivity).
  apply count_array_loop. reflexivity.
Qed.

Lemma omap_int_key_cons (n : Node) (l : list Node) :
  omap int_key (n :: l)
  = match int_key n with
    | Some x => x :: omap int_key l
    | None => omap int_key l
    end.
Proof. reflexivity. Qed.

Lemma keys_present_tail (n : Node) (l : list Node) :
  keys_present (n :: l) → keys_present l.
Proof. intros Hk i n' Hi. apply (Hk (S i) n' Hi). Qed.

(** The second loop counts the nodes that hold a value, and fails on one
    that holds a value without a key. *)
Lemma count_hash_loop (t : Table) (l : list Node) :
  ∀ lo counter hash_part, drop lo (hash t) = l →
  match foldM (count_hash_step t) (seq lo (length l)) (counter, hash_part) with
  | Ok r => r = (push_all (omap int_key (hash_live l)) counter,
                 hash_part + Z.of_nat (length (hash_live l)))
  | Err _ => ¬ keys_present l
  end.
Proof.
  induction l as [ | n l IH]; intros lo counter hash_part E.
  - simpl. rewrite Z.add_0_r. reflexivity.
  - apply drop_cons_lookup in E as (Hs & Hd).
    cbn [length seq foldM count_hash_step].
    rewrite (at_index_Some _ _ _ Hs). cbn [mbind result_bind].
    unfold hash_live. rewrite filter_cons.
    destruct (node_empty n) eqn:Ee.
    + rewrite decide_False by discriminate. cbn [mbind result_bind].
      specialize (IH _ counter hash_part Hd).
      destruct (foldM (count_hash_step t) (seq (S lo) (length l)) (counter, hash_part));
        [exact IH | ].
      intros Hk. apply IH. eapply keys_present_tail; eauto.
    + rewrite decide_True by reflexivity. rewrite omap_int_key_cons.
      cbn [length]. destruct (key n) as [k | ] eqn:Ek.
      2: { intros Hk. destruct (Hk 0%nat n eq_refl Ee) as [? ?]. congruence. }
      assert (G : ∀ c',
        match foldM (count_hash_step t) (seq (S lo) (length l)) (c', hash_part + 1) with
        | Ok r => r = (push_all (omap int_key (filter (λ n, node_empty n = false) l)) c',
                       hash_part + Z.of_nat (S (length (filter (λ n, node_empty n = false) l))))
        | Err _ => ¬ keys_present (n :: l)
        end).
      { intros c'. specialize (IH _ c' (hash_part + 1) Hd).
        destruct (foldM (count_hash_step t) (seq (S lo) (length l)) (c', hash_part + 1)).
        - rewrite IH. unfold hash_live. f_equal. lia.
        - intros Hk. apply IH. eapply keys_present_tail; eauto. }
      unfold int_key at 1. rewrite Ek.
      destruct k; cbn [mbind result_bind]; apply G.
Qed.

Lemma count_hash_spec (t : Table) (counter : list Z) (hash_part : Z) :
  sized t →
  match count_hash t (counter, hash_part) with
  | Ok r => r = (push_all (omap int_key (hash_live (hash t))) counter,
                 hash_part + Z.of_nat (length (hash_live (hash t))))
  | Err _ => ¬ keys_present (hash t)
  end.
Proof.
  intros (_ & Hh & _). unfold count_hash, for_range.
  rewrite hash_size_nat, <- Hh, Nat.sub_0_r.
  apply (count_hash_loop t (hash t) 0%nat). reflexivity.
Qed.

(** *** The histogram *)

Lemma push_into_counter_length (x : Z) (c : list Z) :
  length (push_into_counter x c) = length c.
Proof. unfold push_into_counter. destruct (1 <=? x); [apply length_alter | reflexivity]. Qed.

Lemma push_into_counter_lookup (x : Z) (c : list Z) (b : nat) :
  push_into_counter x c !! b
  = (λ y, y + (if decide (1 ≤ x ∧ bit x = b) then 1 else 0)) <$> c !! b.
Proof.
  unfold push_into_counter. destruct (1 <=? x) eqn:Ex.
  - apply Z.leb_le in Ex. destruct (decide (bit x = b)) as [<- | Hb].
    + rewrite list_lookup_alter_eq, decide_True by auto.
      destruct (c !! bit x); reflexivity.
    + rewrite list_lookup_alter_ne, decide_False by tauto.
      destruct (c !! b); simpl; [f_equal; lia | reflexivity].
  - apply Z.leb_gt in Ex. rewrite decide_False by lia.
    destruct (c !! b); simpl; [f_equal; lia | reflexivity].
Qed.

Lemma push_all_length (xs : list Z) (c : list Z) : length (push_all xs c) = length c.
Proof.
  revert c. induction xs as [ | x xs IH]; intros c; [reflexivity | ].
  cbn [push_all foldl]. unfold push_all in IH. rewrite IH.
  apply push_into_counter_length.
Qed.

Lemma with_bit_cons (x : Z) (xs : list Z) (b : nat) :
  with_bit (x :: xs) b
  = (if decide (1 ≤ x ∧ bit x = b) then 1 else 0) + with_bit xs b.
Proof.
  unfold with_bit. rewrite filter_cons.
  destruct (decide (1 ≤ x ∧ bit x = b)); cbn [length]; lia.
Qed.

Lemma push_all_lookup (xs : list Z) (c : list Z) (b : nat) :
  push_all xs c !! b = (λ y, y + with_bit xs b) <$> c !! b.
Proof.
  revert c. induction xs as [ | x xs IH]; intros c.
  - simpl. destruct (c !! b); simpl; [f_equal; unfold with_bit; simpl; lia | reflexivity].
  - cbn [push_all foldl]. unfold push_all in IH. rewrite IH.
    rewrite push_into_counter_lookup, with_bit_cons.
    destruct (c !! b); simpl; [f_equal; lia | reflexivity].
Qed.

Lemma filter_length_split {A} (P Q R : A → Prop)
    `{∀ x, Decision (P x)} `{∀ x, Decision (Q x)} `{∀ x, Decision (R x)}
    (l : list A) :
  (∀ x, R x ↔ P x ∨ Q x) → (∀ x, P x → Q x → False) →
  length (filter R l) = (length (filter P l) + length (filter Q l))%nat.
Proof.
  intros HR HPQ. induction l as [ | x l IH]; [reflexivity | ].
  rewrite !filter_cons.
  destruct (decide (P x)) as [HP | HP], (decide (Q x)) as [HQ | HQ],
    (decide (R x)) as [Hr | Hr]; cbn [length]; try lia;
    exfalso; first [eapply HPQ; eassumption | apply Hr, HR; tauto | apply HR in Hr; tauto].
Qed.

Lemma bit_spec (x : Z) (i : nat) :
  1 ≤ x → bit x = i ↔ 2 ^ Z.of_nat i ≤ x < 2 ^ Z.of_nat (S i).
Proof.
  intros Hx. unfold bit. rewrite Nat2Z.inj_succ.
  pose proof (Z.log2_nonneg x) as Hn. split.
  - intros <-. rewrite Z2Nat.id by assumption. apply Z.log2_spec. lia.
  - intros Hb. apply Z.log2_unique in Hb; [ | lia]. rewrite Hb. apply Nat2Z.id.
Qed.

Lemma prefix_with_bit (xs : list Z) (i : nat) :
  prefix (with_bit xs) i
  = 1 + Z.of_nat (length (filter (λ x, 1 ≤ x < 2 ^ Z.of_nat i) xs)).
Proof.
  induction i as [ | i IH].
  - simpl. rewrite (proj2 (length_zero_iff_nil _)); [reflexivity | ].
    induction xs as [ | x xs IHx]; [reflexivity | ].
    rewrite filter_cons, decide_False by lia. assumption.
  - cbn [prefix]. rewrite IH. unfold with_bit.
    rewrite (filter_length_split (λ x, 1 ≤ x < 2 ^ Z.of_nat i)
               (λ x, 1 ≤ x ∧ bit x = i) (λ x, 1 ≤ x < 2 ^ Z.of_nat (S i))).
    + lia.
    + intros x. assert (Hp : 2 ^ Z.of_nat i ≤ 2 ^ Z.of_nat (S i))
        by (apply Z.pow_le_mono_r; lia).
      destruct (decide (1 ≤ x)) as [Hx | Hx]; [ | lia].
      pose proof (bit_spec x i Hx). split; [ | intros [? | [? ?]]; lia].
      intros [_ Hlt]. destruct (decide (x < 2 ^ Z.of_nat i)); [left; lia | right].
      split; [assumption | ]. apply H. lia.
    + intros x [_ Hlt] [Hx Hb]. apply (bit_spec x i Hx) in Hb. lia.
Qed.

(** *** The choice of the array size *)

Lemma choose_array_size_spec (D : nat → Z) (cs : list Z) :
  ∀ i total na ap,
  (∀ j, (j < length cs)%nat → cs !! j = Some (D (i + j)%nat)) →
  total = prefix D i →
  ∃ na' ap',
    choose_array_size cs i (total, na, ap)
      = (prefix D (i + length cs), na', ap') ∧
    ((na' = na ∧ ap' = ap ∧
      ∀ j, (i ≤ j < i + length cs)%nat → ¬ 2 ^ Z.of_nat j < prefix D (S j))
     ∨ (∃ j, (i ≤ j < i + length cs)%nat ∧ na' = S j ∧ ap' = prefix D (S j) ∧
             2 ^ Z.of_nat j < prefix D (S j) ∧
             ∀ j', (j < j' < i + length cs)%nat →
                   ¬ 2 ^ Z.of_nat j' < prefix D (S j'))).
Proof.
  induction cs as [ | c cs IH]; intros i total na ap Hcs ->.
  - exists na, ap. simpl. rewrite Nat.add_0_r. split; [reflexivity | ].
    left. repeat split. intros j Hj. lia.
  - assert (Hc : c = D i).
    { specialize (Hcs 0%nat ltac:(simpl; lia)). simpl in Hcs.
      rewrite Nat.add_0_r in Hcs. congruence. }
    subst c. cbn [choose_array_size length].
    rewrite Z.shiftl_1_l.
    change (prefix D i + D i) with (prefix D (S i)).
    assert (Hcs' : ∀ j, (j < length cs)%nat → cs !! j = Some (D (S i + j)%nat)).
    { intros j Hj. specialize (Hcs (S j) ltac:(simpl; lia)). simpl in Hcs.
      rewrite Hcs. f_equal. f_equal. lia. }
    replace (i + S (length cs))%nat with (S i + length cs)%nat by lia.
    destruct (2 ^ Z.of_nat i <? prefix D (S i)) eqn:Et.
    + apply Z.ltb_lt in Et.
      destruct (IH (S i) (prefix D (S i)) (S i) (prefix D (S i)) Hcs' eq_refl)
        as (na' & ap' & E & [(-> & -> & Hno) | (j & Hj & -> & -> & Hq & Hno)]).
      * exists (S i), (prefix D (S i)). split; [assumption | ]. right.
        exists i. repeat split; try lia. intros j' Hj'. apply Hno. lia.
      * exists (S j), (prefix D (S j)). split; [assumption | ]. right.
        exists j. repeat split; try lia. assumption.
    + apply Z.ltb_ge in Et.
      destruct (IH (S i) (prefix D (S i)) na ap Hcs' eq_refl)
        as (na' & ap' & E & [(-> & -> & Hno) | (j & Hj & -> & -> & Hq & Hno)]).
      * exists na, ap. split; [assumption | ]. left. repeat split.
        intros j Hj. destruct (decide (j = i)) as [-> | ]; [lia | ].
        apply Hno. lia.
      * exists (S j), (prefix D (S j)). split; [assumption | ]. right.
        exists j. repeat split; try lia. assumption.
Qed.

Lemma bit_hash_size (r : Z) :
  1 ≤ r →
  let nh := Nat.max 1 (bit r + 1) in
  (1 ≤ nh)%nat ∧ r < 2 ^ Z.of_nat nh ∧ (nh = 1%nat ∨ 2 ^ (Z.of_nat nh - 1) ≤ r).
Proof.
  intros Hr nh. pose proof (Z.log2_nonneg r) as Hn.
  pose proof (Z.log2_spec r ltac:(lia)) as [Hlo Hhi].
  assert (Enh : nh = (bit r + 1)%nat) by (unfold nh; lia).
  assert (Eb : Z.of_nat (bit r) = Z.log2 r) by (unfold bit; lia).
  split; [lia | ]. split.
  - rewrite Enh, Nat2Z.inj_add, Eb. exact Hhi.
  - right. rewrite Enh, Nat2Z.inj_add, Eb.
    replace (Z.log2 r + Z.of_nat 1 - 1) with (Z.log2 r) by lia. exact Hlo.
Qed.

(** *** [new_sizes] *)

Lemma length_omap_le {A B} (f : A → option B) (l : list A) :
  (length (omap f l) ≤ length l)%nat.
Proof.
  induction l as [ | x l IH]; [reflexivity | ].
  cbn. destruct (f x); cbn [length]; lia.
Qed.

Lemma integer_keys_le (t : Table) : Z.of_nat (length (integer_keys t)) ≤ live_count t.
Proof.
  unfold integer_keys, live_count. rewrite length_app.
  pose proof (length_omap_le int_key (hash_live (hash t))). lia.
Qed.

Lemma counted_prefix (t : Table) (i : nat) :
  prefix (with_bit (integer_keys t)) i = counted t (2 ^ Z.of_nat i).
Proof. apply prefix_with_bit. Qed.

Lemma counted_le (t : Table) (b : Z) : counted t b ≤ 1 + live_count t.
Proof.
  unfold counted. pose proof (integer_keys_le t).
  pose proof (length_filter (λ x, 1 ≤ x < b) (integer_keys t)). lia.
Qed.

(** What the three loops leave: the histogram of the Integer keys, and the
    number of entries plus two. *)
Lemma new_sizes_unfold (t : Table) :
  sized t →
  match new_sizes t with
  | Ok (na, nh) =>
      ∃ total ap,
        choose_array_size
          (take 31 (push_all (integer_keys t) (replicate MAX_BIT 0))) 0 (1, 0%nat, 0)
        = (total, na, ap) ∧
        nh = Nat.max 1 (bit (2 + live_count t - ap) + 1)
  | Err _ => ¬ keys_present (hash t)
  end.
Proof.
  intros Hs. unfold new_sizes. generalize (replicate MAX_BIT 0). intros c0.
  rewrite (count_array_spec _ _ _ Hs), bind_Ok_l.
  pose proof (count_hash_spec t
                (push_all (live_indices 1 (drop 1 (array t))) c0)
                (2 + Z.of_nat (length (live_indices 1 (drop 1 (array t))))) Hs) as Hc.
  destruct (count_hash t _) as [[counter hash_part] | e]; [ | exact Hc].
  rewrite bind_Ok_l. injection Hc as -> ->.
  change (Nat.min MAX_BIT 31) with 31%nat.
  assert (Ec : push_all (omap int_key (hash_live (hash t)))
                 (push_all (live_indices 1 (drop 1 (array t))) c0)
               = push_all (integer_keys t) c0).
  { unfold push_all, integer_keys. rewrite foldl_app. reflexivity. }
  rewrite Ec.
  destruct (choose_array_size _ 0 (1, 0%nat, 0)) as [[total na] ap] eqn:E.
  exists total, ap. split; [reflexivity | ].
  f_equal. f_equal. f_equal. unfold live_count. lia.
Qed.

(** The sizes that [recompute_size] passes to [resize], in terms of the
    keys in the table. *)
Lemma new_sizes_spec (t : Table) (na nh : nat) :
  sized t → new_sizes t = Ok (na, nh) →
  (na ≤ 31)%nat ∧
  (na = 0%nat ∨ 2 ^ (Z.of_nat na - 1) < counted t (2 ^ Z.of_nat na)) ∧
  (∀ i, (na ≤ i < 31)%nat → ¬ 2 ^ Z.of_nat i < counted t (2 ^ Z.of_nat (S i))) ∧
  let r := 2 + live_count t
           - (if decide (na = 0%nat) then 0 else counted t (2 ^ Z.of_nat na)) in
  1 ≤ r ∧ nh = Nat.max 1 (bit r + 1).
Proof.
  intros Hs E. pose proof (new_sizes_unfold t Hs) as Hu. rewrite E in Hu.
  destruct Hu as (total & ap & Ech & ->).
  set (keys := integer_keys t) in *.
  destruct (choose_array_size_spec (with_bit keys)
              (take 31 (push_all keys (replicate MAX_BIT 0))) 0 1 0%nat 0)
    as (na' & ap' & E' & Hcase).
  { intros j Hj. rewrite length_take, push_all_length, length_replicate in Hj.
    change (Nat.min 31 MAX_BIT) with 31%nat in Hj.
    rewrite lookup_take_lt by assumption. rewrite push_all_lookup.
    rewrite lookup_replicate_2 by (unfold MAX_BIT; lia). reflexivity. }
  { reflexivity. }
  rewrite Ech in E'. injection E' as _ <- <-.
  rewrite length_take, push_all_length, length_replicate in Hcase.
  change (Nat.min 31 MAX_BIT) with 31%nat in Hcase.
  destruct Hcase as [(-> & -> & Hno) | (j & Hj & -> & -> & Hq & Hno)].
  - split; [lia | ]. split; [auto | ]. split.
    + intros i Hi. unfold keys in Hno. rewrite <- counted_prefix. apply Hno. lia.
    + rewrite decide_True by reflexivity. cbn zeta. split; [ | reflexivity].
      unfold live_count. lia.
  - unfold keys in *. rewrite counted_prefix in *.
    split; [lia | ]. split.
    + right. replace (Z.of_nat (S j) - 1) with (Z.of_nat j) by lia. assumption.
    + split.
      * intros i Hi. rewrite <- counted_prefix. apply Hno. lia.
      * rewrite decide_False by discriminate. cbn zeta.
        split; [ | reflexivity]. pose proof (counted_le t (2 ^ Z.of_nat (S j))). lia.
Qed.

Lemma new_sizes_total (t : Table) :
  sized t → keys_present (hash t) → ∃ na nh, new_sizes t = Ok (na, nh).
Proof.
  intros Hs Hk. pose proof (new_sizes_unfold t Hs) as Hu.
  destruct (new_sizes t) as [[na nh] | e]; [eauto | contradiction].
Qed.

(** C7, as the code has it.  [recompute_size] returns sizes to [resize]
    such that: the new array size [2^na] is the largest power of two
    [2^(i+1)], [i] from 0 to 30, of which more than half is taken when slot
    0 is counted as taken and each Integer key from 1 to below [2^(i+1)]
    counts once, and is 1 when there is no such power; the new hash size
    [2^nh] is the smallest power of two, at least 2, above the remainder
    [r], which is the number of entries other than array slot 0, plus two
    (for key 0 and for the key about to be inserted), minus what was
    counted for the array part (nothing when the array size is 1); and
    [nh] is the bit length of [r], plus one. *)
Theorem recompute_size_sizes (t : Table) :
  sized t → keys_present (hash t) →
  ∃ na nh,
    new_sizes t = Ok (na, nh) ∧
    (∀ ins, recompute_size_with ins t = resize_with ins t na nh) ∧
    (na ≤ 31)%nat ∧
    (na = 0%nat ∨ 2 ^ (Z.of_nat na - 1) < counted t (2 ^ Z.of_nat na)) ∧
    (∀ i, (na ≤ i < 31)%nat → ¬ 2 ^ Z.of_nat i < counted t (2 ^ Z.of_nat (S i))) ∧
    let r := 2 + live_count t
             - (if decide (na = 0%nat) then 0 else counted t (2 ^ Z.of_nat na)) in
    1 ≤ r ∧ nh = Nat.max 1 (bit r + 1) ∧
    (1 ≤ nh)%nat ∧ r < 2 ^ Z.of_nat nh ∧ (nh = 1%nat ∨ 2 ^ (Z.of_nat nh - 1) ≤ r).
Proof.
  intros Hs Hk. destruct (new_sizes_total t Hs Hk) as (na & nh & E).
  exists na, nh. split; [assumption | ]. split.
  { intros ins. unfold recompute_size_with. rewrite E. reflexivity. }
  destruct (new_sizes_spec t na nh Hs E) as (H1 & H2 & H3 & H4 & H5).
  split; [assumption | ]. split; [assumption | ]. split; [assumption | ].
  cbn zeta in *. split; [assumption | ]. split; [assumption | ].
  rewrite H5. apply bit_hash_size. assumption.
Qed.

End Sizing.

(** ** The invariant on Integer keys, and the room that [resize] leaves *)

Section Capacity.
Context `{U : IHashTypes}.
Variable reg : Registry.

Lemma array_size_pow (t : Table) : array_size t = 2 ^ Z.of_nat (array_size_log2 t).
Proof. unfold array_size. apply Z.shiftl_1_l. Qed.

(** A key that [insert] sends to the hash segment is not an index of the
    array. *)
Lemma in_array_part_range (t : Table) (x : Z) :
  (array_size_log2 t ≤ 64)%nat →
  in_array_part t (INT x) = None → ¬ (0 ≤ x < array_size t).
Proof.
  intros Hl. unfold in_array_part.
  destruct (wrap64 x <? array_size t) eqn:E; [discriminate | ].
  intros _ Hx. apply Z.ltb_ge in E.
  assert (array_size t ≤ 2 ^ 64).
  { rewrite array_size_pow. apply Z.pow_le_mono_r; lia. }
  unfold wrap64 in E. rewrite Z.mod_small in E by lia. lia.
Qed.

Lemma keys_inv_sim (t t1 : Table) :
  array_keys_not_in_hash t → hash_sim (hash t1) (hash t) →
  array_size_log2 t1 = array_size_log2 t →
  array_keys_not_in_hash t1.
Proof.
  intros Hinv Hs Ea i n1 x Hi He Hk.
  destruct (hash_sim_lookup _ _ _ _ Hs Hi) as (n & Hn & Hsim).
  unfold array_size. rewrite Ea. apply (Hinv i n x Hn).
  - rewrite <- (node_sim_empty _ _ Hsim). assumption.
  - destruct Hsim as (Ek & _). congruence.
Qed.

Lemma keys_inv_grown (t1 t' : Table) (k : Key) :
  (array_size_log2 t1 ≤ 64)%nat →
  array_keys_not_in_hash t1 → in_array_part t1 k = None →
  array_size_log2 t' = array_size_log2 t1 →
  grown_by k (hash t1) (hash t') →
  array_keys_not_in_hash t'.
Proof.
  intros Hl Hinv Ea Es (_ & _ & _ & Hkeys) i n' x Hi He Hk.
  assert (Eas : array_size t' = array_size t1) by (unfold array_size; rewrite Es; reflexivity).
  rewrite Eas.
  destruct (Hkeys i n' Hi He) as [Hnew | (j0 & n0 & Hj0 & He0 & Hk0)].
  - assert (k = INT x) by congruence. subst k.
    apply in_array_part_range; assumption.
  - apply (Hinv j0 n0 x Hj0 He0). congruence.
Qed.

(** The three ways in which a call of [insert] returns. *)
Lemma insert_cases (fuel : nat) (t : Table) (k : Key) (v : Value) (t' : Table) :
  insert reg (S fuel) t k v = Ok t' →
  (∃ i, in_array_part t k = Some i ∧ (Z.to_nat i < length (array t))%nat ∧
        t' = set_array (<[Z.to_nat i := Some v]> (array t)) t)
  ∨ (in_array_part t k = None ∧
     ∃ t1, (t1 = t ∨ ∃ free, get_free_pos t = Ok (Some free, t1)) ∧
           same_frame t' t1 ∧ last_free t' = last_free t1 ∧
           vacancy_head t' = vacancy_head t1 ∧
           grown_by k (hash t1) (hash t'))
  ∨ (in_array_part t k = None ∧
     ∃ t1 t2, get_free_pos t = Ok (None, t1) ∧
              recompute_size_with (insert reg fuel) t1 = Ok t2 ∧
              insert reg fuel t2 k v = Ok t').
Proof.
  intros E. apply insert_inv in E
    as [(i & Ea & Hi & ->) | (Ea & mp & n & Emp & Hn & [(Ho & ->) | (Ho & r & t1 & Eg & E)])].
  - left. eauto.
  - right. left. split; [assumption | ]. exists t. split; [auto | ].
    split; [repeat split | ]. split; [reflexivity | ]. split; [reflexivity | ].
    simpl. eapply grown_by_overwrite; eauto.
  - right. destruct r as [free | ].
    + left. split; [assumption | ]. exists t1. split; [eauto | ].
      pose proof Eg as Eg'.
      apply get_free_pos_spec in Eg' as (Hs & Hf & Hfree).
      destruct (Hfree free eq_refl) as (nf & Hnf & Hef).
      destruct (hash_sim_lookup_r _ _ _ _ Hs Hn) as (n1 & Hn1 & Hsim).
      rewrite <- (overwrites_sim _ _ k Hsim) in Ho.
      apply overwrites_false in Ho as (He1 & _).
      destruct (insert_at_free_grows reg _ _ _ _ _ _ _ _ Hn1 He1 Hnf Hef E)
        as (H1 & H2 & H3 & H4 & H5).
      auto.
    + right. split; [assumption | ]. destruct E as (t2 & E1 & E2). eauto.
Qed.

(** *** [insert] on the table that [resize] fills *)

Lemma get_free_pos_no_vacancy (t : Table) (r : option nat) (t1 : Table) :
  vacancy_head t = None → get_free_pos t = Ok (r, t1) →
  scan_free (hash t) (last_free t) = Ok (r, last_free t1) ∧
  t1 = set_last_free (last_free t1) t.
Proof.
  intros Hv. unfold get_free_pos. cbn [prune_vacancy]. rewrite Hv.
  rewrite bind_Ok_l. intros E. bind_inv E as [r' lf] Es. injection E as <- <-.
  simpl. auto.
Qed.

Lemma filling_full (na nh c : nat) (nt : Table) :
  filling na nh c nt →
  (∀ j, (j ≤ last_free nt)%nat → ∃ n, hash nt !! j = Some n ∧ node_empty n = false) →
  (length (hash nt) ≤ c)%nat.
Proof.
  intros (_ & _ & _ & _ & _ & (Hlf & Hcur) & Hc & _) Hlow.
  rewrite <- (hash_live_full (hash nt)); [assumption | ].
  intros j Hj. destruct (decide (j ≤ last_free nt)%nat); [auto | ].
  apply Hcur. lia.
Qed.

Lemma filling_grown (na nh c : nat) (nt nt' : Table) (k : Key) :
  filling na nh c nt →
  in_array_part nt k = None →
  array nt' = array nt → array_size_log2 nt' = array_size_log2 nt →
  hash_size_log2 nt' = hash_size_log2 nt → resizes nt' = resizes nt →
  vacancy_head nt' = None →
  (last_free nt' < length (hash nt))%nat →
  (∀ j, (last_free nt' < j < length (hash nt))%nat →
        ∃ n, hash nt !! j = Some n ∧ node_empty n = false) →
  grown_by k (hash nt) (hash nt') →
  filling na nh (S c) nt'.
Proof.
  intros ((Hla & Hlh & Hl31) & Hna & Hnh & Hres & Hvac & _ & Hcnt & Hinv)
    Ea Har Has Hhs Hrs Hv Hlf Hcur Hg.
  pose proof Hg as (Hlen & Hkeep & Hcount & Hkeys).
  split; [ | split; [congruence | split; [congruence | split; [congruence | split;
    [assumption | split; [ | split; [lia | ]]]]]]].
  - unfold sized. rewrite Har, Has, Hhs, Hlen. auto.
  - split; [rewrite Hlen; assumption | ].
    intros j Hj. rewrite Hlen in Hj.
    destruct (Hcur j Hj) as (n & Hn & He). eauto.
  - eapply keys_inv_grown; eauto. lia.
Qed.

Lemma filling_step (na nh c : nat) (nt : Table) (fuel : nat) (k : Key) (v : Value)
    (nt' : Table) :
  filling na nh c nt → (c < 2 ^ nh)%nat →
  insert reg fuel nt k v = Ok nt' →
  filling na nh (S c) nt'.
Proof.
  intros Hfill Hc E. destruct fuel as [ | fuel]; [discriminate | ].
  pose proof Hfill as ((Hla & Hlh & Hl31) & Hna & Hnh & Hres & Hvac & (Hlf & Hcur) & Hcnt & Hinv).
  apply insert_cases in E
    as [(i & Ea & Hi & ->) | [(Ea & t1 & Ht1 & Hf & Hlf' & Hv' & Hg) | (Ea & t1 & t2 & Eg & _)]].
  - (* into the array *)
    split; [ | split; [assumption | split; [assumption | split; [assumption | split;
      [assumption | split; [split; assumption | split; [simpl; lia | ]]]]]]].
    + unfold sized. simpl. rewrite length_insert. auto.
    + exact Hinv.
  - destruct Hf as (Har & Has & Hhs & Hrs).
    destruct Ht1 as [-> | (free & Eg)].
    + (* over the main position *)
      eapply filling_grown; eauto.
      * congruence.
      * rewrite Hlf'. assumption.
      * rewrite Hlf'. assumption.
    + (* into a free slot *)
      apply get_free_pos_no_vacancy in Eg as (Es & Et1); [ | assumption].
      apply scan_free_spec in Es as (Hle & Hmid & _).
      rewrite Et1 in Har, Has, Hhs, Hrs, Hv', Hg. simpl in *.
      eapply filling_grown; eauto.
      * congruence.
      * rewrite Hlf'. lia.
      * rewrite Hlf'. intros j Hj.
        destruct (decide (j ≤ last_free nt)%nat); [apply Hmid | apply Hcur]; lia.
  - (* no free slot: the segment would be full *)
    apply get_free_pos_no_vacancy in Eg as (Es & _); [ | assumption].
    apply scan_free_spec in Es as (_ & _ & Hall).
    pose proof (filling_full na nh c nt Hfill Hall) as Hfull.
    rewrite Hlh, Hnh in Hfull. lia.
Qed.

(** *** The loops of [resize] *)

Lemma filling_weaken (na nh c c' : nat) (nt : Table) :
  filling na nh c nt → (c ≤ c')%nat → filling na nh c' nt.
Proof.
  intros (H1 & H2 & H3 & H4 & H5 & H6 & H7 & H8) Hc.
  repeat (split; [assumption | ]). split; [lia | assumption].
Qed.

Lemma Table_new_filling (na nh : nat) :
  (na ≤ 31)%nat → filling na nh 0 (Table_new na nh).
Proof.
  intros Hna. assert (Hpos : (0 < 2 ^ nh)%nat).
  { apply Nat.neq_0_lt_0, Nat.pow_nonzero. discriminate. }
  assert (Hempty : ∀ j n, replicate (2 ^ nh) Node_default !! j = Some n →
                          node_empty n = true).
  { intros j n Hj. apply lookup_replicate in Hj as [-> _]. reflexivity. }
  split; [ | split; [reflexivity | split; [reflexivity | split; [reflexivity | split;
    [reflexivity | split; [ | split]]]]]]; simpl.
  - unfold sized. simpl. rewrite !length_replicate. auto.
  - split; simpl; rewrite length_replicate; [lia | ]. intros j Hj. lia.
  - rewrite hash_live_replicate_default. simpl. lia.
  - intros i n x Hi He. simpl in Hi. apply Hempty in Hi. congruence.
Qed.

Lemma array1_store_filling (na nh c : nat) (nt : Table) (x : Z) (v : option Value)
    (nt' : Table) :
  array1_store nt x v = Ok nt' → filling na nh c nt → filling na nh c nt'.
Proof.
  unfold array1_store. destruct (negb (resizes nt =? 0)%nat); [discriminate | ].
  destruct ((x <? 0) || (Z.of_nat (length (array nt)) <=? x)); [discriminate | ].
  intros [= <-] ((Hla & Hlh & Hl31) & H2 & H3 & H4 & H5 & H6 & H7 & H8).
  split; [ | repeat (split; [assumption | ]); assumption].
  unfold sized. simpl. rewrite length_insert. auto.
Qed.

Section Loops.
Variables (na nh : nat) (t : Table).
Variable ins : Table → Key → Value → result Table.
Hypothesis ins_step : ∀ c nt k v nt',
  filling na nh c nt → (c < 2 ^ nh)%nat → ins nt k v = Ok nt' →
  filling na nh (S c) nt'.

Lemma move_loop (l : list nat) :
  ∀ c nt nt', foldM (resize_move_step t) l nt = Ok nt' →
  filling na nh c nt → filling na nh c nt'.
Proof.
  induction l as [ | i l IH]; intros c nt nt' E Hf.
  - injection E as <-. assumption.
  - cbn [foldM] in E. bind_inv E as nt1 E1. unfold resize_move_step in E1.
    bind_inv E1 as v Ev. eapply IH; eauto. eapply array1_store_filling; eauto.
Qed.

Lemma array_loop (l : list (option Value)) :
  ∀ lo c nt nt', drop lo (array t) = l →
  foldM (resize_array_step ins t) (seq lo (length l)) nt = Ok nt' →
  filling na nh c nt →
  (c + length (live_indices lo l) ≤ 2 ^ nh)%nat →
  filling na nh (c + length (live_indices lo l)) nt'.
Proof.
  induction l as [ | slot l IH]; intros lo c nt nt' Hd E Hf Hc.
  - injection E as <-. simpl. rewrite Nat.add_0_r. assumption.
  - apply drop_cons_lookup in Hd as (Hs & Hd).
    cbn [length seq foldM] in E. bind_inv E as nt1 E1.
    unfold resize_array_step in E1. rewrite (at_index_Some _ _ _ Hs), bind_Ok_l in E1.
    cbn [live_indices] in *. destruct slot as [a | ]; [ | discriminate].
    destruct (has_value a).
    + cbn [length] in *. replace (c + S (length (live_indices (S lo) l)))%nat
        with (S c + length (live_indices (S lo) l))%nat by lia.
      eapply IH; eauto; [ | lia]. eapply ins_step; eauto. lia.
    + injection E1 as <-. eapply IH; eauto.
Qed.

Lemma hash_loop (B : Z) (l : list Node) :
  ∀ lo c nt nt', drop lo (hash t) = l →
  foldM (resize_hash_step ins t B) (seq lo (length l)) nt = Ok nt' →
  filling na nh c nt →
  (c + length (filter (λ n, goes_to_hash B n = true) l) ≤ 2 ^ nh)%nat →
  filling na nh (c + length (filter (λ n, goes_to_hash B n = true) l)) nt'.
Proof.
  induction l as [ | n l IH]; intros lo c nt nt' Hd E Hf Hc.
  - injection E as <-. simpl. rewrite Nat.add_0_r. assumption.
  - apply drop_cons_lookup in Hd as (Hs & Hd).
    cbn [length seq foldM] in E. bind_inv E as nt1 E1.
    unfold resize_hash_step in E1. rewrite (at_index_Some _ _ _ Hs), bind_Ok_l in E1.
    destruct (goes_to_hash B n) eqn:Hg.
    + (* the node goes through [insert] *)
      rewrite filter_cons_True in * by assumption. cbn [length] in *.
      assert (Hi : ∃ k v, ins nt k v = Ok nt1).
      { unfold goes_to_hash in Hg.
        destruct (value n) as [v | ]; [ | discriminate].
        destruct (key n) as [k | ]; [ | discriminate].
        destruct k as [x | | | | ]; eauto.
        destruct (x <? B); [discriminate | eauto]. }
      destruct Hi as (k & v & Hi).
      replace (c + S (length (filter (λ n, goes_to_hash B n = true) l)))%nat
        with (S c + length (filter (λ n, goes_to_hash B n = true) l))%nat by lia.
      eapply IH; eauto; [ | lia]. eapply ins_step; eauto. lia.
    + (* the node stays out or goes to the array *)
      rewrite filter_cons_False in * by (rewrite Hg; discriminate).
      eapply IH; eauto. unfold goes_to_hash in Hg.
      destruct (value n) as [v | ]; [ | injection E1 as <-; assumption].
      destruct (key n) as [k | ]; [ | discriminate].
      destruct k as [x | | | | ]; try discriminate.
      destruct (x <? B); [ | discriminate].
      eapply array1_store_filling; eauto.
Qed.

End Loops.

(** *** How many entries go through [insert] *)

Lemma live_indices_bounds (l : list (option Value)) :
  ∀ lo x, x ∈ live_indices lo l → Z.of_nat lo ≤ x < Z.of_nat (lo + length l).
Proof.
  induction l as [ | slot l IH]; intros lo x Hx; [inversion Hx | ].
  cbn [live_indices length] in *.
  assert (Hrest : x ∈ live_indices (S lo) l → Z.of_nat lo ≤ x < Z.of_nat (lo + S (length l))).
  { intros H. apply IH in H. lia. }
  destruct slot as [a | ]; [ | auto]. destruct (has_value a); [ | auto].
  apply elem_of_cons in Hx as [-> | Hx]; [lia | auto].
Qed.

Lemma filter_nil_length {A} (P : A → Prop) `{∀ x, Decision (P x)} (l : list A) :
  (∀ x, x ∈ l → ¬ P x) → length (filter P l) = 0%nat.
Proof.
  induction l as [ | x l IH]; intros Hn; [reflexivity | ].
  rewrite filter_cons_False by (apply Hn; left). apply IH.
  intros y Hy. apply Hn. right. assumption.
Qed.

Lemma filter_length_mono {A} (P Q : A → Prop)
    `{∀ x, Decision (P x)} `{∀ x, Decision (Q x)} (l : list A) :
  (∀ x, x ∈ l → P x → Q x) →
  (length (filter P l) ≤ length (filter Q l))%nat.
Proof.
  induction l as [ | x l IH]; intros Hpq; [reflexivity | ].
  assert (IH' : (length (filter P l) ≤ length (filter Q l))%nat).
  { apply IH. intros y Hy. apply Hpq. right. assumption. }
  rewrite !filter_cons. destruct (decide (P x)) as [HP | HP].
  - rewrite decide_True by (apply Hpq; [left | assumption]). cbn [length]. lia.
  - destruct (decide (Q x)); cbn [length]; lia.
Qed.

(** The array slots with a value from [b] on and those below [b] make up
    all of them. *)
Lemma live_indices_below (l : list (option Value)) :
  ∀ lo b, (lo ≤ b)%nat →
  (length (live_indices b (drop (b - lo) l))
   + length (filter (λ x : Z, (x < Z.of_nat b)%Z) (live_indices lo l))
   = length (live_indices lo l))%nat.
Proof.
  induction l as [ | slot l IH]; intros lo b Hb.
  - rewrite drop_nil. reflexivity.
  - destruct (decide (lo = b)) as [-> | Hne].
    + rewrite Nat.sub_diag, drop_0, filter_nil_length; [lia | ].
      intros x Hx. apply live_indices_bounds in Hx. lia.
    + replace (b - lo)%nat with (S (b - S lo)) by lia. cbn [drop live_indices].
      specialize (IH (S lo) b ltac:(lia)).
      destruct slot as [a | ]; [ | exact IH]. destruct (has_value a); [ | exact IH].
      rewrite filter_cons_True by lia. cbn [length]. lia.
Qed.

Lemma node_empty_false_value (n : Node) :
  node_empty n = false → ∃ v, value n = Some v.
Proof. unfold node_empty. destruct (value n); [eauto | discriminate]. Qed.

(** A node of the hash segment goes through [insert] or is counted for the
    array part, not both. *)
Lemma hash_calls_bound (B : Z) (h : list Node) :
  (length (filter (λ n, goes_to_hash B n = true) h)
   + length (filter (λ x : Z, (1 ≤ x < B)%Z) (omap int_key (hash_live h)))
   ≤ length (hash_live h))%nat.
Proof.
  induction h as [ | n h IH]; [reflexivity | ].
  rewrite hash_live_cons_eq. destruct (node_empty n) eqn:Ee.
  - rewrite filter_cons_False; [exact IH | ].
    unfold goes_to_hash, node_empty in *. destruct (value n); discriminate.
  - rewrite omap_int_key_cons. cbn [length].
    destruct (node_empty_false_value n Ee) as [v Ev].
    assert (Hle : (length (filter (λ n, goes_to_hash B n = true) (n :: h))
                   ≤ S (length (filter (λ n, goes_to_hash B n = true) h)))%nat).
    { rewrite filter_cons.
      destruct (decide (goes_to_hash B n = true)); cbn [length]; lia. }
    unfold int_key at 1. destruct (key n) as [k | ] eqn:Ek; [ | lia].
    destruct k as [x | | | | ]; try lia.
    destruct (decide (1 ≤ x < B)) as [Hx | Hx].
    + rewrite (filter_cons_True (λ x : Z, (1 ≤ x < B)%Z)) by assumption.
      cbn [length].
      rewrite (filter_cons_False (λ n, goes_to_hash B n = true)); [lia | ].
      unfold goes_to_hash. rewrite Ev, Ek.
      destruct (x <? B) eqn:Ex; [discriminate | ]. apply Z.ltb_ge in Ex. lia.
    + rewrite (filter_cons_False (λ x : Z, (1 ≤ x < B)%Z)) by assumption. lia.
Qed.

(** With the sizes that [recompute_size] computes, the entries that go
    through [insert] leave two slots of the new hash segment free. *)
Lemma calls_bound (t : Table) (na nh : nat) :
  sized t → new_sizes t = Ok (na, nh) →
  let boundary := Z.to_nat (Z.min (array_size t) (Z.shiftl 1 (Z.of_nat na))) in
  (length (live_indices boundary (drop boundary (array t)))
   + length (filter (λ n, goes_to_hash (Z.shiftl 1 (Z.of_nat na)) n = true) (hash t))
   + 2 ≤ 2 ^ nh)%nat.
Proof.
  intros Hs E. cbn zeta.
  destruct (new_sizes_spec t na nh Hs E) as (Hna & _ & _ & Hr & Hnh).
  cbn zeta in Hr, Hnh. pose proof (bit_hash_size _ Hr) as (_ & Hlt & _).
  cbn zeta in Hlt. rewrite <- Hnh in Hlt. clear Hnh.
  rewrite Z.shiftl_1_l. set (B := 2 ^ Z.of_nat na) in *.
  set (boundary := Z.to_nat (Z.min (array_size t) B)).
  destruct Hs as (Hla & Hlh & Hl31).
  assert (HB : 1 ≤ B).
  { unfold B. pose proof (Z.pow_pos_nonneg 2 (Z.of_nat na)). lia. }
  assert (Has : 1 ≤ array_size t).
  { rewrite array_size_pow.
    pose proof (Z.pow_pos_nonneg 2 (Z.of_nat (array_size_log2 t))). lia. }
  assert (Hbz : Z.of_nat boundary = Z.min (array_size t) B) by (unfold boundary; lia).
  assert (Hlen : Z.of_nat (length (array t)) = array_size t).
  { rewrite Hla, array_size_pow, Nat2Z.inj_pow. reflexivity. }
  set (A := live_indices 1 (drop 1 (array t))) in *.
  (* the array *)
  pose proof (live_indices_below (drop 1 (array t)) 1 boundary ltac:(lia)) as HA.
  rewrite drop_drop in HA. replace (1 + (boundary - 1))%nat with boundary in HA by lia.
  fold A in HA.
  assert (HA' : (length (filter (λ x : Z, (1 ≤ x < B)%Z) A)
                 ≤ length (filter (λ x : Z, (x < Z.of_nat boundary)%Z) A))%nat).
  { apply filter_length_mono. intros x Hx HP.
    apply live_indices_bounds in Hx. rewrite length_drop in Hx. lia. }
  (* the hash segment *)
  pose proof (hash_calls_bound B (hash t)) as HH.
  (* what was counted *)
  assert (Hcounted : counted t B
            = 1 + Z.of_nat (length (filter (λ x : Z, (1 ≤ x < B)%Z) A))
              + Z.of_nat (length (filter (λ x : Z, (1 ≤ x < B)%Z)
                                    (omap int_key (hash_live (hash t)))))).
  { unfold counted, integer_keys. fold A.
    rewrite list.filter_app, length_app. lia. }
  assert (Hlive : live_count t
            = Z.of_nat (length A) + Z.of_nat (length (hash_live (hash t)))).
  { unfold live_count. fold A. lia. }
  assert (Hpow : Z.of_nat (2 ^ nh) = 2 ^ Z.of_nat nh) by apply Nat2Z.inj_pow.
  destruct (decide (na = 0%nat)) as [-> | Hne].
  - lia.
  - fold B in Hlt. lia.
Qed.

(** [resize], called with these sizes, returns a table that satisfies the
    invariants, was filled without a resize of its own, and has two free
    slots in its hash segment. *)
Lemma resize_filling (fuel : nat) (t : Table) (na nh : nat) (t' : Table) :
  sized t → new_sizes t = Ok (na, nh) →
  resize_with (insert reg fuel) t na nh = Ok t' →
  sized t' ∧ array_keys_not_in_hash t' ∧
  array_size_log2 t' = na ∧ hash_size_log2 t' = nh ∧
  vacancy_head t' = None ∧ cursor_ok t' ∧
  (length (hash_live (hash t')) + 2 ≤ 2 ^ nh)%nat ∧
  resizes t' = S (resizes t).
Proof.
  intros Hs En E. pose proof (calls_bound t na nh Hs En) as Hcalls.
  destruct (new_sizes_spec t na nh Hs En) as (Hna & _).
  cbn zeta in Hcalls. unfold resize_with in E.
  destruct (nh <? 1)%nat; [discriminate | ].
  set (B := Z.shiftl 1 (Z.of_nat na)) in *.
  set (boundary := Z.to_nat (Z.min (array_size t) B)) in *.
  bind_inv E as nt1 E1. bind_inv E as nt2 E2. bind_inv E as nt3 E3.
  injection E as <-.
  pose proof Hs as (Hla & Hlh & _).
  pose proof (Table_new_filling na nh Hna) as F0.
  pose proof (move_loop na nh t _ 0%nat _ _ E1 F0) as F1.
  assert (Hstep : ∀ c nt k v nt', filling na nh c nt → (c < 2 ^ nh)%nat →
            insert reg fuel nt k v = Ok nt' → filling na nh (S c) nt').
  { intros c nt k v nt'. apply filling_step. }
  unfold for_range in E2, E3.
  assert (El2 : (Z.to_nat (array_size t) - boundary)%nat
                = length (drop boundary (array t))).
  { rewrite length_drop, Hla, array_size_nat. reflexivity. }
  rewrite El2 in E2.
  pose proof (array_loop na nh t (insert reg fuel) Hstep _ boundary 0%nat nt1 nt2
                eq_refl E2 F1 ltac:(lia)) as F2.
  assert (El3 : (Z.to_nat (hash_size t) - 0)%nat = length (hash t)).
  { rewrite Nat.sub_0_r, Hlh, hash_size_nat. reflexivity. }
  rewrite El3 in E3.
  pose proof (hash_loop na nh t (insert reg fuel) Hstep B (hash t) 0%nat _ nt2 nt3
                eq_refl E3 F2 ltac:(lia)) as F3.
  destruct F3 as ((Hla3 & Hlh3 & Hl3) & Hna3 & Hnh3 & Hres3 & Hvac3 & Hcur3 & Hcnt3 & Hinv3).
  simpl. split; [ | split; [ | repeat split; try assumption; try lia]].
  - unfold sized. simpl. rewrite Hla3, Hlh3, Hna3, Hnh3. auto.
  - intros i n x Hi He Hk. simpl in Hi. unfold array_size. simpl.
    rewrite <- Hna3. apply (Hinv3 i n x Hi He Hk).
  - apply Hcur3.
  - apply Hcur3.
Qed.

(** *** The invariant *)

Lemma free_eq (t t' : Table) (i : nat) :
  free t i = Ok t' →
  (i < length (hash t))%nat ∧
  t' = set_vacancy_head (Some i)
         (set_hash (<[i := {| key := None; value := None; next := None;
                              vacancy_next := vacancy_head t |}]> (hash t)) t).
Proof.
  unfold free. intros E. bind_inv E as n En. apply at_index_lt in En.
  injection E as <-. auto.
Qed.

(** The keys that [erase] leaves in the hash segment were there before. *)
Lemma erase_keys (t : Table) (k : Key) (t' : Table) :
  erase reg t k = Ok t' →
  array_size_log2 t' = array_size_log2 t ∧
  hash_size_log2 t' = hash_size_log2 t ∧
  length (array t') = length (array t) ∧
  length (hash t') = length (hash t) ∧
  ∀ j n', hash t' !! j = Some n' → node_empty n' = false →
    ∃ j0 n0, hash t !! j0 = Some n0 ∧ node_empty n0 = false ∧ key n0 = key n'.
Proof.
  unfold erase. destruct (in_array_part t k) as [i | ]; intros E.
  - bind_inv E as x Ex. injection E as <-. simpl.
    rewrite length_insert. repeat split. eauto.
  - bind_inv E as mp0 Emp. bind_inv E as [mp' last] Ef.
    destruct mp' as [mp | ].
    2: { injection E as <-. repeat split. eauto. }
    bind_inv E as n En. apply at_index_Ok in En.
    destruct last as [l | ].
    + assert (E' : (ln ← at_index (hash t) l;
                    free (set_hash (<[l := set_next (next n) ln]> (hash t)) t) mp)
                   = Ok t') by (destruct (next n); exact E).
      clear E. bind_inv E' as ln El. apply at_index_Ok in El.
      apply free_eq in E' as (Hlt & ->). simpl in *.
      rewrite !length_insert. repeat split.
      intros j n' Hj He. destruct (decide (j = mp)) as [-> | Hne].
      { rewrite list_lookup_insert_eq in Hj by assumption.
        injection Hj as <-. discriminate. }
      rewrite list_lookup_insert_ne in Hj by auto.
      destruct (decide (j = l)) as [-> | Hne'].
      * rewrite list_lookup_insert_eq in Hj by (eapply lookup_lt_Some; eauto).
        injection Hj as <-. exists l, ln. auto.
      * rewrite list_lookup_insert_ne in Hj by auto. eauto.
    + destruct (next n) as [nx | ].
      * bind_inv E as nn Enn. apply at_index_Ok in Enn.
        apply free_eq in E as (Hlt & ->). simpl in *.
        rewrite !length_insert. repeat split.
        intros j n' Hj He. destruct (decide (j = nx)) as [-> | Hne].
        { rewrite list_lookup_insert_eq in Hj by assumption.
          injection Hj as <-. discriminate. }
        rewrite list_lookup_insert_ne in Hj by auto.
        destruct (decide (j = mp)) as [-> | Hne'].
        -- rewrite list_lookup_insert_eq in Hj by (eapply lookup_lt_Some; eauto).
           injection Hj as <-. exists nx, nn. auto.
        -- rewrite list_lookup_insert_ne in Hj by auto. eauto.
      * apply free_eq in E as (Hlt & ->). simpl in *.
        rewrite !length_insert. repeat split.
        intros j n' Hj He. destruct (decide (j = mp)) as [-> | Hne].
        { rewrite list_lookup_insert_eq in Hj by assumption.
          injection Hj as <-. discriminate. }
        rewrite list_lookup_insert_ne in Hj by auto. eauto.
Qed.

Lemma erase_preserves (t : Table) (k : Key) (t' : Table) :
  sized t → array_keys_not_in_hash t → erase reg t k = Ok t' →
  sized t' ∧ array_keys_not_in_hash t'.
Proof.
  intros (Hla & Hlh & Hl31) Hinv E.
  apply erase_keys in E as (Has & Hhs & Hal & Hhl & Hkeys). split.
  - unfold sized. rewrite Has, Hhs, Hal, Hhl. auto.
  - intros j n' x Hj He Hk. unfold array_size. rewrite Has.
    destruct (Hkeys j n' Hj He) as (j0 & n0 & Hj0 & He0 & Hk0).
    apply (Hinv j0 n0 x Hj0 He0). congruence.
Qed.

Lemma get_free_pos_preserves (t : Table) (r : option nat) (t1 : Table) :
  sized t → array_keys_not_in_hash t → get_free_pos t = Ok (r, t1) →
  sized t1 ∧ array_keys_not_in_hash t1.
Proof.
  intros (Hla & Hlh & Hl31) Hinv E.
  apply get_free_pos_spec in E as (Hs & (Har & Has & Hhs & _) & _). split.
  - unfold sized. rewrite Har, Has, Hhs, (hash_sim_length _ _ Hs). auto.
  - eapply keys_inv_sim; eauto.
Qed.

Lemma recompute_size_preserves (fuel : nat) (t t' : Table) :
  sized t → recompute_size_with (insert reg fuel) t = Ok t' →
  sized t' ∧ array_keys_not_in_hash t'.
Proof.
  intros Hs E. unfold recompute_size_with in E. bind_inv E as [na nh] En.
  apply (resize_filling fuel t na nh t' Hs En) in E as (H1 & H2 & _). auto.
Qed.

Lemma insert_preserves (fuel : nat) (t : Table) (k : Key) (v : Value) (t' : Table) :
  sized t → array_keys_not_in_hash t → insert reg fuel t k v = Ok t' →
  sized t' ∧ array_keys_not_in_hash t'.
Proof.
  revert t. induction fuel as [ | fuel IH]; intros t Hs Hinv E; [discriminate | ].
  apply insert_cases in E
    as [(i & Ea & Hi & ->) | [(Ea & t1 & Ht1 & Hf & _ & _ & Hg) | (Ea & t1 & t2 & Eg & Er & E)]].
  - destruct Hs as (Hla & Hlh & Hl31). split; [ | exact Hinv].
    unfold sized. simpl. rewrite length_insert. auto.
  - assert (H1 : sized t1 ∧ array_keys_not_in_hash t1 ∧
                 array_size_log2 t1 = array_size_log2 t).
    { destruct Ht1 as [-> | (free & Eg)]; [auto | ].
      destruct (get_free_pos_preserves _ _ _ Hs Hinv Eg) as (? & ?).
      apply get_free_pos_spec in Eg as (_ & (_ & ? & _) & _). auto. }
    destruct H1 as ((Hla & Hlh & Hl31) & Hinv1 & Has1).
    destruct Hf as (Har & Has & Hhs & _). split.
    + unfold sized. destruct Hg as (Hlen & _).
      rewrite Har, Has, Hhs, Hlen. auto.
    + eapply keys_inv_grown; eauto; [lia | ].
      rewrite <- Ea. apply in_array_part_frame. assumption.
  - destruct (get_free_pos_preserves _ _ _ Hs Hinv Eg) as (Hs1 & _).
    destruct (recompute_size_preserves _ _ _ Hs1 Er) as (Hs2 & Hinv2).
    eapply IH; eauto.
Qed.

(** A key in the range of the array is looked up and stored there. *)
Lemma array_key_in_array (t : Table) (x : Z) :
  (array_size_log2 t ≤ 64)%nat → 0 ≤ x < array_size t →
  in_array_part t (INT x) = Some x.
Proof.
  intros Hl Hx. unfold in_array_part.
  assert (array_size t ≤ 2 ^ 64).
  { rewrite array_size_pow. apply Z.pow_le_mono_r; lia. }
  unfold wrap64. rewrite Z.mod_small by lia.
  destruct (x <? array_size t) eqn:E; [reflexivity | ].
  apply Z.ltb_ge in E. lia.
Qed.

(** C4: no Integer key from the range of the array is in the hash segment,
    on the new table and after [insert], [erase] and the resize that
    [insert] performs ([query] returns no table); such a key is looked up
    in the array segment and stored there. *)
Theorem integer_keys_stay_in_array (t : Table) :
  sized t → array_keys_not_in_hash t →
  (∀ fuel k v t', insert reg fuel t k v = Ok t' →
     sized t' ∧ array_keys_not_in_hash t') ∧
  (∀ k t', erase reg t k = Ok t' → sized t' ∧ array_keys_not_in_hash t') ∧
  (∀ fuel t', recompute_size reg fuel t = Ok t' →
     sized t' ∧ array_keys_not_in_hash t') ∧
  (∀ x, 0 ≤ x < array_size t →
     query reg t (INT x) = at_index (array t) (Z.to_nat x) ∧
     ∀ fuel v, insert reg (S fuel) t (INT x) v
               = Ok (set_array (<[Z.to_nat x := Some v]> (array t)) t)).
Proof.
  intros Hs Hinv. split; [ | split; [ | split]].
  - intros fuel k v t'. apply insert_preserves; assumption.
  - intros k t'. apply erase_preserves; assumption.
  - intros fuel t'. apply recompute_size_preserves; assumption.
  - intros x Hx. destruct Hs as (Hla & _ & Hl31).
    pose proof (array_key_in_array t x ltac:(lia) Hx) as Ea. split.
    + unfold query. rewrite Ea. reflexivity.
    + intros fuel v. cbn [insert]. rewrite Ea.
      assert (Hlt : (Z.to_nat x < length (array t))%nat).
      { rewrite Hla, <- array_size_nat. lia. }
      destruct (lookup_lt_is_Some_2 _ _ Hlt) as [slot Hslot].
      rewrite (at_index_Some _ _ _ Hslot). reflexivity.
Qed.

Lemma new_table_invariant (a h : nat) :
  (a ≤ 31)%nat → sized (Table_new a h) ∧ array_keys_not_in_hash (Table_new a h).
Proof.
  intros Ha. destruct (Table_new_filling a h Ha) as (H1 & _ & _ & _ & _ & _ & _ & H2).
  auto.
Qed.

(** [insert] returns when the key (a 64-bit integer) goes to the array
    part, and when its main position holds no value or holds the key. *)
Lemma insert_returns (fuel : nat) (t : Table) (k : Key) (v : Value) :
  sized t →
  (is_Some (in_array_part t k) ∧ (∃ i, k = INT i ∧ - 2 ^ 63 ≤ i < 2 ^ 63)
   ∨ in_array_part t k = None ∧
     ∃ mp n, main_pos reg t k = Ok mp ∧ hash t !! mp = Some n ∧
             overwrites n k = Ok true) →
  ∃ t', insert reg (S fuel) t k v = Ok t'.
Proof.
  intros (Hla & _ & Hl31) [([i Ea] & (i' & -> & Hi)) | (Ea & mp & n & Emp & Hn & Ho)];
    cbn [insert]; rewrite Ea.
  - unfold in_array_part in Ea.
    destruct (wrap64 i' <? array_size t) eqn:El; [ | discriminate].
    injection Ea as <-. apply Z.ltb_lt in El.
    assert (Has : array_size t ≤ 2 ^ 31).
    { rewrite array_size_pow. apply Z.pow_le_mono_r; lia. }
    assert (Hw : wrap64 i' = i').
    { unfold wrap64 in *. destruct (Z.lt_ge_cases i' 0) as [Hneg | Hpos].
      - assert (E : i' + 2 ^ 64 = i' mod 2 ^ 64).
        { apply (Z.mod_unique i' (2 ^ 64) (-1)); [left | ]; lia. }
        lia.
      - apply Z.mod_small. lia. }
    assert (Hlt : (Z.to_nat i' < length (array t))%nat).
    { rewrite Hla, <- array_size_nat.
      pose proof (Z.mod_pos_bound i' (2 ^ 64) ltac:(lia)) as Hb.
      rewrite Hw in El. unfold wrap64 in Hw. rewrite Hw in Hb.
      apply Z2Nat.inj_lt; lia. }
    destruct (lookup_lt_is_Some_2 _ _ Hlt) as [slot Hslot].
    rewrite (at_index_Some _ _ _ Hslot). cbn. eauto.
  - rewrite Emp, bind_Ok_l, (at_index_Some _ _ _ Hn), bind_Ok_l, Ho. cbn. eauto.
Qed.

(** *** After the resize

    When [recompute_size] returns, the hash segment has a free slot and
    [get_free_pos] finds it: the [insert] that is tried again does not
    reach [recompute_size] a second time. *)

Lemma scan_free_total (h : list Node) (lf : nat) :
  (lf < length h)%nat → ∃ r lf', scan_free h lf = Ok (r, lf').
Proof.
  induction lf as [ | lf IH]; intros Hlt;
    destruct (lookup_lt_is_Some_2 _ _ Hlt) as [n Hn];
    cbn [scan_free]; rewrite (at_index_Some _ _ _ Hn), bind_Ok_l;
    destruct (node_empty n); eauto.
  apply IH. lia.
Qed.

Lemma retry_finds_free_slot (fuel : nat) (t t2 : Table) :
  sized t → recompute_size_with (insert reg fuel) t = Ok t2 →
  resizes t2 = S (resizes t) ∧
  ∃ free n, get_free_pos t2 = Ok (Some free, set_last_free free t2) ∧
            hash t2 !! free = Some n ∧ node_empty n = true.
Proof.
  intros Hs E. unfold recompute_size_with in E. bind_inv E as [na nh] En.
  apply (resize_filling fuel t na nh t2 Hs En) in E
    as ((_ & Hlh & _) & _ & _ & Hnh & Hvac & (Hlf & Hcur) & Hcnt & Hres).
  split; [assumption | ].
  destruct (scan_free_total (hash t2) (last_free t2) Hlf) as (r & lf' & Es).
  assert (Eg : get_free_pos t2 = Ok (r, set_last_free lf' t2)).
  { unfold get_free_pos. cbn [prune_vacancy]. rewrite Hvac, bind_Ok_l, Es.
    reflexivity. }
  apply scan_free_spec in Es as (_ & _ & Hr). destruct r as [free | ].
  - destruct Hr as (-> & n & Hn & He). eauto.
  - exfalso. assert (Hfull : length (hash_live (hash t2)) = length (hash t2)).
    { apply hash_live_full. intros j Hj.
      destruct (decide (j ≤ last_free t2)%nat); [apply Hr | apply Hcur]; lia. }
    rewrite Hfull, Hlh, Hnh in Hcnt. lia.
Qed.

End Capacity.

(** ** Runs that show what the code does *)

Module RunFacts.
Import Runs.

Lemma table_16_32_reached :
  run 1 [Insert (INT 16) (any_of 1); Insert (INT 32) (any_of 2)] = Ok table_16_32.
Proof. reflexivity. Qed.

(** C1 does not hold for a NaN key: on the new table [insert] puts the
    entry into slot 0, and the query that follows does not find it. *)
Lemma insert_then_query_fails_for_nan :
  ∃ t', insert reg 1 (Table_new 0 1) (NUM nan) (any_of 1) = Ok t' ∧
        hash t' !! 0%nat = Some (Node_of (NUM nan) (any_of 1)) ∧
        query reg t' (NUM nan) = Ok None ∧
        query reg t' (NUM nan) ≠ Ok (Some (any_of 1)).
Proof.
  eexists. split; [reflexivity | ]. split; [reflexivity | ].
  split; [reflexivity | discriminate].
Qed.

(** The third insertion of the run resizes the table, moves 32 out of its
    way and is found afterwards. *)
Lemma insert_then_query_witness :
  ∃ t', insert reg 2 table_16_32 (INT 31) (any_of 3) = Ok t' ∧
        query reg t' (INT 31) = Ok (Some (any_of 3)).
Proof.
  eexists. split; [vm_compute; reflexivity | ].
  apply (insert_then_query reg 2 table_16_32 (INT 31) (any_of 3));
    [reflexivity | vm_compute; reflexivity].
Defined.

(** C2, the code at work: 32 sits in slot 7, the main position of 23, and
    belongs to the chain of slot 0, behind 48 in slot 6.  [insert(23, 4)]
    takes the free slot 5 and fills it from slot 6, the predecessor: 48 is
    there twice, and 32 is gone. *)
Theorem relocation_copies_the_predecessor :
  run 2 [Insert (INT 16) (any_of 1); Insert (INT 32) (any_of 2);
         Insert (INT 48) (any_of 3)] = Ok table_16_32_48 ∧
  main_pos reg table_16_32_48 (INT 23) = Ok 7%nat ∧
  main_pos reg table_16_32_48 (INT 32) = Ok 0%nat ∧
  query reg table_16_32_48 (INT 32) = Ok (Some (any_of 2)) ∧
  insert reg 1 table_16_32_48 (INT 23) (any_of 4) = Ok table_16_32_48_23 ∧
  hash table_16_32_48_23 !! 5%nat = Some (entry 48 3 None) ∧
  hash table_16_32_48_23 !! 6%nat = Some (entry 48 3 (Some 5%nat)) ∧
  query reg table_16_32_48_23 (INT 23) = Ok (Some (any_of 4)) ∧
  query reg table_16_32_48_23 (INT 32) = Ok None.
Proof. repeat split; reflexivity. Qed.

(** C3, the code at work: 3 hangs behind 1, which is at its main position.
    [insert(1, 9)] writes a node without a link there, and 3 is gone. *)
Theorem overwrite_drops_the_chain :
  run 1 [Insert (INT 1) (any_of 1); Insert (INT 3) (any_of 2)] = Ok table_1_3 ∧
  main_pos reg table_1_3 (INT 1) = Ok 1%nat ∧
  query reg table_1_3 (INT 3) = Ok (Some (any_of 2)) ∧
  ∃ t', insert reg 1 table_1_3 (INT 1) (any_of 9) = Ok t' ∧
        hash t' !! 1%nat = Some (entry 1 9 None) ∧
        query reg t' (INT 1) = Ok (Some (any_of 9)) ∧
        query reg t' (INT 3) = Ok None.
Proof.
  split; [reflexivity | ]. split; [reflexivity | ]. split; [reflexivity | ].
  eexists. repeat split; reflexivity.
Qed.

(** C5, the code at work: with the keys -1 and -2 in the hash segment the
    next insertion calls [resize(0, 3)], which takes -1 for an index of the
    new array because it compares signed integers, and writes outside the
    array. *)
Theorem resize_writes_outside_the_array :
  run 1 [Insert (INT (-1)) (any_of 1); Insert (INT (-2)) (any_of 2)]
    = Ok table_negative ∧
  query reg table_negative (INT (-1)) = Ok (Some (any_of 1)) ∧
  get_free_pos table_negative = Ok (None, set_last_free 0 table_negative) ∧
  new_sizes (set_last_free 0 table_negative) = Ok (0%nat, 3%nat) ∧
  ∀ fuel,
    resize reg fuel (set_last_free 0 table_negative) 0 3 = Err OutOfBounds ∧
    insert reg (S (S fuel)) table_negative (INT (-3)) (any_of 3) = Err OutOfBounds.
Proof. repeat split; reflexivity. Qed.

(** C6, the code at work: the array has four slots, of which 2 and 3 were
    erased, and the hash segment is full.  The next insertion finds no free
    slot and calls [resize(1, 2)], which reads the value behind the null
    pointer in array slot 2; the insertion is never tried again. *)
Theorem resize_reads_a_null_slot :
  run 2 [Insert (INT 1) (any_of 1); Insert (INT 3) (any_of 2);
         Insert (INT 2) (any_of 3); Erase (INT 2); Erase (INT 3);
         Insert (INT 100) (any_of 4); Insert (INT 101) (any_of 5)]
    = Ok table_with_holes ∧
  get_free_pos table_with_holes = Ok (None, set_last_free 0 table_with_holes) ∧
  new_sizes (set_last_free 0 table_with_holes) = Ok (1%nat, 2%nat) ∧
  ∀ fuel,
    resize reg fuel (set_last_free 0 table_with_holes) 1 2 = Err NullDeref ∧
    insert reg (S (S fuel)) table_with_holes (INT 102) (any_of 6) = Err NullDeref.
Proof. repeat split; reflexivity. Qed.

(** C8, the code at work: 5 is not in the new table, and its main position,
    slot 1, holds nothing.  [erase(5)] puts that slot on the vacancy list;
    a second [erase(5)] links the slot to itself. *)
Theorem erase_of_absent_key_changes_vacancy_list :
  query reg (Table_new 0 1) (INT 5) = Ok None ∧
  vacancy_head (Table_new 0 1) = None ∧
  ∃ t1 t2,
    erase reg (Table_new 0 1) (INT 5) = Ok t1 ∧
    vacancy_head t1 = Some 1%nat ∧
    t1 ≠ Table_new 0 1 ∧
    erase reg t1 (INT 5) = Ok t2 ∧
    vacancy_next <$> hash t2 !! 1%nat = Some (Some 1%nat).
Proof.
  split; [reflexivity | ]. split; [reflexivity | ].
  eexists. eexists. split; [reflexivity | ]. split; [reflexivity | ].
  split; [discriminate | ]. split; reflexivity.
Qed.

(** A NaN key inserted into the new table. *)
Lemma nan_key_is_lost_witness :
  ∃ t', insert reg 1 (Table_new 0 1) (NUM nan) (any_of 1) = Ok t' ∧
        stored (hash t') (Some (NUM nan)) (any_of 1) ∧
        query reg t' (NUM nan) = Ok None ∧
        ∃ t'', erase reg t' (NUM nan) = Ok t'' ∧
               stored (hash t'') (Some (NUM nan)) (any_of 1).
Proof.
  eexists. split; [reflexivity | ].
  refine (proj2 (nan_key_is_lost reg 1 (Table_new 0 1) (any_of 1) _ [0%nat]
                   eq_refl _ _)).
  - intros i n Hi He. destruct i as [ | [ | i]]; simpl in Hi;
      [ | | discriminate]; injection Hi as <-; [eauto | discriminate].
  - eapply chain_step; [reflexivity | apply chain_end].
Defined.

Lemma table_1_3_sized : sized table_1_3.
Proof. repeat split; simpl; lia. Qed.

Lemma table_1_3_keys_present : keys_present (hash table_1_3).
Proof.
  intros i n Hi He. destruct i as [ | [ | i]]; simpl in Hi;
    [ | | discriminate]; injection Hi as <-; simpl; eauto.
Qed.

(** C7 as the specification words it does not hold: with the keys 1 and 3
    in the table, [recompute_size] makes the array four slots long, while
    the live Integer keys below 4 are two and do not exceed half of 4. *)
Lemma half_populated_fails :
  get_free_pos table_1_3 = Ok (None, table_1_3) ∧
  new_sizes table_1_3 = Ok (2%nat, 1%nat) ∧
  live_below table_1_3 (2 ^ 2) = 2 ∧
  ¬ (2 ^ 2 / 2 < live_below table_1_3 (2 ^ 2)).
Proof.
  split; [reflexivity | ]. split; [reflexivity | ]. split; [reflexivity | ].
  vm_compute. discriminate.
Qed.

(** The same table: slot 0 counted as taken, three of four slots are. *)
Lemma recompute_size_sizes_witness :
  ∃ na nh,
    new_sizes table_1_3 = Ok (na, nh) ∧
    (∀ ins, recompute_size_with ins table_1_3 = resize_with ins table_1_3 na nh) ∧
    (na ≤ 31)%nat ∧
    (na = 0%nat ∨ 2 ^ (Z.of_nat na - 1) < counted table_1_3 (2 ^ Z.of_nat na)) ∧
    (∀ i, (na ≤ i < 31)%nat →
          ¬ 2 ^ Z.of_nat i < counted table_1_3 (2 ^ Z.of_nat (S i))) ∧
    let r := 2 + live_count table_1_3
             - (if decide (na = 0%nat) then 0
                else counted table_1_3 (2 ^ Z.of_nat na)) in
    1 ≤ r ∧ nh = Nat.max 1 (bit r + 1) ∧
    (1 ≤ nh)%nat ∧ r < 2 ^ Z.of_nat nh ∧ (nh = 1%nat ∨ 2 ^ (Z.of_nat nh - 1) ≤ r).
Proof.
  exact (recompute_size_sizes table_1_3 table_1_3_sized table_1_3_keys_present).
Defined.

Lemma table_16_32_sized : sized table_16_32.
Proof. repeat split; simpl; lia. Qed.

Lemma table_16_32_invariant : array_keys_not_in_hash table_16_32.
Proof.
  intros i n x Hi He Hk. destruct i as [ | [ | i]]; simpl in Hi;
    [ | | discriminate]; injection Hi as <-; injection Hk as <-;
    vm_compute; intros [_ H]; discriminate H.
Qed.

(** The table that holds 16 and 32 in its two hash slots: the next
    insertion into the hash segment resizes it. *)
Lemma integer_keys_stay_in_array_witness :
  (∀ fuel k v t', insert reg fuel table_16_32 k v = Ok t' →
     sized t' ∧ array_keys_not_in_hash t') ∧
  (∀ k t', erase reg table_16_32 k = Ok t' → sized t' ∧ array_keys_not_in_hash t') ∧
  (∀ fuel t', recompute_size reg fuel table_16_32 = Ok t' →
     sized t' ∧ array_keys_not_in_hash t') ∧
  (∀ x, 0 ≤ x < array_size table_16_32 →
     query reg table_16_32 (INT x) = at_index (array table_16_32) (Z.to_nat x) ∧
     ∀ fuel v, insert reg (S fuel) table_16_32 (INT x) v
               = Ok (set_array (<[Z.to_nat x := Some v]> (array table_16_32))
                       table_16_32)).
Proof.
  exact (integer_keys_stay_in_array reg table_16_32
           table_16_32_sized table_16_32_invariant).
Defined.

(** During a resize an entry can be lost without any access outside the
    arrays: with these eight keys in the table [insert(72, 72)] resizes the
    hash segment to 16 slots, and while the old entries are inserted into
    the new segment the branch of [insert] that relocates an occupant drops
    81 and stores 65 twice. *)
Lemma rehash_loses_an_entry :
  let calls := map (λ k, Insert (INT k) (any_of k)) [65; 79; 81; 64; 66; 67; 68; 69] in
  ∃ t t', run 2 calls = Ok t ∧
          query reg t (INT 81) = Ok (Some (any_of 81)) ∧
          insert reg 2 t (INT 72) (any_of 72) = Ok t' ∧
          resizes t' = S (resizes t) ∧
          query reg t' (INT 81) = Ok None ∧
          hash t' !! 1%nat = Some (entry 65 65 (Some 14%nat)) ∧
          hash t' !! 14%nat = Some (entry 65 65 None).
Proof.
  eexists. eexists. split; [vm_compute; reflexivity | ].
  split; [vm_compute; reflexivity | ]. split; [vm_compute; reflexivity | ].
  repeat split.
Qed.

End RunFacts.

(** * Further properties *)

(** ** Lookup *)

Section Lookup.
Context `{U : IHashTypes}.
Variable reg : Registry.

(** The mask of [main_pos] keeps the index inside the hash segment. *)
Lemma main_pos_lt (t : Table) (k : Key) (mp : nat) :
  main_pos reg t k = Ok mp → (mp < 2 ^ hash_size_log2 t)%nat.
Proof.
  unfold main_pos. intros E. bind_inv E as [h k'] Eh. injection E as <-.
  unfold hash_size. rewrite Z.shiftl_1_l.
  replace (2 ^ Z.of_nat (hash_size_log2 t) - 1)
    with (Z.ones (Z.of_nat (hash_size_log2 t)))
    by (rewrite Z.ones_equiv; lia).
  rewrite Z.land_ones by lia.
  pose proof (Z.mod_pos_bound h (2 ^ Z.of_nat (hash_size_log2 t)) ltac:(lia)) as Hb.
  apply Nat2Z.inj_lt. rewrite Z2Nat.id by lia.
  rewrite Nat2Z.inj_pow. simpl. lia.
Qed.

(** An Integer key that goes to the array part is the index of a slot. *)
Lemma in_array_part_index (t : Table) (k : Key) (i : Z) :
  (array_size_log2 t ≤ 31)%nat → is_int64 k → in_array_part t k = Some i →
  k = INT i ∧ 0 ≤ i < array_size t.
Proof.
  intros Hl Hk E. destruct k as [x | | | |]; try discriminate. simpl in *.
  destruct (wrap64 x <? array_size t) eqn:El; [ | discriminate].
  injection E as <-. apply Z.ltb_lt in El. split; [reflexivity | ].
  assert (Has : array_size t ≤ 2 ^ 31).
  { rewrite array_size_pow. apply Z.pow_le_mono_r; lia. }
  unfold wrap64 in El. destruct (Z.lt_ge_cases x 0) as [Hneg | Hpos].
  - assert (E : x + 2 ^ 64 = x mod 2 ^ 64).
    { apply (Z.mod_unique x (2 ^ 64) (-1)); [left | ]; lia. }
    lia.
  - rewrite Z.mod_small in El by lia. lia.
Qed.

(** What [find] stops at, when it stops at a node: a node without a value,
    or one whose key equals the key sought. *)
Lemma find_stops (fuel : nat) (h : list Node) (k : Key) (mp last : option nat)
    (j : nat) (last' : option nat) :
  find fuel h k mp last = Ok (Some j, last') →
  ∃ n, h !! j = Some n ∧
       (node_empty n = true ∨ node_empty n = false ∧ node_key_eqb n k = Ok true).
Proof.
  revert mp last. induction fuel as [ | fuel IH]; intros mp last E; simpl in E;
    (destruct mp as [i | ]; [ | discriminate]);
    bind_inv E as n En; apply at_index_Ok in En;
    (destruct (node_empty n) eqn:Ee; [injection E as <- <-; eauto | ]);
    bind_inv E as same Es;
    (destruct same; [injection E as <- <-; eauto | ]).
  - discriminate.
  - eauto.
Qed.

(** X1: a new table holds nothing: whenever the constructor builds a
    table, every query on it returns "not found". *)
Theorem query_new_table (room : nat → nat → bool) (na nh : nat) (t : Table)
    (k : Key) (x : Hash) (k' : Key) :
  Table_ctor room na nh = Some t → is_int64 k → Key_hash reg k = Ok (x, k') →
  query reg t k = Ok None.
Proof.
  unfold Table_ctor. intros Ec Hk Eh.
  destruct ((na <=? 30)%nat && (nh <=? 30)%nat && room (2 ^ na)%nat (2 ^ nh)%nat)
    eqn:Hsz; [ | discriminate].
  injection Ec as <-. apply andb_true_iff in Hsz as (Hsz & _).
  apply andb_true_iff in Hsz as (Hna & _).
  apply Nat.leb_le in Hna. unfold query.
  destruct (in_array_part (Table_new na nh) k) as [i | ] eqn:Ea.
  - apply in_array_part_index in Ea as (-> & Hi); [ | simpl; lia | exact Hk].
    simpl. apply at_index_Some, lookup_replicate. split; [reflexivity | ].
    rewrite <- (array_size_nat (Table_new na nh)). lia.
  - destruct (main_pos reg (Table_new na nh) k) as [mp | e] eqn:Emp.
    2: { unfold main_pos in Emp. rewrite Eh in Emp. discriminate. }
    pose proof (main_pos_lt _ _ _ Emp) as Hlt. simpl in Hlt.
    assert (Hn : hash (Table_new na nh) !! mp = Some Node_default).
    { simpl. apply lookup_replicate. auto. }
    rewrite bind_Ok_l.
    assert (Ef : find (length (hash (Table_new na nh))) (hash (Table_new na nh)) k
                   (Some mp) None = Ok (Some mp, None)).
    { destruct (length (hash (Table_new na nh))); cbn [find];
        rewrite (at_index_Some _ _ _ Hn); reflexivity. }
    rewrite Ef. cbn [mbind result_bind]. rewrite (at_index_Some _ _ _ Hn).
    reflexivity.
Qed.

(** X2: a value that [query] returns is stored under the key. *)
Theorem query_sound (t : Table) (k : Key) (v : Value) :
  query reg t k = Ok (Some v) →
  (∃ i, k = INT i ∧ wrap64 i < array_size t ∧
        array t !! Z.to_nat i = Some (Some v))
  ∨ (in_array_part t k = None ∧
     ∃ j n k', hash t !! j = Some n ∧ key n = Some k' ∧
               Key_eqb k' k = true ∧ value n = Some v).
Proof.
  unfold query. destruct (in_array_part t k) as [i | ] eqn:Ea; intros E.
  - left. exists i. destruct k as [x | | | |]; try discriminate. simpl in Ea.
    destruct (wrap64 x <? array_size t) eqn:El; [ | discriminate].
    injection Ea as <-. apply Z.ltb_lt in El. apply at_index_Ok in E. auto.
  - right. split; [reflexivity | ].
    bind_inv E as mp Emp. bind_inv E as [mp' last] Ef.
    destruct mp' as [j | ]; [ | discriminate].
    bind_inv E as n En. apply at_index_Ok in En. injection E as Ev.
    apply find_stops in Ef as (n0 & Hn0 & Hstop).
    assert (n0 = n) by congruence. subst n0.
    destruct Hstop as [He | (He & Hk)].
    + unfold node_empty in He. rewrite Ev in He. discriminate.
    + unfold node_key_eqb in Hk. destruct (key n) as [k0 | ] eqn:Ek; [ | discriminate].
      injection Hk as Hk. exists j, n, k0. auto.
Qed.

End Lookup.

(** ** Equality and hashing of keys *)

Section KeyEquality.
Context `{U : IHashTypes}.

Lemma SFeqb_refl (n : Number) : n ≠ nan → SFeqb n n = true.
Proof.
  unfold SFeqb. destruct n as [s | s | | s m e]; simpl; intros Hn.
  - reflexivity.
  - destruct s; reflexivity.
  - exfalso. apply Hn. reflexivity.
  - destruct s; rewrite Z.compare_refl, Pos.compare_cont_refl; reflexivity.
Qed.

Lemma SFeqb_sym (n m : Number) : SFeqb n m = SFeqb m n.
Proof.
  destruct (SFeqb n m) eqn:E1, (SFeqb m n) eqn:E2; try reflexivity.
  - destruct (SFeqb_true _ _ E1) as [-> | (s & s' & -> & ->)]; [congruence | ].
    discriminate.
  - destruct (SFeqb_true _ _ E2) as [-> | (s & s' & -> & ->)]; [congruence | ].
    discriminate.
Qed.

Lemma SFeqb_trans (n m p : Number) :
  SFeqb n m = true → SFeqb m p = true → SFeqb n p = true.
Proof.
  intros E1 E2.
  destruct (SFeqb_true _ _ E1) as [-> | (s & s' & -> & ->)]; [assumption | ].
  destruct (SFeqb_true _ _ E2) as [<- | (s1 & s2 & _ & ->)]; reflexivity.
Qed.

(** X3: [Key::operator==] is symmetric and transitive, and it holds between
    a key and itself for every key but the NaN key, whenever the [operator==]
    of the user types is an equivalence. *)
Theorem Key_eqb_equivalence :
  eq_reflexive → eq_symmetric → eq_transitive →
  (∀ a b, Key_eqb a b = Key_eqb b a) ∧
  (∀ a b c, Key_eqb a b = true → Key_eqb b c = true → Key_eqb a c = true) ∧
  (∀ a, Key_eqb a a = true ↔ a ≠ NUM nan).
Proof.
  intros Hrefl Hsym Htrans. split; [ | split].
  - intros [i | n | s | p | h] [j | m | s' | q | h']; simpl; try reflexivity.
    + apply Z.eqb_sym.
    + apply SFeqb_sym.
    + apply String.eqb_sym.
    + apply Z.eqb_sym.
    + unfold HashWrapper_equals.
      destruct (decide (hw_type h = hw_type h')) as [E | NE],
               (decide (hw_type h' = hw_type h)) as [E' | NE'];
        try congruence.
      all: rewrite E; apply Hsym.
  - intros [i | n | s | p | h] [j | m | s' | q | h'] [l | o | s'' | r | h''];
      simpl; try (intros; discriminate).
    + intros E1 E2. apply Z.eqb_eq in E1, E2. apply Z.eqb_eq. congruence.
    + apply SFeqb_trans.
    + intros E1 E2. apply String.eqb_eq in E1, E2. apply String.eqb_eq. congruence.
    + intros E1 E2. apply Z.eqb_eq in E1, E2. apply Z.eqb_eq. congruence.
    + unfold HashWrapper_equals.
      destruct (decide (hw_type h = hw_type h')) as [E | ]; [ | discriminate].
      destruct (decide (hw_type h' = hw_type h'')) as [E' | ]; [ | discriminate].
      destruct (decide (hw_type h = hw_type h'')) as [ | NE]; [ | congruence].
      rewrite <- E. apply Htrans.
  - intros [i | n | s | p | h]; simpl.
    + rewrite Z.eqb_refl. split; [discriminate | reflexivity].
    + split.
      * intros E [= ->]. rewrite SFeqb_nan_l in E. discriminate.
      * intros Hn. apply SFeqb_refl. congruence.
    + rewrite String.eqb_refl. split; [discriminate | reflexivity].
    + rewrite Z.eqb_refl. split; [discriminate | reflexivity].
    + unfold HashWrapper_equals.
      destruct (decide (hw_type h = hw_type h)); [ | congruence].
      rewrite Hrefl. split; [discriminate | reflexivity].
Qed.

End KeyEquality.

Lemma repo_types_eq_laws : eq_reflexive ∧ eq_symmetric ∧ eq_transitive.
Proof.
  split; [ | split].
  - intros T a. apply Z.eqb_refl.
  - intros T a b. apply Z.eqb_sym.
  - intros T a b c E1 E2. simpl in *. apply Z.eqb_eq in E1, E2. apply Z.eqb_eq.
    congruence.
Qed.

Lemma Key_eqb_equivalence_witness :
  (∀ a b : Key, Key_eqb a b = Key_eqb b a) ∧
  (∀ a b c : Key, Key_eqb a b = true → Key_eqb b c = true → Key_eqb a c = true) ∧
  (∀ a : Key, Key_eqb a a = true ↔ a ≠ NUM nan).
Proof.
  apply Key_eqb_equivalence; apply repo_types_eq_laws.
Defined.

(** X4: with the registry as [register_hashes] leaves it, [Key::hash]
    returns for every key; with the empty registry it throws for a key that
    wraps an [Int] and was not hashed before. *)
Theorem register_hashes_covers_every_key :
  (∀ k : Key, ∃ x k', Key_hash register_hashes k = Ok (x, k')) ∧
  (∀ inner : Z,
     Key_hash no_hash_functions (HW (HashWrapper_new Int inner))
     = Err NoHashFunction).
Proof.
  split.
  - intros [i | n | s | p | h]; simpl; eauto.
    unfold hash_H, get_hash. destruct (negb (hw_hash h =? 0)); simpl; [eauto | ].
    destruct h as [[] inner cached]. simpl. eauto.
  - intros inner. reflexivity.
Qed.

(** ** Free slots *)

Section FreeSlots.
Context `{U : IHashTypes}.
Variable reg : Registry.

(** X5: what [get_free_pos] returns and what it leaves.  The slot it returns
    holds no value.  When it returns none, the vacancy list is used up and
    every slot from 0 to the scan cursor holds a value.  The cursor never
    moves up, and the keys, values and chains of the hash segment, the array
    segment and the two sizes stay as they were. *)
Theorem get_free_pos_contract (t : Table) (r : option nat) (t1 : Table) :
  get_free_pos t = Ok (r, t1) →
  hash_sim (hash t1) (hash t) ∧ same_frame t1 t ∧
  (last_free t1 ≤ last_free t)%nat ∧
  match r with
  | Some i => ∃ n, hash t1 !! i = Some n ∧ node_empty n = true
  | None => vacancy_head t1 = None ∧
            ∀ j, (j ≤ last_free t)%nat →
                 ∃ n, hash t1 !! j = Some n ∧ node_empty n = false
  end.
Proof.
  unfold get_free_pos. intros E. bind_inv E as [r0 t0] Ep.
  apply prune_vacancy_spec in Ep as (Hs & Hf & Hl & Hr).
  destruct r0 as [i | ].
  - injection E as <- <-. repeat split; try apply Hf; auto. lia.
  - bind_inv E as [r' lf] Es. injection E as <- <-.
    apply scan_free_spec in Es as (Hle & _ & Hr'). simpl.
    split; [assumption | ]. split; [repeat split; apply Hf | ].
    split; [lia | ]. destruct r' as [i | ].
    + apply Hr'.
    + split; [assumption | ]. intros j Hj. apply Hr'. lia.
Qed.

(** What [erase] does in the hash segment, by the outcome of its walk. *)
Lemma erase_inv (t : Table) (k : Key) (t' : Table) :
  erase reg t k = Ok t' → in_array_part t k = None →
  ∃ mp0 mp' last,
    main_pos reg t k = Ok mp0 ∧
    find (length (hash t)) (hash t) k (Some mp0) None = Ok (mp', last) ∧
    match mp' with
    | None => t' = t
    | Some mp =>
        ∃ n, hash t !! mp = Some n ∧
          match next n, last with
          | None, None => free t mp = Ok t'
          | Some nx, None =>
              ∃ nn, hash t !! nx = Some nn ∧
                    free (set_hash (<[mp := nn]> (hash t)) t) nx = Ok t'
          | _, Some l =>
              ∃ ln, hash t !! l = Some ln ∧
                    free (set_hash (<[l := set_next (next n) ln]> (hash t)) t) mp
                    = Ok t'
          end
    end.
Proof.
  unfold erase. intros E Ea. rewrite Ea in E. bind_inv E as mp0 Emp. bind_inv E as [mp' last] Ef.
  exists mp0, mp', last. split; [assumption | ]. split; [assumption | ].
  destruct mp' as [mp | ]; [ | injection E as <-; reflexivity].
  bind_inv E as n En. apply at_index_Ok in En. exists n. split; [assumption | ].
  destruct (next n) as [nx | ], last as [l | ].
  - bind_inv E as ln El. apply at_index_Ok in El. eauto.
  - bind_inv E as nn Enn. apply at_index_Ok in Enn. eauto.
  - bind_inv E as ln El. apply at_index_Ok in El. eauto.
  - assumption.
Qed.

Lemma get_free_pos_after_free (t t' : Table) (i : nat) :
  free t i = Ok t' →
  vacancy_head t' = Some i ∧ get_free_pos t' = Ok (Some i, t').
Proof.
  intros E. apply free_eq in E as (Hlt & ->). split; [reflexivity | ].
  unfold get_free_pos. cbn [prune_vacancy vacancy_head set_vacancy_head set_hash hash].
  rewrite (at_index_Some _ _ _ (list_lookup_insert_eq _ _ _ Hlt)).
  reflexivity.
Qed.

(** X6: an [erase] in the hash segment either leaves the table as it is or
    puts a slot at the head of the vacancy list, and that slot is what the
    next [get_free_pos] returns, the table staying as it is. *)
Theorem erased_slot_is_reused (t : Table) (k : Key) (t' : Table) :
  erase reg t k = Ok t' → in_array_part t k = None →
  t' = t ∨ ∃ i, vacancy_head t' = Some i ∧ get_free_pos t' = Ok (Some i, t').
Proof.
  intros E Ea.
  destruct (erase_inv t k t' E Ea) as (mp0 & mp' & last & _ & _ & H).
  destruct mp' as [mp | ]; [right | left; assumption].
  destruct H as (n & _ & H).
  destruct (next n) as [nx | ], last as [l | ].
  - destruct H as (ln & _ & H). exists mp. eapply get_free_pos_after_free; eauto.
  - destruct H as (nn & _ & H). exists nx. eapply get_free_pos_after_free; eauto.
  - destruct H as (ln & _ & H). exists mp. eapply get_free_pos_after_free; eauto.
  - exists mp. eapply get_free_pos_after_free; eauto.
Qed.

(** *** The entries of the hash segment *)

Lemma entries_app (h1 h2 : list Node) : entries (h1 ++ h2) = entries h1 ++ entries h2.
Proof. apply omap_app. Qed.

Lemma entries_cons (n : Node) (h : list Node) :
  entries (n :: h) = option_list (entry_of n) ++ entries h.
Proof. unfold entries. simpl. destruct (entry_of n); reflexivity. Qed.

(** Writing a node into a slot trades the entry of the old node for the
    entry of the new one. *)
Lemma entries_insert (h : list Node) (i : nat) (old new : Node) :
  h !! i = Some old →
  option_list (entry_of old) ++ entries (<[i := new]> h)
  ≡ₚ option_list (entry_of new) ++ entries h.
Proof.
  intros Hi. pose proof (lookup_lt_Some _ _ _ Hi) as Hlt.
  rewrite insert_take_drop by assumption.
  rewrite <- (take_drop_middle h i old Hi) at 3.
  rewrite !entries_app, !entries_cons.
  set (a := entries (take i h)). set (b := entries (drop (S i) h)).
  set (o := option_list (entry_of old)). set (n := option_list (entry_of new)).
  clearbody a b o n. solve_Permutation.
Qed.

Lemma entries_insert_same (h : list Node) (i : nat) (old new : Node) :
  h !! i = Some old → entry_of new = entry_of old →
  entries (<[i := new]> h) ≡ₚ entries h.
Proof.
  intros Hi En. pose proof (entries_insert h i old new Hi) as H.
  rewrite En in H. eapply Permutation_app_inv_l. exact H.
Qed.

Lemma entries_insert_empty (h : list Node) (i : nat) (old new : Node) :
  h !! i = Some old → entry_of new = None →
  option_list (entry_of old) ++ entries (<[i := new]> h) ≡ₚ entries h.
Proof.
  intros Hi En. pose proof (entries_insert h i old new Hi) as H.
  rewrite En in H. exact H.
Qed.

Lemma entry_of_set_next (nx : option nat) (n : Node) :
  entry_of (set_next nx n) = entry_of n.
Proof. reflexivity. Qed.

(** The hash segment after [free]. *)
Lemma entries_free (t t' : Table) (i : nat) (n : Node) :
  hash t !! i = Some n → free t i = Ok t' →
  option_list (entry_of n) ++ entries (hash t') ≡ₚ entries (hash t).
Proof.
  intros Hn E. apply free_eq in E as (_ & ->). simpl.
  apply entries_insert_empty; auto.
Qed.

(** X7: an [erase] in the hash segment takes out at most one entry, and
    only one stored under a key equal to the one given; all other entries
    stay, each with its value, and the array segment is not touched. *)
Theorem erase_removes_one_entry (t : Table) (k : Key) (t' : Table) :
  erase reg t k = Ok t' → in_array_part t k = None →
  array t' = array t ∧
  (entries (hash t') ≡ₚ entries (hash t)
   ∨ ∃ k' v, Key_eqb k' k = true ∧
             entries (hash t) ≡ₚ (Some k', v) :: entries (hash t')).
Proof.
  intros E Ea.
  destruct (erase_inv t k t' E Ea) as (mp0 & mp' & last & _ & Ef & H).
  destruct mp' as [mp | ]; [ | subst t'; auto].
  destruct H as (n & Hn & H).
  apply find_stops in Ef as (n0 & Hn0 & Hstop).
  assert (n0 = n) by congruence. subst n0.
  assert (Hgone : array t' = array t ∧
                  option_list (entry_of n) ++ entries (hash t') ≡ₚ entries (hash t)).
  { destruct (next n) as [nx | ], last as [l | ].
    - destruct H as (ln & Hl & H).
      pose proof (entries_insert_same (hash t) l ln (set_next (Some nx) ln) Hl eq_refl) as P1.
      assert (Hmp : ∃ n1, <[l := set_next (Some nx) ln]> (hash t) !! mp = Some n1 ∧
                          entry_of n1 = entry_of n).
      { destruct (decide (l = mp)) as [-> | Hne].
        - exists (set_next (Some nx) ln).
          rewrite list_lookup_insert_eq by (eapply lookup_lt_Some; eauto).
          split; [reflexivity | ]. assert (ln = n) by congruence. subst ln.
          reflexivity.
        - exists n. rewrite list_lookup_insert_ne by assumption. auto. }
      destruct Hmp as (n1 & Hn1 & En1).
      pose proof (free_eq _ _ _ H) as (_ & ->). simpl. split; [reflexivity | ].
      rewrite <- En1, <- P1.
      apply entries_insert_empty; auto.
    - destruct H as (nn & Hnn & H).
      pose proof (entries_insert (hash t) mp n nn Hn) as P1.
      assert (Hnx : <[mp := nn]> (hash t) !! nx = Some nn).
      { destruct (decide (mp = nx)) as [-> | Hne].
        - apply list_lookup_insert_eq. eapply lookup_lt_Some; eauto.
        - rewrite list_lookup_insert_ne by assumption. assumption. }
      pose proof (free_eq _ _ _ H) as (_ & ->). simpl. split; [reflexivity | ].
      pose proof (entries_insert_empty _ nx nn
                    {| key := None; value := None; next := None;
                       vacancy_next := vacancy_head t |} Hnx eq_refl) as P2.
      apply (Permutation_app_inv_l (option_list (entry_of nn))).
      rewrite <- P1. rewrite <- P2. solve_Permutation.
    - destruct H as (ln & Hl & H).
      pose proof (entries_insert_same (hash t) l ln (set_next None ln) Hl eq_refl) as P1.
      assert (Hmp : ∃ n1, <[l := set_next None ln]> (hash t) !! mp = Some n1 ∧
                          entry_of n1 = entry_of n).
      { destruct (decide (l = mp)) as [-> | Hne].
        - exists (set_next None ln).
          rewrite list_lookup_insert_eq by (eapply lookup_lt_Some; eauto).
          split; [reflexivity | ]. assert (ln = n) by congruence. subst ln.
          reflexivity.
        - exists n. rewrite list_lookup_insert_ne by assumption. auto. }
      destruct Hmp as (n1 & Hn1 & En1).
      pose proof (free_eq _ _ _ H) as (_ & ->). simpl. split; [reflexivity | ].
      rewrite <- En1, <- P1.
      apply entries_insert_empty; auto.
    - pose proof (free_eq _ _ _ H) as (_ & ->). simpl. split; [reflexivity | ].
      apply entries_insert_empty; auto. }
  destruct Hgone as (Harr & P). split; [assumption | ].
  unfold entry_of in P. destruct Hstop as [He | (He & Hk)].
  - left. unfold node_empty in He. destruct (value n); [discriminate | ].
    exact P.
  - right. unfold node_key_eqb in Hk. destruct (key n) as [k0 | ]; [ | discriminate].
    injection Hk as Hk. unfold node_empty in He.
    destruct (value n) as [v | ]; [ | discriminate].
    exists k0, v. split; [assumption | ]. symmetry. exact P.
Qed.

End FreeSlots.

(** ** The array segment *)

Section ArraySegment.
Context `{U : IHashTypes}.
Variable reg : Registry.

(** A write to one slot of the array segment is not seen by a query for
    another key. *)
Lemma query_set_array (t : Table) (x : Z) (slot : option Value) (k : Key) :
  (array_size_log2 t ≤ 31)%nat → 0 ≤ x → is_int64 k → k ≠ INT x →
  query reg (set_array (<[Z.to_nat x := slot]> (array t)) t) k = query reg t k.
Proof.
  intros Hl Hx Hk Hne. unfold query.
  rewrite (in_array_part_frame _ t k) by reflexivity.
  destruct (in_array_part t k) as [i | ] eqn:Ea.
  - apply in_array_part_index in Ea as (-> & Hi); [ | assumption | assumption].
    simpl. unfold at_index. rewrite list_lookup_insert_ne; [reflexivity | ].
    intros E. apply Z2Nat.inj in E; [ | lia | lia]. congruence.
  - rewrite (main_pos_frame reg _ t k) by reflexivity. reflexivity.
Qed.

Lemma array_slot_lt (t : Table) (x : Z) :
  sized t → 0 ≤ x < array_size t → (Z.to_nat x < length (array t))%nat.
Proof.
  intros (Hla & _ & _) Hx. rewrite Hla, <- array_size_nat. lia.
Qed.

Lemma array_slot_is_a_cell_erase (t : Table) (x : Z) :
  sized t → 0 ≤ x < array_size t →
  ∃ t', erase reg t (INT x) = Ok t' ∧ query reg t' (INT x) = Ok None.
Proof.
  intros Hs Hx. pose proof Hs as (Hla & _ & Hl31).
  pose proof (array_key_in_array t x ltac:(lia) Hx) as Ea.
  pose proof (array_slot_lt t x Hs Hx) as Hlt.
  destruct (lookup_lt_is_Some_2 _ _ Hlt) as [slot Hslot].
  eexists. split.
  - unfold erase. rewrite Ea, (at_index_Some _ _ _ Hslot). reflexivity.
  - unfold query.
    rewrite (in_array_part_frame _ t (INT x)) by reflexivity. rewrite Ea.
    simpl. apply at_index_Some, list_lookup_insert_eq. assumption.
Qed.

(** X8: a slot of the array segment is a cell of its own.  For an Integer
    key in the range of the array, [erase] returns and the query that
    follows finds nothing, and neither [insert] nor [erase] of that key
    changes the hash segment or what a query for any other key returns. *)
Theorem array_slot_is_a_cell (t : Table) (x : Z) :
  sized t → 0 ≤ x < array_size t →
  (∃ t', erase reg t (INT x) = Ok t' ∧ query reg t' (INT x) = Ok None) ∧
  (∀ fuel v t', insert reg fuel t (INT x) v = Ok t' →
     hash t' = hash t ∧
     ∀ k, is_int64 k → k ≠ INT x → query reg t' k = query reg t k) ∧
  (∀ t', erase reg t (INT x) = Ok t' →
     hash t' = hash t ∧
     ∀ k, is_int64 k → k ≠ INT x → query reg t' k = query reg t k).
Proof.
  intros Hs Hx. pose proof Hs as (Hla & _ & Hl31).
  pose proof (array_key_in_array t x ltac:(lia) Hx) as Ea.
  pose proof (array_slot_lt t x Hs Hx) as Hlt.
  destruct (lookup_lt_is_Some_2 _ _ Hlt) as [slot Hslot].
  assert (Ee : erase reg t (INT x)
               = Ok (set_array (<[Z.to_nat x := None]> (array t)) t)).
  { unfold erase. rewrite Ea, (at_index_Some _ _ _ Hslot). reflexivity. }
  split; [ | split].
  - eexists. split; [exact Ee | ]. unfold query.
    rewrite (in_array_part_frame _ t (INT x)) by reflexivity. rewrite Ea.
    simpl. apply at_index_Some, list_lookup_insert_eq. assumption.
  - intros fuel v t' E. destruct fuel as [ | fuel]; [discriminate | ].
    cbn [insert] in E. rewrite Ea, (at_index_Some _ _ _ Hslot) in E.
    injection E as <-. split; [reflexivity | ].
    intros k Hk Hne. apply query_set_array; auto. lia.
  - intros t' E. rewrite Ee in E. injection E as <-. split; [reflexivity | ].
    intros k Hk Hne. apply query_set_array; auto. lia.
Qed.

End ArraySegment.

(** ** [erase] and the query that follows *)

Section EraseThenQuery.
Context `{U : IHashTypes}.
Variable reg : Registry.

Lemma holds_key_eqb (k : Key) (n : Node) :
  node_empty n = false → node_key_eqb n k = Ok true → holds_key k n.
Proof.
  unfold node_key_eqb. intros He Hk. split; [assumption | ].
  destruct (key n) as [k' | ]; [ | discriminate]. injection Hk as Hk. eauto.
Qed.

Lemma not_holds_key_eqb (k : Key) (n : Node) :
  node_key_eqb n k = Ok false → ¬ holds_key k n.
Proof.
  unfold node_key_eqb. intros Hk (_ & k' & Ek & Heq). rewrite Ek in Hk.
  congruence.
Qed.

Lemma not_holds_key_empty (k : Key) (n : Node) :
  node_empty n = true → ¬ holds_key k n.
Proof. intros He (He' & _). congruence. Qed.

Lemma chain_from_head (h : list Node) (p : option nat) (l : list nat) :
  chain_from h p l → p = head l.
Proof. destruct 1; reflexivity. Qed.

(** A chain is a chain of every segment that agrees with this one on the
    slots of the chain. *)
Lemma chain_from_ext (h h' : list Node) (p : option nat) (l : list nat) :
  chain_from h p l → (∀ i, i ∈ l → h' !! i = h !! i) → chain_from h' p l.
Proof.
  induction 1 as [ | i n l Hi C IH]; intros Hext; [constructor | ].
  econstructor.
  - rewrite Hext; [exact Hi | apply elem_of_cons; auto].
  - apply IH. intros j Hj. apply Hext, elem_of_cons. auto.
Qed.

(** The tail of a chain can be exchanged for another chain from the same
    pointer, in a segment that agrees on the slots of the head. *)
Lemma chain_from_splice (h h' : list Node) (p : option nat) (l1 l2 l2' : list nat) :
  chain_from h p (l1 ++ l2) → (∀ i, i ∈ l1 → h' !! i = h !! i) →
  chain_from h' (head l2) l2' → chain_from h' p (l1 ++ l2').
Proof.
  revert p. induction l1 as [ | i l1 IH]; intros p C Hext C'.
  - simpl in *. apply chain_from_head in C. subst p. assumption.
  - simpl in C. inversion C as [ | i' n l' Hi Cn]; subst. simpl.
    econstructor.
    + rewrite Hext; [exact Hi | apply elem_of_cons; auto].
    + apply IH; [assumption | | assumption].
      intros j Hj. apply Hext, elem_of_cons. auto.
Qed.

(** Where the walk of [find] stops on a chain: the nodes it passes hold
    other keys, and [last] is the one passed last. *)
Lemma find_split (fuel : nat) (h : list Node) (k : Key) (p last : option nat)
    (l : list nat) (r last' : option nat) :
  chain_from h p l → find fuel h k p last = Ok (r, last') →
  ∃ l1 l2, l = l1 ++ l2 ∧ r = head l2 ∧
    (∀ i n, i ∈ l1 → h !! i = Some n → ¬ holds_key k n) ∧
    (l1 = [] ∧ last' = last ∨ ∃ l0 j, l1 = l0 ++ [j] ∧ last' = Some j).
Proof.
  intros C. revert fuel last. induction C as [ | i n l Hi C IH]; intros fuel last E.
  - exists [], []. destruct fuel; simpl in E; injection E as <- <-;
      repeat split; auto; intros i n Hin; inversion Hin.
  - assert (Hstop : r = Some i → last' = last →
              ∃ l1 l2, i :: l = l1 ++ l2 ∧ r = head l2 ∧
                (∀ i n, i ∈ l1 → h !! i = Some n → ¬ holds_key k n) ∧
                (l1 = [] ∧ last' = last ∨ ∃ l0 j, l1 = l0 ++ [j] ∧ last' = Some j)).
    { intros -> ->. exists [], (i :: l). repeat split; auto.
      intros j m Hin. inversion Hin. }
    destruct fuel as [ | fuel]; simpl in E;
      rewrite (at_index_Some _ _ _ Hi) in E; simpl in E;
      (destruct (node_empty n) eqn:Ee;
        [injection E as <- <-; apply Hstop; reflexivity | ]);
      bind_inv E as same Es;
      (destruct same; [injection E as <- <-; apply Hstop; reflexivity | ]).
    + discriminate.
    + apply IH in E as (l1 & l2 & -> & -> & Hpre & Hlast).
      exists (i :: l1), l2. split; [reflexivity | ]. split; [reflexivity | ]. split.
      * intros j m Hin Hj. apply elem_of_cons in Hin as [-> | Hin]; [ | eauto].
        assert (m = n) by congruence. subst m. apply not_holds_key_eqb. assumption.
      * right. destruct Hlast as [(-> & ->) | (l0 & j & -> & ->)].
        -- exists [], i. auto.
        -- exists (i :: l0), j. auto.
Qed.

(** A walk along a chain none of whose nodes holds the key ends at the
    null pointer or at a node without a value. *)
Lemma find_no_match (fuel : nat) (h : list Node) (k : Key) (p last : option nat)
    (l : list nat) :
  keys_present h → chain_from h p l → (length l ≤ fuel)%nat →
  (∀ i n, i ∈ l → h !! i = Some n → ¬ holds_key k n) →
  ∃ r last', find fuel h k p last = Ok (r, last') ∧
    ∀ i, r = Some i → ∃ n, h !! i = Some n ∧ node_empty n = true.
Proof.
  intros Hk C Hf Hno.
  destruct (find_total fuel h k p last l Hk C Hf) as (r & last' & E & Hin & _).
  exists r, last'. split; [assumption | ].
  intros i ->. pose proof (Hin i eq_refl) as Hi.
  apply find_stops in E as (n & Hn & [He | (He & Heq)]); [eauto | ].
  exfalso. apply (Hno i n Hi Hn). apply holds_key_eqb; assumption.
Qed.

Lemma query_no_match (t : Table) (k : Key) (mp : nat) (l : list nat) :
  in_array_part t k = None → main_pos reg t k = Ok mp →
  keys_present (hash t) → chain_from (hash t) (Some mp) l →
  (∀ i n, i ∈ l → hash t !! i = Some n → ¬ holds_key k n) →
  query reg t k = Ok None.
Proof.
  intros Ea Emp Hk C Hno. unfold query. rewrite Ea, Emp, bind_Ok_l.
  destruct (find_no_match (length (hash t)) (hash t) k (Some mp) None l Hk C
              (chain_from_length _ _ _ C) Hno) as (r & last' & E & Hr).
  rewrite E. cbn [mbind result_bind]. destruct r as [i | ]; [ | reflexivity].
  destruct (Hr i eq_refl) as (n & Hn & He).
  rewrite (at_index_Some _ _ _ Hn). cbn. unfold node_empty in He.
  destruct (value n); [discriminate | reflexivity].
Qed.

(** On a chain that ends, [erase] returns. *)
Lemma erase_returns (t : Table) (k : Key) (mp : nat) (l : list nat) :
  in_array_part t k = None → main_pos reg t k = Ok mp →
  keys_present (hash t) → chain_from (hash t) (Some mp) l →
  ∃ t', erase reg t k = Ok t'.
Proof.
  intros Ea Emp Hk C. unfold erase. rewrite Ea, Emp, bind_Ok_l.
  destruct (find_total (length (hash t)) (hash t) k (Some mp) None l Hk C
              (chain_from_length _ _ _ C)) as (r & last' & E & Hin & Hlast).
  rewrite E. cbn [mbind result_bind]. destruct r as [i | ]; [ | eauto].
  pose proof (Hin i eq_refl) as Hi.
  apply list_elem_of_split in Hi as (l1 & l2 & ->).
  pose proof (chain_from_suffix _ _ _ C l1 i l2 eq_refl) as Ci.
  inversion Ci as [ | i' n l' Hn Cn]; subst.
  rewrite (at_index_Some _ _ _ Hn), bind_Ok_l.
  assert (Hfree : ∀ h' j, length h' = length (hash t) → (j < length (hash t))%nat →
                          ∃ t', free (set_hash h' t) j = Ok t').
  { intros h' j Hlen Hj. unfold free. simpl.
    destruct (lookup_lt_is_Some_2 h' j ltac:(lia)) as [m Hm].
    rewrite (at_index_Some _ _ _ Hm). simpl. eauto. }
  pose proof (lookup_lt_Some _ _ _ Hn) as Hlt.
  destruct last' as [j | ].
  - destruct (Hlast j eq_refl) as [? | Hj]; [discriminate | ].
    pose proof (chain_from_lt _ _ _ C j Hj) as Hjlt.
    destruct (lookup_lt_is_Some_2 _ _ Hjlt) as [ln Hln].
    assert (E' : ∃ t', (ln0 ← at_index (hash t) j;
                        free (set_hash (<[j := set_next (next n) ln0]> (hash t)) t) i)
                       = Ok t').
    { rewrite (at_index_Some _ _ _ Hln), bind_Ok_l.
      apply Hfree; [apply length_insert | assumption]. }
    destruct (next n); exact E'.
  - destruct (next n) as [nx | ] eqn:Enx.
    + inversion Cn as [ | nx' nn l3 Hnn Cnn]; subst.
      rewrite (at_index_Some _ _ _ Hnn), bind_Ok_l.
      apply Hfree; [apply length_insert | ]. eapply lookup_lt_Some; eauto.
    + destruct (Hfree (hash t) i eq_refl Hlt) as (t' & Ef).
      assert (Et : set_hash (hash t) t = t) by (destruct t; reflexivity).
      rewrite Et in Ef. eauto.
Qed.

Lemma keys_present_erase (t : Table) (k : Key) (t' : Table) :
  keys_present (hash t) → erase reg t k = Ok t' → keys_present (hash t').
Proof.
  intros Hk E. apply erase_keys in E as (_ & _ & _ & _ & Hkeys).
  intros j n' Hj He. destruct (Hkeys j n' Hj He) as (j0 & n0 & Hj0 & He0 & Ek).
  rewrite <- Ek. eapply Hk; eauto.
Qed.

Lemma holds_key_set_next (k : Key) (nx : option nat) (n : Node) :
  holds_key k (set_next nx n) → holds_key k n.
Proof. intros H. exact H. Qed.

(** The query that follows an [erase] that returned. *)
Lemma erase_query_none (t : Table) (k : Key) (mp : nat) (l : list nat) (t' : Table) :
  in_array_part t k = None → main_pos reg t k = Ok mp →
  keys_present (hash t) → chain_from (hash t) (Some mp) l →
  proper_chain (hash t) k l →
  erase reg t k = Ok t' → query reg t' k = Ok None.
Proof.
  intros Ea Emp Hk C (Hend & Huniq) E.
  pose proof (keys_present_erase _ _ _ Hk E) as Hk'.
  pose proof (erase_keys reg _ _ _ E) as (Has & Hhs & _ & Hlen & _).
  assert (Ea' : in_array_part t' k = None).
  { rewrite <- Ea. apply in_array_part_frame. assumption. }
  assert (Emp' : main_pos reg t' k = Ok mp).
  { rewrite <- Emp. apply main_pos_frame. assumption. }
  destruct (erase_inv reg t k t' E Ea) as (mp0 & mp' & last & Emp0 & Ef & H).
  assert (mp0 = mp) by congruence. subst mp0.
  destruct (find_split _ _ _ _ _ _ _ _ C Ef) as (l1 & l2 & -> & -> & Hpre & Hlast).
  destruct l2 as [ | p l2]; simpl in H.
  { subst t'. eapply query_no_match; eauto. rewrite app_nil_r in *. exact Hpre. }
  destruct H as (n & Hn & H).
  pose proof (chain_from_NoDup _ _ _ C) as Hnd.
  pose proof (chain_from_suffix _ _ _ C l1 p l2 eq_refl) as Cp.
  inversion Cp as [ | p' n' l' Hn' Cn]; subst.
  assert (n' = n) by congruence. subst n'.
  apply list.NoDup_app in Hnd as (Hnd1 & Hdisj & Hnd2).
  apply list.NoDup_cons in Hnd2 as (Hp2 & Hnd2).
  assert (Hpin : p ∈ l1 ++ p :: l2).
  { apply elem_of_app. right. apply elem_of_cons. auto. }
  assert (Htail : ∀ i ni, i ∈ l2 → hash t !! i = Some ni → ¬ holds_key k ni).
  { intros i ni Hi Hni Hholds.
    apply find_stops in Ef as (n0 & Hn0 & Hstop).
    assert (n0 = n) by congruence. subst n0.
    destruct Hstop as [He | (He & Heq)].
    - rewrite (Hend p n Hpin Hn He) in Cn. inversion Cn; subst. inversion Hi.
    - assert (i = p); [ | subst i; contradiction].
      apply (Huniq i p ni n); auto; [ | apply holds_key_eqb; assumption].
      apply elem_of_app. right. apply elem_of_cons. auto. }
  destruct Hlast as [(-> & ->) | (l0 & j & -> & ->)].
  - (* the node found is the main position *)
    simpl in C. inversion C as [ | mp' n' l' Hmp Cmp]; subst. clear Cmp Hmp.
    destruct (next n) as [nx | ] eqn:Enx.
    + destruct H as (nn & Hnn & H). apply free_eq in H as (_ & ->).
      simpl in *.
      inversion Cn as [ | nx' nn' l3 Hnn' Cnn]; subst.
      assert (nn' = nn) by congruence. subst nn'.
      apply list.NoDup_cons in Hnd2 as (Hnx3 & Hnd3).
      assert (Hne : p ≠ nx).
      { intros ->. apply Hp2, elem_of_cons. auto. }
      assert (Hext : ∀ i, i ∈ l3 →
                <[nx := {| key := None; value := None; next := None;
                           vacancy_next := vacancy_head t |}]>
                  (<[p := nn]> (hash t)) !! i = hash t !! i).
      { intros i Hi.
        assert (i ≠ p) by (intros ->; apply Hp2, elem_of_cons; auto).
        assert (i ≠ nx) by (intros ->; contradiction).
        rewrite !list_lookup_insert_ne by congruence. reflexivity. }
      apply (query_no_match _ k p (p :: l3)); auto;
        cbn [hash set_vacancy_head set_hash].
      * econstructor.
        -- rewrite list_lookup_insert_ne by auto.
           apply list_lookup_insert_eq. eapply lookup_lt_Some; eauto.
        -- eapply chain_from_ext; eauto.
      * intros i m Hi Hm. apply elem_of_cons in Hi as [-> | Hi].
        -- rewrite list_lookup_insert_ne in Hm by auto.
           rewrite list_lookup_insert_eq in Hm by (eapply lookup_lt_Some; eauto).
           injection Hm as <-. apply (Htail nx nn); [apply elem_of_cons; auto | assumption].
        -- rewrite Hext in Hm by assumption.
           apply (Htail i m); [apply elem_of_cons; auto | assumption].
    + apply free_eq in H as (Hlt & ->). simpl in *.
      apply (query_no_match _ k p [p]); auto;
        cbn [hash set_vacancy_head set_hash].
      * econstructor; [apply list_lookup_insert_eq; assumption | constructor].
      * intros i m Hi Hm. apply list_elem_of_singleton in Hi as ->.
        rewrite list_lookup_insert_eq in Hm by assumption. injection Hm as <-.
        apply not_holds_key_empty. reflexivity.
  - (* the node found has a predecessor *)
    assert (H' : ∃ ln, hash t !! j = Some ln ∧
               free (set_hash (<[j := set_next (next n) ln]> (hash t)) t) p = Ok t').
    { destruct (next n); exact H. }
    clear H. destruct H' as (ln & Hln & H). apply free_eq in H as (_ & ->).
    simpl in *.
    apply list.NoDup_app in Hnd1 as (Hnd0 & Hdisj0 & _).
    assert (Hjp : j ≠ p).
    { intros ->. apply (Hdisj p); [ | apply elem_of_cons; auto].
      apply elem_of_app. right. apply elem_of_cons. auto. }
    assert (Hj1 : j ∈ l0 ++ [j]).
    { apply elem_of_app. right. apply elem_of_cons. auto. }
    set (E0 := {| key := None; value := None; next := None;
                  vacancy_next := vacancy_head t |}) in *.
    assert (Hext0 : ∀ i, i ∈ l0 →
              <[p := E0]> (<[j := set_next (next n) ln]> (hash t)) !! i = hash t !! i).
    { intros i Hi.
      assert (i ≠ j) by (intros ->; apply (Hdisj0 j Hi), elem_of_cons; auto).
      assert (i ≠ p).
      { intros ->. apply (Hdisj p); [ | apply elem_of_cons; auto].
        apply elem_of_app. auto. }
      rewrite !list_lookup_insert_ne by congruence. reflexivity. }
    assert (Hext2 : ∀ i, i ∈ l2 →
              <[p := E0]> (<[j := set_next (next n) ln]> (hash t)) !! i = hash t !! i).
    { intros i Hi.
      assert (i ≠ j) by (intros ->; apply (Hdisj j Hj1), elem_of_cons; auto).
      assert (i ≠ p) by (intros ->; contradiction).
      rewrite !list_lookup_insert_ne by congruence. reflexivity. }
    assert (Hj' : <[p := E0]> (<[j := set_next (next n) ln]> (hash t)) !! j
                  = Some (set_next (next n) ln)).
    { rewrite list_lookup_insert_ne by auto.
      apply list_lookup_insert_eq. eapply lookup_lt_Some; eauto. }
    apply (query_no_match _ k mp (l0 ++ j :: l2)); auto;
      cbn [hash set_vacancy_head set_hash]; fold E0.
    + rewrite <- app_assoc in C. simpl in C.
      eapply chain_from_splice; [exact C | exact Hext0 | ].
      simpl. econstructor; [exact Hj' | ]. simpl.
      eapply chain_from_ext; eauto.
    + intros i m Hi Hm. apply elem_of_app in Hi as [Hi | Hi].
      * rewrite Hext0 in Hm by assumption.
        apply (Hpre i m); [apply elem_of_app; auto | assumption].
      * apply elem_of_cons in Hi as [-> | Hi].
        -- rewrite Hj' in Hm. injection Hm as <-. intros Hh.
           apply holds_key_set_next in Hh. exact (Hpre j ln Hj1 Hln Hh).
        -- rewrite Hext2 in Hm by assumption. apply (Htail i m); assumption.
Qed.

(** X9: [erase] and then [query].  When the chain that starts at the main
    position of the key ends, a node without a value has no successor on
    it, and at most one of its nodes holds a key equal to the one given,
    [erase] returns and the query for the key that follows finds nothing. *)
Theorem erase_then_query (t : Table) (k : Key) (mp : nat) (l : list nat) :
  in_array_part t k = None → main_pos reg t k = Ok mp →
  keys_present (hash t) → chain_from (hash t) (Some mp) l →
  proper_chain (hash t) k l →
  ∃ t', erase reg t k = Ok t' ∧ query reg t' k = Ok None.
Proof.
  intros Ea Emp Hk C Hp.
  destruct (erase_returns t k mp l Ea Emp Hk C) as (t' & E).
  exists t'. split; [exact E | ].
  exact (erase_query_none t k mp l t' Ea Emp Hk C Hp E).
Qed.

End EraseThenQuery.

(** ** What [insert] never does *)

Section Outcomes.
Context `{U : IHashTypes}.
Variable reg : Registry.

Lemma sound_Ok {A} (a : A) : sound_outcome (Ok a).
Proof. repeat split; discriminate. Qed.

Lemma sound_bind {A B} (m : result A) (f : A → result B) :
  sound_outcome m → (∀ a, m = Ok a → sound_outcome (f a)) →
  sound_outcome (m ≫= f).
Proof.
  destruct m as [a | e]; simpl; [auto | ].
  intros (H1 & H2 & H3) _.
  repeat split; intros [= ->]; [apply H1 | apply H2 | apply H3]; reflexivity.
Qed.

Lemma sound_at_index {A} (l : list A) (i : nat) : sound_outcome (at_index l i).
Proof. unfold at_index. destruct (l !! i); repeat split; discriminate. Qed.

Lemma sound_foldM {A S} (body : A → S → result S) (l : list A) (s : S) :
  (∀ a s, sound_outcome (body a s)) → sound_outcome (foldM body l s).
Proof.
  intros Hb. revert s. induction l as [ | a l IH]; intros s; simpl.
  - apply sound_Ok.
  - apply sound_bind; auto.
Qed.

Lemma sound_node_key_eqb (n : Node) (k : Key) : sound_outcome (node_key_eqb n k).
Proof. unfold node_key_eqb. destruct (key n); repeat split; discriminate. Qed.

Lemma sound_overwrites (n : Node) (k : Key) : sound_outcome (overwrites n k).
Proof.
  unfold overwrites. destruct (node_empty n);
    [apply sound_Ok | apply sound_node_key_eqb].
Qed.

Lemma sound_prune_vacancy (fuel : nat) (t : Table) :
  sound_outcome (prune_vacancy fuel t).
Proof.
  revert t. induction fuel as [ | fuel IH]; intros t; simpl;
    (destruct (vacancy_head t) as [i | ]; [ | apply sound_Ok]);
    (apply sound_bind; [apply sound_at_index | ]); intros n _;
    (destruct (node_empty n); [apply sound_Ok | ]).
  - repeat split; discriminate.
  - apply IH.
Qed.

Lemma sound_scan_free (h : list Node) (lf : nat) : sound_outcome (scan_free h lf).
Proof.
  induction lf as [ | lf IH]; simpl;
    (apply sound_bind; [apply sound_at_index | ]); intros n _;
    (destruct (node_empty n); [apply sound_Ok | ]).
  - apply sound_Ok.
  - apply IH.
Qed.

Lemma sound_get_free_pos (t : Table) : sound_outcome (get_free_pos t).
Proof.
  unfold get_free_pos. apply sound_bind; [apply sound_prune_vacancy | ].
  intros [r t1] _. destruct r; [apply sound_Ok | ].
  apply sound_bind; [apply sound_scan_free | ]. intros [r' lf] _. apply sound_Ok.
Qed.

(** Once the walk of the last branch of [insert] has passed a node, it
    ends with a node in [last]: the [assert] that follows holds. *)
Lemma find_last_Some (fuel : nat) (h : list Node) (mp : nat) (first : option nat)
    (j : nat) (r : option nat) :
  find_last fuel h mp first (Some j) = Ok r → is_Some r.
Proof.
  revert first j. induction fuel as [ | fuel IH]; intros first j E; simpl in E;
    (destruct first as [i | ]; [ | injection E as <-; eauto]);
    (destruct (i =? mp)%nat; [injection E as <-; eauto | ]);
    bind_inv E as n En.
  - discriminate.
  - eauto.
Qed.

Lemma sound_find_last (fuel : nat) (h : list Node) (mp : nat) (first last : option nat) :
  sound_outcome (find_last fuel h mp first last).
Proof.
  revert first last. induction fuel as [ | fuel IH]; intros first last; simpl;
    (destruct first as [i | ]; [ | apply sound_Ok]);
    (destruct (i =? mp)%nat; [apply sound_Ok | ]);
    (apply sound_bind; [apply sound_at_index | ]); intros n _.
  - repeat split; discriminate.
  - apply IH.
Qed.

Lemma sound_splice_behind (t : Table) (mp free : nat) (k : Key) (v : Value) :
  sound_outcome (splice_behind t mp free k v).
Proof.
  unfold splice_behind. apply sound_bind; [apply sound_at_index | ].
  intros n _. apply sound_Ok.
Qed.

Lemma sound_relocate_occupant (t : Table) (mp home free : nat) (k : Key) (v : Value) :
  home ≠ mp → sound_outcome (relocate_occupant t mp home free k v).
Proof.
  intros Hne. unfold relocate_occupant.
  apply sound_bind; [apply sound_find_last | ]. intros last El.
  assert (Hl : is_Some last).
  { destruct (length (hash t)) as [ | fuel]; simpl in El;
      (destruct (home =? mp)%nat eqn:Eh; [apply Nat.eqb_eq in Eh; contradiction | ]);
      bind_inv El as n En; [discriminate | ].
    eapply find_last_Some; eauto. }
  destruct Hl as [l ->].
  apply sound_bind; [apply sound_at_index | ]. intros ln _.
  apply sound_bind; [apply sound_at_index | ]. intros n _. apply sound_Ok.
Qed.

Section Registered.
Hypothesis Hreg : registered_only reg.

Lemma sound_Key_hash (k : Key) : sound_outcome (Key_hash reg k).
Proof.
  destruct k as [i | n | s | p | h]; simpl; try apply sound_Ok.
  unfold hash_H, get_hash. destruct (negb (hw_hash h =? 0)); [apply sound_Ok | ].
  destruct (reg (hw_type h)) as [f | ] eqn:Ef; [ | repeat split; discriminate].
  rewrite (Hreg _ f Ef h eq_refl). apply sound_Ok.
Qed.

Lemma sound_main_pos (t : Table) (k : Key) : sound_outcome (main_pos reg t k).
Proof.
  unfold main_pos. apply sound_bind; [apply sound_Key_hash | ].
  intros [h k'] _. apply sound_Ok.
Qed.

Lemma sound_insert_at_free (t : Table) (mp free : nat) (k : Key) (v : Value) :
  sound_outcome (insert_at_free reg t mp free k v).
Proof.
  unfold insert_at_free. apply sound_bind; [apply sound_at_index | ]. intros n _.
  apply sound_bind.
  { destruct (key n); [apply sound_Ok | repeat split; discriminate]. }
  intros occupant _. apply sound_bind; [apply sound_main_pos | ]. intros home _.
  destruct (home =? mp)%nat eqn:Eh; [apply sound_splice_behind | ].
  apply sound_relocate_occupant. apply Nat.eqb_neq. assumption.
Qed.

End Registered.

(** [insert] on a table in which a free slot can be found goes no deeper. *)
Lemma insert_depth_1 (fuel : nat) (t : Table) (k : Key) (v : Value) :
  (∀ t1, get_free_pos t ≠ Ok (None, t1)) →
  insert reg (S fuel) t k v = insert reg 1 t k v.
Proof.
  intros Hroom. cbn [insert].
  destruct (in_array_part t k); [reflexivity | ].
  destruct (main_pos reg t k) as [mp | e]; [ | reflexivity]. rewrite !bind_Ok_l.
  destruct (at_index (hash t) mp) as [n | e]; [ | reflexivity]. rewrite !bind_Ok_l.
  destruct (overwrites n k) as [[] | e]; try reflexivity. rewrite !bind_Ok_l.
  destruct (get_free_pos t) as [[r t1] | e] eqn:Eg; [ | reflexivity].
  rewrite !bind_Ok_l. destruct r as [free | ]; [reflexivity | ].
  exfalso. exact (Hroom t1 eq_refl).
Qed.

Lemma insert_sound_1 (t : Table) (k : Key) (v : Value) :
  registered_only reg →
  (∀ t1, get_free_pos t ≠ Ok (None, t1)) →
  sound_outcome (insert reg 1 t k v).
Proof.
  intros Hreg Hroom. cbn [insert]. destruct (in_array_part t k).
  { apply sound_bind; [apply sound_at_index | ]. intros ? _. apply sound_Ok. }
  apply sound_bind; [apply sound_main_pos; assumption | ]. intros mp _.
  apply sound_bind; [apply sound_at_index | ]. intros n _.
  apply sound_bind; [apply sound_overwrites | ]. intros [] _; [apply sound_Ok | ].
  apply sound_bind; [apply sound_get_free_pos | ]. intros [r t1] Eg.
  destruct r as [free | ]; [apply sound_insert_at_free; assumption | ].
  exfalso. exact (Hroom t1 Eg).
Qed.

(** The table that [resize] fills has a free slot as long as fewer entries
    went into it than it has slots. *)
Lemma filling_has_room (na nh c : nat) (nt : Table) :
  filling na nh c nt → (c < 2 ^ nh)%nat → ∀ t1, get_free_pos nt ≠ Ok (None, t1).
Proof.
  intros Hfill Hc t1 Eg.
  pose proof Hfill as ((_ & Hlh & _) & _ & Hnh & _ & Hvac & _).
  apply get_free_pos_no_vacancy in Eg as (Es & _); [ | assumption].
  apply scan_free_spec in Es as (_ & _ & Hall).
  pose proof (filling_full na nh c nt Hfill Hall) as Hfull.
  rewrite Hlh, Hnh in Hfull. lia.
Qed.

End Outcomes.

(** ** How deep [insert] goes *)

Section Depth.
Context `{U : IHashTypes}.
Variable reg : Registry.

Lemma resize_array_step_eq (ins : Table → Key → Value → result Table)
    (t : Table) (i : nat) (nt : Table) (slot : option Value) :
  array t !! i = Some slot →
  resize_array_step ins t i nt
  = match slot with
    | None => Err NullDeref
    | Some a => if has_value a then ins nt (INT (Z.of_nat i)) a else Ok nt
    end.
Proof.
  intros Hs. unfold resize_array_step. rewrite (at_index_Some _ _ _ Hs).
  reflexivity.
Qed.

Lemma resize_hash_step_eq (ins : Table → Key → Value → result Table)
    (t : Table) (B : Z) (i : nat) (nt : Table) (n : Node) :
  hash t !! i = Some n →
  resize_hash_step ins t B i nt
  = match value n with
    | None => Ok nt
    | Some v =>
        match key n with
        | None => Err NullDeref
        | Some (INT x) =>
            if x <? B then array1_store nt x (Some v) else ins nt (INT x) v
        | Some k => ins nt k v
        end
    end.
Proof.
  intros Hs. unfold resize_hash_step. rewrite (at_index_Some _ _ _ Hs).
  reflexivity.
Qed.

Lemma array1_store_outcome (na nh c : nat) (nt : Table) (x : Z) (v : option Value) :
  filling na nh c nt →
  (∃ nt', array1_store nt x v = Ok nt') ∨ array1_store nt x v = Err OutOfBounds.
Proof.
  intros (_ & _ & _ & Hres & _). unfold array1_store. rewrite Hres. simpl.
  destruct ((x <? 0) || (Z.of_nat (length (array nt)) <=? x)); eauto.
Qed.

(** The loops of [resize] with two functions in the place of [insert] that
    agree on the table being filled, and a property [R] of outcomes that
    holds of the outcomes of the second. *)
Section Loops2.
Variables (na nh : nat) (t : Table).
Variables ins1 ins2 : Table → Key → Value → result Table.
Variable R : result Table → Prop.
Hypothesis R_Ok : ∀ nt, R (Ok nt).
Hypothesis R_bounds : R (Err OutOfBounds).
Hypothesis R_null : R (Err NullDeref).
Hypothesis ins_step : ∀ c nt k v nt',
  filling na nh c nt → (c < 2 ^ nh)%nat → ins2 nt k v = Ok nt' →
  filling na nh (S c) nt'.
Hypothesis ins_agree : ∀ c nt k v,
  filling na nh c nt → (c < 2 ^ nh)%nat →
  ins1 nt k v = ins2 nt k v ∧ R (ins2 nt k v).

Lemma move_loop2 (l : list nat) :
  ∀ c nt, filling na nh c nt → R (foldM (resize_move_step t) l nt).
Proof.
  induction l as [ | i l IH]; intros c nt Hf; cbn [foldM]; [apply R_Ok | ].
  replace (resize_move_step t i nt)
    with (v ← at_index (array t) i; array1_store nt (Z.of_nat i) v)
    by reflexivity.
  destruct (at_index (array t) i) as [v | e] eqn:Ev.
  2: { unfold at_index in Ev. destruct (array t !! i); [discriminate | ].
       injection Ev as <-. exact R_bounds. }
  rewrite bind_Ok_l.
  destruct (array1_store_outcome na nh c nt (Z.of_nat i) v Hf) as [(nt' & E) | E];
    rewrite E; [ | exact R_bounds].
  rewrite bind_Ok_l. apply (IH c). eapply array1_store_filling; eauto.
Qed.

Lemma array_loop2 (l : list (option Value)) :
  ∀ lo c nt, drop lo (array t) = l →
  filling na nh c nt →
  (c + length (live_indices lo l) ≤ 2 ^ nh)%nat →
  foldM (resize_array_step ins1 t) (seq lo (length l)) nt
  = foldM (resize_array_step ins2 t) (seq lo (length l)) nt
  ∧ R (foldM (resize_array_step ins2 t) (seq lo (length l)) nt).
Proof.
  induction l as [ | slot l IH]; intros lo c nt Hd Hf Hc.
  - split; [reflexivity | apply R_Ok].
  - apply drop_cons_lookup in Hd as (Hs & Hd).
    cbn [length seq foldM]. rewrite !(resize_array_step_eq _ _ _ _ _ Hs).
    cbn [live_indices] in Hc. destruct slot as [a | ]; [ | split; [reflexivity | exact R_null]].
    destruct (has_value a).
    + cbn [length] in Hc.
      destruct (ins_agree c nt (INT (Z.of_nat lo)) a Hf ltac:(lia)) as (-> & HR).
      destruct (ins2 nt (INT (Z.of_nat lo)) a) as [nt1 | e] eqn:E1;
        [ | split; [reflexivity | exact HR]].
      rewrite !bind_Ok_l. apply (IH (S lo) (S c)); [assumption | | lia].
      eapply ins_step; eauto. lia.
    + rewrite !bind_Ok_l. apply (IH (S lo) c); assumption.
Qed.

Lemma hash_loop2 (B : Z) (l : list Node) :
  ∀ lo c nt, drop lo (hash t) = l →
  filling na nh c nt →
  (c + length (filter (λ n, goes_to_hash B n = true) l) ≤ 2 ^ nh)%nat →
  foldM (resize_hash_step ins1 t B) (seq lo (length l)) nt
  = foldM (resize_hash_step ins2 t B) (seq lo (length l)) nt
  ∧ R (foldM (resize_hash_step ins2 t B) (seq lo (length l)) nt).
Proof.
  induction l as [ | n l IH]; intros lo c nt Hd Hf Hc.
  - split; [reflexivity | apply R_Ok].
  - apply drop_cons_lookup in Hd as (Hs & Hd).
    cbn [length seq foldM]. rewrite !(resize_hash_step_eq _ _ _ _ _ _ Hs).
    assert (Hins : ∀ k v, goes_to_hash B n = true →
              (ins1 nt k v ≫= foldM (resize_hash_step ins1 t B) (seq (S lo) (length l)))
              = (ins2 nt k v ≫= foldM (resize_hash_step ins2 t B) (seq (S lo) (length l)))
              ∧ R (ins2 nt k v ≫= foldM (resize_hash_step ins2 t B) (seq (S lo) (length l)))).
    { intros k v Hg. rewrite filter_cons_True in Hc by assumption.
      cbn [length] in Hc.
      destruct (ins_agree c nt k v Hf ltac:(lia)) as (-> & HR).
      destruct (ins2 nt k v) as [nt1 | e] eqn:E1; [ | split; [reflexivity | exact HR]].
      rewrite !bind_Ok_l. apply (IH (S lo) (S c)); [assumption | | lia].
      eapply ins_step; eauto. lia. }
    assert (Hskip : ∀ nt1, goes_to_hash B n = false → filling na nh c nt1 →
              foldM (resize_hash_step ins1 t B) (seq (S lo) (length l)) nt1
              = foldM (resize_hash_step ins2 t B) (seq (S lo) (length l)) nt1
              ∧ R (foldM (resize_hash_step ins2 t B) (seq (S lo) (length l)) nt1)).
    { intros nt1 Hg Hf1. rewrite filter_cons_False in Hc by (rewrite Hg; discriminate).
      apply (IH (S lo) c); assumption. }
    unfold goes_to_hash in Hins, Hskip.
    destruct (value n) as [v | ]; [ | rewrite !bind_Ok_l; auto].
    destruct (key n) as [k | ]; [ | split; [reflexivity | exact R_null]].
    destruct k as [x | | | | ]; try (apply Hins; reflexivity).
    destruct (x <? B); [ | apply Hins; reflexivity].
    destruct (array1_store_outcome na nh c nt x (Some v) Hf) as [(nt' & E) | E];
      rewrite E; [ | split; [reflexivity | exact R_bounds]].
    rewrite !bind_Ok_l. apply Hskip; [reflexivity | ].
    eapply array1_store_filling; eauto.
Qed.

End Loops2.

(** The [resize] that [recompute_size] calls, with two functions in the
    place of [insert]. *)
Lemma resize_agree (ins1 ins2 : Table → Key → Value → result Table)
    (R : result Table → Prop) (t : Table) (na nh : nat) :
  (∀ nt, R (Ok nt)) → R (Err OutOfBounds) → R (Err NullDeref) →
  (∀ c nt k v nt', filling na nh c nt → (c < 2 ^ nh)%nat → ins2 nt k v = Ok nt' →
     filling na nh (S c) nt') →
  (∀ c nt k v, filling na nh c nt → (c < 2 ^ nh)%nat →
     ins1 nt k v = ins2 nt k v ∧ R (ins2 nt k v)) →
  sized t → new_sizes t = Ok (na, nh) →
  resize_with ins1 t na nh = resize_with ins2 t na nh ∧
  R (resize_with ins2 t na nh).
Proof.
  intros R_Ok R_bounds R_null Hstep Hagree Hs En.
  pose proof (calls_bound t na nh Hs En) as Hcalls.
  destruct (new_sizes_spec t na nh Hs En) as (Hna & _ & _ & _ & Hnh).
  cbn zeta in Hcalls, Hnh. unfold resize_with.
  assert (Hnh1 : (nh <? 1)%nat = false) by (apply Nat.ltb_ge; lia).
  rewrite Hnh1. cbn zeta.
  set (B := Z.shiftl 1 (Z.of_nat na)) in *.
  set (boundary := Z.to_nat (Z.min (array_size t) B)) in *.
  pose proof Hs as (Hla & Hlh & _).
  pose proof (Table_new_filling na nh Hna) as F0.
  pose proof (move_loop2 na nh t R R_Ok R_bounds (seq 0 (boundary - 0)) 0%nat _ F0) as R1.
  unfold for_range.
  destruct (foldM (resize_move_step t) (seq 0 (boundary - 0)) (Table_new na nh))
    as [nt1 | e] eqn:E1; [ | split; [reflexivity | exact R1]].
  rewrite !bind_Ok_l.
  pose proof (move_loop na nh t _ 0%nat _ _ E1 F0) as F1.
  assert (El2 : (Z.to_nat (array_size t) - boundary)%nat
                = length (drop boundary (array t))).
  { rewrite length_drop, Hla, array_size_nat. reflexivity. }
  rewrite El2.
  destruct (array_loop2 na nh t ins1 ins2 R R_Ok R_null Hstep Hagree _ boundary 0%nat nt1
              eq_refl F1 ltac:(lia)) as (-> & R2).
  destruct (foldM (resize_array_step ins2 t) (seq boundary (length (drop boundary (array t))))
              nt1) as [nt2 | e] eqn:E2; [ | split; [reflexivity | exact R2]].
  rewrite !bind_Ok_l.
  pose proof (array_loop na nh t ins2 Hstep _ boundary 0%nat nt1 nt2
                eq_refl E2 F1 ltac:(lia)) as F2.
  assert (El3 : (Z.to_nat (hash_size t) - 0)%nat = length (hash t)).
  { rewrite Nat.sub_0_r, Hlh, hash_size_nat. reflexivity. }
  rewrite El3.
  destruct (hash_loop2 na nh t ins1 ins2 R R_Ok R_bounds R_null Hstep Hagree B (hash t)
              0%nat _ nt2 eq_refl F2 ltac:(lia)) as (-> & R3).
  destruct (foldM (resize_hash_step ins2 t B) (seq 0 (length (hash t))) nt2)
    as [nt3 | e] eqn:E3; [ | split; [reflexivity | exact R3]].
  rewrite !bind_Ok_l. split; [reflexivity | apply R_Ok].
Qed.

Lemma insert_S (fuel : nat) (t : Table) (k : Key) (v : Value) :
  insert reg (S fuel) t k v
  = match in_array_part t k with
    | Some i =>
        _ ← at_index (array t) (Z.to_nat i);
        Ok (set_array (<[Z.to_nat i := Some v]> (array t)) t)
    | None =>
        mp ← main_pos reg t k;
        n ← at_index (hash t) mp;
        same ← overwrites n k;
        if (same : bool) then Ok (set_hash (<[mp := Node_of k v]> (hash t)) t)
        else
          '(free_pos, t) ← get_free_pos t;
          match free_pos with
          | None =>
              t ← recompute_size_with (insert reg fuel) t;
              insert reg fuel t k v
          | Some free => insert_at_free reg t mp free k v
          end
    end.
Proof. reflexivity. Qed.

Lemma get_free_pos_sized (t : Table) (r : option nat) (t1 : Table) :
  sized t → get_free_pos t = Ok (r, t1) → sized t1.
Proof.
  intros (Hla & Hlh & Hl31) E.
  apply get_free_pos_spec in E as (Hs & (Har & Has & Hhs & _) & _).
  unfold sized. rewrite Har, Has, Hhs, (hash_sim_length _ _ Hs). auto.
Qed.

Lemma bind_ext {A B} (m : result A) (f g : A → result B) :
  (∀ a, m = Ok a → f a = g a) → m ≫= f = m ≫= g.
Proof. destruct m as [a | e]; simpl; auto. Qed.

(** The second level of [insert] is the deepest that is reached. *)
Lemma insert_two_levels (fuel : nat) (t : Table) (k : Key) (v : Value) :
  sized t → insert reg (S (S fuel)) t k v = insert reg 2 t k v.
Proof.
  intros Hs. rewrite (insert_S (S fuel)), (insert_S 1).
  destruct (in_array_part t k); [reflexivity | ].
  apply bind_ext. intros mp _. apply bind_ext. intros n _.
  apply bind_ext. intros [] _; [reflexivity | ].
  apply bind_ext. intros [r t1] Eg. destruct r as [free | ]; [reflexivity | ].
  pose proof (get_free_pos_sized _ _ _ Hs Eg) as Hs1.
  assert (Er : recompute_size_with (insert reg (S fuel)) t1
               = recompute_size_with (insert reg 1) t1).
  { unfold recompute_size_with. apply bind_ext. intros [na nh] En.
    apply (resize_agree (insert reg (S fuel)) (insert reg 1) (λ _, True) t1 na nh);
      auto.
    - intros c nt k0 v0 nt'. apply filling_step.
    - intros c nt k0 v0 Hf Hc. split; [ | exact I].
      apply insert_depth_1. eapply filling_has_room; eauto. }
  rewrite Er. apply bind_ext. intros t2 Er2.
  destruct (retry_finds_free_slot reg 1 t1 t2 Hs1 Er2) as (_ & free & nf & Eg2 & _).
  apply insert_depth_1. intros t3. rewrite Eg2. discriminate.
Qed.

(** X10: [insert] calls itself at most once, after [recompute_size], and
    the calls of [insert] that [resize] makes on the new table never reach
    [recompute_size]: on a table whose segments have the sizes recorded
    for them, two levels of the recursion give what any greater number
    gives. *)
Theorem insert_recursion_depth (fuel : nat) (t : Table) (k : Key) (v : Value) :
  sized t → (2 ≤ fuel)%nat → insert reg fuel t k v = insert reg 2 t k v.
Proof.
  intros Hs Hf. destruct fuel as [ | [ | fuel]]; [lia | lia | ].
  apply insert_two_levels. assumption.
Qed.

Lemma sound_new_sizes (t : Table) : sound_outcome (new_sizes t).
Proof.
  unfold new_sizes. apply sound_bind.
  { unfold count_array, for_range. apply sound_foldM. intros i [counter hp].
    unfold count_array_step. apply sound_bind; [apply sound_at_index | ].
    intros [a | ] _; [destruct (has_value a) | ]; apply sound_Ok. }
  intros s1 _. apply sound_bind.
  { unfold count_hash, for_range. apply sound_foldM. intros i [counter hp].
    unfold count_hash_step. apply sound_bind; [apply sound_at_index | ].
    intros n _. destruct (node_empty n); [apply sound_Ok | ].
    destruct (key n) as [[] | ]; try apply sound_Ok. repeat split; discriminate. }
  intros [counter hp] _.
  destruct (choose_array_size _ _ _) as [[total nl] ap]. apply sound_Ok.
Qed.

(** X11: what [insert] never does.  With a registry filled by
    [register_hash], on a table whose segments have the sizes recorded for
    them, [insert] fails no [assert] (neither the one of [resize] nor the
    one of its last branch), never writes through the pointer [array1]
    after the array it pointed to was given up, and does not run out of
    the two levels of recursion. *)
Theorem insert_outcome (fuel : nat) (t : Table) (k : Key) (v : Value) :
  registered_only reg → sized t → (2 ≤ fuel)%nat →
  sound_outcome (insert reg fuel t k v).
Proof.
  intros Hreg Hs Hf. destruct fuel as [ | [ | fuel]]; [lia | lia | ].
  rewrite (insert_two_levels fuel t k v Hs). rewrite (insert_S 1).
  destruct (in_array_part t k).
  { apply sound_bind; [apply sound_at_index | ]. intros ? _. apply sound_Ok. }
  apply sound_bind; [apply sound_main_pos; assumption | ]. intros mp _.
  apply sound_bind; [apply sound_at_index | ]. intros n _.
  apply sound_bind; [apply sound_overwrites | ]. intros [] _; [apply sound_Ok | ].
  apply sound_bind; [apply sound_get_free_pos | ]. intros [r t1] Eg.
  destruct r as [free | ]; [apply sound_insert_at_free; assumption | ].
  pose proof (get_free_pos_sized _ _ _ Hs Eg) as Hs1.
  apply sound_bind.
  - unfold recompute_size_with. apply sound_bind; [apply sound_new_sizes | ].
    intros [na nh] En.
    apply (resize_agree (insert reg 1) (insert reg 1) sound_outcome t1 na nh); auto.
    + intros nt. apply sound_Ok.
    + repeat split; discriminate.
    + repeat split; discriminate.
    + intros c nt k0 v0 nt'. apply filling_step.
    + intros c nt k0 v0 Hfill Hc. split; [reflexivity | ].
      apply insert_sound_1; [assumption | ]. eapply filling_has_room; eauto.
  - intros t2 Er.
    destruct (retry_finds_free_slot reg 1 t1 t2 Hs1 Er) as (_ & free & nf & Eg2 & _).
    apply insert_sound_1; [assumption | ]. intros t3. rewrite Eg2. discriminate.
Qed.

End Depth.

(** ** Every node that holds a value has a key *)

Section KeysPresent.
Context `{U : IHashTypes}.
Variable reg : Registry.

Lemma foldM_invariant {A S} (P : S → Prop) (body : A → S → result S) (l : list A) :
  (∀ a s s', P s → body a s = Ok s' → P s') →
  ∀ s s', P s → foldM body l s = Ok s' → P s'.
Proof.
  intros Hb. induction l as [ | a l IH]; intros s s' Hs E; simpl in E.
  - injection E as <-. assumption.
  - bind_inv E as s1 E1. eauto.
Qed.

Lemma keys_present_sim (h1 h2 : list Node) :
  hash_sim h1 h2 → keys_present h2 → keys_present h1.
Proof.
  intros Hs Hk i n Hi He.
  destruct (hash_sim_lookup _ _ _ _ Hs Hi) as (n2 & Hn2 & (Ek & Ev & _)).
  rewrite Ek. apply (Hk i n2 Hn2). unfold node_empty in *. rewrite <- Ev.
  assumption.
Qed.

Lemma keys_present_grown (k : Key) (h h' : list Node) :
  grown_by k h h' → keys_present h → keys_present h'.
Proof.
  intros (_ & _ & _ & Hkeys) Hk j n' Hj He.
  destruct (Hkeys j n' Hj He) as [-> | (j0 & n0 & Hj0 & He0 & <-)]; [eauto | ].
  eapply Hk; eauto.
Qed.

Lemma keys_present_new (na nh : nat) : keys_present (hash (Table_new na nh)).
Proof.
  intros i n Hi He. simpl in Hi. apply lookup_replicate in Hi as [-> _].
  discriminate.
Qed.

Lemma array1_store_frame (nt : Table) (x : Z) (v : option Value) (nt' : Table) :
  array1_store nt x v = Ok nt' →
  hash nt' = hash nt ∧ vacancy_head nt' = vacancy_head nt ∧
  last_free nt' = last_free nt.
Proof.
  unfold array1_store. destruct (negb (resizes nt =? 0)%nat); [discriminate | ].
  destruct ((x <? 0) || (Z.of_nat (length (array nt)) <=? x)); [discriminate | ].
  intros [= <-]. auto.
Qed.

(** [resize] establishes a property of the hash segment, the vacancy list
    and the scan cursor that the new table has and that the function in
    the place of [insert] keeps. *)
Lemma resize_invariant (P : Table → Prop)
    (ins : Table → Key → Value → result Table) (t : Table) (na nh : nat) (t' : Table) :
  (∀ nt nt', hash nt' = hash nt → vacancy_head nt' = vacancy_head nt →
             last_free nt' = last_free nt → P nt → P nt') →
  P (Table_new na nh) →
  (∀ nt k v nt', P nt → ins nt k v = Ok nt' → P nt') →
  resize_with ins t na nh = Ok t' → P t'.
Proof.
  intros Hext Hnew Hins E. unfold resize_with in E.
  destruct (nh <? 1)%nat; [discriminate | ]. cbn zeta in E.
  bind_inv E as nt1 E1. bind_inv E as nt2 E2. bind_inv E as nt3 E3.
  injection E as <-.
  assert (Hstore : ∀ nt x v nt', P nt → array1_store nt x v = Ok nt' → P nt').
  { intros nt x v nt' Hnt Es. apply array1_store_frame in Es as (H1 & H2 & H3).
    eapply Hext; eauto. }
  apply (Hext nt3); [reflexivity | reflexivity | reflexivity | ].
  eapply (foldM_invariant P); [ | | exact E3].
  { intros i nt nt' Hnt Es. unfold resize_hash_step in Es.
    bind_inv Es as n En. destruct (value n) as [v | ]; [ | congruence].
    destruct (key n) as [k | ]; [ | discriminate].
    destruct k as [x | | | | ]; try exact (Hins _ _ _ _ Hnt Es).
    destruct (x <? _); [exact (Hstore _ _ _ _ Hnt Es) | exact (Hins _ _ _ _ Hnt Es)]. }
  eapply (foldM_invariant P); [ | | exact E2].
  { intros i nt nt' Hnt Es. unfold resize_array_step in Es.
    bind_inv Es as slot En. destruct slot as [a | ]; [ | discriminate].
    destruct (has_value a); [exact (Hins _ _ _ _ Hnt Es) | congruence]. }
  eapply (foldM_invariant P); [ | | exact E1].
  { intros i nt nt' Hnt Es. unfold resize_move_step in Es.
    bind_inv Es as v Ev. exact (Hstore _ _ _ _ Hnt Es). }
  exact Hnew.
Qed.

Lemma keys_present_insert (fuel : nat) (t : Table) (k : Key) (v : Value) (t' : Table) :
  keys_present (hash t) → insert reg fuel t k v = Ok t' → keys_present (hash t').
Proof.
  revert t k v t'. induction fuel as [ | fuel IH]; intros t k v t' Hk E;
    [discriminate | ].
  apply insert_cases in E
    as [(i & Ea & Hi & ->) | [(Ea & t1 & Ht1 & _ & _ & _ & Hg) | (Ea & t1 & t2 & Eg & Er & E)]].
  - exact Hk.
  - eapply keys_present_grown; [exact Hg | ].
    destruct Ht1 as [-> | (free & Eg)]; [assumption | ].
    apply get_free_pos_spec in Eg as (Hs & _). eapply keys_present_sim; eauto.
  - apply get_free_pos_spec in Eg as (Hs & _).
    eapply IH; [ | exact E]. unfold recompute_size_with in Er.
    bind_inv Er as [na nh] En.
    eapply (resize_invariant (λ nt, keys_present (hash nt))); [ | | | exact Er].
    + intros nt nt' -> _ _. auto.
    + apply keys_present_new.
    + intros nt k0 v0 nt'. apply IH.
Qed.

Lemma find_no_null (fuel : nat) (h : list Node) (k : Key) (mp last : option nat) :
  keys_present h → find fuel h k mp last ≠ Err NullDeref.
Proof.
  intros Hk. revert mp last. induction fuel as [ | fuel IH]; intros mp last; simpl;
    (destruct mp as [i | ]; [ | discriminate]);
    unfold at_index; (destruct (h !! i) as [n | ] eqn:Hi; [ | discriminate]);
    simpl; (destruct (node_empty n) eqn:He; [discriminate | ]);
    destruct (Hk i n Hi He) as [k' Ek]; unfold node_key_eqb; rewrite Ek; simpl;
    (destruct (Key_eqb k' k); [discriminate | ]).
  - discriminate.
  - apply IH.
Qed.

Lemma bind_not_err {A B} (e : error) (m : result A) (f : A → result B) :
  m ≠ Err e → (∀ a, m = Ok a → f a ≠ Err e) → m ≫= f ≠ Err e.
Proof.
  destruct m as [a | e']; simpl; [auto | ]. intros H _ [= ->]. apply H. reflexivity.
Qed.

Lemma at_index_no_null {A} (l : list A) (i : nat) : at_index l i ≠ Err NullDeref.
Proof. unfold at_index. destruct (l !! i); discriminate. Qed.

Lemma free_no_null (t : Table) (i : nat) : free t i ≠ Err NullDeref.
Proof.
  unfold free. apply bind_not_err; [apply at_index_no_null | discriminate].
Qed.

(** X12: a node that holds a value holds a key.  This is so in a new
    table, [insert] and [erase] keep it so, and where it is so [query] and
    [erase] never go through a null key pointer. *)
Theorem keys_are_never_missing (t : Table) (na nh : nat) :
  keys_present (hash t) →
  keys_present (hash (Table_new na nh)) ∧
  (∀ fuel k v t', insert reg fuel t k v = Ok t' → keys_present (hash t')) ∧
  (∀ k t', erase reg t k = Ok t' → keys_present (hash t')) ∧
  (∀ k x k', Key_hash reg k = Ok (x, k') →
     query reg t k ≠ Err NullDeref ∧ erase reg t k ≠ Err NullDeref).
Proof.
  intros Hk. split; [apply keys_present_new | ]. split; [ | split].
  - intros fuel k v t'. apply keys_present_insert. assumption.
  - intros k t'. apply keys_present_erase. assumption.
  - intros k x k' Eh.
    assert (Emp : main_pos reg t k
                  = Ok (Z.to_nat (Z.land x (hash_size t - 1)))).
    { unfold main_pos. rewrite Eh. reflexivity. }
    split.
    + unfold query. destruct (in_array_part t k); [apply at_index_no_null | ].
      rewrite Emp, bind_Ok_l.
      apply bind_not_err; [apply find_no_null; assumption | ].
      intros [mp' last] _. destruct mp' as [i | ]; [ | discriminate].
      apply bind_not_err; [apply at_index_no_null | discriminate].
    + unfold erase. destruct (in_array_part t k).
      { apply bind_not_err; [apply at_index_no_null | discriminate]. }
      rewrite Emp, bind_Ok_l.
      apply bind_not_err; [apply find_no_null; assumption | ].
      intros [mp' last] _. destruct mp' as [i | ]; [ | discriminate].
      apply bind_not_err; [apply at_index_no_null | ]. intros n _.
      destruct (next n) as [nx | ], last as [l | ];
        try apply free_no_null;
        (apply bind_not_err; [apply at_index_no_null | ]); intros; apply free_no_null.
Qed.

End KeysPresent.

(** ** The room that [recompute_size] leaves, and [NodeReference] *)

Section Room.
Context `{U : IHashTypes}.
Variable reg : Registry.

(** X13: when [recompute_size] returns, at least two slots of the new hash
    segment hold no value and the vacancy list is empty; the
    [get_free_pos] that the retried [insert] may call returns one of these
    slots, so that the retried [insert] does not resize again. *)
Theorem recompute_size_leaves_room (fuel : nat) (t t2 : Table) :
  sized t → recompute_size reg fuel t = Ok t2 →
  sized t2 ∧
  (length (hash_live (hash t2)) + 2 ≤ length (hash t2))%nat ∧
  vacancy_head t2 = None ∧
  ∃ free n, get_free_pos t2 = Ok (Some free, set_last_free free t2) ∧
            hash t2 !! free = Some n ∧ node_empty n = true.
Proof.
  intros Hs E. unfold recompute_size in E.
  destruct (retry_finds_free_slot reg fuel t t2 Hs E) as (_ & Hfree).
  unfold recompute_size_with in E. bind_inv E as [na nh] En.
  apply (resize_filling reg fuel t na nh t2 Hs En) in E
    as (Hs2 & _ & _ & Hnh & Hvac & _ & Hcnt & _).
  pose proof Hs2 as (_ & Hlh & _). rewrite Hlh, Hnh. auto.
Qed.

(** The query that follows an [insert], for a key that equals itself. *)
Lemma insert_query (fuel : nat) (t : Table) (k : Key) (v : Value) (t' : Table) :
  Key_eqb k k = true → insert reg fuel t k v = Ok t' → query reg t' k = Ok (Some v).
Proof.
  intros Hk. revert t. induction fuel as [ | fuel IH]; intros t E;
    [discriminate | ].
  apply insert_inv in E
    as [(i & Ea & Hi & ->) | (Ea & mp & n & Emp & Hn & [(Ho & ->) | (Ho & r & t1 & Eg & E)])].
  - unfold query.
    rewrite (in_array_part_frame _ t k) by reflexivity. rewrite Ea. simpl.
    apply at_index_Some, list_lookup_insert_eq. assumption.
  - eapply query_at_main; eauto.
    simpl. apply list_lookup_insert_eq. eapply lookup_lt_Some; eauto.
  - destruct r as [free | ].
    + eapply insert_at_free_query; eauto.
    + destruct E as (t2 & _ & E). eauto.
Qed.

(** X14: the assignment [table[key] = rhs] and the query that follows.
    The key is one that [operator[]] can copy, an integer, a number or a
    pointer, and it equals itself.  An assignment that returns leaves the
    table so that [query] returns the value assigned; when the value
    assigned holds nothing, [query] finds nothing, provided the chain of
    the main position of the key is as [erase] needs it. *)
Theorem assign_then_query (fuel : nat) (t : Table) (k : Key) (rhs : Value) (t' : Table) :
  Key_eqb k k = true → sized t → is_int64 k → keys_present (hash t) →
  (has_value rhs = false → in_array_part t k = None →
   ∃ mp l, main_pos reg t k = Ok mp ∧ chain_from (hash t) (Some mp) l ∧
           proper_chain (hash t) k l) →
  subscript_assign reg fuel t k rhs = Some (Ok t') →
  query reg t' k = Ok (if has_value rhs then Some rhs else None).
Proof.
  intros Hk Hs Hi Hkp Hchain E. unfold subscript_assign in E.
  destruct (Key_copy k) as [kc | ] eqn:Ec; [ | discriminate].
  assert (kc = k) by (destruct k; simpl in Ec; congruence). subst kc.
  injection E as E. unfold NodeReference_assign in E.
  destruct (has_value rhs) eqn:Hv; simpl in E.
  - eapply insert_query; eauto.
  - destruct (in_array_part t k) as [i | ] eqn:Ea.
    + pose proof Hs as (_ & _ & Hl31).
      apply in_array_part_index in Ea as (-> & Hx); [ | assumption | assumption].
      destruct (array_slot_is_a_cell_erase reg t i Hs Hx) as (t'' & E' & Hq).
      congruence.
    + destruct (Hchain eq_refl eq_refl) as (mp & l & Emp & C & Hp).
      exact (erase_query_none reg t k mp l t' Ea Emp Hkp C Hp E).
Qed.

End Room.

(** ** The pointers stay inside the hash segment *)

Section Links.
Context `{U : IHashTypes}.
Variable reg : Registry.

Lemma links_ext (t t' : Table) :
  hash t' = hash t → vacancy_head t' = vacancy_head t → last_free t' = last_free t →
  links_in_range t → links_in_range t'.
Proof. unfold links_in_range. intros -> -> ->. auto. Qed.

Lemma node_links_ok_Node_of_ptrs (len : nat) (k : option Key) (v : option Value) :
  node_links_ok len (Node_of_ptrs k v).
Proof. split; [intros j | intros _ j]; discriminate. Qed.

Lemma node_links_ok_set_next (len : nat) (n : Node) (nx : option nat) :
  node_links_ok len n → (∀ j, nx = Some j → (j < len)%nat) →
  node_links_ok len (set_next nx n).
Proof. intros (H1 & H2) Hnx. split; simpl; assumption. Qed.

(** A new table, whatever its nodes hold in [vacancy_next]. *)
Lemma links_new (na nh : nat) (h0 : list Node) :
  hash_sim h0 (hash (Table_new na nh)) →
  links_in_range (set_hash h0 (Table_new na nh)).
Proof.
  intros Hsim. pose proof (hash_sim_length _ _ Hsim) as Hlen.
  simpl in Hlen. rewrite length_replicate in Hlen.
  assert (Hpos : (0 < 2 ^ nh)%nat).
  { apply Nat.neq_0_lt_0, Nat.pow_nonzero. discriminate. }
  split; [ | split]; simpl.
  - apply Forall_lookup_2. intros i n Hn.
    destruct (hash_sim_lookup _ _ _ _ Hsim Hn) as (n2 & Hn2 & _ & Ev & Enx).
    simpl in Hn2. apply lookup_replicate in Hn2 as (-> & _). simpl in Ev, Enx.
    split.
    + intros j Hj. congruence.
    + intros He. unfold node_empty in He. rewrite Ev in He. discriminate.
  - intros j. discriminate.
  - lia.
Qed.

(** Writing a node with good pointers keeps the pointers good. *)
Lemma links_insert (t : Table) (i : nat) (n : Node) :
  links_in_range t → node_links_ok (length (hash t)) n →
  links_in_range (set_hash (<[i := n]> (hash t)) t).
Proof.
  intros (H1 & H2 & H3) Hn. split; [ | split]; simpl; rewrite length_insert;
    [ | assumption | assumption].
  apply Forall_insert; assumption.
Qed.

Lemma links_lookup (t : Table) (i : nat) (n : Node) :
  links_in_range t → hash t !! i = Some n → node_links_ok (length (hash t)) n.
Proof. intros (H1 & _) Hn. eapply Forall_lookup_1; eauto. Qed.

Lemma prune_vacancy_links (fuel : nat) (t : Table) (r : option nat) (t1 : Table) :
  links_in_range t → prune_vacancy fuel t = Ok (r, t1) → links_in_range t1.
Proof.
  revert t. induction fuel as [ | fuel IH]; intros t Hl E; simpl in E;
    (destruct (vacancy_head t) as [i | ] eqn:Ev; [ | injection E as <- <-; assumption]);
    bind_inv E as n En; apply at_index_Ok in En;
    (destruct (node_empty n) eqn:He; [injection E as <- <-; assumption | ]).
  - discriminate.
  - apply IH in E; [assumption | ].
    pose proof (links_lookup t i n Hl En) as (Hnx & Hvn).
    pose proof (links_insert t i (set_vacancy_next None n) Hl) as (H1 & H2 & H3).
    { split; simpl; [assumption | intros _ j; discriminate]. }
    split; [ | split]; simpl in *; try assumption.
    rewrite length_insert. exact (Hvn He).
Qed.

Lemma get_free_pos_links (t : Table) (r : option nat) (t1 : Table) :
  links_in_range t → get_free_pos t = Ok (r, t1) → links_in_range t1.
Proof.
  unfold get_free_pos. intros Hl E. bind_inv E as [r0 t0] Ep.
  apply prune_vacancy_links in Ep; [ | assumption].
  destruct r0 as [i | ]; [injection E as <- <-; assumption | ].
  bind_inv E as [r' lf] Es. injection E as <- <-.
  apply scan_free_spec in Es as (Hle & _). destruct Ep as (H1 & H2 & H3).
  split; [ | split]; simpl; try assumption. lia.
Qed.

Lemma insert_at_free_links (t : Table) (mp free : nat) (k : Key) (v : Value) (t' : Table) :
  links_in_range t → (free < length (hash t))%nat → free ≠ mp →
  insert_at_free reg t mp free k v = Ok t' → links_in_range t'.
Proof.
  intros Hl Hfree Hne E. unfold insert_at_free in E.
  bind_inv E as n0 En0. bind_inv E as occupant Eo. bind_inv E as home Eh.
  pose proof Hl as (H1 & H2 & H3).
  destruct (home =? mp)%nat.
  - apply splice_behind_spec in E as (n & Hn & ->); [ | assumption | assumption].
    pose proof (links_lookup t mp n Hl Hn) as (Hnx & Hvn).
    split; [ | split]; simpl; rewrite !length_insert; [ | assumption | assumption].
    apply Forall_insert; [apply Forall_insert; [assumption | ] | ].
    + apply node_links_ok_set_next; [apply node_links_ok_Node_of_ptrs | assumption].
    + apply node_links_ok_set_next; [split; assumption | ].
      intros j [= <-]. assumption.
  - apply relocate_occupant_spec in E as (l & ln & n & Hln & Hn & ->); [ | assumption].
    pose proof (links_lookup t mp n Hl Hn) as (Hnx & Hvn).
    split; [ | split]; simpl; rewrite length_insert, !length_alter, length_insert;
      [ | assumption | assumption].
    apply Forall_insert; [ | apply node_links_ok_Node_of_ptrs].
    apply Forall_alter.
    2: { intros x _ Hx. apply node_links_ok_set_next; [assumption | ].
         intros j [= <-]. assumption. }
    apply Forall_alter.
    2: { intros x _ Hx. apply node_links_ok_set_next; assumption. }
    apply Forall_insert; [assumption | apply node_links_ok_Node_of_ptrs].
Qed.

Lemma insert_links (fuel : nat) (t : Table) (k : Key) (v : Value) (t' : Table) :
  links_in_range t → insert reg fuel t k v = Ok t' → links_in_range t'.
Proof.
  revert t k v t'. induction fuel as [ | fuel IH]; intros t k v t' Hl E;
    [discriminate | ].
  apply insert_inv in E
    as [(i & Ea & Hi & ->) | (Ea & mp & n & Emp & Hn & [(Ho & ->) | (Ho & r & t1 & Eg & E)])].
  - eapply links_ext; [ | | | exact Hl]; reflexivity.
  - apply links_insert; [assumption | apply node_links_ok_Node_of_ptrs].
  - pose proof (get_free_pos_links _ _ _ Hl Eg) as Hl1.
    pose proof Eg as Eg'. apply get_free_pos_spec in Eg' as (Hs & _ & Hfree).
    destruct r as [free | ].
    + destruct (Hfree free eq_refl) as (nf & Hnf & Hef).
      destruct (hash_sim_lookup_r _ _ _ _ Hs Hn) as (n1 & Hn1 & Hsim).
      apply overwrites_false in Ho as (He & _).
      rewrite <- (node_sim_empty _ _ Hsim) in He.
      eapply insert_at_free_links; [exact Hl1 | | | exact E].
      * eapply lookup_lt_Some; eauto.
      * intros ->. congruence.
    + destruct E as (t2 & Er & E). eapply IH; [ | exact E].
      unfold recompute_size_with in Er. bind_inv Er as [na nh] En.
      eapply (resize_invariant links_in_range); [ | | | exact Er].
      * intros nt nt'. apply links_ext.
      * apply (links_new na nh (hash (Table_new na nh))), hash_sim_refl.
      * intros nt k0 v0 nt'. apply IH.
Qed.

Lemma free_links (t t' : Table) (i : nat) :
  links_in_range t → free t i = Ok t' → links_in_range t'.
Proof.
  intros Hl E. apply free_eq in E as (Hlt & ->).
  pose proof Hl as (H1 & H2 & H3).
  split; [ | split]; simpl; rewrite length_insert; [ | | assumption].
  - apply Forall_insert; [assumption | ].
    split; simpl; [discriminate | intros He; discriminate].
  - intros j [= <-]. assumption.
Qed.

Lemma erase_links (t : Table) (k : Key) (t' : Table) :
  links_in_range t → erase reg t k = Ok t' → links_in_range t'.
Proof.
  intros Hl E. destruct (in_array_part t k) as [i | ] eqn:Ea.
  - unfold erase in E. rewrite Ea in E. bind_inv E as x Ex. injection E as <-.
    eapply links_ext; [ | | | exact Hl]; reflexivity.
  - destruct (erase_inv reg t k t' E Ea) as (mp0 & mp' & last & _ & _ & H).
    destruct mp' as [mp | ]; [ | subst t'; assumption].
    destruct H as (n & Hn & H).
    pose proof (links_lookup t mp n Hl Hn) as (Hnx & Hvn).
    assert (Hlast : ∀ l ln, hash t !! l = Some ln →
              free (set_hash (<[l := set_next (next n) ln]> (hash t)) t) mp = Ok t' →
              links_in_range t').
    { intros l ln Hln Ef. eapply free_links; [ | exact Ef].
      apply links_insert; [assumption | ].
      apply node_links_ok_set_next; [eapply links_lookup; eauto | assumption]. }
    destruct (next n) as [nx | ], last as [l | ].
    + destruct H as (ln & Hln & H). eauto.
    + destruct H as (nn & Hnn & H). eapply free_links; [ | exact H].
      apply links_insert; [assumption | eapply links_lookup; eauto].
    + destruct H as (ln & Hln & H). eauto.
    + eapply free_links; eauto.
Qed.

Lemma sized_insert (fuel : nat) (t : Table) (k : Key) (v : Value) (t' : Table) :
  sized t → insert reg fuel t k v = Ok t' → sized t'.
Proof.
  revert t. induction fuel as [ | fuel IH]; intros t Hs E; [discriminate | ].
  apply insert_cases in E
    as [(i & Ea & Hi & ->) | [(Ea & t1 & Ht1 & Hf & _ & _ & Hg) | (Ea & t1 & t2 & Eg & Er & E)]].
  - destruct Hs as (Hla & Hlh & Hl31). unfold sized. simpl.
    rewrite length_insert. auto.
  - assert (Hs1 : sized t1).
    { destruct Ht1 as [-> | (free & Eg)]; [assumption | ].
      eapply get_free_pos_sized; eauto. }
    destruct Hs1 as (Hla & Hlh & Hl31). destruct Hf as (Har & Has & Hhs & _).
    destruct Hg as (Hlen & _). unfold sized. rewrite Har, Has, Hhs, Hlen. auto.
  - pose proof (get_free_pos_sized _ _ _ Hs Eg) as Hs1.
    destruct (recompute_size_preserves reg _ _ _ Hs1 Er) as (Hs2 & _). eauto.
Qed.

Lemma sized_erase (t : Table) (k : Key) (t' : Table) :
  sized t → erase reg t k = Ok t' → sized t'.
Proof.
  intros (Hla & Hlh & Hl31) E.
  apply erase_keys in E as (Has & Hhs & Hal & Hhl & _).
  unfold sized. rewrite Has, Hhs, Hal, Hhl. auto.
Qed.

(** *** No access outside the segments *)

Lemma at_index_in_range {A} (l : list A) (i : nat) (e : error) :
  (i < length l)%nat → at_index l i ≠ Err e.
Proof.
  intros Hlt. destruct (lookup_lt_is_Some_2 _ _ Hlt) as [a Ha].
  rewrite (at_index_Some _ _ _ Ha). discriminate.
Qed.

Lemma find_in_bounds (fuel : nat) (h : list Node) (k : Key) (mp last : option nat) :
  Forall (node_links_ok (length h)) h →
  (∀ j, mp = Some j → (j < length h)%nat) →
  find fuel h k mp last ≠ Err OutOfBounds.
Proof.
  intros Hl. revert mp last. induction fuel as [ | fuel IH]; intros mp last Hmp;
    simpl; (destruct mp as [i | ]; [ | discriminate]);
    destruct (lookup_lt_is_Some_2 h i (Hmp i eq_refl)) as [n Hn];
    rewrite (at_index_Some _ _ _ Hn), bind_Ok_l;
    (destruct (node_empty n); [discriminate | ]);
    unfold node_key_eqb; (destruct (key n) as [k' | ]; [ | discriminate]);
    simpl; (destruct (Key_eqb k' k); [discriminate | ]).
  - discriminate.
  - apply IH. apply (Forall_lookup_1 _ _ _ _ Hl Hn).
Qed.

Lemma find_last_in_range (fuel : nat) (h : list Node) (k : Key) (mp last r last' : option nat) :
  find fuel h k mp last = Ok (r, last') →
  (∀ j, last = Some j → (j < length h)%nat) →
  ∀ j, last' = Some j → (j < length h)%nat.
Proof.
  revert mp last. induction fuel as [ | fuel IH]; intros mp last E Hlast; simpl in E;
    (destruct mp as [i | ]; [ | injection E as <- <-; assumption]);
    bind_inv E as n En; apply at_index_lt in En;
    (destruct (node_empty n); [injection E as <- <-; assumption | ]);
    bind_inv E as same Es;
    (destruct same; [injection E as <- <-; assumption | ]).
  - discriminate.
  - eapply IH; [exact E | ]. intros j [= <-]. assumption.
Qed.

Lemma free_in_bounds (t : Table) (i : nat) :
  (i < length (hash t))%nat → free t i ≠ Err OutOfBounds.
Proof.
  intros Hlt. unfold free. apply bind_not_err; [ | discriminate].
  apply at_index_in_range. assumption.
Qed.

(** X15: every pointer that the table reads points into the hash segment,
    and the segments have the lengths recorded for them: [next] in every
    node, [vacancy_next] in the nodes that hold a value, the head of the
    vacancy list and the scan cursor.  This is so in a table that the
    constructor has built, whatever its nodes hold in the field
    [vacancy_next], which [Node()] does not set; [insert] and [erase] keep
    it so, and where it is so neither [query] nor [erase] reads or writes
    outside the two segments. *)
Theorem links_stay_in_range (t : Table) (na nh : nat) :
  sized t → links_in_range t →
  (∀ room t0 h0, Table_ctor room na nh = Some t0 → hash_sim h0 (hash t0) →
     sized (set_hash h0 t0) ∧ links_in_range (set_hash h0 t0)) ∧
  (∀ fuel k v t', insert reg fuel t k v = Ok t' → sized t' ∧ links_in_range t') ∧
  (∀ k t', erase reg t k = Ok t' → sized t' ∧ links_in_range t') ∧
  (∀ k x k', is_int64 k → Key_hash reg k = Ok (x, k') →
     query reg t k ≠ Err OutOfBounds ∧ erase reg t k ≠ Err OutOfBounds).
Proof.
  intros Hs Hl. split; [ | split; [ | split]].
  - unfold Table_ctor. intros room t0 h0 Ec Hsim.
    destruct ((na <=? 30)%nat && (nh <=? 30)%nat && room (2 ^ na)%nat (2 ^ nh)%nat)
      eqn:Hsz; [ | discriminate].
    injection Ec as <-. apply andb_true_iff in Hsz as (Hsz & _).
    apply andb_true_iff in Hsz as (Hna & _).
    apply Nat.leb_le in Hna. split; [ | apply links_new; assumption].
    pose proof (hash_sim_length _ _ Hsim) as Hlen.
    destruct (new_table_invariant na nh ltac:(lia)) as ((Hla & Hlh & Hl31) & _).
    repeat split; simpl in *; [assumption | congruence | assumption].
  - intros fuel k v t' E. split; [eapply sized_insert | eapply insert_links]; eauto.
  - intros k t' E. split; [eapply sized_erase | eapply erase_links]; eauto.
  - intros k x k' Hk Eh. pose proof Hs as (Hla & Hlh & Hl31).
    pose proof Hl as (Hnodes & _).
    assert (Harr : ∀ i, in_array_part t k = Some i →
                        (Z.to_nat i < length (array t))%nat).
    { intros i Ea. apply in_array_part_index in Ea as (_ & Hi); try assumption.
      apply array_slot_lt; assumption. }
    destruct (main_pos reg t k) as [mp | e] eqn:Emp.
    2: { unfold main_pos in Emp. rewrite Eh in Emp. discriminate. }
    pose proof (main_pos_lt reg _ _ _ Emp) as Hmp. rewrite <- Hlh in Hmp.
    assert (Hfind : find (length (hash t)) (hash t) k (Some mp) None
                    ≠ Err OutOfBounds).
    { apply find_in_bounds; [assumption | ]. intros j [= <-]. assumption. }
    split.
    + unfold query. destruct (in_array_part t k) as [i | ].
      { apply at_index_in_range. auto. }
      rewrite Emp, bind_Ok_l.
      apply bind_not_err; [assumption | ]. intros [mp' last] Ef.
      destruct mp' as [i | ]; [ | discriminate].
      apply find_stops in Ef as (n & Hn & _).
      rewrite (at_index_Some _ _ _ Hn). discriminate.
    + unfold erase. destruct (in_array_part t k) as [i | ].
      { apply bind_not_err; [ | discriminate]. apply at_index_in_range. auto. }
      rewrite Emp, bind_Ok_l.
      apply bind_not_err; [assumption | ]. intros [mp' last] Ef.
      destruct mp' as [i | ]; [ | discriminate].
      pose proof (find_last_in_range _ _ _ _ _ _ _ Ef ltac:(discriminate)) as Hlast.
      apply find_stops in Ef as (n & Hn & _).
      rewrite (at_index_Some _ _ _ Hn), bind_Ok_l.
      pose proof (lookup_lt_Some _ _ _ Hn) as Hi.
      pose proof (Forall_lookup_1 _ _ _ _ Hnodes Hn) as (Hnx & _).
      assert (Hl' : ∀ l, last = Some l →
                (ln ← at_index (hash t) l;
                 free (set_hash (<[l := set_next (next n) ln]> (hash t)) t) i)
                ≠ Err OutOfBounds).
      { intros l El. apply bind_not_err; [apply at_index_in_range; auto | ].
        intros ln _. apply free_in_bounds. simpl. rewrite length_insert.
        assumption. }
      destruct (next n) as [nx | ], last as [l | ]; try (apply Hl'; reflexivity).
      * apply bind_not_err; [apply at_index_in_range; auto | ].
        intros nn _. apply free_in_bounds. simpl. rewrite length_insert. auto.
      * apply free_in_bounds. assumption.
Qed.

End Links.

(** ** The cache of a wrapper *)

Section Cache.
Context `{U : IHashTypes}.

(** X16: the hash that [get_hash] computes is kept in the wrapper, and the
    next call returns it without a look at the registry, whatever the
    registry then holds; a hash of 0 is the exception: it is not told
    apart from an empty cache and is computed again. *)
Theorem get_hash_cache (reg : Registry) (h : HashWrapper) (x : Hash) (h' : HashWrapper) :
  get_hash reg h = Ok (x, h') →
  hw_type h' = hw_type h ∧ hw_inner h' = hw_inner h ∧ hw_hash h' = x ∧
  (x ≠ 0 → ∀ reg', get_hash reg' h' = Ok (x, h')) ∧
  (x = 0 → ∀ reg', get_hash reg' h'
                   = match reg' (hw_type h) with
                     | Some f => y ← f h'; Ok (y, {| hw_type := hw_type h;
                                                     hw_inner := hw_inner h;
                                                     hw_hash := y |})
                     | None => Err NoHashFunction
                     end).
Proof.
  unfold get_hash. destruct (negb (hw_hash h =? 0)) eqn:Ec.
  - intros [= <- <-]. repeat split.
    + intros _ reg'. rewrite Ec. reflexivity.
    + intros E0. rewrite E0 in Ec. discriminate.
  - destruct (reg (hw_type h)) as [f | ]; [ | discriminate].
    intros E. bind_inv E as y Ey. injection E as <- <-. simpl. repeat split.
    + intros Hy reg'. apply Z.eqb_neq in Hy. rewrite Hy. reflexivity.
    + intros -> reg'. reflexivity.
Qed.

End Cache.

Lemma get_hash_cache_witness :
  let h := HashWrapper_new Int (-7) in
  let h' := {| hw_type := Int; hw_inner := -7; hw_hash := 6 |} in
  hw_type h' = hw_type h ∧ hw_inner h' = hw_inner h ∧ hw_hash h' = 6 ∧
  (6 ≠ 0 → ∀ reg', get_hash reg' h' = Ok (6, h')) ∧
  (6 = 0 → ∀ reg', get_hash reg' h'
                   = match reg' (hw_type h) with
                     | Some f => y ← f h'; Ok (y, {| hw_type := hw_type h;
                                                     hw_inner := hw_inner h;
                                                     hw_hash := y |})
                     | None => Err NoHashFunction
                     end).
Proof.
  intros h h'. apply (get_hash_cache register_hashes h 6 h'). reflexivity.
Defined.

(** ** The entries that [insert] adds *)

Section InsertEntries.
Context `{U : IHashTypes}.
Variable reg : Registry.

Lemma entry_of_sim (a b : Node) : node_sim a b → entry_of a = entry_of b.
Proof. intros (Ek & Ev & _). unfold entry_of. rewrite Ek, Ev. reflexivity. Qed.

Lemma entries_sim (h1 h2 : list Node) : hash_sim h1 h2 → entries h1 = entries h2.
Proof.
  induction 1 as [ | a b h1 h2 Hab _ IH]; [reflexivity | ].
  rewrite !entries_cons, (entry_of_sim _ _ Hab), IH. reflexivity.
Qed.

Lemma entry_of_empty (n : Node) : node_empty n = true → entry_of n = None.
Proof. unfold node_empty, entry_of. destruct (value n); [discriminate | reflexivity]. Qed.

(** X17: the entries after an [insert] that neither resizes nor moves the
    occupant of the main position.  When the main position holds no value
    or holds the key, the pair given takes the place of what the node
    stored; when it holds another key that is at its own main position and
    a free slot is found, the pair given is added.  No other pair is added
    or lost. *)
Theorem insert_adds_one_entry (fuel : nat) (t : Table) (k : Key) (v : Value)
    (t' : Table) (mp : nat) (n : Node) :
  insert reg fuel t k v = Ok t' →
  in_array_part t k = None → main_pos reg t k = Ok mp → hash t !! mp = Some n →
  (overwrites n k = Ok true →
     option_list (entry_of n) ++ entries (hash t')
     ≡ₚ (Some k, v) :: entries (hash t)) ∧
  (overwrites n k = Ok false →
     (∃ free t1, get_free_pos t = Ok (Some free, t1)) →
     (∀ k0, key n = Some k0 → main_pos reg t k0 = Ok mp) →
     entries (hash t') ≡ₚ (Some k, v) :: entries (hash t)).
Proof.
  intros E Ea Emp Hn. destruct fuel as [ | fuel]; [discriminate | ].
  apply insert_inv in E
    as [(i & Ea' & _) | (_ & mp' & n' & Emp' & Hn' & H)]; [congruence | ].
  assert (mp' = mp) by congruence. subst mp'.
  assert (n' = n) by congruence. subst n'.
  split.
  - intros Ho. destruct H as [(_ & ->) | (Ho' & _)]; [ | congruence].
    simpl. apply (entries_insert (hash t) mp n (Node_of k v) Hn).
  - intros Ho (free & t1 & Eg) Hhome.
    destruct H as [(Ho' & _) | (_ & r & t1' & Eg' & E)]; [congruence | ].
    rewrite Eg in Eg'. injection Eg' as <- <-.
    apply get_free_pos_spec in Eg as (Hs & (_ & _ & Hhs & _) & Hfree).
    destruct (Hfree free eq_refl) as (nf & Hnf & Hef).
    destruct (hash_sim_lookup_r _ _ _ _ Hs Hn) as (n1 & Hn1 & Hsim).
    apply overwrites_false in Ho as (He & _).
    pose proof He as He1. rewrite <- (node_sim_empty _ _ Hsim) in He1.
    assert (Hne : free ≠ mp) by (intros ->; congruence).
    rewrite <- (entries_sim _ _ Hs).
    unfold insert_at_free in E. rewrite (at_index_Some _ _ _ Hn1), bind_Ok_l in E.
    destruct Hsim as (Ek & _).
    destruct (key n1) as [k0 | ] eqn:Ek1; [ | discriminate].
    rewrite bind_Ok_l in E.
    rewrite (main_pos_frame reg t1 t k0 Hhs), (Hhome k0 (eq_sym Ek)), bind_Ok_l in E.
    rewrite Nat.eqb_refl in E.
    apply splice_behind_spec in E as (n2 & Hn2 & ->);
      [ | assumption | eapply lookup_lt_Some; eauto].
    assert (n2 = n1) by congruence. subst n2. simpl.
    pose proof (entries_insert (hash t1) free nf
                  (set_next (next n1) (Node_of k v)) Hnf) as P1.
    rewrite (entry_of_empty nf Hef) in P1. simpl in P1.
    rewrite <- P1. apply entries_insert_same with (old := n1).
    + rewrite list_lookup_insert_ne by assumption. assumption.
    + reflexivity.
Qed.

End InsertEntries.

(** ** The array segment across a resize *)

Section ResizeArray.
Context `{U : IHashTypes}.
Variable reg : Registry.

(** An [insert] into the table that [resize] fills, of a key that is no
    index of its array segment, leaves the array segment as it is. *)
Lemma insert_high_key (na nh c : nat) (nt : Table) (fuel : nat) (k : Key) (v : Value)
    (nt' : Table) :
  filling na nh c nt → (c < 2 ^ nh)%nat →
  (∀ x, k = INT x → 2 ^ Z.of_nat na ≤ x) →
  insert reg fuel nt k v = Ok nt' → array nt' = array nt.
Proof.
  intros Hfill Hc Hhigh E. destruct fuel as [ | fuel]; [discriminate | ].
  pose proof Hfill as ((Hla & _ & _) & Hna & _).
  apply insert_cases in E
    as [(i & Ea & Hi & ->) | [(Ea & t1 & Ht1 & Hf & _) | (Ea & t1 & t2 & Eg & _)]].
  - exfalso. destruct k as [x | | | | ]; try discriminate. simpl in Ea.
    destruct (wrap64 x <? array_size nt); [ | discriminate]. injection Ea as ->.
    pose proof (Hhigh i eq_refl) as Hx. rewrite Hla, Hna in Hi.
    pose proof (Nat2Z.inj_pow 2 na) as Hp. change (Z.of_nat 2) with 2 in Hp.
    lia.
  - destruct Hf as (Har & _). rewrite Har.
    destruct Ht1 as [-> | (free & Eg)]; [reflexivity | ].
    apply get_free_pos_spec in Eg as (_ & (Har1 & _) & _). assumption.
  - exfalso. eapply filling_has_room; eauto.
Qed.

Lemma array1_store_eq (nt : Table) (x : Z) (v : option Value) (nt' : Table) :
  array1_store nt x v = Ok nt' →
  0 ≤ x ∧ (Z.to_nat x < length (array nt))%nat ∧
  array nt' = <[Z.to_nat x := v]> (array nt).
Proof.
  unfold array1_store. destruct (negb (resizes nt =? 0)%nat); [discriminate | ].
  destruct ((x <? 0) || (Z.of_nat (length (array nt)) <=? x)) eqn:Eb; [discriminate | ].
  intros [= <-]. apply orb_false_iff in Eb as (E1 & E2).
  apply Z.ltb_ge in E1. apply Z.leb_gt in E2. simpl. split; [assumption | ].
  split; [lia | reflexivity].
Qed.

(** The first loop of [resize] copies the slots that it visits. *)
Lemma move_loop_array (t : Table) (l : list nat) :
  ∀ nt nt', foldM (resize_move_step t) l nt = Ok nt' →
  ∀ i, (i ∈ l → array nt' !! i = array t !! i) ∧
       (i ∉ l → array nt' !! i = array nt !! i).
Proof.
  induction l as [ | j l IH]; intros nt nt' E i.
  - injection E as <-. split; [intros Hin; inversion Hin | reflexivity].
  - cbn [foldM] in E. bind_inv E as nt1 E1. unfold resize_move_step in E1.
    bind_inv E1 as v Ev. apply at_index_Ok in Ev.
    apply array1_store_eq in E1 as (_ & Hlt & Ear).
    rewrite Nat2Z.id in Hlt, Ear.
    destruct (IH nt1 nt' E i) as (Hin & Hout). split.
    + intros Hi. destruct (decide (i ∈ l)) as [Hil | Hil]; [auto | ].
      apply elem_of_cons in Hi as [-> | Hi]; [ | contradiction].
      rewrite (Hout Hil), Ear, list_lookup_insert_eq by assumption.
      symmetry. assumption.
    + intros Hi. apply not_elem_of_cons in Hi as (Hne & Hil).
      rewrite (Hout Hil), Ear. apply list_lookup_insert_ne. auto.
Qed.

Section Loops3.
Variables (na nh : nat) (t : Table) (fuel : nat).

Lemma array_loop_array (l : list (option Value)) :
  ∀ lo c nt nt', drop lo (array t) = l → (2 ^ na ≤ lo)%nat →
  foldM (resize_array_step (insert reg fuel) t) (seq lo (length l)) nt = Ok nt' →
  filling na nh c nt →
  (c + length (live_indices lo l) ≤ 2 ^ nh)%nat →
  array nt' = array nt.
Proof.
  induction l as [ | slot l IH]; intros lo c nt nt' Hd Hlo E Hf Hc.
  - injection E as <-. reflexivity.
  - apply drop_cons_lookup in Hd as (Hs & Hd).
    cbn [length seq foldM] in E. bind_inv E as nt1 E1.
    rewrite (resize_array_step_eq _ _ _ _ _ Hs) in E1.
    cbn [live_indices] in Hc. destruct slot as [a | ]; [ | discriminate].
    destruct (has_value a).
    + cbn [length] in Hc.
      assert (Ear : array nt1 = array nt).
      { eapply (insert_high_key na nh c); [exact Hf | lia | | exact E1].
        intros x [= <-]. pose proof (Nat2Z.inj_pow 2 na) as Hp.
        change (Z.of_nat 2) with 2 in Hp. lia. }
      rewrite <- Ear. apply (IH (S lo) (S c) nt1 nt' Hd ltac:(lia) E); [ | lia].
      eapply filling_step; eauto. lia.
    + injection E1 as <-. apply (IH (S lo) c nt nt' Hd ltac:(lia) E Hf Hc).
Qed.

Lemma hash_loop_array (l : list Node) :
  ∀ lo c nt nt', drop lo (hash t) = l →
  foldM (resize_hash_step (insert reg fuel) t (Z.shiftl 1 (Z.of_nat na)))
    (seq lo (length l)) nt = Ok nt' →
  filling na nh c nt →
  (c + length (filter (λ n, goes_to_hash (Z.shiftl 1 (Z.of_nat na)) n = true) l)
   ≤ 2 ^ nh)%nat →
  (∀ n x, n ∈ l → node_empty n = false → key n = Some (INT x) →
          ¬ (0 ≤ x < array_size t)) →
  ∀ i, (i < Z.to_nat (array_size t))%nat → array nt' !! i = array nt !! i.
Proof.
  set (B := Z.shiftl 1 (Z.of_nat na)).
  induction l as [ | n l IH]; intros lo c nt nt' Hd E Hf Hc Hinv i Hi.
  - injection E as <-. reflexivity.
  - apply drop_cons_lookup in Hd as (Hs & Hd).
    cbn [length seq foldM] in E. bind_inv E as nt1 E1.
    rewrite (resize_hash_step_eq _ _ _ _ _ _ Hs) in E1.
    assert (Hinv' : ∀ n0 x, n0 ∈ l → node_empty n0 = false →
              key n0 = Some (INT x) → ¬ (0 ≤ x < array_size t)).
    { intros n0 x Hin. apply Hinv, elem_of_cons. auto. }
    assert (HB : B = 2 ^ Z.of_nat na) by (unfold B; apply Z.shiftl_1_l).
    destruct (goes_to_hash B n) eqn:Hg.
    + rewrite filter_cons_True in Hc by assumption. cbn [length] in Hc.
      assert (Hins : ∃ k v, insert reg fuel nt k v = Ok nt1 ∧
                            ∀ x, k = INT x → 2 ^ Z.of_nat na ≤ x).
      { unfold goes_to_hash in Hg.
        destruct (value n) as [v | ]; [ | discriminate].
        destruct (key n) as [k | ]; [ | discriminate].
        destruct k as [x | | | | ];
          try (eexists _, _; split; [exact E1 | intros ?; discriminate]).
        destruct (x <? B) eqn:Ex; [discriminate | ].
        exists (INT x), v. split; [assumption | ].
        intros ? [= <-]. apply Z.ltb_ge in Ex. lia. }
      destruct Hins as (k & v & Hins & Hhigh).
      assert (Ear : array nt1 = array nt).
      { eapply (insert_high_key na nh c); [exact Hf | lia | exact Hhigh | exact Hins]. }
      rewrite <- Ear. apply (IH (S lo) (S c) nt1 nt' Hd E); auto; [ | lia].
      eapply filling_step; eauto. lia.
    + rewrite filter_cons_False in Hc by (rewrite Hg; discriminate).
      unfold goes_to_hash in Hg.
      destruct (value n) as [v | ] eqn:Ev.
      2: { injection E1 as <-. apply (IH (S lo) c nt nt'); auto. }
      destruct (key n) as [k | ] eqn:Ek; [ | discriminate].
      destruct k as [x | | | | ]; try discriminate.
      destruct (x <? B); [ | discriminate].
      pose proof (array1_store_filling na nh c nt x (Some v) nt1 E1 Hf) as Hf1.
      apply array1_store_eq in E1 as (Hx0 & _ & Ear).
      assert (Hx : ¬ (0 ≤ x < array_size t)).
      { apply (Hinv n x); [apply elem_of_cons; auto | | assumption].
        unfold node_empty. rewrite Ev. reflexivity. }
      rewrite (IH (S lo) c nt1 nt' Hd E Hf1 Hc Hinv' i Hi), Ear.
      apply list_lookup_insert_ne. lia.
Qed.

End Loops3.

Lemma recompute_size_array (fuel : nat) (t t' : Table) :
  sized t → array_keys_not_in_hash t →
  recompute_size reg fuel t = Ok t' →
  ∀ i, (i < length (array t))%nat → (i < length (array t'))%nat →
       array t' !! i = array t !! i.
Proof.
  intros Hs Hinv E i Hi Hi'. unfold recompute_size, recompute_size_with in E.
  bind_inv E as [na nh] En.
  pose proof (calls_bound t na nh Hs En) as Hcalls.
  destruct (new_sizes_spec t na nh Hs En) as (Hna & _).
  cbn zeta in Hcalls. unfold resize_with in E.
  destruct (nh <? 1)%nat; [discriminate | ].
  set (B := Z.shiftl 1 (Z.of_nat na)) in *.
  set (boundary := Z.to_nat (Z.min (array_size t) B)) in *.
  cbn zeta in E.
  bind_inv E as nt1 E1. bind_inv E as nt2 E2. bind_inv E as nt3 E3.
  injection E as <-. simpl in *.
  pose proof Hs as (Hla & Hlh & _).
  pose proof (Table_new_filling na nh Hna) as F0.
  pose proof (move_loop na nh t _ 0%nat _ _ E1 F0) as F1.
  assert (Hstep : ∀ c nt k v nt', filling na nh c nt → (c < 2 ^ nh)%nat →
            insert reg fuel nt k v = Ok nt' → filling na nh (S c) nt').
  { intros c nt k v nt'. apply filling_step. }
  unfold for_range in E1, E2, E3.
  assert (El2 : (Z.to_nat (array_size t) - boundary)%nat
                = length (drop boundary (array t))).
  { rewrite length_drop, Hla, array_size_nat. reflexivity. }
  rewrite El2 in E2.
  pose proof (array_loop na nh t (insert reg fuel) Hstep _ boundary 0%nat nt1 nt2
                eq_refl E2 F1 ltac:(lia)) as F2.
  assert (El3 : (Z.to_nat (hash_size t) - 0)%nat = length (hash t)).
  { rewrite Nat.sub_0_r, Hlh, hash_size_nat. reflexivity. }
  rewrite El3 in E3.
  pose proof (hash_loop na nh t (insert reg fuel) Hstep B (hash t) 0%nat _ nt2 nt3
                eq_refl E3 F2 ltac:(lia)) as F3.
  destruct F3 as ((Hla3 & _) & Hna3 & _).
  (* the index is below the boundary *)
  assert (HBnat : Z.to_nat B = (2 ^ na)%nat).
  { unfold B. rewrite shiftl_1_nat. apply Nat2Z.id. }
  assert (Hib : (i < boundary)%nat).
  { unfold boundary. rewrite Z2Nat.inj_min, array_size_nat, HBnat.
    rewrite Hla3, Hna3 in Hi'. rewrite Hla in Hi. lia. }
  (* the third loop *)
  assert (Hc3 : (0 + length (live_indices boundary (drop boundary (array t)))
                 + length (filter (λ n, goes_to_hash (Z.shiftl 1 (Z.of_nat na)) n = true)
                             (hash t)) ≤ 2 ^ nh)%nat) by (fold B; lia).
  rewrite (hash_loop_array na nh t fuel (hash t) 0%nat _ nt2 nt3 eq_refl E3 F2 Hc3).
  2: { intros n x Hin He Hk. apply list_elem_of_lookup in Hin as (j & Hj).
       exact (Hinv j n x Hj He Hk). }
  2: { rewrite array_size_nat, <- Hla. assumption. }
  (* the second loop *)
  assert (Ear2 : array nt2 = array nt1).
  { destruct (decide (2 ^ na ≤ boundary)%nat) as [Hle | Hgt].
    - eapply (array_loop_array na nh t fuel _ boundary 0%nat); eauto. lia.
    - assert (Hl0 : length (drop boundary (array t)) = 0%nat).
      { rewrite <- El2. unfold boundary in *.
        rewrite Z2Nat.inj_min, array_size_nat, HBnat in *. lia. }
      rewrite Hl0 in E2. injection E2 as <-. reflexivity. }
  rewrite Ear2.
  (* the first loop *)
  apply (move_loop_array t _ _ _ E1 i). apply elem_of_seq. lia.
Qed.

(** X18: the array segment across [recompute_size].  When no Integer key
    from the range of the array is in the hash segment, [query] returns
    the same for every Integer key that is in the range of the array
    before and after. *)
Theorem recompute_size_keeps_array_entries (fuel : nat) (t t' : Table) :
  sized t → array_keys_not_in_hash t →
  recompute_size reg fuel t = Ok t' →
  ∀ x, 0 ≤ x < array_size t → x < array_size t' →
       query reg t' (INT x) = query reg t (INT x).
Proof.
  intros Hs Hinv E x Hx Hx'. pose proof Hs as (_ & _ & Hl31).
  destruct (recompute_size_preserves reg fuel t t' Hs E) as (Hs' & _).
  pose proof Hs' as (_ & _ & Hl31').
  unfold query.
  rewrite (array_key_in_array t x) by (lia || assumption).
  rewrite (array_key_in_array t' x) by (lia || (split; lia)).
  unfold at_index.
  rewrite (recompute_size_array fuel t t' Hs Hinv E); [reflexivity | | ];
    apply array_slot_lt; (assumption || split; lia).
Qed.

End ResizeArray.

(** ** Tables whose chains are as the design has them *)

Section KeyLaws.
Context `{U : IHashTypes}.

Lemma Key_eqb_sym (a b : Key) : eq_symmetric → Key_eqb a b = Key_eqb b a.
Proof.
  intros Hsym. destruct a as [i | n | s | p | h], b as [j | m | s' | q | h'];
    simpl; try reflexivity.
  - apply Z.eqb_sym.
  - apply SFeqb_sym.
  - apply String.eqb_sym.
  - apply Z.eqb_sym.
  - unfold HashWrapper_equals.
    destruct (decide (hw_type h = hw_type h')) as [E | NE],
             (decide (hw_type h' = hw_type h)) as [E' | NE'];
      try congruence.
    all: rewrite E; apply Hsym.
Qed.

Lemma Key_eqb_trans (a b c : Key) :
  eq_transitive → Key_eqb a b = true → Key_eqb b c = true → Key_eqb a c = true.
Proof.
  intros Htrans.
  destruct a as [i | n | s | p | h], b as [j | m | s' | q | h'],
           c as [l | o | s'' | r | h'']; simpl; try (intros; discriminate).
  - intros E1 E2. apply Z.eqb_eq in E1, E2. apply Z.eqb_eq. congruence.
  - apply SFeqb_trans.
  - intros E1 E2. apply String.eqb_eq in E1, E2. apply String.eqb_eq. congruence.
  - intros E1 E2. apply Z.eqb_eq in E1, E2. apply Z.eqb_eq. congruence.
  - unfold HashWrapper_equals.
    destruct (decide (hw_type h = hw_type h')) as [E | ]; [ | discriminate].
    destruct (decide (hw_type h' = hw_type h'')) as [E' | ]; [ | discriminate].
    destruct (decide (hw_type h = hw_type h'')) as [ | NE]; [ | congruence].
    rewrite <- E. apply Htrans.
Qed.

(** Keys that [operator==] holds equal have the same main position. *)
Lemma Key_eqb_main_pos (reg : Registry) (t : Table) (a b : Key) (s s' : nat) :
  hash_respects_eq → registered_only reg → cache_ok a → cache_ok b →
  Key_eqb a b = true →
  main_pos reg t a = Ok s → main_pos reg t b = Ok s' → s = s'.
Proof.
  intros Hlaw Hreg Ha Hb Heq Ea Eb. unfold main_pos in Ea, Eb.
  bind_inv Ea as [x a'] Ex. bind_inv Eb as [y b'] Ey.
  injection Ea as <-. injection Eb as <-.
  rewrite (Key_hash_value _ _ _ _ Hreg Ha Ex), (Key_hash_value _ _ _ _ Hreg Hb Ey).
  destruct a as [i | n | st | p | h], b as [j | m | st' | q | h'];
    simpl in Heq; try discriminate.
  - apply Z.eqb_eq in Heq. congruence.
  - rewrite (hash_NUM_eqb _ _ Heq). reflexivity.
  - apply String.eqb_eq in Heq. congruence.
  - apply Z.eqb_eq in Heq. congruence.
  - unfold HashWrapper_equals in Heq.
    destruct (decide (hw_type h = hw_type h')) as [ET | ]; [ | discriminate].
    rewrite <- ET. rewrite (Hlaw _ _ _ Heq). reflexivity.
Qed.

End KeyLaws.

Section Stores.
Context `{U : IHashTypes}.

Lemma stores_fun (h : list Node) (j : nat) (k k' : Key) (v v' : Value) :
  stores h j k v → stores h j k' v' → k = k' ∧ v = v'.
Proof. intros (n & Hn & Ek & Ev) (n' & Hn' & Ek' & Ev'). split; congruence. Qed.

Lemma stores_lookup (h : list Node) (j : nat) (k : Key) (v : Value) :
  stores h j k v → ∃ n, h !! j = Some n ∧ node_empty n = false ∧ key n = Some k.
Proof.
  intros (n & Hn & Ek & Ev). exists n. repeat split; try assumption.
  unfold node_empty. rewrite Ev. reflexivity.
Qed.

Lemma nonempty_stores (h : list Node) (j : nat) (n : Node) :
  keys_present h → h !! j = Some n → node_empty n = false →
  ∃ k v, stores h j k v.
Proof.
  intros Hk Hn He. destruct (Hk j n Hn He) as [k Ek].
  unfold node_empty in He. destruct (value n) as [v | ] eqn:Ev; [ | discriminate].
  exists k, v, n. auto.
Qed.

Lemma stores_holds_key (h : list Node) (j : nat) (n : Node) (k0 k : Key) (v : Value) :
  stores h j k0 v → h !! j = Some n → (holds_key k n ↔ Key_eqb k0 k = true).
Proof.
  intros (n' & Hn' & Ek & Ev) Hn. assert (n' = n) by congruence. subst n'.
  split.
  - intros (_ & k' & Ek' & Heq). congruence.
  - intros Heq. split; [unfold node_empty; rewrite Ev; reflexivity | eauto].
Qed.

End Stores.

Section WellChained.
Context `{U : IHashTypes}.
Variable reg : Registry.
Hypothesis Hlaw : hash_respects_eq.
Hypothesis Hreg : registered_only reg.
Hypothesis Hsym : eq_symmetric.
Hypothesis Htrans : eq_transitive.

Lemma chain_of_det (t : Table) (s : nat) (l1 l2 : list nat) :
  chain_of reg t s l1 → chain_of reg t s l2 → l1 = l2.
Proof. intros (C1 & _) (C2 & _). exact (chain_from_det _ _ _ _ C1 C2). Qed.

Lemma chain_from_inv (h : list Node) (p : option nat) (i : nat) (l : list nat) :
  chain_from h p (i :: l) →
  p = Some i ∧ ∃ n, h !! i = Some n ∧ chain_from h (next n) l.
Proof. intros C. inversion C; subst. eauto. Qed.

Lemma chain_from_nil (h : list Node) (p : option nat) :
  chain_from h p [] → p = None.
Proof. intros C. inversion C. reflexivity. Qed.

Lemma chain_from_cons (h : list Node) (s : nat) (l : list nat) :
  chain_from h (Some s) l → ∃ l', l = s :: l'.
Proof. intros C. inversion C; subst. eauto. Qed.

(** The first slot of a chain of nodes with one main position is that
    main position. *)
Lemma chain_of_first (t : Table) (s : nat) (l l1 l2 : list nat) (j : nat) :
  chain_of reg t s l → l = l1 ++ s :: l2 → l1 = [].
Proof.
  intros (C & _) ->. pose proof (chain_from_NoDup _ _ _ C) as Hnd.
  destruct l1 as [ | x l1]; [reflexivity | exfalso].
  apply chain_from_cons in C as (l' & E). simpl in E. injection E as -> _.
  apply list.NoDup_cons in Hnd as (Hnot & _). apply Hnot.
  apply elem_of_app. right. apply elem_of_cons. auto.
Qed.

(** A stored key that equals [k] is on the chain of the main position of
    [k]. *)
Lemma equal_key_on_chain (t : Table) (k : Key) (s j : nat) (kj : Key) (vj : Value) :
  well_chained reg t → cache_ok k → main_pos reg t k = Ok s →
  stores (hash t) j kj vj → Key_eqb kj k = true →
  ∃ l, chain_of reg t s l ∧ j ∈ l.
Proof.
  intros (_ & _ & Hchain & _) Hc Emp Hst Heq.
  destruct (Hchain j kj vj Hst) as (Hcj & sj & l & Esj & Hl & Hj).
  assert (sj = s) by exact (Key_eqb_main_pos reg t kj k sj s Hlaw Hreg Hcj Hc Heq Esj Emp).
  subst sj. eauto.
Qed.

(** The node at the start of a chain of nodes with one main position. *)
Lemma chain_of_head (t : Table) (s : nat) (l : list nat) :
  chain_of reg t s l →
  ∃ k v, stores (hash t) s k v ∧ main_pos reg t k = Ok s.
Proof.
  intros (C & Hall). destruct (chain_from_cons _ _ _ C) as (l' & ->).
  apply Hall, elem_of_cons. auto.
Qed.

Lemma query_well_chained_gen (t : Table) (k : Key) (s : nat) :
  well_chained reg t → sized t → cache_ok k →
  in_array_part t k = None → main_pos reg t k = Ok s →
  ∃ r, query reg t k = Ok r ∧
       ∀ v, r = Some v ↔ ∃ j k0, stores (hash t) j k0 v ∧ Key_eqb k0 k = true.
Proof.
  intros Hwf Hs Hc Ea Emp. pose proof Hwf as (Hkp & Hiso & Hchain & Huniq).
  pose proof Hs as (_ & Hlh & _).
  pose proof (main_pos_lt reg _ _ _ Emp) as Hlt. rewrite <- Hlh in Hlt.
  destruct (lookup_lt_is_Some_2 _ _ Hlt) as [ns Hns].
  unfold query. rewrite Ea, Emp, bind_Ok_l.
  destruct (node_empty ns) eqn:Ens.
  - (* the main position holds no value *)
    assert (Ef : find (length (hash t)) (hash t) k (Some s) None = Ok (Some s, None)).
    { destruct (length (hash t)); cbn [find];
        rewrite (at_index_Some _ _ _ Hns), bind_Ok_l, Ens; reflexivity. }
    rewrite Ef. cbn [mbind result_bind]. rewrite (at_index_Some _ _ _ Hns), bind_Ok_l.
    exists (value ns). split; [reflexivity | ].
    unfold node_empty in Ens. destruct (value ns) as [x | ] eqn:Ev; [discriminate | ].
    intros v. split; [discriminate | ]. intros (j & k0 & Hst & Heq). exfalso.
    destruct (equal_key_on_chain t k s j k0 v Hwf Hc Emp Hst Heq) as (l & Hl & _).
    destruct (chain_of_head t s l Hl) as (k1 & v1 & (n1 & Hn1 & _ & Ev1) & _).
    congruence.
  - (* the main position holds a value *)
    destruct (nonempty_stores _ _ _ Hkp Hns Ens) as (ks & vs & Hsts).
    destruct (Hchain s ks vs Hsts) as (_ & s0 & l & Es0 & Hl & Hin).
    apply list_elem_of_split in Hin as (l1 & l2 & El).
    pose proof Hl as (C & Hall). rewrite El in C.
    pose proof (chain_from_suffix _ _ _ C l1 s l2 eq_refl) as C'.
    destruct (find_total (length (hash t)) (hash t) k (Some s) None (s :: l2) Hkp C'
                (chain_from_length _ _ _ C')) as (r & last' & Ef & _).
    rewrite Ef, bind_Ok_l.
    destruct (find_split _ _ _ _ _ _ _ _ C' Ef) as (m1 & m2 & Em & -> & Hpre & _).
    assert (Hsub : ∀ i, i ∈ s :: l2 → i ∈ l).
    { intros i Hi. rewrite El. apply elem_of_app. auto. }
    destruct m2 as [ | j m2]; simpl.
    + (* no node of the chain holds the key *)
      exists None. split; [reflexivity | ]. intros v. split; [discriminate | ].
      intros (j & k0 & Hst & Heq). exfalso.
      destruct (equal_key_on_chain t k s j k0 v Hwf Hc Emp Hst Heq) as (lj & Hlj & Hj).
      destruct (chain_of_head t s lj Hlj) as (k1 & v1 & Hst1 & Emp1).
      destruct (stores_fun _ _ _ _ _ _ Hsts Hst1) as (<- & <-).
      assert (s0 = s) by congruence. subst s0.
      assert (lj = l) by (eapply chain_of_det; eauto). subst lj.
      assert (l1 = []) by (eapply chain_of_first; eauto). subst l1.
      simpl in El. rewrite app_nil_r in Em. subst m1. rewrite El in Hj.
      destruct (stores_lookup _ _ _ _ Hst) as (nj & Hnj & _).
      apply (Hpre j nj Hj Hnj).
      exact (proj2 (stores_holds_key _ j nj k0 k v Hst Hnj) Heq).
    + (* the walk stops at a node *)
      assert (Hj : j ∈ s :: l2).
      { rewrite Em. apply elem_of_app. right. apply elem_of_cons. auto. }
      destruct (Hall j (Hsub j Hj)) as (kj & vj & Hstj & _).
      destruct (stores_lookup _ _ _ _ Hstj) as (nj & Hnj & Enj & Ekj).
      apply find_stops in Ef as (nj' & Hnj' & Hstop).
      assert (nj' = nj) by congruence. subst nj'.
      destruct Hstop as [He | (_ & Hmatch)]; [congruence | ].
      unfold node_key_eqb in Hmatch. rewrite Ekj in Hmatch. injection Hmatch as Hmatch.
      rewrite (at_index_Some _ _ _ Hnj), bind_Ok_l.
      destruct Hstj as (nj'' & Hnj'' & _ & Evj).
      assert (nj'' = nj) by congruence. subst nj''.
      exists (Some vj). split; [congruence | ]. intros v. split.
      * intros [= <-]. exists j, kj. split; [exists nj; auto | assumption].
      * intros (j' & k0 & Hst' & Heq'). f_equal.
        assert (Hkk : Key_eqb kj k0 = true).
        { apply (Key_eqb_trans kj k k0 Htrans Hmatch).
          rewrite (Key_eqb_sym k k0 Hsym). assumption. }
        assert (j = j').
        { apply (Huniq j j' kj k0 vj v); [exists nj; auto | assumption | assumption]. }
        subst j'. destruct Hst' as (n' & Hn' & _ & Ev'). congruence.
Qed.

(** X19: on a well chained table the query of a key outside the array
    part returns, and it returns the value [v] exactly when some node
    stores [v] under a key equal to the one asked for; it returns "not
    found" exactly when no node stores such a key. *)
Theorem query_well_chained (t : Table) (k : Key) (s : nat) :
  well_chained reg t → sized t → cache_ok k →
  in_array_part t k = None → main_pos reg t k = Ok s →
  (∀ v, query reg t k = Ok (Some v) ↔
        ∃ j k0, stores (hash t) j k0 v ∧ Key_eqb k0 k = true) ∧
  (query reg t k = Ok None ↔
   ∀ j k0 v, stores (hash t) j k0 v → Key_eqb k0 k = false).
Proof.
  intros Hwf Hs Hc Ea Emp.
  destruct (query_well_chained_gen t k s Hwf Hs Hc Ea Emp) as (r & Eq & Hr).
  rewrite Eq. split.
  - intros v. rewrite <- Hr. split; [intros [= ->]; reflexivity | intros ->; reflexivity].
  - split.
    + intros [= ->] j k0 v Hst. destruct (Key_eqb k0 k) eqn:Heq; [ | reflexivity].
      assert (Habs : None = Some v) by (apply Hr; eauto). discriminate.
    + intros Hnone. destruct r as [v | ]; [exfalso | reflexivity].
      destruct (proj1 (Hr v) eq_refl) as (j & k0 & Hst & Heq).
      rewrite (Hnone j k0 v Hst) in Heq. discriminate.
Qed.

Lemma option_ext {A} (r r' : option A) :
  (∀ v, r = Some v ↔ r' = Some v) → r = r'.
Proof.
  intros H. destruct r as [a | ], r' as [b | ]; try reflexivity.
  - symmetry. apply (H a). reflexivity.
  - pose proof (proj1 (H a) eq_refl). discriminate.
  - pose proof (proj2 (H b) eq_refl). discriminate.
Qed.

(** A query in the hash segment depends on the stored pairs only. *)
Lemma query_same_pairs (t t' : Table) (k' : Key) :
  well_chained reg t → sized t → well_chained reg t' → sized t' →
  array t' = array t → array_size_log2 t' = array_size_log2 t →
  hash_size_log2 t' = hash_size_log2 t → cache_ok k' →
  (∀ v, (∃ j k0, stores (hash t') j k0 v ∧ Key_eqb k0 k' = true) ↔
        (∃ j k0, stores (hash t) j k0 v ∧ Key_eqb k0 k' = true)) →
  query reg t' k' = query reg t k'.
Proof.
  intros Hwf Hs Hwf' Hs' Harr Has Hhs Hc' Hpairs.
  pose proof (in_array_part_frame t' t k' Has) as Ea2.
  pose proof (main_pos_frame reg t' t k' Hhs) as Emp2.
  destruct (in_array_part t k') as [i | ] eqn:Ea'.
  { unfold query. rewrite Ea2, Ea', Harr. reflexivity. }
  destruct (main_pos reg t k') as [s' | e] eqn:Emp'.
  2: { unfold query. rewrite Ea2, Ea', Emp2, Emp'. reflexivity. }
  destruct (query_well_chained_gen t k' s' Hwf Hs Hc' Ea' Emp')
    as (r & Eq & Hr).
  destruct (query_well_chained_gen t' k' s' Hwf' Hs' Hc' Ea2 Emp2)
    as (r' & Eq' & Hr').
  rewrite Eq', Eq. f_equal.
  apply option_ext. intros v. rewrite Hr, Hr'. apply Hpairs.
Qed.


Lemma stores_ext (h h' : list Node) (j : nat) (k : Key) (v : Value) :
  h' !! j = h !! j → stores h j k v → stores h' j k v.
Proof. intros E (n & Hn & Hkv). exists n. rewrite E. auto. Qed.

Lemma chain_of_ext (t t' : Table) (s : nat) (l : list nat) :
  hash_size_log2 t' = hash_size_log2 t →
  chain_of reg t s l → (∀ i, i ∈ l → hash t' !! i = hash t !! i) →
  chain_of reg t' s l.
Proof.
  intros Hhs (C & Hall) Hext. split; [eapply chain_from_ext; eauto | ].
  intros i Hi. destruct (Hall i Hi) as (k & v & Hst & Emp).
  exists k, v. split; [exact (stores_ext _ _ i k v (Hext i Hi) Hst) | ].
  rewrite (main_pos_frame reg t' t k Hhs). exact Emp.
Qed.

(** A table is well chained again after a change of the slots [T], which
    hold the chain of the main position [s] and slots without a value,
    when the slots of [T] that hold a value afterwards form the chain [l']
    of [s]. *)
Lemma well_chained_rebuild (t t' : Table) (s : nat) (T l' : list nat) :
  well_chained reg t → hash_size_log2 t' = hash_size_log2 t →
  (∀ i, i ∉ T → hash t' !! i = hash t !! i) →
  (∀ j k v, stores (hash t) j k v → j ∈ T → main_pos reg t k = Ok s) →
  (∀ j k v, stores (hash t) j k v → main_pos reg t k = Ok s → j ∈ T) →
  (∀ j k v, j ∈ T → stores (hash t') j k v → j ∈ l') →
  (l' ≠ [] → chain_from (hash t') (Some s) l') →
  (∀ j, j ∈ l' → ∃ k v, stores (hash t') j k v ∧ main_pos reg t k = Ok s ∧ cache_ok k) →
  keys_present (hash t') →
  (∀ j n, hash t' !! j = Some n → node_empty n = true → next n = None) →
  (∀ i j ki kj vi vj, stores (hash t') i ki vi → stores (hash t') j kj vj →
     Key_eqb ki kj = true → i = j) →
  well_chained reg t'.
Proof.
  intros (Hkp & Hiso & Hchain & Huniq) Hhs Hout HT Hcov Hnew Hc' Hl' Hkp' Hiso' Huniq'.
  split; [assumption | ]. split; [assumption | ]. split; [ | assumption].
  intros j k v Hst. destruct (decide (j ∈ T)) as [HjT | HjT].
  - pose proof (Hnew j k v HjT Hst) as Hjl.
    destruct (Hl' j Hjl) as (k1 & v1 & Hst1 & Emp1 & Hc1).
    destruct (stores_fun _ _ _ _ _ _ Hst Hst1) as (<- & <-).
    split; [assumption | ]. exists s, l'. split.
    { rewrite (main_pos_frame reg t' t k Hhs). exact Emp1. }
    split; [ | assumption]. split.
    + apply Hc'. intros ->. inversion Hjl.
    + intros i Hi. destruct (Hl' i Hi) as (ki & vi & Hsti & Empi & _).
      exists ki, vi. split; [assumption | ].
      rewrite (main_pos_frame reg t' t ki Hhs). exact Empi.
  - assert (Hst0 : stores (hash t) j k v).
    { eapply stores_ext; [ | exact Hst]. symmetry. apply Hout. assumption. }
    destruct (Hchain j k v Hst0) as (Hck & sj & lj & Esj & Hlj & Hjl).
    split; [assumption | ]. exists sj, lj. split.
    { rewrite (main_pos_frame reg t' t k Hhs). exact Esj. }
    split; [ | assumption]. apply (chain_of_ext t t' sj lj Hhs Hlj).
    intros i Hi. apply Hout. intros HiT.
    destruct Hlj as (_ & Hall). destruct (Hall i Hi) as (ki & vi & Hsti & Empi).
    pose proof (HT i ki vi Hsti HiT) as Empi'.
    assert (sj = s) by congruence. subst sj.
    apply HjT. eapply Hcov; eauto.
Qed.


Lemma stores_insert (h : list Node) (p : nat) (n : Node) (j : nat) (k : Key) (v : Value) :
  stores (<[p := n]> h) j k v →
  (j = p ∧ key n = Some k ∧ value n = Some v) ∨ (j ≠ p ∧ stores h j k v).
Proof.
  intros (m & Hm & Ek & Ev). destruct (decide (j = p)) as [-> | Hne].
  - left. apply list_lookup_insert_Some in Hm as [(_ & <- & _) | (Hne & _)];
      [auto | congruence].
  - right. split; [assumption | ]. rewrite list_lookup_insert_ne in Hm by auto.
    exists m. auto.
Qed.

Lemma stores_insert_eq (h : list Node) (p : nat) (n : Node) (k : Key) (v : Value) :
  (p < length h)%nat → key n = Some k → value n = Some v →
  stores (<[p := n]> h) p k v.
Proof.
  intros Hlt Ek Ev. exists n. split; [apply list_lookup_insert_eq; assumption | auto].
Qed.

Lemma stores_insert_ne (h : list Node) (p : nat) (n : Node) (j : nat) (k : Key) (v : Value) :
  j ≠ p → stores h j k v → stores (<[p := n]> h) j k v.
Proof.
  intros Hne (m & Hm & Hkv). exists m. rewrite list_lookup_insert_ne by auto. auto.
Qed.

Lemma isolated_insert (h : list Node) (p : nat) (n : Node) :
  (∀ j m, h !! j = Some m → node_empty m = true → next m = None) →
  (node_empty n = true → next n = None) →
  ∀ j m, <[p := n]> h !! j = Some m → node_empty m = true → next m = None.
Proof.
  intros Hiso Hn j m Hm He.
  apply list_lookup_insert_Some in Hm as [(_ & <- & _) | (_ & Hm)]; eauto.
Qed.

Lemma stores_not_empty (h : list Node) (j : nat) (n : Node) (k : Key) (v : Value) :
  stores h j k v → h !! j = Some n → node_empty n = true → False.
Proof.
  intros (m & Hm & _ & Ev) Hn He. assert (m = n) by congruence. subst m.
  unfold node_empty in He. rewrite Ev in He. discriminate.
Qed.


(** No stored key has a main position whose slot holds no value. *)
Lemma empty_main_position (t : Table) (s : nat) (ns : Node) (j : nat) (k : Key) (v : Value) :
  well_chained reg t → hash t !! s = Some ns → node_empty ns = true →
  stores (hash t) j k v → main_pos reg t k = Ok s → False.
Proof.
  intros (_ & _ & Hchain & _) Hns Ens Hst Emp.
  destruct (Hchain j k v Hst) as (_ & sj & lj & Esj & Hlj & _).
  assert (sj = s) by congruence. subst sj.
  destruct (chain_of_head t s lj Hlj) as (k1 & v1 & Hst1 & _).
  eapply stores_not_empty; eauto.
Qed.

(** The chain of a main position holds all nodes with that main
    position. *)
Lemma chain_of_covers (t : Table) (s : nat) (l : list nat) (j : nat) (k : Key) (v : Value) :
  well_chained reg t → chain_of reg t s l →
  stores (hash t) j k v → main_pos reg t k = Ok s → j ∈ l.
Proof.
  intros (_ & _ & Hchain & _) Hl Hst Emp.
  destruct (Hchain j k v Hst) as (_ & sj & lj & Esj & Hlj & Hj).
  assert (sj = s) by congruence. subst sj.
  rewrite (chain_of_det t s l lj Hl Hlj). assumption.
Qed.

Lemma chain_of_member (t : Table) (s : nat) (l : list nat) (j : nat) (k : Key) (v : Value) :
  chain_of reg t s l → stores (hash t) j k v → j ∈ l → main_pos reg t k = Ok s.
Proof.
  intros (_ & Hall) Hst Hj. destruct (Hall j Hj) as (k1 & v1 & Hst1 & Emp).
  destruct (stores_fun _ _ _ _ _ _ Hst Hst1) as (-> & _). assumption.
Qed.

(** When the walk of [erase] for the key [k] stops at a node that holds a
    value, the main position of [k] starts the chain of its nodes. *)
Lemma erase_walk (t : Table) (k : Key) (s p : nat) (last : option nat) (n : Node) :
  well_chained reg t → cache_ok k → main_pos reg t k = Ok s →
  find (length (hash t)) (hash t) k (Some s) None = Ok (Some p, last) →
  hash t !! p = Some n → node_empty n = false →
  ∃ l m1 m2 kp vp,
    chain_of reg t s l ∧ l = m1 ++ p :: m2 ∧
    stores (hash t) p kp vp ∧ Key_eqb kp k = true ∧
    (m1 = [] ∧ last = None ∨ ∃ l0 j, m1 = l0 ++ [j] ∧ last = Some j).
Proof.
  intros Hwf Hc Emp Ef Hn He. pose proof Hwf as (Hkp & Hiso & Hchain & Huniq).
  (* the node at the main position *)
  assert (Hs : ∃ ns, hash t !! s = Some ns ∧ node_empty ns = false).
  { destruct (length (hash t)) as [ | fuel]; simpl in Ef;
      bind_inv Ef as ns Ens; apply at_index_Ok in Ens;
      (destruct (node_empty ns) eqn:Ee;
        [injection Ef as <- <-; assert (ns = n) by congruence; congruence | eauto]). }
  destruct Hs as (ns & Hns & Ens).
  destruct (nonempty_stores _ _ _ Hkp Hns Ens) as (ks & vs & Hsts).
  destruct (Hchain s ks vs Hsts) as (_ & s0 & l & Es0 & Hl & Hin).
  apply list_elem_of_split in Hin as (l1 & l2 & El).
  pose proof Hl as (C & Hall). rewrite El in C.
  pose proof (chain_from_suffix _ _ _ C l1 s l2 eq_refl) as C'.
  destruct (find_split _ _ _ _ _ _ _ _ C' Ef) as (m1 & m2 & Em & Ehead & Hpre & Hlast).
  destruct m2 as [ | p' m2]; [discriminate | ]. injection Ehead as <-.
  assert (Hp : p ∈ l).
  { rewrite El. apply elem_of_app. right. rewrite Em. apply elem_of_app. right.
    apply elem_of_cons. auto. }
  destruct (Hall p Hp) as (kp & vp & Hstp & Empp).
  destruct (stores_lookup _ _ _ _ Hstp) as (np & Hnp & _ & Ekp).
  assert (np = n) by congruence. subst np.
  apply find_stops in Ef as (n' & Hn' & Hstop).
  assert (n' = n) by congruence. subst n'.
  destruct Hstop as [He' | (_ & Hmatch)]; [congruence | ].
  unfold node_key_eqb in Hmatch. rewrite Ekp in Hmatch. injection Hmatch as Hmatch.
  destruct (Hchain p kp vp Hstp) as (Hckp & _).
  assert (s0 = s).
  { exact (Key_eqb_main_pos reg t kp k s0 s Hlaw Hreg Hckp Hc Hmatch Empp Emp). }
  subst s0.
  assert (l1 = []) by (eapply chain_of_first; eauto). subst l1. simpl in El.
  exists l, m1, m2, kp, vp. repeat split; try assumption; congruence.
Qed.

(** When the walk stops at a node without a value, that node is the main
    position itself. *)
Lemma erase_walk_empty (t : Table) (k : Key) (s p : nat) (last : option nat) (n : Node) :
  well_chained reg t →
  find (length (hash t)) (hash t) k (Some s) None = Ok (Some p, last) →
  hash t !! p = Some n → node_empty n = true →
  p = s ∧ last = None.
Proof.
  intros Hwf Ef Hn He. pose proof Hwf as (Hkp & Hiso & Hchain & Huniq).
  assert (Hs : ∃ ns, hash t !! s = Some ns).
  { destruct (length (hash t)) as [ | fuel]; simpl in Ef;
      bind_inv Ef as ns Ens; apply at_index_Ok in Ens; eauto. }
  destruct Hs as (ns & Hns). destruct (node_empty ns) eqn:Ens.
  - destruct (length (hash t)) as [ | fuel]; simpl in Ef;
      rewrite (at_index_Some _ _ _ Hns), bind_Ok_l, Ens in Ef;
      injection Ef as <- <-; auto.
  - exfalso.
    destruct (nonempty_stores _ _ _ Hkp Hns Ens) as (ks & vs & Hsts).
    destruct (Hchain s ks vs Hsts) as (_ & s0 & l & Es0 & Hl & Hin).
    apply list_elem_of_split in Hin as (l1 & l2 & El).
    pose proof Hl as (C & Hall). rewrite El in C.
    pose proof (chain_from_suffix _ _ _ C l1 s l2 eq_refl) as C'.
    destruct (find_split _ _ _ _ _ _ _ _ C' Ef) as (m1 & m2 & Em & Ehead & _).
    destruct m2 as [ | p' m2]; [discriminate | ]. injection Ehead as <-.
    assert (Hp : p ∈ l).
    { rewrite El. apply elem_of_app. right. rewrite Em. apply elem_of_app. right.
      apply elem_of_cons. auto. }
    destruct (Hall p Hp) as (kp & vp & Hstp & _).
    eapply stores_not_empty; eauto.
Qed.

Lemma erase_keeps_well_chained (t : Table) (k : Key) (t' : Table) :
  well_chained reg t → cache_ok k → in_array_part t k = None →
  erase reg t k = Ok t' → well_chained reg t'.
Proof.
  intros Hwf Hc Ea E. pose proof Hwf as (Hkp & Hiso & Hchain & Huniq).
  pose proof (keys_present_erase reg _ _ _ Hkp E) as Hkp'.
  pose proof (erase_keys reg _ _ _ E) as (_ & Hhs & _ & Hlen & _).
  destruct (erase_inv reg t k t' E Ea) as (s & mp' & last & Emp & Ef & H).
  destruct mp' as [p | ]; [ | subst t'; assumption].
  destruct H as (n & Hn & H).
  pose proof (lookup_lt_Some _ _ _ Hn) as Hplt.
  set (E0 := {| key := None; value := None; next := None;
                vacancy_next := vacancy_head t |}).
  destruct (node_empty n) eqn:He.
  - (* the main position holds no value *)
    destruct (erase_walk_empty t k s p last n Hwf Ef Hn He) as (-> & ->).
    rewrite (Hiso s n Hn He) in H. apply free_eq in H as (_ & ->).
    apply (well_chained_rebuild t _ s [s] []); try assumption; simpl.
    + intros i Hi. apply list_lookup_insert_ne. intros ->. apply Hi.
      apply elem_of_cons. auto.
    + intros j k0 v Hst Hj. apply list_elem_of_singleton in Hj as ->.
      exfalso. eapply stores_not_empty; eauto.
    + intros j k0 v Hst Emp0. exfalso. eapply empty_main_position; eauto.
    + intros j k0 v Hj Hst. apply list_elem_of_singleton in Hj as ->.
      apply stores_insert in Hst as [(_ & Hk0 & _) | (Hne & _)];
        [discriminate | congruence].
    + intros Hne. congruence.
    + intros j Hj. inversion Hj.
    + apply isolated_insert; auto.
    + intros i j ki kj vi vj Hi Hj.
      apply stores_insert in Hi as [(_ & Hk0 & _) | (_ & Hi)]; [discriminate | ].
      apply stores_insert in Hj as [(_ & Hk0 & _) | (_ & Hj)]; [discriminate | ].
      eauto.
  - (* the walk stopped at the key *)
    destruct (erase_walk t k s p last n Hwf Hc Emp Ef Hn He)
      as (l & m1 & m2 & kp & vp & Hl & El & Hstp & Hmatch & Hlast).
    pose proof Hl as (C & Hall). pose proof (chain_from_NoDup _ _ _ C) as Hnd.
    assert (HT : ∀ j k0 v, stores (hash t) j k0 v → j ∈ l → main_pos reg t k0 = Ok s).
    { intros j k0 v Hst Hj. eapply chain_of_member; eauto. }
    assert (Hcov : ∀ j k0 v, stores (hash t) j k0 v → main_pos reg t k0 = Ok s → j ∈ l).
    { intros j k0 v Hst Emp0. eapply chain_of_covers; eauto. }
    assert (Hold : ∀ j k0 v, j ∈ l → stores (hash t) j k0 v →
              main_pos reg t k0 = Ok s ∧ cache_ok k0).
    { intros j k0 v Hj Hst. split; [eapply HT; eauto | ].
      destruct (Hchain j k0 v Hst) as (Hck & _). assumption. }
    rewrite El in C. pose proof (chain_from_suffix _ _ _ C m1 p m2 eq_refl) as Cp.
    destruct (chain_from_inv _ _ _ _ Cp) as (_ & n' & Hn' & Cn).
    assert (n' = n) by congruence. subst n'. clear Hn'.
    destruct Hlast as [(-> & ->) | (l0 & lst & -> & ->)].
    + (* the key is at the main position *)
      simpl in El. subst l. simpl in C.
      destruct (chain_from_inv _ _ _ _ C) as (Hsp & _).
      injection Hsp as ->.
      apply list.NoDup_cons in Hnd as (Hp2 & Hnd2).
      destruct (next n) as [nx | ] eqn:Enx.
      * (* the next node moves up *)
        destruct H as (nn & Hnn & H). apply free_eq in H as (_ & ->).
        destruct (chain_from_cons _ _ _ Cn) as (l3 & ->).
        destruct (chain_from_inv _ _ _ _ Cn) as (_ & nn' & Hnn' & Cnn).
        assert (nn' = nn) by congruence. subst nn'. clear Hnn'.
        apply list.NoDup_cons in Hnd2 as (Hnx3 & Hnd3).
        assert (Hne : p ≠ nx) by (intros ->; apply Hp2, elem_of_cons; auto).
        assert (Hnxl : nx ∈ p :: nx :: l3) by (apply elem_of_cons; right; apply elem_of_cons; auto).
        destruct (Hall nx Hnxl) as (kx & vx & Hstx & Empx).
        destruct Hstx as (nn' & Hnn'' & Ekx & Evx).
        assert (nn' = nn) by congruence. subst nn'.
        assert (Hl3 : ∀ i, i ∈ l3 → i ≠ p ∧ i ≠ nx).
        { intros i Hi. split; intros ->; [apply Hp2, elem_of_cons | ]; auto. }
        apply (well_chained_rebuild t _ p (p :: nx :: l3) (p :: l3));
          try assumption; simpl.
        -- intros i Hi. rewrite !list_lookup_insert_ne; [reflexivity | | ];
             intros ->; apply Hi; [ | apply elem_of_cons; right];
             apply elem_of_cons; auto.
        -- intros j k0 v Hj Hst.
           apply stores_insert in Hst as [(_ & Hk0 & _) | (Hjnx & Hst)]; [discriminate | ].
           apply elem_of_cons in Hj as [-> | Hj]; [apply elem_of_cons; auto | ].
           apply elem_of_cons in Hj as [-> | Hj]; [congruence | ].
           apply elem_of_cons. auto.
        -- intros _. econstructor.
           ++ rewrite list_lookup_insert_ne by auto.
              apply list_lookup_insert_eq. assumption.
           ++ eapply chain_from_ext; [exact Cnn | ].
              intros i Hi. destruct (Hl3 i Hi).
              rewrite !list_lookup_insert_ne by auto. reflexivity.
        -- intros j Hj. apply elem_of_cons in Hj as [-> | Hj].
           ++ exists kx, vx. split.
              ** apply stores_insert_ne; [assumption | ].
                 apply stores_insert_eq; assumption.
              ** apply (Hold nx kx vx); [assumption | exists nn; auto].
           ++ destruct (Hl3 j Hj) as (Hjp & Hjnx).
              assert (Hjl : j ∈ p :: nx :: l3).
              { apply elem_of_cons. right. apply elem_of_cons. auto. }
              destruct (Hall j Hjl) as (kj & vj & Hstj & _).
              exists kj, vj. split; [ | apply (Hold j kj vj); assumption].
              apply stores_insert_ne; [assumption | ].
              apply stores_insert_ne; assumption.
        -- apply isolated_insert; [ | reflexivity].
           apply isolated_insert; [assumption | ].
           intros Hen. unfold node_empty in Hen. rewrite Evx in Hen. discriminate.
        -- assert (Hback : ∀ j k0 v,
                     stores (<[nx := E0]> (<[p := nn]> (hash t))) j k0 v →
                     j ≠ nx ∧ stores (hash t) (if decide (j = p) then nx else j) k0 v).
           { intros j k0 v Hst.
             apply stores_insert in Hst as [(_ & Hk0 & _) | (Hjnx & Hst)]; [discriminate | ].
             split; [assumption | ].
             apply stores_insert in Hst as [(-> & Hk0 & Hv0) | (Hjp & Hst)].
             - rewrite decide_True by reflexivity. exists nn. auto.
             - rewrite decide_False by assumption. assumption. }
           intros i j ki kj vi vj Hi Hj Heq.
           apply Hback in Hi as (Hinx & Hi). apply Hback in Hj as (Hjnx & Hj).
           pose proof (Huniq _ _ _ _ _ _ Hi Hj Heq) as Hij.
           destruct (decide (i = p)), (decide (j = p)); congruence.
      * (* the node is the only one of its chain *)
        apply free_eq in H as (_ & ->).
        destruct m2 as [ | x m2]; [ | apply chain_from_inv in Cn as (? & _); discriminate].
        apply (well_chained_rebuild t _ p [p] []); try assumption; simpl.
        -- intros i Hi. apply list_lookup_insert_ne. intros ->. apply Hi.
           apply elem_of_cons. auto.
        -- intros j k0 v Hj Hst. apply list_elem_of_singleton in Hj as ->.
           apply stores_insert in Hst as [(_ & Hk0 & _) | (Hne & _)];
             [discriminate | congruence].
        -- intros Hne. congruence.
        -- intros j Hj. inversion Hj.
        -- apply isolated_insert; auto.
        -- intros i j ki kj vi vj Hi Hj.
           apply stores_insert in Hi as [(_ & Hk0 & _) | (_ & Hi)]; [discriminate | ].
           apply stores_insert in Hj as [(_ & Hk0 & _) | (_ & Hj)]; [discriminate | ].
           eauto.
    + (* the key is behind another node of the chain *)
      assert (H' : ∃ ln, hash t !! lst = Some ln ∧
                 free (set_hash (<[lst := set_next (next n) ln]> (hash t)) t) p = Ok t').
      { destruct (next n); exact H. }
      clear H. destruct H' as (ln & Hln & H). apply free_eq in H as (_ & ->).
      subst l. rewrite <- app_assoc in *. simpl in *.
      apply list.NoDup_app in Hnd as (Hnd0 & Hdisj & Hnd1).
      apply list.NoDup_cons in Hnd1 as (Hlst & Hnd1).
      apply list.NoDup_cons in Hnd1 as (Hp2 & Hnd2).
      assert (Hne : lst ≠ p) by (intros ->; apply Hlst, elem_of_cons; auto).
      assert (Hlstl : lst ∈ l0 ++ lst :: p :: m2).
      { apply elem_of_app. right. apply elem_of_cons. auto. }
      destruct (Hall lst Hlstl) as (kl & vl & Hstl & _).
      pose proof Hstl as (ln' & Hln' & Ekl & Evl).
      assert (ln' = ln) by congruence. subst ln'.
      assert (H0 : ∀ i, i ∈ l0 → i ≠ lst ∧ i ≠ p).
      { intros i Hi. split; intros ->; apply (Hdisj _ Hi);
          [ | apply elem_of_cons; right]; apply elem_of_cons; auto. }
      assert (H2 : ∀ i, i ∈ m2 → i ≠ lst ∧ i ≠ p).
      { intros i Hi. split; intros ->; [ | contradiction].
        apply Hlst. apply elem_of_cons. auto. }
      assert (Hsub : ∀ j, j ∈ l0 ++ lst :: m2 → j ∈ l0 ++ lst :: p :: m2 ∧ j ≠ p).
      { intros j Hj. apply elem_of_app in Hj as [Hj | Hj].
        - split; [apply elem_of_app; auto | apply (H0 j Hj)].
        - apply elem_of_cons in Hj as [-> | Hj].
          + split; [assumption | assumption].
          + split; [ | apply (H2 j Hj)]. apply elem_of_app. right.
            apply elem_of_cons. right. apply elem_of_cons. auto. }
      assert (Hkeep : ∀ j k0 v, j ≠ p → stores (hash t) j k0 v →
                stores (<[p := E0]> (<[lst := set_next (next n) ln]> (hash t))) j k0 v).
      { intros j k0 v Hjp Hst. apply stores_insert_ne; [assumption | ].
        destruct (decide (j = lst)) as [-> | Hjl].
        - destruct (stores_fun _ _ _ _ _ _ Hst Hstl) as (-> & ->).
          apply stores_insert_eq; [eapply lookup_lt_Some; eauto | | ]; assumption.
        - apply stores_insert_ne; assumption. }
      assert (Hback : ∀ j k0 v,
                stores (<[p := E0]> (<[lst := set_next (next n) ln]> (hash t))) j k0 v →
                j ≠ p ∧ stores (hash t) j k0 v).
      { intros j k0 v Hst.
        apply stores_insert in Hst as [(_ & Hk0 & _) | (Hjp & Hst)]; [discriminate | ].
        split; [assumption | ].
        apply stores_insert in Hst as [(-> & Hk0 & Hv0) | (_ & Hst)]; [ | assumption].
        exists ln. auto. }
      apply (well_chained_rebuild t _ s (l0 ++ lst :: p :: m2) (l0 ++ lst :: m2));
        try assumption; simpl.
      * intros i Hi. rewrite !list_lookup_insert_ne; [reflexivity | | ];
          intros ->; apply Hi; apply elem_of_app; right;
          [ | apply elem_of_cons; right]; apply elem_of_cons; auto.
      * intros j k0 v Hj Hst. apply Hback in Hst as (Hjp & _).
        apply elem_of_app in Hj as [Hj | Hj]; [apply elem_of_app; auto | ].
        apply elem_of_app. right.
        apply elem_of_cons in Hj as [-> | Hj]; [apply elem_of_cons; auto | ].
        apply elem_of_cons in Hj as [-> | Hj]; [congruence | ].
        apply elem_of_cons. auto.
      * intros _. eapply chain_from_splice; [exact C | | ].
        -- intros i Hi. destruct (H0 i Hi).
           rewrite !list_lookup_insert_ne by auto. reflexivity.
        -- simpl. econstructor.
           ++ rewrite list_lookup_insert_ne by auto.
              apply list_lookup_insert_eq. eapply lookup_lt_Some; eauto.
           ++ simpl. eapply chain_from_ext; [exact Cn | ].
              intros i Hi. destruct (H2 i Hi).
              rewrite !list_lookup_insert_ne by auto. reflexivity.
      * intros j Hj. destruct (Hsub j Hj) as (Hjl & Hjp).
        destruct (Hall j Hjl) as (kj & vj & Hstj & _).
        exists kj, vj. split; [apply Hkeep; assumption | ].
        apply (Hold j kj vj); assumption.
      * apply isolated_insert; [ | reflexivity].
        apply isolated_insert; [assumption | ].
        intros Hen. unfold node_empty in Hen. simpl in Hen. rewrite Evl in Hen.
        discriminate.
      * intros i j ki kj vi vj Hi Hj Heq.
        apply Hback in Hi as (_ & Hi). apply Hback in Hj as (_ & Hj). eauto.
Qed.


(** The stored pairs before and after an [erase] in the hash segment. *)
Lemma erase_stores (t : Table) (k : Key) (t' : Table) :
  in_array_part t k = None → erase reg t k = Ok t' →
  array t' = array t ∧
  (∀ j k0 v, stores (hash t') j k0 v → ∃ j0, stores (hash t) j0 k0 v) ∧
  (∀ j k0 v, stores (hash t) j k0 v → Key_eqb k0 k = false →
     ∃ j', stores (hash t') j' k0 v).
Proof.
  intros Ea E.
  destruct (erase_inv reg t k t' E Ea) as (s & mp' & last & Emp & Ef & H).
  destruct mp' as [p | ]; [ | subst t'; eauto].
  destruct H as (n & Hn & H).
  apply find_stops in Ef as (n' & Hn' & Hstop).
  assert (n' = n) by congruence. subst n'. clear Hn'.
  assert (Hp : ∀ k0 v, stores (hash t) p k0 v → Key_eqb k0 k = false → False).
  { intros k0 v (n' & Hn' & Ek0 & Ev0) Hneq.
    assert (n' = n) by congruence. subst n'.
    destruct Hstop as [He | (_ & Hm)].
    - unfold node_empty in He. rewrite Ev0 in He. discriminate.
    - unfold node_key_eqb in Hm. rewrite Ek0 in Hm. congruence. }
  set (E0 := {| key := None; value := None; next := None;
                vacancy_next := vacancy_head t |}).
  destruct (next n) as [nx | ] eqn:Enx, last as [lst | ].
  2: {
    destruct H as (nn & Hnn & H). apply free_eq in H as (_ & ->). simpl.
    split; [reflexivity | split].
    - intros j k0 v Hst.
      apply stores_insert in Hst as [(_ & Hk0 & _) | (_ & Hst)]; [discriminate | ].
      apply stores_insert in Hst as [(_ & Hk0 & Hv0) | (_ & Hst)]; [ | eauto].
      exists nx, nn. auto.
    - intros j k0 v Hst Hneq.
      destruct (decide (j = p)) as [-> | Hjp]; [destruct (Hp k0 v Hst Hneq) | ].
      destruct (decide (j = nx)) as [-> | Hjnx].
      + exists p. apply stores_insert_ne; [congruence | ].
        destruct Hst as (nn' & Hnn' & Ek0 & Ev0).
        assert (nn' = nn) by congruence. subst nn'.
        apply stores_insert_eq; [eapply lookup_lt_Some; eauto | | ]; assumption.
      + exists j. apply stores_insert_ne; [assumption | ].
        apply stores_insert_ne; assumption. }
  3: {
    apply free_eq in H as (_ & ->). simpl. split; [reflexivity | split].
    - intros j k0 v Hst.
      apply stores_insert in Hst as [(_ & Hk0 & _) | (_ & Hst)]; [discriminate | eauto].
    - intros j k0 v Hst Hneq.
      destruct (decide (j = p)) as [-> | Hjp]; [destruct (Hp k0 v Hst Hneq) | ].
      exists j. apply stores_insert_ne; assumption. }
  all: destruct H as (ln & Hln & H); apply free_eq in H as (_ & ->); simpl;
    (split; [reflexivity | split]).
  all: try (intros j k0 v Hst;
      apply stores_insert in Hst as [(_ & Hk0 & _) | (_ & Hst)]; [discriminate | ];
      apply stores_insert in Hst as [(_ & Hk0 & Hv0) | (_ & Hst)]; [ | eauto];
      exists lst, ln; auto).
  all: intros j k0 v Hst Hneq;
    (destruct (decide (j = p)) as [-> | Hjp]; [destruct (Hp k0 v Hst Hneq) | ]);
    exists j; (apply stores_insert_ne; [assumption | ]);
    destruct (decide (j = lst)) as [-> | Hjl];
    [ destruct Hst as (ln' & Hln' & Ek0 & Ev0);
      assert (ln' = ln) by congruence; subst ln';
      apply stores_insert_eq; [eapply lookup_lt_Some; eauto | | ]; assumption
    | apply stores_insert_ne; assumption ].
Qed.

(** The chain that a walk from the main position of [k] follows in a well
    chained table. *)
Lemma well_chained_walk (t : Table) (k : Key) (s : nat) :
  well_chained reg t → sized t → main_pos reg t k = Ok s →
  ∃ l, chain_from (hash t) (Some s) l ∧ proper_chain (hash t) k l.
Proof.
  intros Hwf Hs Emp. pose proof Hwf as (Hkp & Hiso & Hchain & Huniq).
  pose proof Hs as (_ & Hlh & _).
  pose proof (main_pos_lt reg _ _ _ Emp) as Hlt. rewrite <- Hlh in Hlt.
  destruct (lookup_lt_is_Some_2 _ _ Hlt) as [ns Hns].
  assert (HC : ∃ l, chain_from (hash t) (Some s) l).
  { destruct (node_empty ns) eqn:Ens.
    - exists [s]. econstructor; [exact Hns | ]. rewrite (Hiso s ns Hns Ens). constructor.
    - destruct (nonempty_stores _ _ _ Hkp Hns Ens) as (ks & vs & Hsts).
      destruct (Hchain s ks vs Hsts) as (_ & s0 & l & Es0 & (C & _) & Hin).
      apply list_elem_of_split in Hin as (l1 & l2 & ->).
      exists (s :: l2). exact (chain_from_suffix _ _ _ C l1 s l2 eq_refl). }
  destruct HC as (l & C). exists l. split; [assumption | ]. split.
  - intros i n _ Hn He. exact (Hiso i n Hn He).
  - intros i j ni nj _ _ Hi Hj (Ei & ki & Eki & Heqi) (Ej & kj & Ekj & Heqj).
    unfold node_empty in Ei, Ej.
    destruct (value ni) as [vi | ] eqn:Evi; [ | discriminate].
    destruct (value nj) as [vj | ] eqn:Evj; [ | discriminate].
    apply (Huniq i j ki kj vi vj); [exists ni; auto | exists nj; auto | ].
    apply (Key_eqb_trans ki k kj Htrans Heqi).
    rewrite (Key_eqb_sym k kj Hsym). assumption.
Qed.

(** X20: [erase] on a well chained table, for a key outside the array
    part that has a hash.  The call returns, the table is well chained
    again, the key is not found afterwards, and the query of every key
    that differs from the erased one returns what it returned before. *)
Theorem erase_well_chained (t : Table) (k : Key) (s : nat) :
  well_chained reg t → sized t → cache_ok k →
  in_array_part t k = None → main_pos reg t k = Ok s →
  ∃ t', erase reg t k = Ok t' ∧ well_chained reg t' ∧ sized t' ∧
    query reg t' k = Ok None ∧
    ∀ k', cache_ok k' → Key_eqb k' k = false → query reg t' k' = query reg t k'.
Proof.
  intros Hwf Hs Hc Ea Emp. pose proof Hwf as (Hkp & _).
  destruct (well_chained_walk t k s Hwf Hs Emp) as (l & C & Hpc).
  destruct (erase_returns reg t k s l Ea Emp Hkp C) as (t' & E).
  pose proof (erase_keeps_well_chained t k t' Hwf Hc Ea E) as Hwf'.
  pose proof (sized_erase reg t k t' Hs E) as Hs'.
  pose proof (erase_keys reg _ _ _ E) as (Has & Hhs & _).
  destruct (erase_stores t k t' Ea E) as (Harr & Hback & Hkeep).
  exists t'. split; [assumption | split; [assumption | split; [assumption | split]]].
  - exact (erase_query_none reg t k s l t' Ea Emp Hkp C Hpc E).
  - intros k' Hc' Hneq.
    apply (query_same_pairs t t' k' Hwf Hs Hwf' Hs' Harr Has Hhs Hc').
    intros v. split.
    + intros (j & k0 & Hst & Heq). destruct (Hback j k0 v Hst) as (j0 & Hst0). eauto.
    + intros (j & k0 & Hst & Heq).
      assert (Hneq0 : Key_eqb k0 k = false).
      { destruct (Key_eqb k0 k) eqn:Hk0; [ | reflexivity].
        rewrite <- Hneq. symmetry.
        apply (Key_eqb_trans k' k0 k Htrans); [ | assumption].
        rewrite (Key_eqb_sym k' k0 Hsym). assumption. }
      destruct (Hkeep j k0 v Hst Hneq0) as (j' & Hst'). eauto.
Qed.


Lemma stores_sim (h1 h2 : list Node) (j : nat) (k : Key) (v : Value) :
  hash_sim h1 h2 → (stores h1 j k v ↔ stores h2 j k v).
Proof.
  intros Hsim. split; intros (n & Hn & Ek & Ev).
  - destruct (hash_sim_lookup _ _ _ _ Hsim Hn) as (n2 & Hn2 & Ek2 & Ev2 & _).
    exists n2. split; [assumption | split; congruence].
  - destruct (hash_sim_lookup_r _ _ _ _ Hsim Hn) as (n1 & Hn1 & Ek1 & Ev1 & _).
    exists n1. split; [assumption | split; congruence].
Qed.

Lemma chain_from_sim (h1 h2 : list Node) (p : option nat) (l : list nat) :
  hash_sim h1 h2 → chain_from h2 p l → chain_from h1 p l.
Proof.
  intros Hsim. induction 1 as [ | i n l Hi C IH]; [constructor | ].
  destruct (hash_sim_lookup_r _ _ _ _ Hsim Hi) as (n1 & Hn1 & _ & _ & En).
  econstructor; [exact Hn1 | ]. rewrite En. assumption.
Qed.

(** Being well chained does not depend on the vacancy list. *)
Lemma well_chained_sim (t t1 : Table) :
  hash_sim (hash t1) (hash t) → hash_size_log2 t1 = hash_size_log2 t →
  well_chained reg t → well_chained reg t1.
Proof.
  intros Hsim Hhs (Hkp & Hiso & Hchain & Huniq).
  split; [exact (keys_present_sim _ _ Hsim Hkp) | ]. split; [ | split].
  - intros j n Hn He.
    destruct (hash_sim_lookup _ _ _ _ Hsim Hn) as (n2 & Hn2 & Hns).
    pose proof (node_sim_empty _ _ Hns) as Hee. destruct Hns as (_ & _ & En).
    rewrite En. apply (Hiso j n2 Hn2). congruence.
  - intros j k v Hst. apply (stores_sim _ _ j k v Hsim) in Hst.
    destruct (Hchain j k v Hst) as (Hc & s & l & Emp & (C & Hall) & Hj).
    split; [assumption | ]. exists s, l.
    split; [rewrite (main_pos_frame reg t1 t k Hhs); assumption | ].
    split; [ | assumption]. split; [exact (chain_from_sim _ _ _ _ Hsim C) | ].
    intros i Hi. destruct (Hall i Hi) as (ki & vi & Hsti & Empi).
    exists ki, vi. split; [apply (stores_sim _ _ i ki vi Hsim); assumption | ].
    rewrite (main_pos_frame reg t1 t ki Hhs). assumption.
  - intros i j ki kj vi vj Hi Hj.
    apply (stores_sim _ _ _ _ _ Hsim) in Hi. apply (stores_sim _ _ _ _ _ Hsim) in Hj.
    eauto.
Qed.

(** The table after [insert] has put a key that was not stored into the
    hash segment: into the main position or into a free slot behind it. *)
Lemma insert_shape (fuel : nat) (t : Table) (k : Key) (v : Value) (s : nat) :
  well_chained reg t → sized t →
  in_array_part t k = None → main_pos reg t k = Ok s →
  (∀ ks vs, stores (hash t) s ks vs → Key_eqb ks k = false) →
  (∀ ks vs, stores (hash t) s ks vs →
     main_pos reg t ks = Ok s ∧ ∃ f t1, get_free_pos t = Ok (Some f, t1)) →
  ∃ t', insert reg (S fuel) t k v = Ok t' ∧
    ((∃ ns, hash t !! s = Some ns ∧ node_empty ns = true ∧
            t' = set_hash (<[s := Node_of k v]> (hash t)) t)
     ∨ (∃ f t1 ns ks vs,
          get_free_pos t = Ok (Some f, t1) ∧ hash t1 !! s = Some ns ∧
          key ns = Some ks ∧ value ns = Some vs ∧ main_pos reg t1 ks = Ok s ∧
          f ≠ s ∧ (∃ nf, hash t1 !! f = Some nf ∧ node_empty nf = true) ∧
          t' = set_hash (<[s := set_next (Some f) ns]>
                           (<[f := set_next (next ns) (Node_of k v)]> (hash t1))) t1)).
Proof.
  intros Hwf Hs Ea Emp Hfresh Hhome. pose proof Hwf as (Hkp & Hiso & Hchain & Huniq).
  pose proof Hs as (_ & Hlh & _).
  pose proof (main_pos_lt reg _ _ _ Emp) as Hlt. rewrite <- Hlh in Hlt.
  destruct (lookup_lt_is_Some_2 _ _ Hlt) as [ns Hns].
  rewrite insert_S, Ea, Emp, bind_Ok_l, (at_index_Some _ _ _ Hns), bind_Ok_l.
  unfold overwrites. destruct (node_empty ns) eqn:Ens.
  - rewrite bind_Ok_l. eexists. split; [reflexivity | ]. left. eauto.
  - destruct (nonempty_stores _ _ _ Hkp Hns Ens) as (ks & vs & Hsts).
    pose proof Hsts as (ns' & Hns' & Eks & Evs).
    assert (ns' = ns) by congruence. subst ns'.
    unfold node_key_eqb. rewrite Eks, bind_Ok_l, (Hfresh ks vs Hsts).
    destruct (Hhome ks vs Hsts) as (Ehome & f & t1 & Eg).
    rewrite Eg, bind_Ok_l.
    destruct (get_free_pos_spec _ _ _ Eg) as (Hsim & (_ & _ & Hhs & _) & Hfree).
    destruct (Hfree f eq_refl) as (nf & Hnf & Enf).
    destruct (hash_sim_lookup_r _ _ _ _ Hsim Hns) as (ns1 & Hns1 & Ek1 & Ev1 & En1).
    assert (Hne : f ≠ s).
    { intros ->. assert (nf = ns1) by congruence. subst nf.
      unfold node_empty in Enf. rewrite Ev1, Evs in Enf. discriminate. }
    assert (Ehome1 : main_pos reg t1 ks = Ok s).
    { rewrite (main_pos_frame reg t1 t ks Hhs). assumption. }
    unfold insert_at_free.
    rewrite (at_index_Some _ _ _ Hns1), bind_Ok_l, Ek1, Eks, bind_Ok_l, Ehome1, bind_Ok_l.
    rewrite Nat.eqb_refl.
    assert (Hsp : ∃ t', splice_behind t1 s f k v = Ok t').
    { unfold splice_behind.
      rewrite (at_index_Some _ _ ns1)
        by (rewrite list_lookup_insert_ne by auto; assumption).
      rewrite bind_Ok_l. eauto. }
    destruct Hsp as (t' & Esp). exists t'. split; [assumption | ]. right.
    destruct (splice_behind_spec t1 s f k v t' Esp Hne (lookup_lt_Some _ _ _ Hnf))
      as (n' & Hn' & ->).
    assert (n' = ns1) by congruence. subst n'.
    exists f, t1, ns1, ks, vs. repeat split; try assumption; try congruence.
    exists nf. auto.
Qed.

(** X21: [insert] of a key that no node stores, on a well chained table,
    when the main position of the key holds no value, or holds a key that
    is at its own main position while [get_free_pos] finds a free slot.
    The call returns without a resize, the table is well chained again,
    the key is found with the value given, and the query of every key
    that differs from it returns what it returned before. *)
Theorem insert_fresh_well_chained (fuel : nat) (t : Table) (k : Key) (v : Value) (s : nat) :
  well_chained reg t → sized t → cache_ok k → Key_eqb k k = true →
  in_array_part t k = None → main_pos reg t k = Ok s →
  (∀ j k0 v0, stores (hash t) j k0 v0 → Key_eqb k0 k = false) →
  (∀ ks vs, stores (hash t) s ks vs →
     main_pos reg t ks = Ok s ∧ ∃ f t1, get_free_pos t = Ok (Some f, t1)) →
  ∃ t', insert reg (S fuel) t k v = Ok t' ∧ well_chained reg t' ∧ sized t' ∧
    query reg t' k = Ok (Some v) ∧
    ∀ k', cache_ok k' → Key_eqb k' k = false → query reg t' k' = query reg t k'.
Proof.
  intros Hwf Hs Hc Hkk Ea Emp Hfresh Hhome.
  destruct (insert_shape fuel t k v s Hwf Hs Ea Emp (λ ks vs, Hfresh s ks vs) Hhome)
    as (t' & E & Hshape).
  pose proof (sized_insert reg _ _ _ _ _ Hs E) as Hs'.
  pose proof Hwf as (Hkp & _).
  pose proof (keys_present_insert reg _ _ _ _ _ Hkp E) as Hkp'.
  assert (Hfresh' : ∀ k0, Key_eqb k k0 = true → Key_eqb k0 k = false → False).
  { intros k0 H1 H2. rewrite (Key_eqb_sym k k0 Hsym) in H1. congruence. }
  assert (H : well_chained reg t' ∧ array t' = array t ∧
              array_size_log2 t' = array_size_log2 t ∧
              hash_size_log2 t' = hash_size_log2 t ∧
              (∀ j k0 v0, stores (hash t') j k0 v0 →
                 (k0 = k ∧ v0 = v) ∨ stores (hash t) j k0 v0) ∧
              (∀ j k0 v0, stores (hash t) j k0 v0 → stores (hash t') j k0 v0)).
  { destruct Hshape as [(ns & Hns & Ens & ->)
                       | (f & t1 & ns & ks & vs & Eg & Hns & Eks & Evs & Ehome & Hne &
                          (nf & Hnf & Enf) & ->)].
    - (* the main position held no value *)
      pose proof Hwf as (_ & Hiso & Hchain & Huniq).
      pose proof (lookup_lt_Some _ _ _ Hns) as Hlt.
      assert (Hback : ∀ j k0 v0, stores (<[s := Node_of k v]> (hash t)) j k0 v0 →
                (j = s ∧ k0 = k ∧ v0 = v) ∨ (j ≠ s ∧ stores (hash t) j k0 v0)).
      { intros j k0 v0 Hst.
        apply stores_insert in Hst as [(-> & Hk0 & Hv0) | Hst]; [left | right; exact Hst].
        simpl in Hk0, Hv0. repeat split; congruence. }
      assert (Hkeep : ∀ j k0 v0, stores (hash t) j k0 v0 →
                stores (<[s := Node_of k v]> (hash t)) j k0 v0).
      { intros j k0 v0 Hst. apply stores_insert_ne; [ | assumption].
        intros ->. eapply stores_not_empty; eauto. }
      split; [ | simpl; repeat split; try reflexivity].
      + apply (well_chained_rebuild t _ s [s] [s]); try assumption; simpl.
        * reflexivity.
        * intros i Hi. apply list_lookup_insert_ne. intros ->. apply Hi.
          apply elem_of_cons. auto.
        * intros j k0 v0 Hst Hj. apply list_elem_of_singleton in Hj as ->.
          exfalso. eapply stores_not_empty; eauto.
        * intros j k0 v0 Hst Emp0. exfalso.
          exact (empty_main_position t s ns j k0 v0 Hwf Hns Ens Hst Emp0).
        * intros j k0 v0 Hj _. assumption.
        * intros _. econstructor; [apply list_lookup_insert_eq; assumption | ].
          simpl. constructor.
        * intros j Hj. apply list_elem_of_singleton in Hj as ->.
          exists k, v. split; [ | auto].
          apply stores_insert_eq; [assumption | reflexivity | reflexivity].
        * apply isolated_insert; [assumption | reflexivity].
        * intros i j ki kj vi vj Hi Hj Heq.
          apply Hback in Hi as [(-> & -> & ->) | (Hi1 & Hi)];
            apply Hback in Hj as [(-> & -> & ->) | (Hj1 & Hj)].
          -- reflexivity.
          -- destruct (Hfresh' kj Heq (Hfresh _ _ _ Hj)).
          -- rewrite (Hfresh _ _ _ Hi) in Heq. discriminate.
          -- eauto.
      + intros j k0 v0 Hst. apply Hback in Hst as [(_ & -> & ->) | (_ & Hst)]; auto.
      + assumption.
    - (* the new node is spliced in behind the main position *)
      destruct (get_free_pos_spec _ _ _ Eg) as (Hsim & (Harr & Has & Hhs & _) & _).
      pose proof (well_chained_sim t t1 Hsim Hhs Hwf) as Hwf1.
      pose proof Hwf1 as (_ & Hiso & Hchain & Huniq).
      assert (Hfresh1 : ∀ j k0 v0, stores (hash t1) j k0 v0 → Key_eqb k0 k = false).
      { intros j k0 v0 Hst. apply (stores_sim _ _ _ _ _ Hsim) in Hst. eauto. }
      assert (Hsts : stores (hash t1) s ks vs) by (exists ns; auto).
      destruct (Hchain s ks vs Hsts) as (Hcks & s0 & l & Es0 & Hl & Hin).
      assert (s0 = s) by congruence. subst s0. pose proof Hl as (C & Hall).
      destruct (chain_from_cons _ _ _ C) as (l2 & ->).
      destruct (chain_from_inv _ _ _ _ C) as (_ & n' & Hn' & Cn).
      assert (n' = ns) by congruence. subst n'. clear Hn'.
      pose proof (chain_from_NoDup _ _ _ C) as Hnd.
      apply list.NoDup_cons in Hnd as (Hs2 & Hnd2).
      assert (Hfl : f ∉ s :: l2).
      { intros Hf. destruct (Hall f Hf) as (kf & vf & Hstf & _).
        eapply stores_not_empty; eauto. }
      assert (Hl2 : ∀ i, i ∈ l2 → i ≠ s ∧ i ≠ f).
      { intros i Hi. split; intros ->; [contradiction | ].
        apply Hfl. apply elem_of_cons. auto. }
      pose proof (lookup_lt_Some _ _ _ Hns) as Hslt.
      pose proof (lookup_lt_Some _ _ _ Hnf) as Hflt.
      set (h' := <[s := set_next (Some f) ns]>
                   (<[f := set_next (next ns) (Node_of k v)]> (hash t1))).
      assert (Hback : ∀ j k0 v0, stores h' j k0 v0 →
                (j = f ∧ k0 = k ∧ v0 = v) ∨ (j ≠ f ∧ stores (hash t1) j k0 v0)).
      { intros j k0 v0 Hst. unfold h' in Hst.
        apply stores_insert in Hst as [(-> & Hk0 & Hv0) | (Hjs & Hst)].
        - right. split; [auto | ]. exists ns. simpl in Hk0, Hv0. auto.
        - apply stores_insert in Hst as [(-> & Hk0 & Hv0) | Hst]; [left | right; exact Hst].
          simpl in Hk0, Hv0. repeat split; congruence. }
      assert (Hkeep : ∀ j k0 v0, stores (hash t1) j k0 v0 → stores h' j k0 v0).
      { intros j k0 v0 Hst. unfold h'.
        assert (Hjf : j ≠ f) by (intros ->; eapply stores_not_empty; eauto).
        destruct (decide (j = s)) as [-> | Hjs].
        - destruct (stores_fun _ _ _ _ _ _ Hst Hsts) as (-> & ->).
          apply stores_insert_eq; [rewrite length_insert | | ]; assumption.
        - apply stores_insert_ne; [assumption | ].
          apply stores_insert_ne; assumption. }
      split; [ | simpl; split; [assumption | split; [assumption | split; [assumption | split]]]].
      + apply (well_chained_rebuild t1 _ s (f :: s :: l2) (s :: f :: l2));
          try assumption; simpl; fold h'.
        * reflexivity.
        * intros i Hi. unfold h'. rewrite !list_lookup_insert_ne; [reflexivity | | ];
            intros ->; apply Hi; [ | apply elem_of_cons; right];
            apply elem_of_cons; auto.
        * intros j k0 v0 Hst Hj. apply elem_of_cons in Hj as [-> | Hj].
          -- exfalso. eapply stores_not_empty; eauto.
          -- exact (chain_of_member t1 s (s :: l2) j k0 v0 Hl Hst Hj).
        * intros j k0 v0 Hst Emp0. apply elem_of_cons. right.
          exact (chain_of_covers t1 s (s :: l2) j k0 v0 Hwf1 Hl Hst Emp0).
        * intros j k0 v0 Hj _.
          apply elem_of_cons in Hj as [-> | Hj];
            [apply elem_of_cons; right; apply elem_of_cons; auto | ].
          apply elem_of_cons in Hj as [-> | Hj]; [apply elem_of_cons; auto | ].
          apply elem_of_cons; right; apply elem_of_cons; auto.
        * intros _. unfold h'. econstructor.
          -- apply list_lookup_insert_eq. rewrite length_insert. assumption.
          -- simpl. econstructor.
             ++ rewrite list_lookup_insert_ne by auto.
                apply list_lookup_insert_eq. assumption.
             ++ simpl. eapply chain_from_ext; [exact Cn | ].
                intros i Hi. destruct (Hl2 i Hi).
                rewrite !list_lookup_insert_ne by auto. reflexivity.
        * intros j Hj. apply elem_of_cons in Hj as [-> | Hj].
          -- exists ks, vs. split; [apply Hkeep; assumption | auto].
          -- apply elem_of_cons in Hj as [-> | Hj].
             ++ exists k, v. split.
                ** unfold h'. apply stores_insert_ne; [assumption | ].
                   apply stores_insert_eq; [assumption | reflexivity | reflexivity].
                ** split; [ | assumption].
                   rewrite (main_pos_frame reg t1 t k Hhs). assumption.
             ++ assert (Hjl : j ∈ s :: l2) by (apply elem_of_cons; auto).
                destruct (Hall j Hjl) as (kj & vj & Hstj & Empj).
                exists kj, vj. split; [apply Hkeep; assumption | ].
                split; [assumption | ].
                destruct (Hchain j kj vj Hstj) as (Hcj & _). assumption.
        * unfold h'. apply isolated_insert.
          -- apply isolated_insert; [assumption | ]. intros He. discriminate.
          -- intros He. unfold node_empty in He. simpl in He. rewrite Evs in He.
             discriminate.
        * intros i j ki kj vi vj Hi Hj Heq.
          apply Hback in Hi as [(-> & -> & ->) | (Hi1 & Hi)];
            apply Hback in Hj as [(-> & -> & ->) | (Hj1 & Hj)].
          -- reflexivity.
          -- destruct (Hfresh' kj Heq (Hfresh1 _ _ _ Hj)).
          -- rewrite (Hfresh1 _ _ _ Hi) in Heq. discriminate.
          -- eauto.
      + intros j k0 v0 Hst. fold h' in Hst.
        apply Hback in Hst as [(_ & -> & ->) | (_ & Hst)]; [auto | ].
        right. apply (stores_sim _ _ _ _ _ Hsim). assumption.
      + intros j k0 v0 Hst. fold h'. apply Hkeep.
        apply (stores_sim _ _ _ _ _ Hsim). assumption. }
  destruct H as (Hwf' & Harr & Has & Hhs & Hback & Hkeep).
  exists t'. split; [assumption | split; [assumption | split; [assumption | split]]].
  - exact (insert_query reg _ _ _ _ _ Hkk E).
  - intros k' Hc' Hneq.
    apply (query_same_pairs t t' k' Hwf Hs Hwf' Hs' Harr Has Hhs Hc').
    intros v0. split.
    + intros (j & k0 & Hst & Heq). apply Hback in Hst as [(-> & ->) | Hst]; [ | eauto].
      rewrite (Key_eqb_sym k k' Hsym) in Heq. congruence.
    + intros (j & k0 & Hst & Heq). eauto.
Qed.

(** A walk meets the same nodes in two segments that agree on its chain. *)
Lemma find_ext (fuel : nat) (h h' : list Node) (k : Key) (p last : option nat)
    (l : list nat) :
  chain_from h p l → (∀ i, i ∈ l → h' !! i = h !! i) →
  find fuel h' k p last = find fuel h k p last.
Proof.
  intros C. revert fuel last. induction C as [ | i n l Hi C IH]; intros fuel last Hext.
  - destruct fuel; reflexivity.
  - assert (Hi' : h' !! i = Some n).
    { rewrite Hext; [assumption | apply elem_of_cons; auto]. }
    assert (IH' : ∀ fuel last, find fuel h' k (next n) last = find fuel h k (next n) last).
    { intros fuel' last'. apply IH. intros j Hj. apply Hext, elem_of_cons. auto. }
    destruct fuel as [ | fuel]; cbn [find];
      rewrite (at_index_Some _ _ _ Hi), (at_index_Some _ _ _ Hi'), !bind_Ok_l;
      [reflexivity | ].
    destruct (node_empty n); [reflexivity | ].
    destruct (node_key_eqb n k) as [[ | ] | e]; cbn [mbind result_bind];
      [reflexivity | apply IH' | reflexivity].
Qed.

Lemma query_ext (t t2 : Table) (k : Key) (s : nat) (l : list nat) :
  keys_present (hash t) →
  array_size_log2 t2 = array_size_log2 t → hash_size_log2 t2 = hash_size_log2 t →
  length (hash t2) = length (hash t) →
  in_array_part t k = None → main_pos reg t k = Ok s →
  chain_from (hash t) (Some s) l → (∀ i, i ∈ l → hash t2 !! i = hash t !! i) →
  query reg t2 k = query reg t k.
Proof.
  intros Hkp Has Hhs Hlen Ea Emp C Hext. unfold query.
  rewrite (in_array_part_frame t2 t k Has), Ea, (main_pos_frame reg t2 t k Hhs), Emp.
  rewrite !bind_Ok_l, Hlen, (find_ext _ _ _ _ _ _ _ C Hext).
  destruct (find_total (length (hash t)) (hash t) k (Some s) None l Hkp C
              (chain_from_length _ _ _ C)) as (r & last' & Ef & Hin & _).
  rewrite Ef, !bind_Ok_l. destruct r as [i | ]; [ | reflexivity].
  unfold at_index. rewrite (Hext i (Hin i eq_refl)). reflexivity.
Qed.

Lemma set_next_set_next (n : Node) (f : option nat) :
  set_next (next n) (set_next f n) = n.
Proof. destruct n. reflexivity. Qed.

(** X22: [insert] does not look for the key behind the main position.
    When the key is stored in a node other than its main position and a
    free slot is found, [insert] puts a second node for the key right
    behind the main position: the query returns the new value, and after
    one [erase] of the key the query returns the old value again. *)
Theorem update_behind_main_leaves_old_value (fuel : nat) (t : Table) (k : Key) (v : Value)
    (s p : nat) (k0 : Key) (v0 : Value) (f : nat) (t1 : Table) :
  well_chained reg t → sized t → cache_ok k → Key_eqb k k = true →
  in_array_part t k = None → main_pos reg t k = Ok s →
  stores (hash t) p k0 v0 → Key_eqb k0 k = true → p ≠ s →
  get_free_pos t = Ok (Some f, t1) →
  ∃ t', insert reg (S fuel) t k v = Ok t' ∧ query reg t' k = Ok (Some v) ∧
    ∃ t'', erase reg t' k = Ok t'' ∧ query reg t'' k = Ok (Some v0).
Proof.
  intros Hwf Hs Hc Hkk Ea Emp Hst0 Heq0 Hps Eg.
  pose proof Hwf as (Hkp & Hiso & Hchain & Huniq).
  destruct (equal_key_on_chain t k s p k0 v0 Hwf Hc Emp Hst0 Heq0) as (l & Hl & Hpl).
  assert (Hhead : ∀ ks vs, stores (hash t) s ks vs → Key_eqb ks k = false).
  { intros ks vs Hsts. destruct (Key_eqb ks k) eqn:Heq; [exfalso | reflexivity].
    apply Hps. apply (Huniq p s k0 ks v0 vs Hst0 Hsts).
    apply (Key_eqb_trans k0 k ks Htrans Heq0).
    rewrite (Key_eqb_sym k ks Hsym). assumption. }
  assert (Hhome : ∀ ks vs, stores (hash t) s ks vs →
            main_pos reg t ks = Ok s ∧ ∃ f t1, get_free_pos t = Ok (Some f, t1)).
  { intros ks vs Hsts. split; [ | eauto].
    destruct (chain_of_head t s l Hl) as (k1 & v1 & Hst1 & Emp1).
    destruct (stores_fun _ _ _ _ _ _ Hsts Hst1) as (-> & _). assumption. }
  destruct (insert_shape fuel t k v s Hwf Hs Ea Emp Hhead Hhome) as (t' & E & Hshape).
  exists t'. split; [assumption | ].
  split; [exact (insert_query reg _ _ _ _ _ Hkk E) | ].
  destruct Hshape as [(ns & Hns & Ens & _)
                     | (f' & t1' & ns & ks & vs & Eg' & Hns & Eks & Evs & Ehome & Hne &
                        (nf & Hnf & Enf) & ->)].
  { exfalso. destruct (chain_of_head t s l Hl) as (k1 & v1 & Hst1 & _).
    eapply stores_not_empty; eauto. }
  rewrite Eg in Eg'. injection Eg' as <- <-.
  destruct (get_free_pos_spec _ _ _ Eg) as (Hsim & (Harr & Has & Hhs & _) & _).
  pose proof (well_chained_sim t t1 Hsim Hhs Hwf) as Hwf1.
  pose proof (get_free_pos_sized _ _ _ Hs Eg) as Hs1.
  pose proof Hwf1 as (Hkp1 & _ & Hchain1 & _).
  assert (Ea1 : in_array_part t1 k = None).
  { rewrite (in_array_part_frame t1 t k Has). assumption. }
  assert (Emp1 : main_pos reg t1 k = Ok s).
  { rewrite (main_pos_frame reg t1 t k Hhs). assumption. }
  assert (Hsts : stores (hash t1) s ks vs) by (exists ns; auto).
  assert (Hks : Key_eqb ks k = false).
  { apply (Hhead ks vs). apply (stores_sim _ _ _ _ _ Hsim). assumption. }
  destruct (Hchain1 s ks vs Hsts) as (_ & s0 & l1 & Es0 & (C & Hall) & _).
  assert (s0 = s) by congruence. subst s0.
  assert (Hfl : f ∉ l1).
  { intros Hf. destruct (Hall f Hf) as (kf & vf & Hstf & _).
    eapply stores_not_empty; eauto. }
  pose proof (lookup_lt_Some _ _ _ Hns) as Hslt.
  pose proof (lookup_lt_Some _ _ _ Hnf) as Hflt.
  set (h' := <[s := set_next (Some f) ns]>
               (<[f := set_next (next ns) (Node_of k v)]> (hash t1))).
  assert (Hs' : h' !! s = Some (set_next (Some f) ns)).
  { unfold h'. apply list_lookup_insert_eq. rewrite length_insert. assumption. }
  assert (Hf' : h' !! f = Some (set_next (next ns) (Node_of k v))).
  { unfold h'. rewrite list_lookup_insert_ne by auto.
    apply list_lookup_insert_eq. assumption. }
  assert (Hlen : length h' = length (hash t1)).
  { unfold h'. rewrite !length_insert. reflexivity. }
  assert (Ef : find (length h') h' k (Some s) None = Ok (Some f, Some s)).
  { destruct (length h') as [ | n] eqn:El; [lia | ].
    rewrite (find_miss n h' k s None (set_next (Some f) ns) Hs').
    - simpl. apply (find_hit n h' k f (Some s) (set_next (next ns) (Node_of k v)) Hf').
      + reflexivity.
      + unfold node_key_eqb. simpl. congruence.
    - unfold node_empty. simpl. rewrite Evs. reflexivity.
    - unfold node_key_eqb. simpl. rewrite Eks. congruence. }
  assert (Ee : ∃ t'', erase reg (set_hash h' t1) k = Ok t'' ∧
            array_size_log2 t'' = array_size_log2 t1 ∧
            hash_size_log2 t'' = hash_size_log2 t1 ∧
            ∃ e, hash t'' = <[f := e]> (hash t1)).
  { unfold erase.
    rewrite (in_array_part_frame (set_hash h' t1) t1 k eq_refl), Ea1.
    rewrite (main_pos_frame reg (set_hash h' t1) t1 k eq_refl), Emp1, bind_Ok_l.
    cbn [hash set_hash]. rewrite Ef, bind_Ok_l, (at_index_Some _ _ _ Hf'), bind_Ok_l.
    assert (Efree : ∀ x, free (set_hash (<[s := set_next x (set_next (Some f) ns)]> h') t1) f
              = Ok (set_vacancy_head (Some f)
                      (set_hash (<[f := {| key := None; value := None; next := None;
                                            vacancy_next := vacancy_head t1 |}]>
                                   (<[s := set_next x (set_next (Some f) ns)]> h')) t1))).
    { intros x. unfold free. cbn [hash set_hash vacancy_head].
      rewrite (at_index_Some _ _ (set_next (next ns) (Node_of k v)))
        by (rewrite list_lookup_insert_ne by auto; assumption).
      reflexivity. }
    assert (Eres : (ln ← at_index h' s;
                    free (set_hash (<[s := set_next (next (set_next (next ns) (Node_of k v))) ln]> h') t1) f)
              = Ok (set_vacancy_head (Some f)
                      (set_hash (<[f := {| key := None; value := None; next := None;
                                            vacancy_next := vacancy_head t1 |}]>
                                   (<[s := ns]> h')) t1))).
    { rewrite (at_index_Some _ _ _ Hs'), bind_Ok_l. simpl next.
      rewrite Efree. rewrite set_next_set_next. reflexivity. }
    eexists. split.
    - destruct (next (set_next (next ns) (Node_of k v))); exact Eres.
    - split; [reflexivity | split; [reflexivity | ]]. eexists. cbn [hash set_hash set_vacancy_head].
      unfold h'. apply list_eq. intros i.
      destruct (decide (i = f)) as [-> | Hif].
      + rewrite !list_lookup_insert_eq; [reflexivity | assumption | ].
        rewrite !length_insert. assumption.
      + rewrite (list_lookup_insert_ne _ f i) by auto.
        rewrite (list_lookup_insert_ne (hash t1) f i) by auto.
        destruct (decide (i = s)) as [-> | His].
        * rewrite list_lookup_insert_eq by (rewrite !length_insert; assumption).
          symmetry. assumption.
        * rewrite !list_lookup_insert_ne by auto. reflexivity. }
  destruct Ee as (t'' & Ee & Has2 & Hhs2 & e & Eh). exists t''.
  split; [exact Ee | ].
  assert (Eq : query reg t'' k = query reg t1 k).
  { apply (query_ext t1 t'' k s l1 Hkp1 Has2 Hhs2); try assumption.
    - rewrite Eh, length_insert. reflexivity.
    - intros i Hi. rewrite Eh. apply list_lookup_insert_ne. intros ->. contradiction. }
  rewrite Eq.
  destruct (query_well_chained_gen t1 k s Hwf1 Hs1 Hc Ea1 Emp1) as (r & Er & Hr).
  rewrite Er. f_equal. apply Hr. exists p, k0. split; [ | assumption].
  apply (stores_sim _ _ _ _ _ Hsim). assumption.
Qed.

(** A new table is well chained. *)
Lemma well_chained_new (na nh : nat) : well_chained reg (Table_new na nh).
Proof.
  assert (Hnew : ∀ j n, hash (Table_new na nh) !! j = Some n → n = Node_default).
  { intros j n Hn. simpl in Hn. apply lookup_replicate in Hn as (-> & _). reflexivity. }
  assert (Hno : ∀ j k v, ¬ stores (hash (Table_new na nh)) j k v).
  { intros j k v (n & Hn & _ & Ev). apply Hnew in Hn. subst n. discriminate. }
  split; [apply keys_present_new | ]. split; [ | split].
  - intros j n Hn _. apply Hnew in Hn. subst n. reflexivity.
  - intros j k v Hst. destruct (Hno j k v Hst).
  - intros i j ki kj vi vj Hst. destruct (Hno i ki vi Hst).
Qed.

End WellChained.

(** ** The properties on the sample tables *)

Module SampleFacts.
Import Runs Samples.

Lemma table_1_2_3_100_101_reached :
  run 3 [Insert (INT 1) (any_of 1); Insert (INT 3) (any_of 2);
         Insert (INT 2) (any_of 3); Insert (INT 100) (any_of 4);
         Insert (INT 101) (any_of 5)]
  = Ok table_1_2_3_100_101.
Proof. vm_compute. reflexivity. Qed.

Lemma sized_1_3 : sized table_1_3.
Proof. repeat split; simpl; lia. Qed.

Lemma sized_16_32 : sized table_16_32.
Proof. repeat split; simpl; lia. Qed.

Lemma sized_with_holes : sized table_with_holes.
Proof. repeat split; simpl; lia. Qed.

Lemma sized_1_2_3_100_101 : sized table_1_2_3_100_101.
Proof. repeat split; simpl; lia. Qed.

Lemma keys_present_1_3 : keys_present (hash table_1_3).
Proof.
  intros i n Hi He. destruct i as [ | [ | i]]; simpl in Hi;
    [ | | discriminate]; injection Hi as <-; eauto.
Qed.

(** The chain of slot 1 of [table_1_3]: key 1 in slot 1, then key 3 in
    slot 0. *)
Lemma chain_1_3 : chain_from (hash table_1_3) (Some 1%nat) [1%nat; 0%nat].
Proof.
  eapply chain_step; [reflexivity | ]. eapply chain_step; [reflexivity | ].
  apply chain_end.
Qed.

Lemma proper_chain_1_3 : proper_chain (hash table_1_3) (INT 3) [1%nat; 0%nat].
Proof.
  assert (Hcases : ∀ i n, i ∈ [1%nat; 0%nat] → hash table_1_3 !! i = Some n →
            i = 1%nat ∧ n = entry 1 1 (Some 0%nat) ∨ i = 0%nat ∧ n = entry 3 2 None).
  { intros i n Hi Hn. apply elem_of_cons in Hi as [-> | Hi].
    - left. injection Hn as <-. auto.
    - apply list_elem_of_singleton in Hi as ->. right. injection Hn as <-. auto. }
  split.
  - intros i n Hi Hn He.
    destruct (Hcases i n Hi Hn) as [(_ & ->) | (_ & ->)]; discriminate.
  - assert (Hone : ∀ i n, i ∈ [1%nat; 0%nat] → hash table_1_3 !! i = Some n →
              holds_key (INT 3) n → i = 0%nat).
    { intros i n Hi Hn (_ & k' & Ek & Heq).
      destruct (Hcases i n Hi Hn) as [(_ & ->) | (-> & _)]; [ | reflexivity].
      injection Ek as <-. discriminate. }
    intros i j ni nj Hi Hj Hni Hnj Hki Hkj.
    rewrite (Hone i ni Hi Hni Hki), (Hone j nj Hj Hnj Hkj). reflexivity.
Qed.

Lemma links_1_3 : links_in_range table_1_3.
Proof.
  split; [ | split]; simpl; [ | discriminate | lia].
  apply Forall_lookup_2. intros i n Hi. destruct i as [ | [ | i]]; simpl in Hi;
    [ | | discriminate]; injection Hi as <-;
    split; simpl; intros j E; try discriminate; injection E as <-; lia.
Qed.

Lemma invariant_1_2_3_100_101 : array_keys_not_in_hash table_1_2_3_100_101.
Proof.
  intros i n x Hi He Hk. destruct i as [ | [ | i]]; simpl in Hi;
    [ | | discriminate]; injection Hi as <-; injection Hk as <-;
    change (array_size table_1_2_3_100_101) with 4; lia.
Qed.

Lemma query_new_table_witness : query reg (Table_new 0 1) (INT 5) = Ok None.
Proof.
  apply (query_new_table reg (λ _ _, true) 0 1 (Table_new 0 1) (INT 5) 5 (INT 5));
    [reflexivity | simpl; lia | reflexivity].
Defined.

Lemma query_sound_witness :
  (∃ i, INT 3 = INT i ∧ wrap64 i < array_size table_1_3 ∧
        array table_1_3 !! Z.to_nat i = Some (Some (any_of 2)))
  ∨ (in_array_part table_1_3 (INT 3) = None ∧
     ∃ j n k', hash table_1_3 !! j = Some n ∧ key n = Some k' ∧
               Key_eqb k' (INT 3) = true ∧ value n = Some (any_of 2)).
Proof. apply (query_sound reg table_1_3 (INT 3) (any_of 2)). reflexivity. Defined.

Lemma erase_then_query_witness :
  ∃ t', erase reg table_1_3 (INT 3) = Ok t' ∧ query reg t' (INT 3) = Ok None.
Proof.
  apply (erase_then_query reg table_1_3 (INT 3) 1 [1%nat; 0%nat]).
  - reflexivity.
  - reflexivity.
  - exact keys_present_1_3.
  - exact chain_1_3.
  - exact proper_chain_1_3.
Defined.

Lemma array_slot_is_a_cell_witness :
  ∃ t', erase reg table_with_holes (INT 1) = Ok t' ∧ query reg t' (INT 1) = Ok None.
Proof.
  refine (proj1 (array_slot_is_a_cell reg table_with_holes 1 sized_with_holes _)).
  change (array_size table_with_holes) with 4. lia.
Defined.

Lemma erase_removes_one_entry_witness :
  ∃ t', erase reg table_1_3 (INT 3) = Ok t' ∧
        array t' = array table_1_3 ∧
        (entries (hash t') ≡ₚ entries (hash table_1_3)
         ∨ ∃ k' v, Key_eqb k' (INT 3) = true ∧
                   entries (hash table_1_3) ≡ₚ (Some k', v) :: entries (hash t')).
Proof.
  eexists. split; [reflexivity | ].
  apply (erase_removes_one_entry reg table_1_3 (INT 3)); reflexivity.
Defined.

Lemma get_free_pos_contract_witness :
  ∃ t1, get_free_pos table_16_32_48 = Ok (Some 5%nat, t1) ∧
        hash_sim (hash t1) (hash table_16_32_48) ∧ same_frame t1 table_16_32_48 ∧
        (last_free t1 ≤ last_free table_16_32_48)%nat ∧
        ∃ n, hash t1 !! 5%nat = Some n ∧ node_empty n = true.
Proof.
  eexists. split; [reflexivity | ].
  apply (get_free_pos_contract table_16_32_48 (Some 5%nat)). reflexivity.
Defined.

Lemma erased_slot_is_reused_witness :
  ∃ t', erase reg table_1_3 (INT 3) = Ok t' ∧
        (t' = table_1_3
         ∨ ∃ i, vacancy_head t' = Some i ∧ get_free_pos t' = Ok (Some i, t')).
Proof.
  eexists. split; [reflexivity | ].
  apply (erased_slot_is_reused reg table_1_3 (INT 3)); reflexivity.
Defined.

Lemma insert_recursion_depth_witness :
  insert reg 5 table_16_32 (INT 48) (any_of 3)
  = insert reg 2 table_16_32 (INT 48) (any_of 3).
Proof.
  apply (insert_recursion_depth reg 5 table_16_32 (INT 48) (any_of 3) sized_16_32).
  lia.
Defined.

Lemma insert_outcome_witness :
  sound_outcome (insert reg 2 table_16_32 (INT 48) (any_of 3)).
Proof.
  apply (insert_outcome reg 2 table_16_32 (INT 48) (any_of 3)
           register_hashes_registered_only sized_16_32).
  lia.
Defined.

Lemma keys_are_never_missing_witness :
  keys_present (hash (Table_new 0 1)) ∧
  (∀ fuel k v t', insert reg fuel table_1_3 k v = Ok t' → keys_present (hash t')) ∧
  (∀ k t', erase reg table_1_3 k = Ok t' → keys_present (hash t')) ∧
  (∀ k x k', Key_hash reg k = Ok (x, k') →
     query reg table_1_3 k ≠ Err NullDeref ∧ erase reg table_1_3 k ≠ Err NullDeref).
Proof. exact (keys_are_never_missing reg table_1_3 0 1 keys_present_1_3). Defined.

Lemma recompute_size_leaves_room_witness :
  ∃ t2, recompute_size reg 1 table_16_32 = Ok t2 ∧
        sized t2 ∧
        (length (hash_live (hash t2)) + 2 ≤ length (hash t2))%nat ∧
        vacancy_head t2 = None ∧
        ∃ free n, get_free_pos t2 = Ok (Some free, set_last_free free t2) ∧
                  hash t2 !! free = Some n ∧ node_empty n = true.
Proof.
  eexists. split; [vm_compute; reflexivity | ].
  apply (recompute_size_leaves_room reg 1 table_16_32 _ sized_16_32).
  vm_compute. reflexivity.
Defined.

Lemma assign_then_query_witness :
  ∃ t', subscript_assign reg 2 table_1_3 (INT 3) any_empty = Some (Ok t') ∧
        query reg t' (INT 3) = Ok None.
Proof.
  eexists. split; [reflexivity | ].
  apply (assign_then_query reg 2 table_1_3 (INT 3) any_empty).
  - reflexivity.
  - exact sized_1_3.
  - simpl. lia.
  - exact keys_present_1_3.
  - intros _ _. exists 1%nat, [1%nat; 0%nat].
    split; [reflexivity | ]. split; [exact chain_1_3 | exact proper_chain_1_3].
  - reflexivity.
Defined.

Lemma links_stay_in_range_witness :
  (∀ room t0 h0, Table_ctor room 0 1 = Some t0 → hash_sim h0 (hash t0) →
     sized (set_hash h0 t0) ∧ links_in_range (set_hash h0 t0)) ∧
  (∀ fuel k v t', insert reg fuel table_1_3 k v = Ok t' →
     sized t' ∧ links_in_range t') ∧
  (∀ k t', erase reg table_1_3 k = Ok t' → sized t' ∧ links_in_range t') ∧
  (∀ k x k', is_int64 k → Key_hash reg k = Ok (x, k') →
     query reg table_1_3 k ≠ Err OutOfBounds ∧
     erase reg table_1_3 k ≠ Err OutOfBounds).
Proof. exact (links_stay_in_range reg table_1_3 0 1 sized_1_3 links_1_3). Defined.

Lemma insert_adds_one_entry_witness :
  ∃ t', insert reg 1 table_16_32_48 (INT 8) (any_of 7) = Ok t' ∧
        entries (hash t') ≡ₚ (Some (INT 8), any_of 7) :: entries (hash table_16_32_48).
Proof.
  eexists. split; [reflexivity | ].
  refine (proj2 (insert_adds_one_entry reg 1 table_16_32_48 (INT 8) (any_of 7) _
                   0%nat (entry 16 1 (Some 6%nat)) eq_refl eq_refl eq_refl eq_refl)
            eq_refl _ _).
  - eexists _, _. reflexivity.
  - intros k0 [= <-]. reflexivity.
Defined.

Lemma recompute_size_keeps_array_entries_witness :
  ∃ t', recompute_size reg 1 table_1_2_3_100_101 = Ok t' ∧
        ∀ x, 0 ≤ x < array_size table_1_2_3_100_101 → x < array_size t' →
             query reg t' (INT x) = query reg table_1_2_3_100_101 (INT x).
Proof.
  eexists. split; [vm_compute; reflexivity | ].
  apply (recompute_size_keeps_array_entries reg 1 table_1_2_3_100_101 _
           sized_1_2_3_100_101 invariant_1_2_3_100_101).
  vm_compute. reflexivity.
Defined.

Lemma sized_16_32_48 : sized table_16_32_48.
Proof. repeat split; simpl; lia. Qed.

Lemma chain_16_32_48 :
  chain_from (hash table_16_32_48) (Some 0%nat) [0%nat; 6%nat; 7%nat].
Proof.
  apply (chain_step _ 0 (entry 16 1 (Some 6%nat))); [reflexivity | ].
  apply (chain_step _ 6 (entry 48 3 (Some 7%nat))); [reflexivity | ].
  apply (chain_step _ 7 (entry 32 2 None)); [reflexivity | ].
  constructor.
Qed.

Lemma nodes_16_32_48 (j : nat) (n : Node) :
  hash table_16_32_48 !! j = Some n →
  (j = 0%nat ∧ n = entry 16 1 (Some 6%nat)) ∨ (j = 6%nat ∧ n = entry 48 3 (Some 7%nat)) ∨
  (j = 7%nat ∧ n = entry 32 2 None) ∨ n = Node_default.
Proof.
  intros Hn. do 8 (destruct j as [ | j]; [injection Hn as <-; auto 6 | ]).
  discriminate.
Qed.

Lemma chain_of_16_32_48 : chain_of reg table_16_32_48 0 [0%nat; 6%nat; 7%nat].
Proof.
  split; [exact chain_16_32_48 | ]. intros i Hi.
  apply elem_of_cons in Hi as [-> | Hi]; [ | apply elem_of_cons in Hi as [-> | Hi]];
    [ | | apply list_elem_of_singleton in Hi as ->].
  - exists (INT 16), (any_of 1). split; [eexists; split; [reflexivity | auto] | reflexivity].
  - exists (INT 48), (any_of 3). split; [eexists; split; [reflexivity | auto] | reflexivity].
  - exists (INT 32), (any_of 2). split; [eexists; split; [reflexivity | auto] | reflexivity].
Qed.

Lemma well_chained_16_32_48 : well_chained reg table_16_32_48.
Proof.
  split; [ | split; [ | split]].
  - intros j n Hn He.
    destruct (nodes_16_32_48 j n Hn) as [(_ & ->) | [(_ & ->) | [(_ & ->) | ->]]];
      try (eexists; reflexivity). discriminate.
  - intros j n Hn He.
    destruct (nodes_16_32_48 j n Hn) as [(_ & ->) | [(_ & ->) | [(_ & ->) | ->]]];
      try discriminate. reflexivity.
  - intros j k v (n & Hn & Ek & Ev).
    assert (Hj : j ∈ [0%nat; 6%nat; 7%nat] ∧ ∃ x, k = INT x ∧ (x = 16 ∨ x = 48 ∨ x = 32)).
    { destruct (nodes_16_32_48 j n Hn) as [(-> & ->) | [(-> & ->) | [(-> & ->) | ->]]];
        try discriminate; injection Ek as <-;
        (split; [repeat (apply elem_of_cons; (left; reflexivity) || right) | eauto 6]). }
    destruct Hj as (Hj & x & -> & Hx). split; [exact I | ].
    exists 0%nat, [0%nat; 6%nat; 7%nat].
    split; [destruct Hx as [-> | [-> | ->]]; reflexivity | ].
    split; [exact chain_of_16_32_48 | exact Hj].
  - intros i j ki kj vi vj (ni & Hni & Eki & _) (nj & Hnj & Ekj & _) Heq.
    destruct (nodes_16_32_48 i ni Hni) as [(-> & ->) | [(-> & ->) | [(-> & ->) | ->]]];
      try discriminate;
      destruct (nodes_16_32_48 j nj Hnj) as [(-> & ->) | [(-> & ->) | [(-> & ->) | ->]]];
      try discriminate; try reflexivity;
      injection Eki as <-; injection Ekj as <-; discriminate.
Qed.

Lemma query_well_chained_witness :
  (∀ v, query reg table_16_32_48 (INT 32) = Ok (Some v) ↔
        ∃ j k0, stores (hash table_16_32_48) j k0 v ∧ Key_eqb k0 (INT 32) = true) ∧
  (query reg table_16_32_48 (INT 32) = Ok None ↔
   ∀ j k0 v, stores (hash table_16_32_48) j k0 v → Key_eqb k0 (INT 32) = false).
Proof.
  destruct repo_types_eq_laws as (_ & Hsym & Htrans).
  apply (query_well_chained reg repo_types_hash_respects_eq
           register_hashes_registered_only Hsym Htrans table_16_32_48 (INT 32) 0).
  - exact well_chained_16_32_48.
  - exact sized_16_32_48.
  - exact I.
  - reflexivity.
  - reflexivity.
Defined.

Lemma erase_well_chained_witness :
  ∃ t', erase reg table_16_32_48 (INT 48) = Ok t' ∧ well_chained reg t' ∧ sized t' ∧
    query reg t' (INT 48) = Ok None ∧
    ∀ k', cache_ok k' → Key_eqb k' (INT 48) = false →
          query reg t' k' = query reg table_16_32_48 k'.
Proof.
  destruct repo_types_eq_laws as (_ & Hsym & Htrans).
  apply (erase_well_chained reg repo_types_hash_respects_eq
           register_hashes_registered_only Hsym Htrans table_16_32_48 (INT 48) 0).
  - exact well_chained_16_32_48.
  - exact sized_16_32_48.
  - exact I.
  - reflexivity.
  - reflexivity.
Defined.

Lemma stored_keys_16_32_48 (j : nat) (k0 : Key) (v0 : Value) :
  stores (hash table_16_32_48) j k0 v0 →
  (j = 0%nat ∧ k0 = INT 16) ∨ (j = 6%nat ∧ k0 = INT 48) ∨ (j = 7%nat ∧ k0 = INT 32).
Proof.
  intros (n & Hn & Ek & Ev).
  destruct (nodes_16_32_48 j n Hn) as [(-> & ->) | [(-> & ->) | [(-> & ->) | ->]]];
    try discriminate; injection Ek as <-; auto.
Qed.

Lemma insert_fresh_well_chained_witness :
  ∃ t', insert reg 1 table_16_32_48 (INT 64) (any_of 4) = Ok t' ∧
    well_chained reg t' ∧ sized t' ∧
    query reg t' (INT 64) = Ok (Some (any_of 4)) ∧
    ∀ k', cache_ok k' → Key_eqb k' (INT 64) = false →
          query reg t' k' = query reg table_16_32_48 k'.
Proof.
  destruct repo_types_eq_laws as (_ & Hsym & Htrans).
  apply (insert_fresh_well_chained reg repo_types_hash_respects_eq
           register_hashes_registered_only Hsym Htrans 0 table_16_32_48 (INT 64) (any_of 4) 0).
  - exact well_chained_16_32_48.
  - exact sized_16_32_48.
  - exact I.
  - reflexivity.
  - reflexivity.
  - reflexivity.
  - intros j k0 v0 Hst.
    destruct (stored_keys_16_32_48 j k0 v0 Hst) as [(_ & ->) | [(_ & ->) | (_ & ->)]];
      reflexivity.
  - intros ks vs Hst.
    destruct (stored_keys_16_32_48 _ ks vs Hst) as [(_ & ->) | [(E & _) | (E & _)]];
      try discriminate.
    split; [reflexivity | ]. eexists _, _. vm_compute. reflexivity.
Defined.

Lemma update_behind_main_leaves_old_value_witness :
  ∃ t', insert reg 1 table_16_32_48 (INT 32) (any_of 9) = Ok t' ∧
    query reg t' (INT 32) = Ok (Some (any_of 9)) ∧
    ∃ t'', erase reg t' (INT 32) = Ok t'' ∧ query reg t'' (INT 32) = Ok (Some (any_of 2)).
Proof.
  destruct repo_types_eq_laws as (_ & Hsym & Htrans).
  apply (update_behind_main_leaves_old_value reg repo_types_hash_respects_eq
           register_hashes_registered_only Hsym Htrans 0 table_16_32_48 (INT 32) (any_of 9)
           0 7 (INT 32) (any_of 2) 5 (set_last_free 5 table_16_32_48)).
  - exact well_chained_16_32_48.
  - exact sized_16_32_48.
  - exact I.
  - reflexivity.
  - reflexivity.
  - reflexivity.
  - eexists. split; [reflexivity | auto].
  - reflexivity.
  - discriminate.
  - reflexivity.
Defined.

(** C10, the code at work: the walk from slot 0 does not end in every
    table that the calls build.  After these nine calls the [next]
    pointers of the hash segment run from slot 0 to 6, 4, 7, 3 and back to
    6.  [insert] with a NaN key then returns, with the entry in slot 2
    between the slots 0 and 6, and neither [query] nor [erase] for the key
    returns. *)
Lemma nan_walk_never_ends :
  ∃ t t',
    run 3 [Insert (INT 160) (any_of 1); Insert (INT 96) (any_of 2);
           Insert (INT 112) (any_of 3); Insert (INT 96) (any_of 4);
           Insert (INT 160) (any_of 5); Insert (INT 102) (any_of 6);
           Insert (INT 101) (any_of 7); Erase (INT 102);
           Insert (INT 112) (any_of 8)] = Ok t ∧
    insert reg 3 t (NUM nan) (any_of 9) = Ok t' ∧
    stored (hash t') (Some (NUM nan)) (any_of 9) ∧
    (∀ l, ¬ chain_from (hash t') (Some 0%nat) l) ∧
    query reg t' (NUM nan) = Err Diverges ∧
    erase reg t' (NUM nan) = Err Diverges.
Proof.
  eexists _, _. split; [vm_compute; reflexivity | ].
  split; [vm_compute; reflexivity | ].
  split; [exists 2%nat; eexists; repeat split | ].
  split; [ | split; vm_compute; reflexivity].
  intros l C. pose proof (chain_from_NoDup _ _ _ C) as Hnd.
  do 7 (let l' := fresh "l" in let n := fresh "n" in let Hn := fresh "Hn" in
        destruct (chain_from_cons _ _ _ C) as (l' & ->);
        apply chain_from_inv in C as (_ & n & Hn & C);
        injection Hn as <-; simpl in C).
  do 2 apply list.NoDup_cons in Hnd as (_ & Hnd).
  apply list.NoDup_cons in Hnd as (Hnd & _). apply Hnd.
  do 3 (apply elem_of_cons; right). apply elem_of_cons. left. reflexivity.
Qed.

End SampleFacts.
